(** * A shallow embedding of the backtesting core

    The TypeScript sources embedded here are
    [lib/types.ts], [lib/strategy-base.ts], [lib/backtest-engine.ts],
    [lib/metrics/performance.ts], [lib/optimizer/grid-search.ts],
    [lib/optimizer/walk-forward.ts] and [lib/monte-carlo.ts].

    Numbers.  A JavaScript [number] is modelled by [num]: the three special
    values NaN, +Infinity and -Infinity are kept, and a finite value is an
    exact rational.  Rounding of finite results and the sign of zero are not
    modelled.  Array indices and loop counters are [nat] or [Z]. *)

From Stdlib Require Import ZArith QArith Qround Qabs Lqa Lia.
From Stdlib Require Import String DecimalString.
From Stdlib Require DecimalNat DecimalFacts.
From Stdlib Require Import Sorted.
From Stdlib Require Import PrimFloat.
From Stdlib Require FloatOps SpecFloat.
From stdpp Require Import base option list gmap strings.

Local Open Scope Z_scope.

(** ** JavaScript numbers *)

Inductive num : Type :=
| Fin (q : Q)
| PInf
| NInf
| NaN.

Definition num_of_Z (z : Z) : num := Fin (inject_Z z).
Definition num_of_nat (n : nat) : num := Fin (inject_Z (Z.of_nat n)).

Declare Scope num_scope.
Delimit Scope num_scope with num.
Bind Scope num_scope with num.

(** Two numbers denote the same value. *)
Definition num_eq (a b : num) : Prop :=
  match a, b with
  | Fin x, Fin y => (x == y)%Q
  | PInf, PInf | NInf, NInf | NaN, NaN => True
  | _, _ => False
  end.

Definition is_finite (a : num) : Prop :=
  match a with Fin _ => True | _ => False end.

Definition isNaN (a : num) : bool :=
  match a with NaN => true | _ => false end.

Definition isFinite (a : num) : bool :=
  match a with Fin _ => true | _ => false end.

(** The infinity whose sign is the sign of [c] (NaN for a zero). *)
Definition signed_inf (c : comparison) : num :=
  match c with Gt => PInf | Lt => NInf | Eq => NaN end.

Definition nneg (a : num) : num :=
  match a with
  | Fin x => Fin (- x)
  | PInf => NInf
  | NInf => PInf
  | NaN => NaN
  end.

Definition nadd (a b : num) : num :=
  match a, b with
  | NaN, _ | _, NaN => NaN
  | Fin x, Fin y => Fin (x + y)
  | PInf, NInf | NInf, PInf => NaN
  | PInf, _ | _, PInf => PInf
  | NInf, _ | _, NInf => NInf
  end.

Definition nsub (a b : num) : num :=
  match a, b with
  | NaN, _ | _, NaN => NaN
  | Fin x, Fin y => Fin (x - y)
  | PInf, PInf | NInf, NInf => NaN
  | PInf, _ | _, NInf => PInf
  | NInf, _ | _, PInf => NInf
  end.

Definition nmul (a b : num) : num :=
  match a, b with
  | NaN, _ | _, NaN => NaN
  | Fin x, Fin y => Fin (x * y)
  | Fin x, PInf | PInf, Fin x => signed_inf (x ?= 0)%Q
  | Fin x, NInf | NInf, Fin x => signed_inf (CompOpp (x ?= 0)%Q)
  | PInf, PInf | NInf, NInf => PInf
  | PInf, NInf | NInf, PInf => NInf
  end.

Definition ndiv (a b : num) : num :=
  match a, b with
  | NaN, _ | _, NaN => NaN
  | Fin x, Fin y =>
      if Qeq_bool y 0 then signed_inf (x ?= 0)%Q else Fin (x / y)
  | Fin _, _ => Fin 0
  | PInf, Fin y => if Qle_bool 0 y then PInf else NInf
  | NInf, Fin y => if Qle_bool 0 y then NInf else PInf
  | _, _ => NaN
  end.

(** Comparison; [None] when an operand is NaN (every test is then false). *)
Definition ncompare (a b : num) : option comparison :=
  match a, b with
  | NaN, _ | _, NaN => None
  | Fin x, Fin y => Some (x ?= y)%Q
  | PInf, PInf | NInf, NInf => Some Eq
  | PInf, _ | _, NInf => Some Gt
  | NInf, _ | _, PInf => Some Lt
  end.

Definition nltb (a b : num) : bool :=
  match ncompare a b with Some Lt => true | _ => false end.
Definition nleb (a b : num) : bool :=
  match ncompare a b with Some Lt | Some Eq => true | _ => false end.
Definition ngtb (a b : num) : bool := nltb b a.
Definition ngeb (a b : num) : bool := nleb b a.
(** [a === b] and [a !== b] on numbers. *)
Definition neqb (a b : num) : bool :=
  match ncompare a b with Some Eq => true | _ => false end.
Definition nneqb (a b : num) : bool := negb (neqb a b).

Infix "+" := nadd : num_scope.
Infix "-" := nsub : num_scope.
Infix "*" := nmul : num_scope.
Infix "/" := ndiv : num_scope.
Infix "<?" := nltb : num_scope.
Infix "<=?" := nleb : num_scope.
Infix ">?" := ngtb : num_scope.
Infix ">=?" := ngeb : num_scope.

(** [Math.min], [Math.max], [Math.abs], [Math.floor], [Math.round]. *)
Definition Math_min (a b : num) : num :=
  match ncompare a b with
  | None => NaN
  | Some Gt => b
  | Some _ => a
  end.

Definition Math_max (a b : num) : num :=
  match ncompare a b with
  | None => NaN
  | Some Lt => b
  | Some _ => a
  end.

Definition Math_abs (a : num) : num :=
  match a with
  | Fin x => Fin (Qabs x)
  | PInf | NInf => PInf
  | NaN => NaN
  end.

Definition Math_floor (a : num) : num :=
  match a with
  | Fin x => Fin (inject_Z (Qfloor x))
  | _ => a
  end.

Definition Math_round (a : num) : num :=
  match a with
  | Fin x => Fin (inject_Z (Qfloor (x + (1 # 2))))
  | _ => a
  end.

(** Truthiness of a number: [0] and NaN are falsy. *)
Definition truthy (a : num) : bool :=
  match a with
  | Fin x => negb (Qeq_bool x 0)
  | NaN => false
  | _ => true
  end.

(** Truthiness of an optional number field: [undefined] is falsy. *)
Definition truthy_opt (o : option num) : bool :=
  match o with
  | Some a => truthy a
  | None => false
  end.

(** A value read from an optional field and used in arithmetic:
    [undefined] converts to NaN. *)
Definition to_num (o : option num) : num :=
  match o with Some a => a | None => NaN end.

Notation "0" := (Fin 0%Q) : num_scope.
Notation "1" := (Fin 1%Q) : num_scope.
Notation "2" := (Fin 2%Q) : num_scope.
Notation "100" := (Fin 100%Q) : num_scope.

(** ** Data model ([lib/types.ts]) *)

Module Candle.
Record t : Type := mk {
  timestamp : num;
  open : num;
  high : num;
  low : num;
  close : num;
  volume : option num;
}.
End Candle.
Abbreviation Candle := Candle.t.

Inductive TradeDirection : Type := long | short.

(** [number | null] fields are [option num] with [None] for [null];
    optional fields ([stopLoss?]) are [option num] with [None] for
    [undefined]. *)
Module Trade.
Record t : Type := mk {
  id : string;
  entryTime : num;
  exitTime : option num;
  entryPrice : num;
  exitPrice : option num;
  direction : TradeDirection;
  size : num;
  pnl : option num;
  pnlPercent : option num;
  stopLoss : option num;
  takeProfit : option num;
  commission : num;
}.
End Trade.
Abbreviation Trade := Trade.t.

Module Position.
Record t : Type := mk {
  id : string;
  direction : TradeDirection;
  entryTime : num;
  entryPrice : num;
  size : num;
  stopLoss : option num;
  takeProfit : option num;
}.
End Position.
Abbreviation Position := Position.t.

Inductive SignalType : Type := buy | sell | close.

Module Signal.
Record t : Type := mk {
  type : SignalType;
  price : option num;
  size : option num;
  stopLoss : option num;
  takeProfit : option num;
  reason : option string;
}.
End Signal.
Abbreviation Signal := Signal.t.

(** A strategy parameter value: [number | string | boolean]. *)
Inductive param : Type :=
| PNum (x : num)
| PStr (s : string)
| PBool (b : bool).

Abbreviation StrategyParams := (gmap string param).

Module BacktestConfig.
Record t : Type := mk {
  initialCapital : num;
  commission : num;
  slippage : num;
  leverage : num;
  maxPositionSize : num;
}.
End BacktestConfig.
Abbreviation BacktestConfig := BacktestConfig.t.

Definition DEFAULT_BACKTEST_CONFIG : BacktestConfig :=
  {| BacktestConfig.initialCapital := Fin 10000;
     BacktestConfig.commission := Fin (1 # 10000);
     BacktestConfig.slippage := Fin (1 # 10);
     BacktestConfig.leverage := Fin 100;
     BacktestConfig.maxPositionSize := Fin (1 # 10) |}.

Module EquityPoint.
Record t : Type := mk {
  timestamp : num;
  equity : num;
}.
End EquityPoint.
Abbreviation EquityPoint := EquityPoint.t.

Module PerformanceMetrics.
Record t : Type := mk {
  totalReturn : num;
  totalReturnPercent : num;
  cagr : num;
  sharpeRatio : num;
  sortinoRatio : num;
  maxDrawdown : num;
  maxDrawdownPercent : num;
  calmarRatio : num;
  winRate : num;
  profitFactor : num;
  totalTrades : nat;
  winningTrades : nat;
  losingTrades : nat;
  averageWin : num;
  averageLoss : num;
  averageTradeDuration : num;
  largestWin : num;
  largestLoss : num;
  consecutiveWins : nat;
  consecutiveLosses : nat;
  expectancy : num;
}.
End PerformanceMetrics.
Abbreviation PerformanceMetrics := PerformanceMetrics.t.

Module BacktestResult.
Record t : Type := mk {
  strategy : string;
  params : StrategyParams;
  config : BacktestConfig;
  trades : list Trade;
  equityCurve : list EquityPoint;
  metrics : PerformanceMetrics;
  startDate : num;
  endDate : num;
  candleCount : nat;
}.
End BacktestResult.
Abbreviation BacktestResult := BacktestResult.t.

Module OptimizationRange.
Record t : Type := mk {
  min : num;
  max : num;
  step : num;
}.
End OptimizationRange.
Abbreviation OptimizationRange := OptimizationRange.t.

(** [keyof PerformanceMetrics]. *)
Inductive MetricKey : Type :=
| KtotalReturn | KtotalReturnPercent | Kcagr | KsharpeRatio | KsortinoRatio
| KmaxDrawdown | KmaxDrawdownPercent | KcalmarRatio | KwinRate
| KprofitFactor | KtotalTrades | KwinningTrades | KlosingTrades
| KaverageWin | KaverageLoss | KaverageTradeDuration | KlargestWin
| KlargestLoss | KconsecutiveWins | KconsecutiveLosses | Kexpectancy.

(** [paramRanges] is a JavaScript object; it is kept as the list of its
    entries in the order [Object.keys] and [Object.values] enumerate them. *)
Module OptimizationConfig.
Record t : Type := mk {
  paramRanges : list (string * OptimizationRange);
  metric : MetricKey;
  maximize : bool;
}.
End OptimizationConfig.
Abbreviation OptimizationConfig := OptimizationConfig.t.

(** ** Library functions that are not rational

    [Math.sqrt] and [Math.pow] are taken as an interface: the metrics that
    use them (CAGR, Sharpe, Sortino, Calmar) are carried along unevaluated. *)

Class JSMath : Type := {
  Math_sqrt : num → num;
  Math_pow : num → num → num;
}.

(** [arr.reduce((a, b) => a + b, 0)], [Math.max(...arr)], [Math.min(...arr)]. *)
Definition sum_list (l : list num) : num := fold_left nadd l 0%num.
Definition Math_max_list (l : list num) : num := fold_left Math_max l NInf.
Definition Math_min_list (l : list num) : num := fold_left Math_min l PInf.

(** [arr[arr.length - 1]]. *)
Definition last_opt {A : Type} (l : list A) : option A := List.last (map Some l) None.

(** ** Performance metrics ([lib/metrics/performance.ts]) *)

Section Metrics.
Context {math : JSMath}.

Definition getEmptyMetrics : PerformanceMetrics :=
  {| PerformanceMetrics.totalReturn := 0;
     PerformanceMetrics.totalReturnPercent := 0;
     PerformanceMetrics.cagr := 0;
     PerformanceMetrics.sharpeRatio := 0;
     PerformanceMetrics.sortinoRatio := 0;
     PerformanceMetrics.maxDrawdown := 0;
     PerformanceMetrics.maxDrawdownPercent := 0;
     PerformanceMetrics.calmarRatio := 0;
     PerformanceMetrics.winRate := 0;
     PerformanceMetrics.profitFactor := 0;
     PerformanceMetrics.totalTrades := 0;
     PerformanceMetrics.winningTrades := 0;
     PerformanceMetrics.losingTrades := 0;
     PerformanceMetrics.averageWin := 0;
     PerformanceMetrics.averageLoss := 0;
     PerformanceMetrics.averageTradeDuration := 0;
     PerformanceMetrics.largestWin := 0;
     PerformanceMetrics.largestLoss := 0;
     PerformanceMetrics.consecutiveWins := 0;
     PerformanceMetrics.consecutiveLosses := 0;
     PerformanceMetrics.expectancy := 0 |}.

(** [t.pnl ?? 0] *)
Definition pnl_or_0 (t : Trade) : num := default 0%num (Trade.pnl t).

Definition is_completed (t : Trade) : bool :=
  match Trade.pnl t with Some _ => true | None => false end.

Definition is_win (t : Trade) : bool := (pnl_or_0 t >? 0)%num.
Definition is_loss (t : Trade) : bool := (pnl_or_0 t <? 0)%num.

Definition sum_pnl (ts : list Trade) : num :=
  fold_left (fun acc t => (acc + pnl_or_0 t)%num) ts 0%num.

Definition calculateConsecutive (trades : list Trade) : nat * nat :=
  let step (st : nat * nat * nat * nat) (trade : Trade) :=
    let '(maxConsecutiveWins, maxConsecutiveLosses, currentWins, currentLosses) := st in
    if (pnl_or_0 trade >? 0)%num then
      let currentWins := S currentWins in
      (Nat.max maxConsecutiveWins currentWins, maxConsecutiveLosses, currentWins, O)
    else if (pnl_or_0 trade <? 0)%num then
      let currentLosses := S currentLosses in
      (maxConsecutiveWins, Nat.max maxConsecutiveLosses currentLosses, O, currentLosses)
    else st in
  let '(w, l, _, _) := fold_left step trades (O, O, O, O) in
  (w, l).

Definition calculateDrawdown (equityCurve : list EquityPoint) (initialCapital : num)
  : num * num :=
  match equityCurve with
  | [] => (0%num, 0%num)
  | _ =>
    let step (st : num * num * num) (point : EquityPoint) :=
      let '(peak, maxDrawdown, maxDrawdownPercent) := st in
      let peak := Math_max peak (EquityPoint.equity point) in
      let drawdown := (peak - EquityPoint.equity point)%num in
      let drawdownPercent := (drawdown / peak * 100)%num in
      if (drawdown >? maxDrawdown)%num
      then (peak, drawdown, drawdownPercent)
      else (peak, maxDrawdown, maxDrawdownPercent) in
    let '(_, dd, ddp) := fold_left step equityCurve (initialCapital, 0%num, 0%num) in
    (dd, ddp)
  end.

Fixpoint calculateReturns (equityCurve : list EquityPoint) : list num :=
  match equityCurve with
  | prev :: (cur :: _) as rest =>
      let prevEquity := EquityPoint.equity prev in
      let currentEquity := EquityPoint.equity cur in
      if (prevEquity >? 0)%num
      then ((currentEquity - prevEquity) / prevEquity)%num :: calculateReturns rest
      else calculateReturns rest
  | _ => []
  end.

Definition calculateSharpeRatio (returns : list num) (annualizedReturn : num) : num :=
  if (length returns <? 2)%nat then 0%num else
  let mean := (sum_list returns / num_of_nat (length returns))%num in
  let variance :=
    (fold_left (fun s r => (s + Math_pow (r - mean) 2)%num) returns 0 /
     num_of_nat (length returns))%num in
  let stdDev := Math_sqrt variance in
  let annualizedStdDev := (stdDev * Math_sqrt (Fin 525600))%num in
  if neqb annualizedStdDev 0 then 0%num else
  let riskFreeRate := 2%num in
  ((annualizedReturn - riskFreeRate) / annualizedStdDev)%num.

Definition calculateSortinoRatio (returns : list num) (annualizedReturn : num) : num :=
  if (length returns <? 2)%nat then 0%num else
  let negativeReturns := List.filter (fun r => (r <? 0)%num) returns in
  match negativeReturns with
  | [] => if (annualizedReturn >? 0)%num then PInf else 0%num
  | _ =>
    let downsideVariance :=
      (fold_left (fun s r => (s + r * r)%num) negativeReturns 0 /
       num_of_nat (length returns))%num in
    let downsideDeviation := Math_sqrt downsideVariance in
    let annualizedDownside := (downsideDeviation * Math_sqrt (Fin 525600))%num in
    if neqb annualizedDownside 0 then 0%num else
    let riskFreeRate := 2%num in
    ((annualizedReturn - riskFreeRate) / annualizedDownside)%num
  end.

Definition calculateMetrics
    (trades : list Trade) (equityCurve : list EquityPoint)
    (initialCapital startDate endDate : num) : PerformanceMetrics :=
  let completedTrades := List.filter is_completed trades in
  match completedTrades with
  | [] => getEmptyMetrics
  | _ =>
    let finalEquity :=
      match last_opt equityCurve with
      | Some p => EquityPoint.equity p
      | None => initialCapital
      end in
    let totalReturn := (finalEquity - initialCapital)%num in
    let totalReturnPercent := (totalReturn / initialCapital * 100)%num in
    let tradingDays := ((endDate - startDate) / Fin 86400000)%num in
    let years := (tradingDays / Fin 365)%num in
    let cagr :=
      if (years >? 0)%num
      then ((Math_pow (finalEquity / initialCapital) (1 / years) - 1) * 100)%num
      else 0%num in
    let winningTrades := List.filter is_win completedTrades in
    let losingTrades := List.filter is_loss completedTrades in
    let totalWins := sum_pnl winningTrades in
    let totalLosses := Math_abs (sum_pnl losingTrades) in
    let winRate :=
      (num_of_nat (length winningTrades) / num_of_nat (length completedTrades) * 100)%num in
    let profitFactor :=
      if (totalLosses >? 0)%num then (totalWins / totalLosses)%num
      else if (totalWins >? 0)%num then PInf else 0%num in
    let averageWin :=
      if (0 <? length winningTrades)%nat
      then (totalWins / num_of_nat (length winningTrades))%num else 0%num in
    let averageLoss :=
      if (0 <? length losingTrades)%nat
      then (totalLosses / num_of_nat (length losingTrades))%num else 0%num in
    let largestWin :=
      if (0 <? length winningTrades)%nat
      then Math_max_list (map pnl_or_0 winningTrades) else 0%num in
    let largestLoss :=
      if (0 <? length losingTrades)%nat
      then Math_abs (Math_min_list (map pnl_or_0 losingTrades)) else 0%num in
    let '(maxConsecutiveWins, maxConsecutiveLosses) :=
      calculateConsecutive completedTrades in
    let '(maxDrawdown, maxDrawdownPercent) :=
      calculateDrawdown equityCurve initialCapital in
    let returns := calculateReturns equityCurve in
    let sharpeRatio := calculateSharpeRatio returns cagr in
    let sortinoRatio := calculateSortinoRatio returns cagr in
    let calmarRatio :=
      if (maxDrawdownPercent >? 0)%num then (cagr / maxDrawdownPercent)%num else 0%num in
    let tradeDurations :=
      omap (fun t =>
              match Trade.exitTime t with
              | Some x => Some ((x - Trade.entryTime t) / Fin 60000)%num
              | None => None
              end) completedTrades in
    let averageTradeDuration :=
      if (0 <? length tradeDurations)%nat
      then (sum_list tradeDurations / num_of_nat (length tradeDurations))%num else 0%num in
    let expectancy :=
      if (0 <? length completedTrades)%nat
      then (totalReturn / num_of_nat (length completedTrades))%num else 0%num in
    {| PerformanceMetrics.totalReturn := totalReturn;
       PerformanceMetrics.totalReturnPercent := totalReturnPercent;
       PerformanceMetrics.cagr := cagr;
       PerformanceMetrics.sharpeRatio := sharpeRatio;
       PerformanceMetrics.sortinoRatio := sortinoRatio;
       PerformanceMetrics.maxDrawdown := maxDrawdown;
       PerformanceMetrics.maxDrawdownPercent := maxDrawdownPercent;
       PerformanceMetrics.calmarRatio := calmarRatio;
       PerformanceMetrics.winRate := winRate;
       PerformanceMetrics.profitFactor := profitFactor;
       PerformanceMetrics.totalTrades := length completedTrades;
       PerformanceMetrics.winningTrades := length winningTrades;
       PerformanceMetrics.losingTrades := length losingTrades;
       PerformanceMetrics.averageWin := averageWin;
       PerformanceMetrics.averageLoss := averageLoss;
       PerformanceMetrics.averageTradeDuration := averageTradeDuration;
       PerformanceMetrics.largestWin := largestWin;
       PerformanceMetrics.largestLoss := largestLoss;
       PerformanceMetrics.consecutiveWins := maxConsecutiveWins;
       PerformanceMetrics.consecutiveLosses := maxConsecutiveLosses;
       PerformanceMetrics.expectancy := expectancy |}
  end.
End Metrics.

(** ** Strategy contract ([lib/strategy-base.ts])

    A strategy instance is its logic together with the current value
    [self] of its own fields.  The engine hands the strategy the candle
    history, the configuration and the open position to read; a strategy
    changes only its own fields. *)

Module Strategy.
Record t : Type := mk {
  state : Type;
  self : state;
  name : string;
  params : StrategyParams;
  init : list Candle → BacktestConfig → state → state;
  onCandle : nat → list Candle → option Position → state → option Signal * state;
  onComplete : list Trade → state → state;
}.

(** The same instance after its fields changed to [s]. *)
Definition with_self (S : t) (s : state S) : t :=
  {| state := state S; self := s; name := name S; params := params S;
     init := init S; onCandle := onCandle S; onComplete := onComplete S |}.
End Strategy.
Abbreviation Strategy := Strategy.t.

(** ** Backtest engine ([lib/backtest-engine.ts]) *)

Module Engine.
Record t : Type := mk {
  config : BacktestConfig;
  candles : list Candle;
  currentIndex : nat;
  position : option Position;
  trades : list Trade;
  equity : num;
  equityCurve : list EquityPoint;
  tradeIdCounter : nat;
}.
End Engine.
Abbreviation BacktestEngine := Engine.t.

(** [`pos-${n}`] *)
Definition pos_id (n : nat) : string :=
  String.append "pos-" (NilZero.string_of_uint (Nat.to_uint n)).

(** [s || d] on an optional string: the empty string is falsy. *)
Definition string_or (s : option string) (d : string) : string :=
  match s with
  | Some EmptyString | None => d
  | Some r => r
  end.

Section Engine.
Context {math : JSMath}.

(** [new BacktestEngine(config)] with [config] already merged over the
    defaults. *)
Definition new_BacktestEngine (config : BacktestConfig) : BacktestEngine :=
  {| Engine.config := config;
     Engine.candles := [];
     Engine.currentIndex := 0;
     Engine.position := None;
     Engine.trades := [];
     Engine.equity := BacktestConfig.initialCapital config;
     Engine.equityCurve := [];
     Engine.tradeIdCounter := 0 |}.

Definition getHistoricalCandles (e : BacktestEngine) : list Candle :=
  take (S (Engine.currentIndex e)) (Engine.candles e).

Definition openPosition (direction : TradeDirection) (candle : Candle)
    (signal : Signal) (e : BacktestEngine) : BacktestEngine :=
  let cfg := Engine.config e in
  let maxSize :=
    (Engine.equity e * BacktestConfig.maxPositionSize cfg * BacktestConfig.leverage cfg)%num in
  let size :=
    if truthy_opt (Signal.size signal)
    then Math_min (to_num (Signal.size signal)) maxSize
    else maxSize in
  let slippage := (BacktestConfig.slippage cfg * Fin (1 # 100))%num in
  let entryPrice :=
    match direction with
    | long => (Candle.close candle + slippage)%num
    | short => (Candle.close candle - slippage)%num
    end in
  let counter := S (Engine.tradeIdCounter e) in
  {| Engine.config := cfg;
     Engine.candles := Engine.candles e;
     Engine.currentIndex := Engine.currentIndex e;
     Engine.position :=
       Some {| Position.id := pos_id counter;
               Position.direction := direction;
               Position.entryTime := Candle.timestamp candle;
               Position.entryPrice := entryPrice;
               Position.size := size;
               Position.stopLoss := Signal.stopLoss signal;
               Position.takeProfit := Signal.takeProfit signal |};
     Engine.trades := Engine.trades e;
     Engine.equity := Engine.equity e;
     Engine.equityCurve := Engine.equityCurve e;
     Engine.tradeIdCounter := counter |}.

(** The trade record [closePosition] builds for the open position [p]. *)
Definition trade_of (cfg : BacktestConfig) (p : Position) (exitPrice exitTime : num)
  : Trade :=
  let slippage := (BacktestConfig.slippage cfg * Fin (1 # 100))%num in
  let adjustedExitPrice :=
    match Position.direction p with
    | long => (exitPrice - slippage)%num
    | short => (exitPrice + slippage)%num
    end in
  let priceDiff :=
    match Position.direction p with
    | long => (adjustedExitPrice - Position.entryPrice p)%num
    | short => (Position.entryPrice p - adjustedExitPrice)%num
    end in
  let grossPnl := (priceDiff * (Position.size p / Position.entryPrice p))%num in
  let commission := (Position.size p * BacktestConfig.commission cfg * 2)%num in
  let netPnl := (grossPnl - commission)%num in
  let pnlPercent := (netPnl / BacktestConfig.initialCapital cfg * 100)%num in
  {| Trade.id := Position.id p;
     Trade.entryTime := Position.entryTime p;
     Trade.exitTime := Some exitTime;
     Trade.entryPrice := Position.entryPrice p;
     Trade.exitPrice := Some adjustedExitPrice;
     Trade.direction := Position.direction p;
     Trade.size := Position.size p;
     Trade.pnl := Some netPnl;
     Trade.pnlPercent := Some pnlPercent;
     Trade.stopLoss := Position.stopLoss p;
     Trade.takeProfit := Position.takeProfit p;
     Trade.commission := commission |}.

(** The [reason] argument is received and not used: [Trade] has no field
    for it. *)
Definition closePosition (exitPrice exitTime : num) (reason : option string)
    (e : BacktestEngine) : BacktestEngine :=
  match Engine.position e with
  | None => e
  | Some p =>
    let trade := trade_of (Engine.config e) p exitPrice exitTime in
    {| Engine.config := Engine.config e;
       Engine.candles := Engine.candles e;
       Engine.currentIndex := Engine.currentIndex e;
       Engine.position := None;
       Engine.trades := Engine.trades e ++ [trade];
       Engine.equity := (Engine.equity e + to_num (Trade.pnl trade))%num;
       Engine.equityCurve := Engine.equityCurve e;
       Engine.tradeIdCounter := Engine.tradeIdCounter e |}
  end.

Definition checkExitConditions (candle : Candle) (e : BacktestEngine)
  : BacktestEngine :=
  match Engine.position e with
  | None => e
  | Some p =>
    let stopLoss := Position.stopLoss p in
    let takeProfit := Position.takeProfit p in
    match Position.direction p with
    | long =>
      if truthy_opt stopLoss && (Candle.low candle <=? to_num stopLoss)%num then
        closePosition (to_num stopLoss) (Candle.timestamp candle) (Some "Stop loss hit") e
      else if truthy_opt takeProfit && (Candle.high candle >=? to_num takeProfit)%num then
        closePosition (to_num takeProfit) (Candle.timestamp candle) (Some "Take profit hit") e
      else e
    | short =>
      if truthy_opt stopLoss && (Candle.high candle >=? to_num stopLoss)%num then
        closePosition (to_num stopLoss) (Candle.timestamp candle) (Some "Stop loss hit") e
      else if truthy_opt takeProfit && (Candle.low candle <=? to_num takeProfit)%num then
        closePosition (to_num takeProfit) (Candle.timestamp candle) (Some "Take profit hit") e
      else e
    end
  end.

Definition has_direction (d : TradeDirection) (o : option Position) : bool :=
  match o, d with
  | Some p, long => match Position.direction p with long => true | short => false end
  | Some p, short => match Position.direction p with short => true | long => false end
  | None, _ => false
  end.

Definition executeSignal (signal : Signal) (candle : Candle) (e : BacktestEngine)
  : BacktestEngine :=
  match Signal.type signal with
  | buy =>
    let e1 :=
      if has_direction short (Engine.position e)
      then closePosition (Candle.close candle) (Candle.timestamp candle)
             (Some "Reverse to long") e
      else e in
    match Engine.position e1 with
    | None => openPosition long candle signal e1
    | Some _ => e1
    end
  | sell =>
    let e1 :=
      if has_direction long (Engine.position e)
      then closePosition (Candle.close candle) (Candle.timestamp candle)
             (Some "Reverse to short") e
      else e in
    match Engine.position e1 with
    | None => openPosition short candle signal e1
    | Some _ => e1
    end
  | close =>
    match Engine.position e with
    | Some _ =>
      closePosition (Candle.close candle) (Candle.timestamp candle)
        (Some (string_or (Signal.reason signal) "Signal close")) e
    | None => e
    end
  end.

Definition updateEquityCurve (candle : Candle) (e : BacktestEngine) : BacktestEngine :=
  let currentEquity :=
    match Engine.position e with
    | Some p =>
      let priceDiff :=
        match Position.direction p with
        | long => (Candle.close candle - Position.entryPrice p)%num
        | short => (Position.entryPrice p - Candle.close candle)%num
        end in
      let unrealizedPnl := (priceDiff * (Position.size p / Position.entryPrice p))%num in
      (Engine.equity e + unrealizedPnl)%num
    | None => Engine.equity e
    end in
  {| Engine.config := Engine.config e;
     Engine.candles := Engine.candles e;
     Engine.currentIndex := Engine.currentIndex e;
     Engine.position := Engine.position e;
     Engine.trades := Engine.trades e;
     Engine.equity := Engine.equity e;
     Engine.equityCurve :=
       Engine.equityCurve e ++
       [{| EquityPoint.timestamp := Candle.timestamp candle;
           EquityPoint.equity := currentEquity |}];
     Engine.tradeIdCounter := Engine.tradeIdCounter e |}.

Definition set_currentIndex (i : nat) (e : BacktestEngine) : BacktestEngine :=
  {| Engine.config := Engine.config e;
     Engine.candles := Engine.candles e;
     Engine.currentIndex := i;
     Engine.position := Engine.position e;
     Engine.trades := Engine.trades e;
     Engine.equity := Engine.equity e;
     Engine.equityCurve := Engine.equityCurve e;
     Engine.tradeIdCounter := Engine.tradeIdCounter e |}.

(** The state [run] sets up before the first candle. *)
Definition reset (candles : list Candle) (e : BacktestEngine) : BacktestEngine :=
  {| Engine.config := Engine.config e;
     Engine.candles := candles;
     Engine.currentIndex := 0;
     Engine.position := None;
     Engine.trades := [];
     Engine.equity := BacktestConfig.initialCapital (Engine.config e);
     Engine.equityCurve := [];
     Engine.tradeIdCounter := 0 |}.

(** One turn of the loop of [run], for the candle at [currentIndex]. *)
Definition process_candle (strat : Strategy) (candle : Candle) (e : BacktestEngine)
    (s : Strategy.state strat) : BacktestEngine * Strategy.state strat :=
  let e1 := checkExitConditions candle e in
  let '(signal, s1) :=
    Strategy.onCandle strat (Engine.currentIndex e1) (getHistoricalCandles e1)
      (Engine.position e1) s in
  let e2 :=
    match signal with
    | Some sg => executeSignal sg candle e1
    | None => e1
    end in
  (updateEquityCurve candle e2, s1).

(** The [for] loop of [run]; [n] bounds the turns left and is started at
    [candles.length]. *)
Fixpoint run_loop (strat : Strategy) (n : nat) (e : BacktestEngine) (s : Strategy.state strat)
  : BacktestEngine * Strategy.state strat :=
  match n with
  | O => (e, s)
  | S n' =>
    match Engine.candles e !! Engine.currentIndex e with
    | None => (e, s)
    | Some candle =>
      let '(e1, s1) := process_candle strat candle e s in
      run_loop strat n' (set_currentIndex (S (Engine.currentIndex e1)) e1) s1
    end
  end.

(** [run]: [None] is the thrown [Error('No candle data provided')].
    The result comes with the engine and the strategy instance as the
    call leaves them. *)
Definition run (candles : list Candle) (strat : Strategy) (e : BacktestEngine)
  : option (BacktestResult * BacktestEngine * Strategy) :=
  match candles, last_opt candles with
  | first :: _, Some lastCandle =>
    let e0 := reset candles e in
    let s0 := Strategy.init strat (Engine.candles e0) (Engine.config e0) (Strategy.self strat) in
    let '(e1, s1) := run_loop strat (length (Engine.candles e0)) e0 s0 in
    let e2 :=
      match Engine.position e1 with
      | Some _ =>
        closePosition (Candle.close lastCandle) (Candle.timestamp lastCandle)
          (Some "End of backtest") e1
      | None => e1
      end in
    let s2 := Strategy.onComplete strat (Engine.trades e2) s1 in
    let metrics :=
      calculateMetrics (Engine.trades e2) (Engine.equityCurve e2)
        (BacktestConfig.initialCapital (Engine.config e2))
        (Candle.timestamp first) (Candle.timestamp lastCandle) in
    Some ({| BacktestResult.strategy := Strategy.name strat;
             BacktestResult.params := Strategy.params strat;
             BacktestResult.config := Engine.config e2;
             BacktestResult.trades := Engine.trades e2;
             BacktestResult.equityCurve := Engine.equityCurve e2;
             BacktestResult.metrics := metrics;
             BacktestResult.startDate := Candle.timestamp first;
             BacktestResult.endDate := Candle.timestamp lastCandle;
             BacktestResult.candleCount := length candles |},
          e2, Strategy.with_self strat s2)
  | _, _ => None
  end.

(** [runBacktest] *)
Definition runBacktest (candles : list Candle) (strat : Strategy) (config : BacktestConfig)
  : option (BacktestResult * BacktestEngine * Strategy) :=
  run candles strat (new_BacktestEngine config).
End Engine.

(** ** Technical indicators ([lib/strategy-base.ts])

    The lookback [period] is an integer.  [data[k]] outside the array is
    [undefined], which is NaN once it enters a sum. *)

Definition at_index (data : list num) (k : Z) : num :=
  if k <? 0 then NaN else default NaN (data !! Z.to_nat k).

(** [for (let j = 0; j < period; j++) sum += data[i - j]] *)
Definition window_sum (data : list num) (i : Z) (period : Z) : num :=
  fold_left (fun sum j => (sum + at_index data (i - Z.of_nat j))%num)
    (seq 0 (Z.to_nat period)) 0%num.

Definition sma (data : list num) (period : Z) : list num :=
  (fun n =>
     let i := Z.of_nat n in
     if i <? period - 1 then NaN
     else (window_sum data i period / num_of_Z period)%num)
  <$> seq 0 (length data).

(** [for (let j = 0; j <= i; j++) sum += data[j]] *)
Definition prefix_sum (data : list num) (i : Z) : num :=
  fold_left (fun sum j => (sum + at_index data (Z.of_nat j))%num)
    (seq 0 (Z.to_nat (i + 1))) 0%num.

(** One turn of the loop of [ema], for the index [n]. *)
Definition ema_step (data : list num) (period : Z) (multiplier : num)
    (result : list num) (n : nat) : list num :=
  let i := Z.of_nat n in
  if i =? 0 then result ++ [at_index data 0]
  else if i <? period - 1 then
    result ++ [(prefix_sum data i / num_of_Z (i + 1))%num]
  else if i =? period - 1 then
    result ++ [(window_sum data i period / num_of_Z period)%num]
  else
    let prev := at_index result (i - 1) in
    result ++ [((at_index data i - prev) * multiplier + prev)%num].

Definition ema (data : list num) (period : Z) : list num :=
  let multiplier := (2 / num_of_Z (period + 1))%num in
  fold_left (ema_step data period multiplier) (seq 0 (length data)) [].

(** [for (let j = 1; j < period; j++) max = Math.max(max, data[i - j])] *)
Definition window_fold (f : num → num → num) (data : list num) (i : Z) (period : Z) : num :=
  fold_left (fun acc j => f acc (at_index data (i - Z.of_nat j)))
    (seq 1 (Z.to_nat period - 1)) (at_index data i).

Definition highest (data : list num) (period : Z) : list num :=
  (fun n =>
     let i := Z.of_nat n in
     if i <? period - 1 then NaN else window_fold Math_max data i period)
  <$> seq 0 (length data).

Definition lowest (data : list num) (period : Z) : list num :=
  (fun n =>
     let i := Z.of_nat n in
     if i <? period - 1 then NaN else window_fold Math_min data i period)
  <$> seq 0 (length data).

(** [Math.max(a, b, c)] *)
Definition Math_max3 (a b c : num) : num := Math_max (Math_max a b) c.

(** The true ranges [tr] of [atr]. *)
Definition true_range (candles : list Candle) : list num :=
  (fun n =>
     match candles !! n with
     | None => NaN
     | Some candle =>
       match n with
       | O => (Candle.high candle - Candle.low candle)%num
       | S n' =>
         let high := Candle.high candle in
         let low := Candle.low candle in
         let prevClose := to_num (Candle.close <$> candles !! n') in
         Math_max3 (high - low)%num (Math_abs (high - prevClose)) (Math_abs (low - prevClose))
       end
     end)
  <$> seq 0 (length candles).

(** One turn of the second loop of [atr], for the index [n]. *)
Definition atr_step (tr : list num) (period : Z) (result : list num) (n : nat) : list num :=
  let i := Z.of_nat n in
  if i <? period - 1 then result ++ [NaN]
  else if i =? period - 1 then
    result ++ [(window_sum tr i period / num_of_Z period)%num]
  else
    result ++ [((at_index result (i - 1) * num_of_Z (period - 1) + at_index tr i) /
                num_of_Z period)%num].

Definition atr (candles : list Candle) (period : Z) : list num :=
  let tr := true_range candles in
  fold_left (atr_step tr period) (seq 0 (length tr)) [].

(** [result[i] = x] for an index inside the array; a negative index names a
    property and changes no element. *)
Definition set_index (result : list num) (i : Z) (x : num) : list num :=
  if i <? 0 then result else <[Z.to_nat i := x]> result.

(** [avgLoss === 0 ? 100 : 100 - (100 / (1 + avgGain / avgLoss))] *)
Definition rsi_value (avgGain avgLoss : num) : num :=
  if neqb avgLoss 0 then 100%num
  else (100 - 100 / (1 + avgGain / avgLoss))%num.

(** One turn of the first loop of [rsiSmoothed]: the sums of the gains and
    of the losses. *)
Definition rsi_seed_step (closes : list num) (sums : num * num) (i : Z) : num * num :=
  let '(avgGain, avgLoss) := sums in
  let change := (at_index closes i - at_index closes (i - 1))%num in
  if (change >? 0)%num then ((avgGain + change)%num, avgLoss)
  else (avgGain, (avgLoss + Math_abs change)%num).

(** One turn of the second loop of [rsiSmoothed]. *)
Definition rsi_smooth_step (closes : list num) (period : Z)
    (st : num * num * list num) (i : Z) : num * num * list num :=
  let '(avgGain, avgLoss, result) := st in
  let change := (at_index closes i - at_index closes (i - 1))%num in
  let gain := if (change >? 0)%num then change else 0%num in
  let loss := if (change <? 0)%num then Math_abs change else 0%num in
  let avgGain := ((avgGain * num_of_Z (period - 1) + gain) / num_of_Z period)%num in
  let avgLoss := ((avgLoss * num_of_Z (period - 1) + loss) / num_of_Z period)%num in
  (avgGain, avgLoss, set_index result i (rsi_value avgGain avgLoss)).

(** The integers from [lo] up to, not including, [hi]. *)
Definition Z_range (lo hi : Z) : list Z :=
  (fun k => lo + Z.of_nat k) <$> seq 0 (Z.to_nat (hi - lo)).

Definition rsiSmoothed (closes : list num) (period : Z) : list num :=
  let result := replicate (length closes) NaN in
  if Z.of_nat (length closes) <=? period then result else
  let '(avgGain, avgLoss) :=
    fold_left (rsi_seed_step closes) (Z_range 1 (period + 1)) (0%num, 0%num) in
  let avgGain := (avgGain / num_of_Z period)%num in
  let avgLoss := (avgLoss / num_of_Z period)%num in
  let result := set_index result period (rsi_value avgGain avgLoss) in
  let '(_, _, result) :=
    fold_left (rsi_smooth_step closes period)
      (Z_range (period + 1) (Z.of_nat (length closes))) (avgGain, avgLoss, result) in
  result.

(** ** A stable sort for [Array.prototype.sort(compare)]

    [x] is placed after every earlier element [y] with [compare(y, x) <= 0].
    For a comparator that is not a consistent order (NaN differences) the
    order JavaScript produces is implementation-defined; the length and the
    elements are the same in every case. *)

Fixpoint sort_insert {A : Type} (compare : A → A → num) (x : A) (l : list A) : list A :=
  match l with
  | [] => [x]
  | y :: l' =>
    if (compare y x >? 0)%num then x :: y :: l'
    else y :: sort_insert compare x l'
  end.

Definition sort_by {A : Type} (compare : A → A → num) (l : list A) : list A :=
  fold_left (fun acc x => sort_insert compare x acc) l [].

(** ** Grid search ([lib/optimizer/grid-search.ts]) *)

Definition metric_value (k : MetricKey) (m : PerformanceMetrics) : num :=
  match k with
  | KtotalReturn => PerformanceMetrics.totalReturn m
  | KtotalReturnPercent => PerformanceMetrics.totalReturnPercent m
  | Kcagr => PerformanceMetrics.cagr m
  | KsharpeRatio => PerformanceMetrics.sharpeRatio m
  | KsortinoRatio => PerformanceMetrics.sortinoRatio m
  | KmaxDrawdown => PerformanceMetrics.maxDrawdown m
  | KmaxDrawdownPercent => PerformanceMetrics.maxDrawdownPercent m
  | KcalmarRatio => PerformanceMetrics.calmarRatio m
  | KwinRate => PerformanceMetrics.winRate m
  | KprofitFactor => PerformanceMetrics.profitFactor m
  | KtotalTrades => num_of_nat (PerformanceMetrics.totalTrades m)
  | KwinningTrades => num_of_nat (PerformanceMetrics.winningTrades m)
  | KlosingTrades => num_of_nat (PerformanceMetrics.losingTrades m)
  | KaverageWin => PerformanceMetrics.averageWin m
  | KaverageLoss => PerformanceMetrics.averageLoss m
  | KaverageTradeDuration => PerformanceMetrics.averageTradeDuration m
  | KlargestWin => PerformanceMetrics.largestWin m
  | KlargestLoss => PerformanceMetrics.largestLoss m
  | KconsecutiveWins => num_of_nat (PerformanceMetrics.consecutiveWins m)
  | KconsecutiveLosses => num_of_nat (PerformanceMetrics.consecutiveLosses m)
  | Kexpectancy => PerformanceMetrics.expectancy m
  end.

Module OptimizationEntry.
Record t : Type := mk {
  params : StrategyParams;
  metricValue : num;
  metrics : PerformanceMetrics;
}.
End OptimizationEntry.
Abbreviation OptimizationEntry := OptimizationEntry.t.

(** [processingTime] is wall-clock time and is left out. *)
Module OptimizationResult.
Record t : Type := mk {
  bestParams : StrategyParams;
  bestMetricValue : num;
  allResults : list OptimizationEntry;
  totalCombinations : nat;
}.
End OptimizationResult.
Abbreviation OptimizationResult := OptimizationResult.t.

(** The values [for (let value = min; value <= max; value += step)] runs
    its body on.  The loop need not end (a step that is not positive);
    [fuel] bounds the number of turns and [None] says it ran out. *)
Fixpoint for_values (fuel : nat) (value max step : num) : option (list num) :=
  if (value <=? max)%num then
    match fuel with
    | O => None
    | S fuel' => cons value <$> for_values fuel' (value + step)%num max step
    end
  else Some [].

Section GridSearch.
Context {math : JSMath}.

Variable candles : list Candle.
Variable backtestConfig : BacktestConfig.
Variable optimizationConfig : OptimizationConfig.

(** [generateRecursive(index, current)], with the entries of
    [paramRanges] from [index] on as [ranges]; the result is what the
    call pushes on [combinations], in order. *)
Fixpoint generateRecursive (fuel : nat) (baseParams : StrategyParams)
    (ranges : list (string * OptimizationRange)) (current : StrategyParams)
  : option (list StrategyParams) :=
  match ranges with
  | [] => Some [current ∪ baseParams]
  | (key, range) :: rest =>
    values ← for_values fuel (OptimizationRange.min range)
               (OptimizationRange.max range) (OptimizationRange.step range);
    (fun pushed => concat pushed) <$>
      mapM (fun value =>
              let roundedValue := (Math_round (value * Fin 1000) / Fin 1000)%num in
              generateRecursive fuel baseParams rest (<[key := PNum roundedValue]> current))
           values
  end.

Definition generateCombinations (fuel : nat) (baseParams : StrategyParams)
  : option (list StrategyParams) :=
  generateRecursive fuel baseParams (OptimizationConfig.paramRanges optimizationConfig) ∅.

Definition getTotalCombinations : num :=
  fold_left
    (fun total range =>
       let steps :=
         (Math_floor ((OptimizationRange.max range - OptimizationRange.min range) /
                      OptimizationRange.step range) + 1)%num in
       (total * steps)%num)
    (map snd (OptimizationConfig.paramRanges optimizationConfig)) 1%num.

(** The state of the loop of [optimize]. *)
Record optimize_state : Type := mk_optimize_state {
  st_engine : BacktestEngine;
  st_results : list OptimizationEntry;
  st_bestParams : StrategyParams;
  st_bestMetricValue : num;
}.

Definition optimize_step (strategyFactory : StrategyParams → Strategy)
    (st : optimize_state) (params : StrategyParams) : optimize_state :=
  let strategy := strategyFactory params in
  match run candles strategy (st_engine st) with
  | Some (result, engine', _) =>
    let metricValue :=
      metric_value (OptimizationConfig.metric optimizationConfig)
        (BacktestResult.metrics result) in
    let entry :=
      {| OptimizationEntry.params := params;
         OptimizationEntry.metricValue := metricValue;
         OptimizationEntry.metrics := BacktestResult.metrics result |} in
    let isBetter :=
      if OptimizationConfig.maximize optimizationConfig
      then (metricValue >? st_bestMetricValue st)%num
      else (metricValue <? st_bestMetricValue st)%num in
    let better := isBetter && isFinite metricValue in
    {| st_engine := engine';
       st_results := st_results st ++ [entry];
       st_bestParams := if better then params else st_bestParams st;
       st_bestMetricValue := if better then metricValue else st_bestMetricValue st |}
  | None =>
    (* the exception is caught and the combination is skipped *)
    {| st_engine := st_engine st;
       st_results := st_results st;
       st_bestParams := st_bestParams st;
       st_bestMetricValue := st_bestMetricValue st |}
  end.

Definition optimize_loop (strategyFactory : StrategyParams → Strategy)
    (baseParams : StrategyParams) (combinations : list StrategyParams) : optimize_state :=
  fold_left (optimize_step strategyFactory) combinations
    {| st_engine := new_BacktestEngine backtestConfig;
       st_results := [];
       st_bestParams := baseParams;
       st_bestMetricValue :=
         if OptimizationConfig.maximize optimizationConfig then NInf else PInf |}.

(** [optimize]; the progress callback has no part in the result. *)
Definition optimize (fuel : nat) (strategyFactory : StrategyParams → Strategy)
    (baseParams : StrategyParams) : option OptimizationResult :=
  combinations ← generateCombinations fuel baseParams;
  let st := optimize_loop strategyFactory baseParams combinations in
  let compare (a b : OptimizationEntry) :=
    if OptimizationConfig.maximize optimizationConfig
    then (OptimizationEntry.metricValue b - OptimizationEntry.metricValue a)%num
    else (OptimizationEntry.metricValue a - OptimizationEntry.metricValue b)%num in
  Some {| OptimizationResult.bestParams := st_bestParams st;
          OptimizationResult.bestMetricValue := st_bestMetricValue st;
          OptimizationResult.allResults := sort_by compare (st_results st);
          OptimizationResult.totalCombinations := length combinations |}.
End GridSearch.

(** ** Walk-forward windows ([lib/optimizer/walk-forward.ts])

    [numWindows] and [trainRatio] are finite numbers; [numWindows] need
    not be an integer, and the loops [for (let i = 0; i < numWindows; i++)]
    then take one turn for each integer below it.  Reading
    [candles[k].timestamp] outside the array throws; [None] is that
    exception. *)

Inductive WindowType : Type := rolling | anchored.

Module IndexRange.
Record t : Type := mk {
  start : Z;
  end_ : Z;
}.
End IndexRange.
Abbreviation IndexRange := IndexRange.t.

Module WalkForwardWindow.
Record t : Type := mk {
  trainStart : num;
  trainEnd : num;
  testStart : num;
  testEnd : num;
  trainIndex : IndexRange;
  testIndex : IndexRange;
}.
End WalkForwardWindow.
Abbreviation WalkForwardWindow := WalkForwardWindow.t.

Module WalkForwardConfig.
Record t : Type := mk {
  windowType : WindowType;
  trainRatio : Q;
  numWindows : Q;
  optimizationConfig : OptimizationConfig;
}.
End WalkForwardConfig.
Abbreviation WalkForwardConfig := WalkForwardConfig.t.

(** [candles[k].timestamp] *)
Definition timestamp_at (candles : list Candle) (k : Z) : option num :=
  if k <? 0 then None else Candle.timestamp <$> candles !! Z.to_nat k.

Definition make_window (candles : list Candle) (trainStart trainEnd testStart testEnd : Z)
  : option WalkForwardWindow :=
  t1 ← timestamp_at candles trainStart;
  t2 ← timestamp_at candles trainEnd;
  t3 ← timestamp_at candles testStart;
  t4 ← timestamp_at candles testEnd;
  Some {| WalkForwardWindow.trainStart := t1;
          WalkForwardWindow.trainEnd := t2;
          WalkForwardWindow.testStart := t3;
          WalkForwardWindow.testEnd := t4;
          WalkForwardWindow.trainIndex :=
            {| IndexRange.start := trainStart; IndexRange.end_ := trainEnd |};
          WalkForwardWindow.testIndex :=
            {| IndexRange.start := testStart; IndexRange.end_ := testEnd |} |}.

(** One turn of the rolling loop: the windows so far, extended or not. *)
Definition rolling_step (candles : list Candle) (windowSize trainSize testSize : Z)
    (windows : option (list WalkForwardWindow)) (n : nat)
  : option (list WalkForwardWindow) :=
  ws ← windows;
  let totalCandles := Z.of_nat (length candles) in
  let i := Z.of_nat n in
  let trainStart := i * windowSize in
  let trainEnd := trainStart + trainSize - 1 in
  let testStart := trainEnd + 1 in
  let testEnd := Z.min (testStart + testSize - 1) (totalCandles - 1) in
  if testEnd <=? trainEnd then Some ws
  else w ← make_window candles trainStart trainEnd testStart testEnd; Some (ws ++ [w]).

(** One turn of the anchored loop. *)
Definition anchored_step (candles : list Candle) (testSize : Z) (trainRatio : Q)
    (numWindows : Q) (windows : option (list WalkForwardWindow)) (n : nat)
  : option (list WalkForwardWindow) :=
  ws ← windows;
  let totalCandles := Z.of_nat (length candles) in
  let i := Z.of_nat n in
  let trainEnd :=
    Qfloor (inject_Z ((i + 1) * totalCandles) * trainRatio / numWindows) in
  let testStart := trainEnd + 1 in
  let testEnd := Z.min (testStart + testSize - 1) (totalCandles - 1) in
  if testEnd <=? testStart then Some ws
  else w ← make_window candles 0 trainEnd testStart testEnd; Some (ws ++ [w]).

(** [generateWindows].  The loop counter [i] runs through the integers
    from 0 that are below [numWindows]: [turns] of them.  With
    [numWindows <= 0] neither loop runs a turn, whatever
    [totalCandles / numWindows] is. *)
Definition generateWindows (candles : list Candle) (cfg : WalkForwardConfig)
  : option (list WalkForwardWindow) :=
  let totalCandles := Z.of_nat (length candles) in
  let numWindows := WalkForwardConfig.numWindows cfg in
  let trainRatio := WalkForwardConfig.trainRatio cfg in
  let turns := Z.to_nat (Qceiling numWindows) in
  match WalkForwardConfig.windowType cfg with
  | rolling =>
    let windowSize := Qfloor (inject_Z totalCandles / numWindows) in
    let trainSize := Qfloor (inject_Z windowSize * trainRatio) in
    let testSize := windowSize - trainSize in
    fold_left (rolling_step candles windowSize trainSize testSize)
      (seq 0 turns) (Some [])
  | anchored =>
    let testSize := Qfloor (inject_Z totalCandles / numWindows) in
    fold_left (anchored_step candles testSize trainRatio numWindows)
      (seq 0 turns) (Some [])
  end.

(** The candle indices a window covers, train start through test end. *)
Definition window_first (w : WalkForwardWindow) : Z :=
  IndexRange.start (WalkForwardWindow.trainIndex w).
Definition window_last (w : WalkForwardWindow) : Z :=
  IndexRange.end_ (WalkForwardWindow.testIndex w).

Definition covers (w : WalkForwardWindow) (k : Z) : Prop :=
  window_first w <= k <= window_last w.

(** ** Monte Carlo simulation ([lib/monte-carlo.ts]) *)

Module MonteCarloConfig.
Record t : Type := mk {
  simulations : nat;
  initialCapital : num;
  ruinThreshold : num;
}.
End MonteCarloConfig.
Abbreviation MonteCarloConfig := MonteCarloConfig.t.

Definition DEFAULT_MONTE_CARLO_CONFIG : MonteCarloConfig :=
  {| MonteCarloConfig.simulations := 1000;
     MonteCarloConfig.initialCapital := Fin 10000;
     MonteCarloConfig.ruinThreshold := Fin (1 # 2) |}.

Module MonteCarloPercentile.
Record t : Type := mk {
  totalReturn : num;
  maxDrawdown : num;
  finalEquity : num;
  sharpeRatio : num;
}.
End MonteCarloPercentile.
Abbreviation MonteCarloPercentile := MonteCarloPercentile.t.

Module SimulationResult.
Record t : Type := mk {
  totalReturn : num;
  maxDrawdown : num;
  finalEquity : num;
  sharpeRatio : num;
  hitRuin : bool;
}.
End SimulationResult.
Abbreviation SimulationResult := SimulationResult.t.

(** [processingTime] is wall-clock time and is left out. *)
Module MonteCarloResult.
Record t : Type := mk {
  simulations : nat;
  p5 : MonteCarloPercentile;
  p25 : MonteCarloPercentile;
  p50 : MonteCarloPercentile;
  p75 : MonteCarloPercentile;
  p95 : MonteCarloPercentile;
  riskOfRuin : num;
  returnLow : num;
  returnHigh : num;
  drawdownLow : num;
  drawdownHigh : num;
  originalMetrics : PerformanceMetrics;
}.
End MonteCarloResult.
Abbreviation MonteCarloResult := MonteCarloResult.t.

(** [Math.random]: the generator is the sequence [draws] of the values it
    will return and the number [drawn] of calls made so far.  A draw [r]
    of the real generator has [0 <= r < 1]. *)
Module Random.
Record t : Type := mk {
  draws : nat → Q;
  drawn : nat;
}.

Definition random (g : t) : Q * t :=
  (draws g (drawn g), {| draws := draws g; drawn := S (drawn g) |}).

Definition in_range (g : t) : Prop :=
  ∀ k, (0 <= draws g k)%Q ∧ (draws g k < 1)%Q.
End Random.

(** [[a[i], a[j]] = [a[j], a[i]]]; both indices are inside the array for
    the draws of a real generator. *)
Definition swap {A : Type} (i j : nat) (a : list A) : list A :=
  match a !! i, a !! j with
  | Some x, Some y => <[j := x]> (<[i := y]> a)
  | _, _ => a
  end.

(** The loop of [shuffleTrades], for [i] from [n] down to [1]. *)
Fixpoint shuffle_loop {A : Type} (n : nat) (shuffled : list A) (g : Random.t)
  : list A * Random.t :=
  match n with
  | O => (shuffled, g)
  | S n' =>
    let i := n in
    let '(r, g1) := Random.random g in
    let j := Z.to_nat (Qfloor (r * inject_Z (Z.of_nat (i + 1)))) in
    shuffle_loop n' (swap i j shuffled) g1
  end.

Definition shuffleTrades (trades : list Trade) (g : Random.t) : list Trade * Random.t :=
  shuffle_loop (length trades - 1) trades g.

Section MonteCarlo.
Context {math : JSMath}.

Variable config : MonteCarloConfig.
Variable originalMetrics : PerformanceMetrics.

(** The variables of the loop of [simulateEquityCurve]. *)
Record curve_state : Type := mk_curve_state {
  cs_equity : num;
  cs_peak : num;
  cs_maxDrawdown : num;
  cs_hitRuin : bool;
  cs_returns : list num;
}.

Definition curve_step (st : curve_state) (trade : Trade) : curve_state :=
  match Trade.pnl trade with
  | None => st
  | Some pnl =>
    let prevEquity := cs_equity st in
    let equity := (cs_equity st + pnl)%num in
    let returns := cs_returns st ++ [((equity - prevEquity) / prevEquity)%num] in
    let peak := if (equity >? cs_peak st)%num then equity else cs_peak st in
    let drawdown := ((peak - equity) / peak)%num in
    let maxDrawdown :=
      if (drawdown >? cs_maxDrawdown st)%num then drawdown else cs_maxDrawdown st in
    let hitRuin :=
      if (drawdown >=? MonteCarloConfig.ruinThreshold config)%num
      then true else cs_hitRuin st in
    {| cs_equity := equity; cs_peak := peak; cs_maxDrawdown := maxDrawdown;
       cs_hitRuin := hitRuin; cs_returns := returns |}
  end.

Definition simulateEquityCurve (trades : list Trade) : SimulationResult :=
  let initialCapital := MonteCarloConfig.initialCapital config in
  let st :=
    fold_left curve_step trades
      {| cs_equity := initialCapital; cs_peak := initialCapital;
         cs_maxDrawdown := 0; cs_hitRuin := false; cs_returns := [] |} in
  let equity := cs_equity st in
  let returns := cs_returns st in
  let totalReturn := ((equity - initialCapital) / initialCapital * 100)%num in
  let avgReturn :=
    if (0 <? length returns)%nat
    then (sum_list returns / num_of_nat (length returns))%num else 0%num in
  let stdDev :=
    if (1 <? length returns)%nat
    then Math_sqrt
           (fold_left (fun s r => (s + Math_pow (r - avgReturn) 2)%num) returns 0 /
            num_of_nat (length returns - 1))%num
    else 1%num in
  let sharpeRatio :=
    if (stdDev >? 0)%num then (avgReturn / stdDev * Math_sqrt (Fin 252))%num else 0%num in
  {| SimulationResult.totalReturn := totalReturn;
     SimulationResult.maxDrawdown := (cs_maxDrawdown st * 100)%num;
     SimulationResult.finalEquity := equity;
     SimulationResult.sharpeRatio := sharpeRatio;
     SimulationResult.hitRuin := cs_hitRuin st |}.

Definition emptyResult : MonteCarloResult :=
  let emptyPercentile :=
    {| MonteCarloPercentile.totalReturn := 0;
       MonteCarloPercentile.maxDrawdown := 0;
       MonteCarloPercentile.finalEquity := MonteCarloConfig.initialCapital config;
       MonteCarloPercentile.sharpeRatio := 0 |} in
  {| MonteCarloResult.simulations := 0;
     MonteCarloResult.p5 := emptyPercentile;
     MonteCarloResult.p25 := emptyPercentile;
     MonteCarloResult.p50 := emptyPercentile;
     MonteCarloResult.p75 := emptyPercentile;
     MonteCarloResult.p95 := emptyPercentile;
     MonteCarloResult.riskOfRuin := 0;
     MonteCarloResult.returnLow := 0;
     MonteCarloResult.returnHigh := 0;
     MonteCarloResult.drawdownLow := 0;
     MonteCarloResult.drawdownHigh := 0;
     MonteCarloResult.originalMetrics := originalMetrics |}.

(** [arr[Math.min(Math.floor(arr.length * p), arr.length - 1)]]; an
    element that is not there is [undefined]. *)
Definition getPercentile (arr : list num) (p : Q) : num :=
  let index := Qfloor (inject_Z (Z.of_nat (length arr)) * p) in
  at_index arr (Z.min index (Z.of_nat (length arr) - 1)).

(** The loop of [simulate]: the generator, the results and the count of
    ruined runs. *)
Fixpoint simulate_loop (n : nat) (closedTrades : list Trade)
    (st : Random.t * list SimulationResult * nat)
  : Random.t * list SimulationResult * nat :=
  match n with
  | O => st
  | S n' =>
    let '(g, results, ruinCount) := st in
    let '(shuffledTrades, g1) := shuffleTrades closedTrades g in
    let result := simulateEquityCurve shuffledTrades in
    let ruinCount := if SimulationResult.hitRuin result then S ruinCount else ruinCount in
    simulate_loop n' closedTrades (g1, results ++ [result], ruinCount)
  end.

(** [simulate]; the progress callback has no part in the result. *)
Definition simulate (trades : list Trade) (g : Random.t) : MonteCarloResult * Random.t :=
  let closedTrades := List.filter is_completed trades in
  match closedTrades with
  | [] => (emptyResult, g)
  | _ =>
    let '(g1, results, ruinCount) :=
      simulate_loop (MonteCarloConfig.simulations config) closedTrades (g, [], O) in
    let ascending (a b : num) := (a - b)%num in
    let sortedReturns := sort_by ascending (map SimulationResult.totalReturn results) in
    let sortedDrawdowns := sort_by ascending (map SimulationResult.maxDrawdown results) in
    let sortedEquities := sort_by ascending (map SimulationResult.finalEquity results) in
    let sortedSharpe := sort_by ascending (map SimulationResult.sharpeRatio results) in
    let percentile (p q : Q) :=
      {| MonteCarloPercentile.totalReturn := getPercentile sortedReturns p;
         MonteCarloPercentile.maxDrawdown := getPercentile sortedDrawdowns q;
         MonteCarloPercentile.finalEquity := getPercentile sortedEquities p;
         MonteCarloPercentile.sharpeRatio := getPercentile sortedSharpe p |} in
    ({| MonteCarloResult.simulations := MonteCarloConfig.simulations config;
        MonteCarloResult.p5 := percentile (5 # 100) (95 # 100);
        MonteCarloResult.p25 := percentile (25 # 100) (75 # 100);
        MonteCarloResult.p50 := percentile (50 # 100) (50 # 100);
        MonteCarloResult.p75 := percentile (75 # 100) (25 # 100);
        MonteCarloResult.p95 := percentile (95 # 100) (5 # 100);
        MonteCarloResult.riskOfRuin :=
          (num_of_nat ruinCount / num_of_nat (MonteCarloConfig.simulations config) * 100)%num;
        MonteCarloResult.returnLow := getPercentile sortedReturns (25 # 1000);
        MonteCarloResult.returnHigh := getPercentile sortedReturns (975 # 1000);
        MonteCarloResult.drawdownLow := getPercentile sortedDrawdowns (25 # 1000);
        MonteCarloResult.drawdownHigh := getPercentile sortedDrawdowns (975 # 1000);
        MonteCarloResult.originalMetrics := originalMetrics |}, g1)
  end.
End MonteCarlo.

(** ** Vocabulary of the statements *)

(** An instance of the library interface that leaves the irrational
    functions unevaluated; the rational fields of a result do not depend on
    it. *)
Definition unevaluated : JSMath :=
  {| Math_sqrt := fun _ => NaN; Math_pow := fun _ _ => NaN |}.

(** A price level that is exactly [0]. *)
Definition zero_level (o : option num) : Prop :=
  ∃ q, o = Some (Fin q) ∧ (q == 0)%Q.

(** A signal whose [size] field is absent or exactly [0]. *)
Definition size_absent_or_zero (signal : Signal) : Prop :=
  Signal.size signal = None ∨ zero_level (Signal.size signal).

(** The cap [equity * maxPositionSize * leverage] of [openPosition]. *)
Definition position_cap (e : BacktestEngine) : num :=
  (Engine.equity e * BacktestConfig.maxPositionSize (Engine.config e) *
   BacktestConfig.leverage (Engine.config e))%num.

(** The tests of [checkExitConditions] on the levels of a position. *)
Definition stop_hit (candle : Candle) (p : Position) : bool :=
  truthy_opt (Position.stopLoss p) &&
  match Position.direction p with
  | long => (Candle.low candle <=? to_num (Position.stopLoss p))%num
  | short => (Candle.high candle >=? to_num (Position.stopLoss p))%num
  end.

Definition target_hit (candle : Candle) (p : Position) : bool :=
  truthy_opt (Position.takeProfit p) &&
  match Position.direction p with
  | long => (Candle.high candle >=? to_num (Position.takeProfit p))%num
  | short => (Candle.low candle <=? to_num (Position.takeProfit p))%num
  end.

(** The exit price a trade records for a close requested at [level]. *)
Definition slipped (cfg : BacktestConfig) (d : TradeDirection) (level : num) : num :=
  match d with
  | long => (level - BacktestConfig.slippage cfg * Fin (1 # 100))%num
  | short => (level + BacktestConfig.slippage cfg * Fin (1 # 100))%num
  end.

(** ** Inputs the statements are evaluated on *)

Definition candle_at (ts : Z) (o h l c : Q) : Candle :=
  {| Candle.timestamp := num_of_Z ts; Candle.open := Fin o; Candle.high := Fin h;
     Candle.low := Fin l; Candle.close := Fin c; Candle.volume := None |}.

Definition signal_of (ty : SignalType) (size stopLoss takeProfit : option num) : Signal :=
  {| Signal.type := ty; Signal.price := None; Signal.size := size;
     Signal.stopLoss := stopLoss; Signal.takeProfit := takeProfit;
     Signal.reason := None |}.

(** A strategy without fields that buys on every candle. *)
Definition always_buy : Strategy :=
  {| Strategy.state := unit; Strategy.self := tt; Strategy.name := "always-buy";
     Strategy.params := ∅;
     Strategy.init := fun _ _ s => s;
     Strategy.onCandle := fun _ _ _ s => (Some (signal_of buy None None None), s);
     Strategy.onComplete := fun _ s => s |}.

(** A strategy without fields that buys on the first candle and closes on
    the second. *)
Definition buy_then_close : Strategy :=
  {| Strategy.state := unit; Strategy.self := tt; Strategy.name := "buy-then-close";
     Strategy.params := ∅;
     Strategy.init := fun _ _ s => s;
     Strategy.onCandle := fun index _ _ s =>
       match index with
       | O => (Some (signal_of buy None None None), s)
       | S O => (Some (signal_of close None None None), s)
       | _ => (None, s)
       end;
     Strategy.onComplete := fun _ s => s |}.

(** A configuration without costs. *)
Definition costless_config : BacktestConfig :=
  {| BacktestConfig.initialCapital := Fin 10000;
     BacktestConfig.commission := Fin 0;
     BacktestConfig.slippage := Fin 0;
     BacktestConfig.leverage := Fin 1;
     BacktestConfig.maxPositionSize := Fin 1 |}.

Definition position_of (d : TradeDirection) (entryPrice size : Q)
    (stopLoss takeProfit : option num) : Position :=
  {| Position.id := pos_id 1; Position.direction := d;
     Position.entryTime := num_of_Z 1; Position.entryPrice := Fin entryPrice;
     Position.size := Fin size; Position.stopLoss := stopLoss;
     Position.takeProfit := takeProfit |}.

(** An engine in the middle of a run, holding the position [p]. *)
Definition engine_holding (cfg : BacktestConfig) (p : Position) : BacktestEngine :=
  {| Engine.config := cfg; Engine.candles := []; Engine.currentIndex := 0;
     Engine.position := Some p; Engine.trades := [];
     Engine.equity := BacktestConfig.initialCapital cfg; Engine.equityCurve := [];
     Engine.tradeIdCounter := 1 |}.

(** The equity of the last point of an equity curve. *)
Definition last_equity (curve : list EquityPoint) : num :=
  to_num (EquityPoint.equity <$> last_opt curve).

(** A long position with a take-profit of exactly 0 and no stop-loss, and
    one with a stop-loss at 95; a short position with a stop-loss of 0. *)
Definition long_target_zero : Position :=
  position_of long 100 1000 None (Some (Fin 0)).
Definition long_stop_95 : Position :=
  position_of long 100 1000 (Some (Fin 95)) None.
Definition short_stop_zero : Position :=
  position_of short 100 1000 (Some (Fin 0)) (Some (Fin 90)).

(** A candle from 99 to 101 and one that falls to 94. *)
Definition quiet_candle : Candle := candle_at 2 100 101 99 100.
Definition falling_candle : Candle := candle_at 2 100 100 94 96.

(** The equity the engine holds is the initial capital plus the profit of
    the trades closed so far. *)
Definition realized (e : BacktestEngine) : Prop :=
  num_eq (Engine.equity e)
    (BacktestConfig.initialCapital (Engine.config e) + sum_pnl (Engine.trades e)).

(** With no position open, the last point of the equity curve, if there is
    one, is the equity the engine holds. *)
Definition curve_settled (e : BacktestEngine) : Prop :=
  Engine.position e = None →
  Engine.equityCurve e ≠ [] →
  last_equity (Engine.equityCurve e) = Engine.equity e.

(** The summed wins and the summed losses of [calculateMetrics]. *)
Definition totalWins (trades : list Trade) : num :=
  sum_pnl (List.filter is_win (List.filter is_completed trades)).

Definition totalLosses (trades : list Trade) : num :=
  Math_abs (sum_pnl (List.filter is_loss (List.filter is_completed trades))).

(** A closed long trade with the profit [pnl]. *)
Definition closed_trade (pnl : Q) : Trade :=
  {| Trade.id := pos_id 1; Trade.entryTime := num_of_Z 1;
     Trade.exitTime := Some (num_of_Z 2); Trade.entryPrice := Fin 100;
     Trade.exitPrice := Some (Fin 101); Trade.direction := long;
     Trade.size := Fin 1000; Trade.pnl := Some (Fin pnl);
     Trade.pnlPercent := Some (Fin (pnl / 100)); Trade.stopLoss := None;
     Trade.takeProfit := None; Trade.commission := Fin 0 |}.

(** A range of finite numbers with a positive step and [min <= max]. *)
Definition well_formed_range (r : OptimizationRange) : Prop :=
  ∃ lo hi st : Q,
    OptimizationRange.min r = Fin lo ∧ OptimizationRange.max r = Fin hi ∧
    OptimizationRange.step r = Fin st ∧ (0 < st)%Q ∧ (lo <= hi)%Q.

(** The count the specification gives for one range,
    [floor((max - min) / step) + 1], on the rationals. *)
Definition spec_range_steps (r : OptimizationRange) : Z :=
  match OptimizationRange.min r, OptimizationRange.max r, OptimizationRange.step r with
  | Fin lo, Fin hi, Fin st => Qfloor ((hi - lo) / st) + 1
  | _, _, _ => 0
  end.

(** The count the specification gives for a grid: the product of the
    counts of its ranges. *)
Definition spec_total_combinations (ranges : list (string * OptimizationRange)) : Z :=
  fold_right (fun kr total => spec_range_steps (snd kr) * total) 1 ranges.

(** A number of loop turns that is enough for every range of a grid. *)
Definition enough_fuel (ranges : list (string * OptimizationRange)) : nat :=
  S (fold_right (fun kr m => Nat.max (Z.to_nat (spec_range_steps (snd kr))) m) O ranges).

(** A grid of two ranges: 5, 10, 15, 20 and 1, 1.5, 2. *)
Definition example_grid : OptimizationConfig :=
  {| OptimizationConfig.paramRanges :=
       [("fastPeriod"%string,
         {| OptimizationRange.min := Fin 5; OptimizationRange.max := Fin 20;
            OptimizationRange.step := Fin 5 |});
        ("atrMultiplier"%string,
         {| OptimizationRange.min := Fin 1; OptimizationRange.max := Fin 2;
            OptimizationRange.step := Fin (1 # 2) |})];
     OptimizationConfig.metric := KtotalReturn;
     OptimizationConfig.maximize := true |}.

(** The windows of a list are in ascending order and apart: each ends
    before the next ones begin. *)
Definition ascending_apart (ws : list WalkForwardWindow) : Prop :=
  ∀ (i j : nat) (wi wj : WalkForwardWindow),
    (i < j)%nat → ws !! i = Some wi → ws !! j = Some wj →
    window_last wi < window_first wj.

(** Ten candles, one a minute, and a rolling and an anchored
    configuration of two windows. *)
Definition ten_candles : list Candle :=
  (fun n => candle_at (Z.of_nat n * 60000) 100 101 99 100) <$> seq 1 10.

Definition no_ranges : OptimizationConfig :=
  {| OptimizationConfig.paramRanges := [];
     OptimizationConfig.metric := KsharpeRatio;
     OptimizationConfig.maximize := true |}.

(** Twelve candles and a rolling configuration of two and a half
    windows. *)
Definition twelve_candles : list Candle :=
  (fun n => candle_at (Z.of_nat n * 60000) 100 101 99 100) <$> seq 1 12.

Definition fractional_windows : WalkForwardConfig :=
  {| WalkForwardConfig.windowType := rolling;
     WalkForwardConfig.trainRatio := 7 # 10;
     WalkForwardConfig.numWindows := 5 # 2;
     WalkForwardConfig.optimizationConfig := no_ranges |}.

Definition two_windows (windowType : WindowType) : WalkForwardConfig :=
  {| WalkForwardConfig.windowType := windowType;
     WalkForwardConfig.trainRatio := 7 # 10;
     WalkForwardConfig.numWindows := 2;
     WalkForwardConfig.optimizationConfig := no_ranges |}.

(** A generator that returns [q] at every call. *)
Definition constant_draws (q : Q) : Random.t :=
  {| Random.draws := fun _ => q; Random.drawn := 0 |}.

(** One simulation against a capital of 10000. *)
Definition single_simulation : MonteCarloConfig :=
  {| MonteCarloConfig.simulations := 1;
     MonteCarloConfig.initialCapital := Fin 10000;
     MonteCarloConfig.ruinThreshold := Fin (1 # 2) |}.

(** Two candles closing at 100 and at 101. *)
Definition rising_candles : list Candle :=
  [candle_at 60000 100 100 100 100; candle_at 120000 100 101 100 101].

(** The return in percent of a profit [total] on the capital of a
    Monte Carlo configuration. *)
Definition percent_return (config : MonteCarloConfig) (total : num) : num :=
  (total / MonteCarloConfig.initialCapital config * 100)%num.

(** A candle of finite prices, and a finite number that is not negative. *)
Definition finite_candle (c : Candle) : Prop :=
  is_finite (Candle.high c) ∧ is_finite (Candle.low c) ∧ is_finite (Candle.close c).

Definition nonneg (a : num) : Prop := ∃ q, a = Fin q ∧ (0 <= q)%Q.

(** What holds of the variables of the second loop of [rsiSmoothed] once
    the indices below [upto] are done. *)
Definition rsi_loop_invariant (len : nat) (period : Z) (upto : Z)
    (st : num * num * list num) : Prop :=
  let '(avgGain, avgLoss, result) := st in
  nonneg avgGain ∧ nonneg avgLoss ∧ length result = len ∧
  (∀ j : nat, Z.of_nat j < period → (j < len)%nat → result !! j = Some NaN) ∧
  (∀ j : nat, period <= Z.of_nat j < upto → ∃ q, result !! j = Some (Fin q)).

(** A trade that is closed: its profit, exit time and exit price are
    set. *)
Definition closed (t : Trade) : Prop :=
  is_Some (Trade.pnl t) ∧ is_Some (Trade.pnlPercent t) ∧
  is_Some (Trade.exitTime t) ∧ is_Some (Trade.exitPrice t).

(** What a run keeps true of the trades and of the ID counter, with at
    most [k] positions opened so far: the trades are closed and carry the
    IDs [pos-1], [pos-2], ... in order; the counter has counted the trades
    and the open position, which carries the last ID given. *)
Definition numbered (k : nat) (e : BacktestEngine) : Prop :=
  Forall closed (Engine.trades e) ∧
  Trade.id <$> Engine.trades e = pos_id <$> seq 1 (length (Engine.trades e)) ∧
  (Engine.tradeIdCounter e ≤ k)%nat ∧
  match Engine.position e with
  | Some p =>
      Position.id p = pos_id (Engine.tradeIdCounter e) ∧
      Engine.tradeIdCounter e = S (length (Engine.trades e))
  | None => Engine.tradeIdCounter e = length (Engine.trades e)
  end.

(** A strategy that never gives a signal, whatever it is shown. *)
Definition silent (strat : Strategy) : Prop :=
  ∀ index history position s, fst (Strategy.onCandle strat index history position s) = None.

(** A strategy without fields that never gives a signal. *)
Definition never_trade : Strategy :=
  {| Strategy.state := unit; Strategy.self := tt; Strategy.name := "never-trade";
     Strategy.params := ∅;
     Strategy.init := fun _ _ s => s;
     Strategy.onCandle := fun _ _ _ s => (None, s);
     Strategy.onComplete := fun _ s => s |}.

(** An engine that has not traded: no position, no trade, the initial
    capital as equity and at every point of the equity curve. *)
Definition untouched (e : BacktestEngine) : Prop :=
  Engine.position e = None ∧ Engine.trades e = [] ∧
  Engine.equity e = BacktestConfig.initialCapital (Engine.config e) ∧
  Forall (fun point => EquityPoint.equity point =
                         BacktestConfig.initialCapital (Engine.config e))
    (Engine.equityCurve e).

(** [Partial<BacktestConfig>]: [None] is a key that is absent. *)
Module PartialBacktestConfig.
Record t : Type := mk {
  initialCapital : option num;
  commission : option num;
  slippage : option num;
  leverage : option num;
  maxPositionSize : option num;
}.
End PartialBacktestConfig.
Abbreviation PartialBacktestConfig := PartialBacktestConfig.t.

(** [{ ...base, ...config }] *)
Definition spread_config (base : BacktestConfig) (config : PartialBacktestConfig)
  : BacktestConfig :=
  {| BacktestConfig.initialCapital :=
       default (BacktestConfig.initialCapital base)
         (PartialBacktestConfig.initialCapital config);
     BacktestConfig.commission :=
       default (BacktestConfig.commission base) (PartialBacktestConfig.commission config);
     BacktestConfig.slippage :=
       default (BacktestConfig.slippage base) (PartialBacktestConfig.slippage config);
     BacktestConfig.leverage :=
       default (BacktestConfig.leverage base) (PartialBacktestConfig.leverage config);
     BacktestConfig.maxPositionSize :=
       default (BacktestConfig.maxPositionSize base)
         (PartialBacktestConfig.maxPositionSize config) |}.

(** [getConfig] and [setConfig]. *)
Definition getConfig (e : BacktestEngine) : BacktestConfig := Engine.config e.

Definition setConfig (config : PartialBacktestConfig) (e : BacktestEngine) : BacktestEngine :=
  {| Engine.config := spread_config (Engine.config e) config;
     Engine.candles := Engine.candles e;
     Engine.currentIndex := Engine.currentIndex e;
     Engine.position := Engine.position e;
     Engine.trades := Engine.trades e;
     Engine.equity := Engine.equity e;
     Engine.equityCurve := Engine.equityCurve e;
     Engine.tradeIdCounter := Engine.tradeIdCounter e |}.

(** A change of the initial capital alone. *)
Definition capital_only (c : Q) : PartialBacktestConfig :=
  {| PartialBacktestConfig.initialCapital := Some (Fin c);
     PartialBacktestConfig.commission := None;
     PartialBacktestConfig.slippage := None;
     PartialBacktestConfig.leverage := None;
     PartialBacktestConfig.maxPositionSize := None |}.

(** A trade that counts for a streak: a win or a loss.  A trade whose
    profit is 0, or is not a number, is neither. *)
Definition decided (t : Trade) : bool := is_win t || is_loss t.
(** The highest equity of a curve up to and with its point [i], the
    initial capital counted in. *)
Definition peak_upto (initialCapital : num) (equityCurve : list EquityPoint) (i : nat) : num :=
  fold_left Math_max (EquityPoint.equity <$> take (S i) equityCurve) initialCapital.

(** What holds of the variables of the loop of [calculateDrawdown] once
    the points of [done] are processed: [peak] is the highest equity so
    far, no point lies further below the peak before it than
    [maxDrawdown], and [maxDrawdown] is 0, or is the drop at a point, with
    [maxDrawdownPercent] that drop in percent of the peak there. *)
Definition drawdown_invariant (c : Q) (done : list EquityPoint) (st : num * num * num)
  : Prop :=
  ∃ pk d p : Q,
    st = (Fin pk, Fin d, Fin p) ∧
    fold_left Math_max (EquityPoint.equity <$> done) (Fin c) = Fin pk ∧
    (c <= pk)%Q ∧ (0 <= d)%Q ∧
    (∀ i point, done !! i = Some point →
       ∃ x, (peak_upto (Fin c) done i - EquityPoint.equity point)%num = Fin x ∧ (x <= d)%Q) ∧
    ((d == 0)%Q ∧ (p == 0)%Q ∨
     ∃ i point top,
       done !! i = Some point ∧ peak_upto (Fin c) done i = Fin top ∧
       num_eq (Fin top - EquityPoint.equity point) (Fin d) ∧
       (p == d / top * 100)%Q).

(** ** More indicators ([lib/strategy-base.ts]) *)

(** [crossover] and [crossunder]; [index] is an integer.  A value outside
    an array is [undefined], for which [isNaN] is true. *)
Definition crossover (fast slow : list num) (index : Z) : bool :=
  if index <? 1 then false
  else if isNaN (at_index fast index) || isNaN (at_index slow index) ||
          isNaN (at_index fast (index - 1)) || isNaN (at_index slow (index - 1))
  then false
  else (at_index fast (index - 1) <=? at_index slow (index - 1))%num &&
       (at_index fast index >? at_index slow index)%num.

Definition crossunder (fast slow : list num) (index : Z) : bool :=
  if index <? 1 then false
  else if isNaN (at_index fast index) || isNaN (at_index slow index) ||
          isNaN (at_index fast (index - 1)) || isNaN (at_index slow (index - 1))
  then false
  else (at_index fast (index - 1) >=? at_index slow (index - 1))%num &&
       (at_index fast index <? at_index slow index)%num.

(** [macd] *)
Module MACD.
Record t : Type := mk {
  macd : list num;
  signal : list num;
  histogram : list num;
}.
End MACD.

Definition macd (closes : list num) (fastPeriod slowPeriod signalPeriod : Z) : MACD.t :=
  let fastEMA := ema closes fastPeriod in
  let slowEMA := ema closes slowPeriod in
  let macdLine :=
    (fun n =>
       let i := Z.of_nat n in
       if isNaN (at_index fastEMA i) || isNaN (at_index slowEMA i) then NaN
       else (at_index fastEMA i - at_index slowEMA i)%num)
    <$> seq 0 (length closes) in
  let signalLine := ema ((fun v => if isNaN v then 0%num else v) <$> macdLine) signalPeriod in
  let histogram :=
    (fun n =>
       let i := Z.of_nat n in
       if isNaN (at_index macdLine i) || isNaN (at_index signalLine i) then NaN
       else (at_index macdLine i - at_index signalLine i)%num)
    <$> seq 0 (length closes) in
  {| MACD.macd := macdLine; MACD.signal := signalLine; MACD.histogram := histogram |}.

(** [arr.slice(start, end)] for indices that are not negative. *)
Definition slice {A : Type} (arr : list A) (start end_ : Z) : list A :=
  take (Z.to_nat (end_ - start)) (drop (Z.to_nat start) arr).

(** [calculateAvgFromRSI]; its [period] is not used. *)
Definition calculateAvgFromRSI (rsiValue : num) (period : Z) (lastValue : num) : num :=
  if isNaN rsiValue then lastValue
  else
    let rs := (rsiValue / (100 - rsiValue))%num in
    (rs * Fin (1 # 2))%num.

(** One turn of the loop of [rsi], for the index [n], on the arrays
    [result], [gains] and [losses]. *)
Definition rsi_step (closes : list num) (period : Z)
    (st : list num * list num * list num) (n : nat) : list num * list num * list num :=
  let '(result, gains, losses) := st in
  let i := Z.of_nat n in
  if i =? 0 then (result ++ [NaN], gains ++ [0%num], losses ++ [0%num])
  else
    let change := (at_index closes i - at_index closes (i - 1))%num in
    let gains := gains ++ [if (change >? 0)%num then change else 0%num] in
    let losses := losses ++ [if (change <? 0)%num then Math_abs change else 0%num] in
    if i <? period then (result ++ [NaN], gains, losses)
    else
      let '(avgGain, avgLoss) :=
        if i =? period then
          ((sum_list (slice gains 1 (period + 1)) / num_of_Z period)%num,
           (sum_list (slice losses 1 (period + 1)) / num_of_Z period)%num)
        else
          let prevAvgGain :=
            calculateAvgFromRSI (at_index result (i - 1)) period (at_index gains (i - 1)) in
          let prevAvgLoss :=
            calculateAvgFromRSI (100 - at_index result (i - 1))%num period
              (at_index losses (i - 1)) in
          (((prevAvgGain * num_of_Z (period - 1) + at_index gains i) / num_of_Z period)%num,
           ((prevAvgLoss * num_of_Z (period - 1) + at_index losses i) / num_of_Z period)%num)
      in
      (result ++ [rsi_value avgGain avgLoss], gains, losses).

Definition rsi (closes : list num) (period : Z) : list num :=
  fst (fst (fold_left (rsi_step closes period) (seq 0 (length closes)) ([], [], []))).

Module Bands.
Record t : Type := mk {
  upper : list num;
  middle : list num;
  lower : list num;
}.
End Bands.

Section Deviation.
Context {math : JSMath}.

(** [for (j = 0; j < period; j++) { diff = data[i - j] - mean;
    sumSquares += diff * diff }] *)
Definition window_sum_squares (data : list num) (mean : num) (i period : Z) : num :=
  fold_left
    (fun sumSquares j =>
       let diff := (at_index data (i - Z.of_nat j) - mean)%num in
       (sumSquares + diff * diff)%num)
    (seq 0 (Z.to_nat period)) 0%num.

(** The standard deviation of the window that ends at [i], around the
    moving average [ma]. *)
Definition window_std (data ma : list num) (i period : Z) : num :=
  Math_sqrt (window_sum_squares data (at_index ma i) i period / num_of_Z period)%num.

Definition stdDev (data : list num) (period : Z) : list num :=
  let ma := sma data period in
  (fun n =>
     let i := Z.of_nat n in
     if i <? period - 1 then NaN else window_std data ma i period)
  <$> seq 0 (length data).

(** [bollingerBands(closes, period, stdDev)]; the third argument is
    [width] here. *)
Definition bollingerBands (closes : list num) (period : Z) (width : num) : Bands.t :=
  let middle := sma closes period in
  {| Bands.upper :=
       (fun n =>
          let i := Z.of_nat n in
          if i <? period - 1 then NaN
          else (at_index middle i + width * window_std closes middle i period)%num)
       <$> seq 0 (length closes);
     Bands.middle := middle;
     Bands.lower :=
       (fun n =>
          let i := Z.of_nat n in
          if i <? period - 1 then NaN
          else (at_index middle i - width * window_std closes middle i period)%num)
       <$> seq 0 (length closes) |}.
End Deviation.

(** [Math.sqrt] gives a finite number that is not negative for a finite
    number that is not negative. *)
Definition sqrt_defined (math : JSMath) : Prop :=
  ∀ q : Q, (0 <= q)%Q → ∃ r : Q, Math_sqrt (Fin q) = Fin r ∧ (0 <= r)%Q.

(** An instance of the library interface whose square root is the root of
    the integer part, rounded down. *)
Definition integer_roots : JSMath :=
  {| Math_sqrt := fun a =>
       match a with
       | Fin q => if Qle_bool 0 q then Fin (inject_Z (Z.sqrt (Qfloor q))) else NaN
       | PInf => PInf
       | _ => NaN
       end;
     Math_pow := fun _ _ => NaN |}.
(** A finite number from [lo] to [hi]. *)
Definition within (lo hi : Q) (a : num) : Prop :=
  ∃ q, a = Fin q ∧ (lo <= q)%Q ∧ (q <= hi)%Q.
(** A value of the smoothed RSI: the sentinel, or the index of two
    averages that are not negative. *)
Definition rsi_entry (v : num) : Prop :=
  v = NaN ∨ ∃ avgGain avgLoss, nonneg avgGain ∧ nonneg avgLoss ∧ v = rsi_value avgGain avgLoss.

(** A value of the ATR: the sentinel, or a number that is not negative. *)
Definition atr_entry (v : num) : Prop := v = NaN ∨ nonneg v.
(** What holds of the arrays of the loop of [rsi] after [n] turns, for
    finite closes and a period of at least 2: each array has [n]
    elements, the gains and the losses are not negative, and a value of
    the result that is 100, or is 0, at an index from [period] on is
    followed by the same value. *)
Definition rsi_invariant (period : Z) (n : nat) (st : list num * list num * list num)
  : Prop :=
  let '(result, gains, losses) := st in
  length result = n ∧ length gains = n ∧ length losses = n ∧
  Forall nonneg gains ∧ Forall nonneg losses ∧
  ∀ k : nat, period <= Z.of_nat k → (S k < n)%nat →
    (num_eq (at_index result (Z.of_nat k)) 100 →
     num_eq (at_index result (Z.of_nat (S k))) 100) ∧
    (num_eq (at_index result (Z.of_nat k)) 0 →
     num_eq (at_index result (Z.of_nat (S k))) 0).

(** ** Vocabulary of the grid search *)

(** The result [optimize] records for a combination: the metrics of a
    backtest of the combination on an engine of its own; [None] when the
    backtest throws. *)
Definition fresh_entry {math : JSMath} (candles : list Candle)
    (backtestConfig : BacktestConfig) (optimizationConfig : OptimizationConfig)
    (strategyFactory : StrategyParams → Strategy) (params : StrategyParams)
  : option OptimizationEntry :=
  match runBacktest candles (strategyFactory params) backtestConfig with
  | Some (result, _, _) =>
    Some {| OptimizationEntry.params := params;
            OptimizationEntry.metricValue :=
              metric_value (OptimizationConfig.metric optimizationConfig)
                (BacktestResult.metrics result);
            OptimizationEntry.metrics := BacktestResult.metrics result |}
  | None => None
  end.

(** [a] is at least as good as [b] for the direction of the search. *)
Definition as_good (maximize : bool) (a b : num) : bool :=
  if maximize then (b <=? a)%num else (a <=? b)%num.

(** The best of the results so far, as the loop of [optimize] keeps it. *)
Definition keep_best (maximize : bool) (best : StrategyParams * num)
    (entry : OptimizationEntry) : StrategyParams * num :=
  let metricValue := OptimizationEntry.metricValue entry in
  let isBetter :=
    if maximize then (metricValue >? snd best)%num else (metricValue <? snd best)%num in
  if isBetter && isFinite metricValue
  then (OptimizationEntry.params entry, metricValue) else best.

(** The comparator [optimize] sorts the results with. *)
Definition by_metric (maximize : bool) (a b : OptimizationEntry) : num :=
  if maximize
  then (OptimizationEntry.metricValue b - OptimizationEntry.metricValue a)%num
  else (OptimizationEntry.metricValue a - OptimizationEntry.metricValue b)%num.

(** The key the sorted results are in ascending order of: the metric
    value, with its sign changed when the search maximizes. *)
Definition metric_key (maximize : bool) (entry : OptimizationEntry) : Q :=
  match OptimizationEntry.metricValue entry with
  | Fin q => if maximize then (- q)%Q else q
  | _ => 0%Q
  end.


(** ** Vocabulary of the Monte Carlo statements *)

(** What the loop of [simulateEquityCurve] keeps on finite profits and a
    positive capital: finite equity, a positive finite peak and a finite
    drawdown record that is not negative. *)
Definition curve_invariant {math : JSMath} (st : curve_state) : Prop :=
  ∃ e p m : Q,
    cs_equity st = Fin e ∧ cs_peak st = Fin p ∧ (0 < p)%Q ∧
    cs_maxDrawdown st = Fin m ∧ (0 <= m)%Q.

(** The rational a finite number holds. *)
Definition rational_of (a : num) : Q :=
  match a with Fin q => q | _ => 0%Q end.

(** [l] read left to right never goes down; every member is a number
    that compares. *)
Fixpoint never_falls (l : list num) : bool :=
  match l with
  | a :: ((b :: _) as rest) => (a <=? b)%num && never_falls rest
  | [a] => (a <=? a)%num
  | [] => true
  end.


(** ** Walk-forward analysis ([lib/optimizer/walk-forward.ts])

    [analyze] and [aggregateResults].  An exception of [generateWindows]
    or of the out-of-sample run ends the analysis; [None] is that
    exception, or the combination loops of the optimizer running out of
    [fuel].  [processingTime] is wall-clock time and is left out. *)

Module WalkForwardWindowResult.
Record t : Type := mk {
  window : WalkForwardWindow;
  optimizedParams : StrategyParams;
  inSampleMetrics : PerformanceMetrics;
  outOfSampleMetrics : PerformanceMetrics;
  degradation : num;
}.
End WalkForwardWindowResult.
Abbreviation WalkForwardWindowResult := WalkForwardWindowResult.t.

Module AggregatedOutOfSample.
Record t : Type := mk {
  totalReturn : num;
  sharpeRatio : num;
  maxDrawdown : num;
  winRate : num;
  totalTrades : nat;
}.
End AggregatedOutOfSample.
Abbreviation AggregatedOutOfSample := AggregatedOutOfSample.t.

Module WalkForwardResult.
Record t : Type := mk {
  windows : list WalkForwardWindowResult;
  aggregatedOutOfSample : AggregatedOutOfSample;
  averageDegradation : num;
  robustnessScore : num;
}.
End WalkForwardResult.
Abbreviation WalkForwardResult := WalkForwardResult.t.

Definition aggregateResults (results : list WalkForwardWindowResult) : AggregatedOutOfSample :=
  match results with
  | [] =>
    {| AggregatedOutOfSample.totalReturn := 0;
       AggregatedOutOfSample.sharpeRatio := 0;
       AggregatedOutOfSample.maxDrawdown := 0;
       AggregatedOutOfSample.winRate := 0;
       AggregatedOutOfSample.totalTrades := 0 |}
  | _ =>
    let out := WalkForwardWindowResult.outOfSampleMetrics in
    let totalReturn :=
      fold_left (fun sum r => (sum + PerformanceMetrics.totalReturnPercent (out r))%num)
        results 0%num in
    let avgSharpe :=
      (fold_left (fun sum r => (sum + PerformanceMetrics.sharpeRatio (out r))%num)
         results 0 / num_of_nat (length results))%num in
    let maxDD :=
      Math_max_list (map (fun r => PerformanceMetrics.maxDrawdownPercent (out r)) results) in
    let totalTrades :=
      fold_left (fun sum r => (sum + PerformanceMetrics.totalTrades (out r))%nat)
        results 0%nat in
    let totalWins :=
      fold_left (fun sum r => (sum + PerformanceMetrics.winningTrades (out r))%nat)
        results 0%nat in
    let winRate :=
      if (0 <? totalTrades)%nat
      then (num_of_nat totalWins / num_of_nat totalTrades * 100)%num else 0%num in
    {| AggregatedOutOfSample.totalReturn := totalReturn;
       AggregatedOutOfSample.sharpeRatio := avgSharpe;
       AggregatedOutOfSample.maxDrawdown := maxDD;
       AggregatedOutOfSample.winRate := winRate;
       AggregatedOutOfSample.totalTrades := totalTrades |}
  end.

Section WalkForward.
Context {math : JSMath}.

Variable candles : list Candle.
Variable backtestConfig : BacktestConfig.
Variable walkForwardConfig : WalkForwardConfig.

(** One turn of the loop of [analyze]: the result pushed for [window]. *)
Definition analyze_window (fuel : nat) (strategyFactory : StrategyParams → Strategy)
    (baseParams : StrategyParams) (window : WalkForwardWindow)
  : option WalkForwardWindowResult :=
  let trainCandles :=
    slice candles (IndexRange.start (WalkForwardWindow.trainIndex window))
      (IndexRange.end_ (WalkForwardWindow.trainIndex window) + 1) in
  let testCandles :=
    slice candles (IndexRange.start (WalkForwardWindow.testIndex window))
      (IndexRange.end_ (WalkForwardWindow.testIndex window) + 1) in
  optimResult ←
    optimize trainCandles backtestConfig
      (WalkForwardConfig.optimizationConfig walkForwardConfig) fuel strategyFactory baseParams;
  let optimizedParams := OptimizationResult.bestParams optimResult in
  let inSampleMetrics :=
    OptimizationEntry.metrics <$> head (OptimizationResult.allResults optimResult) in
  let engine := new_BacktestEngine backtestConfig in
  let optimizedStrategy := strategyFactory optimizedParams in
  match run testCandles optimizedStrategy engine with
  | None => None
  | Some (outOfSampleResult, _, _) =>
    let metric :=
      OptimizationConfig.metric (WalkForwardConfig.optimizationConfig walkForwardConfig) in
    let inSampleValue :=
      match inSampleMetrics with
      | Some m => if truthy (metric_value metric m) then metric_value metric m else 0%num
      | None => 0%num
      end in
    let outOfSampleValue := metric_value metric (BacktestResult.metrics outOfSampleResult) in
    let degradation :=
      if nneqb inSampleValue 0
      then ((inSampleValue - outOfSampleValue) / Math_abs inSampleValue * 100)%num
      else 0%num in
    Some {| WalkForwardWindowResult.window := window;
            WalkForwardWindowResult.optimizedParams := optimizedParams;
            WalkForwardWindowResult.inSampleMetrics :=
              default (BacktestResult.metrics outOfSampleResult) inSampleMetrics;
            WalkForwardWindowResult.outOfSampleMetrics :=
              BacktestResult.metrics outOfSampleResult;
            WalkForwardWindowResult.degradation := degradation |}
  end.

(** [analyze]; the progress callback has no part in the result. *)
Definition analyze (fuel : nat) (strategyFactory : StrategyParams → Strategy)
    (baseParams : StrategyParams) : option WalkForwardResult :=
  windows ← generateWindows candles walkForwardConfig;
  results ← mapM (analyze_window fuel strategyFactory baseParams) windows;
  let aggregated := aggregateResults results in
  let averageDegradation :=
    (fold_left (fun sum r => (sum + WalkForwardWindowResult.degradation r)%num) results 0 /
     num_of_nat (length results))%num in
  let robustnessScore := Math_max 0 (Math_min 100 (100 - averageDegradation)%num) in
  Some {| WalkForwardResult.windows := results;
          WalkForwardResult.aggregatedOutOfSample := aggregated;
          WalkForwardResult.averageDegradation := averageDegradation;
          WalkForwardResult.robustnessScore := robustnessScore |}.
End WalkForward.

(** What every window of [generateWindows] looks like: its four
    timestamps are those of the candles at its four indices, all inside
    the array, and its test range is not empty and begins right after its
    train range ends. *)
Definition window_shape (candles : list Candle) (w : WalkForwardWindow) : Prop :=
  let train := WalkForwardWindow.trainIndex w in
  let test := WalkForwardWindow.testIndex w in
  timestamp_at candles (IndexRange.start train) = Some (WalkForwardWindow.trainStart w) ∧
  timestamp_at candles (IndexRange.end_ train) = Some (WalkForwardWindow.trainEnd w) ∧
  timestamp_at candles (IndexRange.start test) = Some (WalkForwardWindow.testStart w) ∧
  timestamp_at candles (IndexRange.end_ test) = Some (WalkForwardWindow.testEnd w) ∧
  IndexRange.start test = IndexRange.end_ train + 1 ∧
  IndexRange.start test <= IndexRange.end_ test.

(** The default configuration with [maxPositionSize] 0. *)
Definition zero_cap_config : BacktestConfig :=
  {| BacktestConfig.initialCapital := Fin 10000;
     BacktestConfig.commission := Fin (1 # 10000);
     BacktestConfig.slippage := Fin (1 # 10);
     BacktestConfig.leverage := Fin 100;
     BacktestConfig.maxPositionSize := Fin 0 |}.

(** ** Grid search in double precision

    JavaScript numbers are IEEE 754 doubles, and every operation rounds
    to the nearest one.  The engine above computes with exact rationals;
    for the two counts of the grid search the rounding matters: the loop
    [for (let value = min; value <= max; value += step)] adds [step] with
    a rounding at every turn, and [getTotalCombinations] rounds a
    quotient before it takes the floor.  [Module Double] is the grid
    search with its ranges and its arithmetic in doubles; the backtests
    themselves run as above. *)

Definition exact_config (paramRanges : list (string * OptimizationRange))
    (metric : MetricKey) (maximize : bool) : OptimizationConfig :=
  {| OptimizationConfig.paramRanges := paramRanges;
     OptimizationConfig.metric := metric;
     OptimizationConfig.maximize := maximize |}.

Definition exact_range (min max step : num) : OptimizationRange :=
  {| OptimizationRange.min := min; OptimizationRange.max := max;
     OptimizationRange.step := step |}.

Set Warnings "-inexact-float".

Module Double.

Module OptimizationRange.
Record t : Type := mk {
  min : float;
  max : float;
  step : float;
}.
End OptimizationRange.
Abbreviation OptimizationRange := OptimizationRange.t.

Module OptimizationConfig.
Record t : Type := mk {
  paramRanges : list (string * OptimizationRange);
  metric : MetricKey;
  maximize : bool;
}.
End OptimizationConfig.
Abbreviation OptimizationConfig := OptimizationConfig.t.

(** [Math.floor].  A double of magnitude 2^52 or more is an integer.
    Below that, adding and taking away 2^52 rounds to the nearest
    integer, which is the floor or one above it. *)
Definition two52 : float := 4503599627370496%float.

Definition Math_floor (x : float) : float :=
  if (abs x <? two52)%float then
    let nearest :=
      if (0 <=? x)%float then ((x + two52) - two52)%float
      else ((x - two52) + two52)%float in
    if (x <? nearest)%float then (nearest - 1)%float else nearest
  else x.

(** [Math.round]: the nearest integer, a tie going up. *)
Definition Math_round (x : float) : float :=
  let below := Math_floor x in
  if (0.5 <=? x - below)%float then (below + 1)%float else below.

(** The number a double stands for. *)
Definition to_num (x : float) : num :=
  match FloatOps.Prim2SF x with
  | SpecFloat.S754_zero _ => Fin 0
  | SpecFloat.S754_infinity false => PInf
  | SpecFloat.S754_infinity true => NInf
  | SpecFloat.S754_nan => NaN
  | SpecFloat.S754_finite sign mantissa exponent =>
    let magnitude := (inject_Z (Z.pos mantissa) * Qpower 2 exponent)%Q in
    Fin (if sign then - magnitude else magnitude)%Q
  end.

(** The configuration with every bound of a range replaced by the number
    it stands for. *)
Definition exact (optimizationConfig : OptimizationConfig) :=
  exact_config
    (map (fun kr : string * OptimizationRange =>
            (fst kr,
             exact_range (to_num (OptimizationRange.min (snd kr)))
               (to_num (OptimizationRange.max (snd kr)))
               (to_num (OptimizationRange.step (snd kr)))))
       (OptimizationConfig.paramRanges optimizationConfig))
    (OptimizationConfig.metric optimizationConfig)
    (OptimizationConfig.maximize optimizationConfig).

(** The values the loop of a range runs its body on; [None] when [fuel]
    turns were not enough. *)
Fixpoint for_values (fuel : nat) (value max step : float) : option (list float) :=
  if (value <=? max)%float then
    match fuel with
    | O => None
    | S fuel' => cons value <$> for_values fuel' (value + step)%float max step
    end
  else Some [].

Fixpoint generateRecursive (fuel : nat) (baseParams : StrategyParams)
    (ranges : list (string * OptimizationRange)) (current : StrategyParams)
  : option (list StrategyParams) :=
  match ranges with
  | [] => Some [current ∪ baseParams]
  | (key, range) :: rest =>
    values ← for_values fuel (OptimizationRange.min range)
               (OptimizationRange.max range) (OptimizationRange.step range);
    (fun pushed => concat pushed) <$>
      mapM (fun value =>
              let roundedValue := (Math_round (value * 1000) / 1000)%float in
              generateRecursive fuel baseParams rest
                (<[key := PNum (to_num roundedValue)]> current))
           values
  end.

Definition generateCombinations (optimizationConfig : OptimizationConfig)
    (fuel : nat) (baseParams : StrategyParams) : option (list StrategyParams) :=
  generateRecursive fuel baseParams (OptimizationConfig.paramRanges optimizationConfig) ∅.

Definition getTotalCombinations (optimizationConfig : OptimizationConfig) : float :=
  fold_left
    (fun total range =>
       let steps :=
         (Math_floor ((OptimizationRange.max range - OptimizationRange.min range) /
                      OptimizationRange.step range) + 1)%float in
       (total * steps)%float)
    (map snd (OptimizationConfig.paramRanges optimizationConfig)) 1%float.

(** [optimize] on the combinations the loops give in doubles. *)
Definition optimize {math : JSMath} (candles : list Candle)
    (backtestConfig : BacktestConfig) (optimizationConfig : OptimizationConfig)
    (fuel : nat) (strategyFactory : StrategyParams → Strategy)
    (baseParams : StrategyParams) : option OptimizationResult :=
  combinations ← generateCombinations optimizationConfig fuel baseParams;
  let st :=
    optimize_loop candles backtestConfig (exact optimizationConfig) strategyFactory
      baseParams combinations in
  Some {| OptimizationResult.bestParams := st_bestParams st;
          OptimizationResult.bestMetricValue := st_bestMetricValue st;
          OptimizationResult.allResults :=
            sort_by (by_metric (OptimizationConfig.maximize optimizationConfig))
              (st_results st);
          OptimizationResult.totalCombinations := length combinations |}.

(** The ranges a claim about [min <= max] and a positive step speaks of. *)
Definition well_formed (range : OptimizationRange) : bool :=
  (0 <? OptimizationRange.step range)%float &&
  (OptimizationRange.min range <=? OptimizationRange.max range)%float.

End Double.

(** The grid the page searches for the price-action strategy. *)
Definition price_action_grid : Double.OptimizationConfig :=
  {| Double.OptimizationConfig.paramRanges :=
       [("slTpRatio"%string,
         {| Double.OptimizationRange.min := 1.5; Double.OptimizationRange.max := 3;
            Double.OptimizationRange.step := 0.5 |});
        ("minWickPips"%string,
         {| Double.OptimizationRange.min := 0.05; Double.OptimizationRange.max := 0.15;
            Double.OptimizationRange.step := 0.05 |})];
     Double.OptimizationConfig.metric := KsharpeRatio;
     Double.OptimizationConfig.maximize := true |}.

(** A grid of one range: a threshold from 0 to 0.7 in steps of 0.1. *)
Definition tenths_grid : Double.OptimizationConfig :=
  {| Double.OptimizationConfig.paramRanges :=
       [("threshold"%string,
         {| Double.OptimizationRange.min := 0; Double.OptimizationRange.max := 0.7;
            Double.OptimizationRange.step := 0.1 |})];
     Double.OptimizationConfig.metric := KtotalReturn;
     Double.OptimizationConfig.maximize := true |}.

(** * Properties *)

(** ** Facts about numbers *)

Lemma num_eq_refl (a : num) : num_eq a a.
Proof. destruct a; simpl; auto. reflexivity. Qed.

Lemma num_eq_sym (a b : num) : num_eq a b → num_eq b a.
Proof. destruct a, b; simpl; auto. intros E; symmetry; exact E. Qed.

Lemma num_eq_trans (a b c : num) : num_eq a b → num_eq b c → num_eq a c.
Proof.
  destruct a, b, c; simpl; auto; try contradiction.
  intros E1 E2; rewrite E1; exact E2.
Qed.

#[global] Instance num_eq_equivalence : Equivalence num_eq.
Proof.
  split.
  - exact num_eq_refl.
  - exact num_eq_sym.
  - exact num_eq_trans.
Qed.

#[global] Instance nadd_proper : Proper (num_eq ==> num_eq ==> num_eq) nadd.
Proof.
  intros a a' Ea b b' Eb.
  destruct a, a'; simpl in Ea; try contradiction;
    destruct b, b'; simpl in Eb; try contradiction; simpl; auto.
  rewrite Ea, Eb; reflexivity.
Qed.

Lemma nadd_comm (a b : num) : num_eq (a + b) (b + a).
Proof. destruct a, b; simpl; auto. ring. Qed.

Lemma nadd_assoc (a b c : num) : num_eq (a + (b + c)) (a + b + c).
Proof. destruct a, b, c; simpl; auto. ring. Qed.

Lemma nadd_0_l (a : num) : num_eq (0 + a) a.
Proof. destruct a; simpl; auto. ring. Qed.

Lemma nadd_sub_cancel (c : Q) (a : num) : num_eq (Fin c + a - Fin c) a.
Proof. destruct a; simpl; auto. ring. Qed.

Lemma Qeq_bool_true (q : Q) : (q == 0)%Q → Qeq_bool q 0 = true.
Proof. intros E. apply Qeq_bool_iff. exact E. Qed.

Lemma truthy_zero (q : Q) : (q == 0)%Q → truthy (Fin q) = false.
Proof. intros E. simpl. rewrite (Qeq_bool_true q E). reflexivity. Qed.

Lemma truthy_opt_zero_level (o : option num) : zero_level o → truthy_opt o = false.
Proof. intros (q & -> & E). simpl. rewrite (Qeq_bool_true q E). reflexivity. Qed.

Lemma truthy_not_zero (a : num) : truthy a = true → ¬ num_eq a 0.
Proof.
  destruct a; simpl; auto; try discriminate.
  intros T E. rewrite (Qeq_bool_true q E) in T. discriminate.
Qed.

(** ** Opening a position *)

Lemma openPosition_position (direction : TradeDirection) (candle : Candle)
    (signal : Signal) (e : BacktestEngine) :
  ∃ p, Engine.position (openPosition direction candle signal e) = Some p ∧
       Position.direction p = direction ∧
       Position.size p =
         (if truthy_opt (Signal.size signal)
          then Math_min (to_num (Signal.size signal)) (position_cap e)
          else position_cap e) ∧
       Position.stopLoss p = Signal.stopLoss signal ∧
       Position.takeProfit p = Signal.takeProfit signal.
Proof. eexists. repeat split; reflexivity. Qed.

Lemma executeSignal_opened (signal : Signal) (candle : Candle) (e : BacktestEngine)
    (p : Position) :
  Signal.type signal ≠ close →
  Engine.position (executeSignal signal candle e) = Some p →
  Engine.position e ≠ Some p →
  ∃ e1 direction,
    executeSignal signal candle e = openPosition direction candle signal e1 ∧
    position_cap (executeSignal signal candle e) = position_cap e1.
Proof.
  intros Hty Hp Hne. unfold executeSignal in *.
  destruct (Signal.type signal); [ | | congruence].
  - destruct (has_direction short (Engine.position e)) eqn:Hd.
    + unfold closePosition in *. destruct (Engine.position e) as [p0|]; [ | discriminate].
      simpl in *. eexists _, long. split; reflexivity.
    + destruct (Engine.position e) as [p0|] eqn:Hpos.
      * congruence.
      * eexists _, long. split; reflexivity.
  - destruct (has_direction long (Engine.position e)) eqn:Hd.
    + unfold closePosition in *. destruct (Engine.position e) as [p0|]; [ | discriminate].
      simpl in *. eexists _, short. split; reflexivity.
    + destruct (Engine.position e) as [p0|] eqn:Hpos.
      * congruence.
      * eexists _, short. split; reflexivity.
Qed.

(** C9.  A position opened for a signal whose [size] is absent, or is
    exactly 0, has the full cap [equity * maxPositionSize * leverage] as its
    size, in either direction, and the size is not 0 unless the cap itself
    is; so has every position a buy or sell signal of that kind opens. *)
Theorem openPosition_size_absent_or_zero (signal : Signal) :
  size_absent_or_zero signal →
  (∀ direction candle e,
     ∃ p, Engine.position (openPosition direction candle signal e) = Some p ∧
          Position.size p =
            (Engine.equity e * BacktestConfig.maxPositionSize (Engine.config e) *
             BacktestConfig.leverage (Engine.config e))%num ∧
          (¬ num_eq (position_cap e) 0 → ¬ num_eq (Position.size p) 0)) ∧
  (∀ candle e p,
     Signal.type signal ≠ close →
     Engine.position (executeSignal signal candle e) = Some p →
     Engine.position e ≠ Some p →
     Position.size p = position_cap (executeSignal signal candle e)).
Proof.
  intros Hsize.
  assert (truthy_opt (Signal.size signal) = false) as Hfalsy.
  { destruct Hsize as [-> | Hz]; [reflexivity | exact (truthy_opt_zero_level _ Hz)]. }
  assert (∀ direction candle e p,
            Engine.position (openPosition direction candle signal e) = Some p →
            Position.size p = position_cap e) as Hopen.
  { intros direction candle e p Hp.
    destruct (openPosition_position direction candle signal e)
      as (p' & Hp' & _ & Hs & _).
    rewrite Hfalsy in Hs. congruence. }
  split.
  - intros direction candle e.
    destruct (openPosition_position direction candle signal e) as (p & Hp & _).
    exists p. split; [exact Hp | ].
    rewrite (Hopen _ _ _ _ Hp). split; [reflexivity | auto].
  - intros candle e p Hty Hp Hne.
    destruct (executeSignal_opened signal candle e p Hty Hp Hne)
      as (e1 & direction & Heq & Hcap).
    rewrite Hcap. rewrite Heq in Hp. exact (Hopen _ _ _ _ Hp).
Qed.

(** A signal without a size under a [maxPositionSize] of 0: the cap is 0,
    and the position is opened at size 0. *)
Lemma zero_cap_opens_at_size_zero :
  size_absent_or_zero (signal_of buy None None None) ∧
  ∃ p, Engine.position
         (executeSignal (signal_of buy None None None) quiet_candle
            (new_BacktestEngine zero_cap_config)) = Some p ∧
       Position.size p = 0%num.
Proof.
  split; [left; reflexivity | ].
  eexists. split; reflexivity.
Qed.

(** ** The exit check *)

Lemma checkExitConditions_cases (candle : Candle) (e : BacktestEngine) (p : Position) :
  Engine.position e = Some p →
  checkExitConditions candle e =
    if stop_hit candle p then
      closePosition (to_num (Position.stopLoss p)) (Candle.timestamp candle)
        (Some "Stop loss hit") e
    else if target_hit candle p then
      closePosition (to_num (Position.takeProfit p)) (Candle.timestamp candle)
        (Some "Take profit hit") e
    else e.
Proof.
  intros Hp. unfold checkExitConditions, stop_hit, target_hit. rewrite Hp.
  destruct (Position.direction p); reflexivity.
Qed.

Lemma closePosition_open (exitPrice exitTime : num) (reason : option string)
    (e : BacktestEngine) (p : Position) :
  Engine.position e = Some p →
  Engine.position (closePosition exitPrice exitTime reason e) = None ∧
  Engine.trades (closePosition exitPrice exitTime reason e) =
    Engine.trades e ++ [trade_of (Engine.config e) p exitPrice exitTime] ∧
  Trade.exitPrice (trade_of (Engine.config e) p exitPrice exitTime) =
    Some (slipped (Engine.config e) (Position.direction p) exitPrice) ∧
  Trade.exitTime (trade_of (Engine.config e) p exitPrice exitTime) = Some exitTime.
Proof.
  intros Hp. unfold closePosition. rewrite Hp. simpl.
  repeat split.
Qed.

(** The reason handed to [closePosition] leaves no trace in the engine. *)
Lemma closePosition_reason_unused (exitPrice exitTime : num) (r1 r2 : option string)
    (e : BacktestEngine) :
  closePosition exitPrice exitTime r1 e = closePosition exitPrice exitTime r2 e.
Proof. reflexivity. Qed.

(** C10.  A stop-loss that is exactly 0 never closes the position: the
    exit check then does what it does for the take-profit alone; a
    take-profit that is exactly 0 never closes it either: the check then
    does what it does for the stop-loss alone; for a long and for a short
    position alike. *)
Theorem checkExitConditions_zero_level (candle : Candle) (e : BacktestEngine)
    (p : Position) :
  Engine.position e = Some p →
  (zero_level (Position.stopLoss p) →
   stop_hit candle p = false ∧
   checkExitConditions candle e =
     if target_hit candle p then
       closePosition (to_num (Position.takeProfit p)) (Candle.timestamp candle)
         (Some "Take profit hit") e
     else e) ∧
  (zero_level (Position.takeProfit p) →
   target_hit candle p = false ∧
   checkExitConditions candle e =
     if stop_hit candle p then
       closePosition (to_num (Position.stopLoss p)) (Candle.timestamp candle)
         (Some "Stop loss hit") e
     else e) ∧
  (zero_level (Position.stopLoss p) → zero_level (Position.takeProfit p) →
   checkExitConditions candle e = e).
Proof.
  intros Hp. rewrite (checkExitConditions_cases candle e p Hp).
  assert (zero_level (Position.stopLoss p) → stop_hit candle p = false) as Hs.
  { intros Hz. unfold stop_hit. rewrite (truthy_opt_zero_level _ Hz). reflexivity. }
  assert (zero_level (Position.takeProfit p) → target_hit candle p = false) as Ht.
  { intros Hz. unfold target_hit. rewrite (truthy_opt_zero_level _ Hz). reflexivity. }
  split; [ | split].
  - intros Hz. split; [exact (Hs Hz) | rewrite (Hs Hz); reflexivity].
  - intros Hz. split; [exact (Ht Hz) | ].
    rewrite (Ht Hz). destruct (stop_hit candle p); reflexivity.
  - intros Hz1 Hz2. rewrite (Hs Hz1), (Ht Hz2). reflexivity.
Qed.

Lemma checkExitConditions_frame (candle : Candle) (e : BacktestEngine) :
  Engine.config (checkExitConditions candle e) = Engine.config e ∧
  Engine.candles (checkExitConditions candle e) = Engine.candles e ∧
  Engine.currentIndex (checkExitConditions candle e) = Engine.currentIndex e.
Proof.
  unfold checkExitConditions, closePosition.
  destruct (Engine.position e) as [p|]; [ | auto].
  destruct (Position.direction p);
    repeat match goal with |- context [if ?b then _ else _] => destruct b end;
    simpl; auto.
Qed.

Lemma closePosition_trade (exitPrice exitTime : num) (reason : option string)
    (e : BacktestEngine) (p : Position) :
  Engine.position e = Some p →
  Engine.position (closePosition exitPrice exitTime reason e) = None ∧
  ∃ t, Engine.trades (closePosition exitPrice exitTime reason e) = Engine.trades e ++ [t] ∧
       Trade.exitPrice t = Some (slipped (Engine.config e) (Position.direction p) exitPrice) ∧
       Trade.exitTime t = Some exitTime.
Proof.
  intros Hp.
  destruct (closePosition_open exitPrice exitTime reason e p Hp) as (H1 & H2 & H3 & H4).
  split; [exact H1 | ]. eexists. split; [exact H2 | ]. split; [exact H3 | exact H4].
Qed.

(** C2, as the code has it.  With a position open, [run] makes the exit
    check on the candle before it calls [onCandle], which is handed the
    position the check left.  The stop-loss is tested first, on the low for
    a long and on the high for a short position, and only a level that is
    set and not 0 is tested; the take-profit is tested when the stop did
    not trigger, on the high for a long and on the low for a short.  On a
    trigger the position is closed at the level, not at the candle's close:
    the trade appended has the level, moved by the slippage, as its exit
    price and the candle's timestamp as its exit time. *)
Theorem exit_check_precedes_strategy (strat : Strategy) (candle : Candle)
    (e : BacktestEngine) (p : Position) (s : Strategy.state strat) :
  Engine.position e = Some p →
  let e1 := checkExitConditions candle e in
  let consulted :=
    Strategy.onCandle strat (Engine.currentIndex e) (getHistoricalCandles e)
      (Engine.position e1) s in
  process_candle strat candle e s =
    (updateEquityCurve candle
       match fst consulted with
       | Some signal => executeSignal signal candle e1
       | None => e1
       end, snd consulted) ∧
  (stop_hit candle p = true →
   Engine.position e1 = None ∧
   ∃ t, Engine.trades e1 = Engine.trades e ++ [t] ∧
        Trade.exitPrice t =
          Some (slipped (Engine.config e) (Position.direction p)
                  (to_num (Position.stopLoss p))) ∧
        Trade.exitTime t = Some (Candle.timestamp candle)) ∧
  (stop_hit candle p = false → target_hit candle p = true →
   Engine.position e1 = None ∧
   ∃ t, Engine.trades e1 = Engine.trades e ++ [t] ∧
        Trade.exitPrice t =
          Some (slipped (Engine.config e) (Position.direction p)
                  (to_num (Position.takeProfit p))) ∧
        Trade.exitTime t = Some (Candle.timestamp candle)) ∧
  (stop_hit candle p = false → target_hit candle p = false → e1 = e).
Proof.
  intros Hp e1 consulted.
  split.
  - unfold process_candle, consulted, getHistoricalCandles. fold e1.
    destruct (checkExitConditions_frame candle e) as (_ & Hc & Hi).
    fold e1 in Hc, Hi. rewrite Hc, Hi.
    destruct (Strategy.onCandle strat _ _ _ s) as [signal s1]. reflexivity.
  - unfold e1. rewrite (checkExitConditions_cases candle e p Hp).
    split; [ | split].
    + intros Hs. rewrite Hs. apply closePosition_trade. exact Hp.
    + intros Hs Ht. rewrite Hs, Ht. apply closePosition_trade. exact Hp.
    + intros Hs Ht. rewrite Hs, Ht. reflexivity.
Qed.

Lemma exit_check_precedes_strategy_witness :
  Engine.position (engine_holding DEFAULT_BACKTEST_CONFIG long_stop_95) = Some long_stop_95 ∧
  stop_hit falling_candle long_stop_95 = true ∧
  Engine.position
    (checkExitConditions falling_candle
       (engine_holding DEFAULT_BACKTEST_CONFIG long_stop_95)) = None.
Proof.
  split; [reflexivity | ]. split; [reflexivity | ].
  exact (proj1 (proj1 (proj2 (exit_check_precedes_strategy always_buy falling_candle
           (engine_holding DEFAULT_BACKTEST_CONFIG long_stop_95) long_stop_95 tt
           eq_refl)) eq_refl)).
Defined.

(** C2 as it is worded fails on two inputs.  A long position with a
    take-profit of 0 stays open on a candle whose high is above 0; and a
    long position stopped at 95 under the default configuration gets the
    exit price 94.999, not 95. *)
Lemma exit_check_as_worded_fails :
  (Position.direction long_target_zero = long ∧
   Position.takeProfit long_target_zero = Some (Fin 0) ∧
   (Candle.high quiet_candle >=? Fin 0)%num = true ∧
   Engine.position
     (checkExitConditions quiet_candle
        (engine_holding DEFAULT_BACKTEST_CONFIG long_target_zero)) =
     Some long_target_zero) ∧
  (Position.stopLoss long_stop_95 = Some (Fin 95) ∧
   (Candle.low falling_candle <=? Fin 95)%num = true ∧
   ∃ t, Engine.trades
          (checkExitConditions falling_candle
             (engine_holding DEFAULT_BACKTEST_CONFIG long_stop_95)) = [t] ∧
        num_eq (to_num (Trade.exitPrice t)) (Fin (94999 # 1000)) ∧
        ¬ num_eq (to_num (Trade.exitPrice t)) (Fin 95)).
Proof.
  split.
  - repeat split.
  - split; [reflexivity | ]. split; [reflexivity | ].
    eexists. split; [reflexivity | ]. split.
    + vm_compute. reflexivity.
    + vm_compute. discriminate.
Qed.

Lemma openPosition_size_absent_or_zero_witness :
  size_absent_or_zero (signal_of buy (Some (Fin 0)) None None) ∧
  ∃ p, Engine.position
         (openPosition long quiet_candle (signal_of buy (Some (Fin 0)) None None)
            (new_BacktestEngine DEFAULT_BACKTEST_CONFIG)) = Some p ∧
       Position.size p = (Fin 10000 * Fin (1 # 10) * Fin 100)%num.
Proof.
  assert (size_absent_or_zero (signal_of buy (Some (Fin 0)) None None)) as Hsize.
  { right. exists 0%Q. split; reflexivity. }
  split; [exact Hsize | ].
  destruct (proj1 (openPosition_size_absent_or_zero _ Hsize) long quiet_candle
              (new_BacktestEngine DEFAULT_BACKTEST_CONFIG)) as (p & Hp & Hs & _).
  exists p. split; [exact Hp | exact Hs].
Defined.

Lemma checkExitConditions_zero_level_witness :
  Engine.position (engine_holding DEFAULT_BACKTEST_CONFIG short_stop_zero) =
    Some short_stop_zero ∧
  zero_level (Position.stopLoss short_stop_zero) ∧
  checkExitConditions quiet_candle
    (engine_holding DEFAULT_BACKTEST_CONFIG short_stop_zero) =
  engine_holding DEFAULT_BACKTEST_CONFIG short_stop_zero.
Proof.
  assert (zero_level (Position.stopLoss short_stop_zero)) as Hz.
  { exists 0%Q. split; reflexivity. }
  split; [reflexivity | ]. split; [exact Hz | ].
  destruct (checkExitConditions_zero_level quiet_candle
              (engine_holding DEFAULT_BACKTEST_CONFIG short_stop_zero)
              short_stop_zero eq_refl) as (H1 & _).
  destruct (H1 Hz) as (_ & H2). rewrite H2. reflexivity.
Defined.

(** ** Reuse of an engine *)

Section Reuse.
Context {math : JSMath}.

Lemma closePosition_config (exitPrice exitTime : num) (reason : option string)
    (e : BacktestEngine) :
  Engine.config (closePosition exitPrice exitTime reason e) = Engine.config e.
Proof. unfold closePosition. destruct (Engine.position e); reflexivity. Qed.

Lemma executeSignal_config (signal : Signal) (candle : Candle) (e : BacktestEngine) :
  Engine.config (executeSignal signal candle e) = Engine.config e.
Proof.
  unfold executeSignal.
  destruct (Signal.type signal).
  - destruct (has_direction short (Engine.position e));
      match goal with |- context [Engine.position ?x] => destruct (Engine.position x) end;
      simpl; rewrite ?closePosition_config; reflexivity.
  - destruct (has_direction long (Engine.position e));
      match goal with |- context [Engine.position ?x] => destruct (Engine.position x) end;
      simpl; rewrite ?closePosition_config; reflexivity.
  - destruct (Engine.position e); rewrite ?closePosition_config; reflexivity.
Qed.

Lemma process_candle_config (strat : Strategy) (candle : Candle) (e : BacktestEngine)
    (s : Strategy.state strat) :
  Engine.config (fst (process_candle strat candle e s)) = Engine.config e.
Proof.
  unfold process_candle.
  destruct (Strategy.onCandle strat _ _ _ s) as [[signal|] s1]; simpl.
  - rewrite executeSignal_config. apply checkExitConditions_frame.
  - apply checkExitConditions_frame.
Qed.

Lemma run_loop_config (strat : Strategy) (n : nat) (e : BacktestEngine)
    (s : Strategy.state strat) :
  Engine.config (fst (run_loop strat n e s)) = Engine.config e.
Proof.
  revert e s. induction n as [|n IH]; intros e s; simpl; [reflexivity | ].
  destruct (Engine.candles e !! Engine.currentIndex e) as [candle|]; [ | reflexivity].
  pose proof (process_candle_config strat candle e s) as Hc.
  destruct (process_candle strat candle e s) as [e1 s1]. simpl in Hc.
  rewrite IH. simpl. exact Hc.
Qed.

Lemma last_opt_cons {A : Type} (x : A) (l : list A) : ∃ y, last_opt (x :: l) = Some y.
Proof.
  revert x. induction l as [|z l IH]; intros x.
  - exists x. reflexivity.
  - destruct (IH z) as (y & Hy). exists y. exact Hy.
Qed.

(** [run] reads the engine it is called on through its configuration
    only. *)
Lemma run_reads_config (candles : list Candle) (strat : Strategy)
    (e1 e2 : BacktestEngine) :
  Engine.config e1 = Engine.config e2 →
  run candles strat e1 = run candles strat e2.
Proof.
  intros Hc. unfold run.
  replace (reset candles e1) with (reset candles e2);
    [reflexivity | unfold reset; rewrite Hc; reflexivity].
Qed.

Lemma run_config (candles : list Candle) (strat : Strategy) (e : BacktestEngine)
    (r : BacktestResult) (e' : BacktestEngine) (strat' : Strategy) :
  run candles strat e = Some (r, e', strat') →
  Engine.config e' = Engine.config e.
Proof.
  unfold run. destruct candles as [|first rest]; [discriminate | ].
  destruct (last_opt (first :: rest)) as [lastCandle|]; [ | discriminate].
  pose proof (run_loop_config strat (length (Engine.candles (reset (first :: rest) e)))
                (reset (first :: rest) e)
                (Strategy.init strat (Engine.candles (reset (first :: rest) e))
                   (Engine.config (reset (first :: rest) e)) (Strategy.self strat))) as Hc.
  destruct (run_loop strat _ _ _) as [e1 s1]. simpl in Hc.
  intros Hrun. injection Hrun as _ He _. subst e'.
  destruct (Engine.position e1); rewrite ?closePosition_config; exact Hc.
Qed.

Lemma run_returns (candles : list Candle) (strat : Strategy) (e : BacktestEngine) :
  candles ≠ [] →
  ∃ r e' strat', run candles strat e = Some (r, e', strat').
Proof.
  intros Hne. unfold run. destruct candles as [|first rest]; [congruence | ].
  destruct (last_opt_cons first rest) as (lastCandle & ->).
  destruct (run_loop strat _ _ _) as [e1 s1]. eauto.
Qed.

(** C3.  On a candle list that is not empty [run] returns, and what it
    returns is fixed by the candles, the strategy instance and the
    configuration: a second call on the engine the first call left
    behind, with a strategy instance equal to the first, returns the same
    result and leaves the same engine, and so does a call on a newly
    constructed engine of that configuration and on any other engine of
    that configuration, whatever its position, trades, equity curve and
    trade counter are. *)
Theorem run_reusable (candles : list Candle) (strat : Strategy) (e : BacktestEngine) :
  candles ≠ [] →
  ∃ r e' strat',
    run candles strat e = Some (r, e', strat') ∧
    run candles strat e' = Some (r, e', strat') ∧
    run candles strat (new_BacktestEngine (Engine.config e)) = Some (r, e', strat') ∧
    ∀ e2, Engine.config e2 = Engine.config e →
          run candles strat e2 = Some (r, e', strat').
Proof.
  intros Hne.
  destruct (run_returns candles strat e Hne) as (r & e' & strat' & Hrun).
  exists r, e', strat'.
  assert (∀ e2, Engine.config e2 = Engine.config e →
                run candles strat e2 = Some (r, e', strat')) as Hany.
  { intros e2 Hc. rewrite (run_reads_config candles strat e2 e Hc). exact Hrun. }
  split; [exact Hrun | ]. split; [ | split; [ | exact Hany]].
  - apply Hany. exact (run_config _ _ _ _ _ _ Hrun).
  - apply Hany. reflexivity.
Qed.
End Reuse.

Lemma run_reusable_witness :
  [quiet_candle] ≠ [] ∧
  run (math := unevaluated) [quiet_candle] always_buy
    (engine_holding DEFAULT_BACKTEST_CONFIG long_stop_95) =
  run (math := unevaluated) [quiet_candle] always_buy
    (new_BacktestEngine DEFAULT_BACKTEST_CONFIG).
Proof.
  assert ([quiet_candle] ≠ []) as Hne by discriminate.
  split; [exact Hne | ].
  destruct (run_reusable (math := unevaluated) [quiet_candle] always_buy
              (engine_holding DEFAULT_BACKTEST_CONFIG long_stop_95) Hne)
    as (r & e' & strat' & H1 & _ & H3 & _).
  rewrite H1. symmetry. exact H3.
Defined.

(** ** The accounting of a run *)

Lemma sum_pnl_snoc (ts : list Trade) (t : Trade) :
  sum_pnl (ts ++ [t]) = (sum_pnl ts + pnl_or_0 t)%num.
Proof. unfold sum_pnl. rewrite fold_left_app. reflexivity. Qed.

Lemma closePosition_realized (exitPrice exitTime : num) (reason : option string)
    (e : BacktestEngine) :
  realized e → realized (closePosition exitPrice exitTime reason e).
Proof.
  unfold realized, closePosition. intros Hr.
  destruct (Engine.position e) as [p|]; [ | exact Hr]. simpl.
  rewrite sum_pnl_snoc. simpl. rewrite Hr. symmetry. apply nadd_assoc.
Qed.

Lemma checkExitConditions_realized (candle : Candle) (e : BacktestEngine) :
  realized e → realized (checkExitConditions candle e).
Proof.
  intros Hr. unfold checkExitConditions.
  destruct (Engine.position e) as [p|]; [ | exact Hr].
  destruct (Position.direction p);
    repeat match goal with |- context [if ?b then _ else _] => destruct b end;
    try exact Hr; apply closePosition_realized; exact Hr.
Qed.

Lemma openPosition_realized (direction : TradeDirection) (candle : Candle)
    (signal : Signal) (e : BacktestEngine) :
  realized e → realized (openPosition direction candle signal e).
Proof. intros Hr. exact Hr. Qed.

Lemma executeSignal_realized (signal : Signal) (candle : Candle) (e : BacktestEngine) :
  realized e → realized (executeSignal signal candle e).
Proof.
  intros Hr. unfold executeSignal.
  destruct (Signal.type signal).
  - set (e1 := if has_direction short (Engine.position e) then _ else e).
    assert (realized e1) as Hr1.
    { unfold e1. destruct (has_direction short (Engine.position e));
        [apply closePosition_realized | ]; exact Hr. }
    destruct (Engine.position e1); [exact Hr1 | apply openPosition_realized; exact Hr1].
  - set (e1 := if has_direction long (Engine.position e) then _ else e).
    assert (realized e1) as Hr1.
    { unfold e1. destruct (has_direction long (Engine.position e));
        [apply closePosition_realized | ]; exact Hr. }
    destruct (Engine.position e1); [exact Hr1 | apply openPosition_realized; exact Hr1].
  - destruct (Engine.position e); [apply closePosition_realized | ]; exact Hr.
Qed.

Lemma process_candle_realized (strat : Strategy) (candle : Candle) (e : BacktestEngine)
    (s : Strategy.state strat) :
  realized e → realized (fst (process_candle strat candle e s)).
Proof.
  intros Hr. unfold process_candle.
  pose proof (checkExitConditions_realized candle e Hr) as Hr1.
  destruct (Strategy.onCandle strat _ _ _ s) as [[signal|] s1]; simpl.
  - exact (executeSignal_realized signal candle _ Hr1).
  - exact Hr1.
Qed.

Lemma last_opt_snoc {A : Type} (l : list A) (x : A) : last_opt (l ++ [x]) = Some x.
Proof. unfold last_opt. rewrite map_app. simpl. apply last_last. Qed.

Lemma process_candle_settled (strat : Strategy) (candle : Candle) (e : BacktestEngine)
    (s : Strategy.state strat) :
  curve_settled (fst (process_candle strat candle e s)) ∧
  Engine.equityCurve (fst (process_candle strat candle e s)) ≠ [].
Proof.
  unfold process_candle.
  destruct (Strategy.onCandle strat _ _ _ s) as [signal s1]. simpl fst.
  set (e2 := match signal with Some sg => _ | None => _ end).
  split.
  - intros Hflat _. change (Engine.position e2 = None) in Hflat.
    unfold updateEquityCurve, last_equity. cbn [Engine.equityCurve Engine.equity].
    rewrite last_opt_snoc, Hflat. reflexivity.
  - unfold updateEquityCurve. cbn [Engine.equityCurve].
    intros Habs. apply app_eq_nil in Habs. destruct Habs; discriminate.
Qed.

Section Accounting.
Context {math : JSMath}.

Lemma run_loop_realized (strat : Strategy) (n : nat) (e : BacktestEngine)
    (s : Strategy.state strat) :
  realized e → realized (fst (run_loop strat n e s)).
Proof.
  revert e s. induction n as [|n IH]; intros e s Hr; simpl; [exact Hr | ].
  destruct (Engine.candles e !! Engine.currentIndex e) as [candle|]; [ | exact Hr].
  pose proof (process_candle_realized strat candle e s Hr) as Hr1.
  destruct (process_candle strat candle e s) as [e1 s1]. simpl in Hr1.
  apply IH. exact Hr1.
Qed.

Lemma run_loop_settled (strat : Strategy) (n : nat) (e : BacktestEngine)
    (s : Strategy.state strat) :
  curve_settled e → Engine.equityCurve e ≠ [] →
  curve_settled (fst (run_loop strat n e s)) ∧
  Engine.equityCurve (fst (run_loop strat n e s)) ≠ [].
Proof.
  revert e s. induction n as [|n IH]; intros e s Hs Hne; simpl; [auto | ].
  destruct (Engine.candles e !! Engine.currentIndex e) as [candle|]; [ | auto].
  pose proof (process_candle_settled strat candle e s) as (Hs1 & Hne1).
  destruct (process_candle strat candle e s) as [e1 s1]. simpl in Hs1, Hne1.
  apply IH; [exact Hs1 | exact Hne1].
Qed.

(** The profit of the returned trades is what the engine realized: the
    equity it holds when [run] returns, less the initial capital. *)
Lemma run_realized (candles : list Candle) (strat : Strategy) (e : BacktestEngine)
    (r : BacktestResult) (e' : BacktestEngine) (strat' : Strategy) :
  run candles strat e = Some (r, e', strat') →
  is_finite (BacktestConfig.initialCapital (Engine.config e)) →
  BacktestResult.trades r = Engine.trades e' ∧
  num_eq (sum_pnl (BacktestResult.trades r))
    (Engine.equity e' - BacktestConfig.initialCapital (Engine.config e)).
Proof.
  unfold run. destruct candles as [|first rest]; [discriminate | ].
  destruct (last_opt (first :: rest)) as [lastCandle|]; [ | discriminate].
  assert (realized (reset (first :: rest) e)) as Hr0.
  { unfold realized. simpl. symmetry. rewrite nadd_comm. apply nadd_0_l. }
  pose proof (run_loop_realized strat (length (Engine.candles (reset (first :: rest) e)))
                _ (Strategy.init strat (Engine.candles (reset (first :: rest) e))
                     (Engine.config (reset (first :: rest) e)) (Strategy.self strat))
                Hr0) as Hr1.
  pose proof (run_loop_config strat (length (Engine.candles (reset (first :: rest) e)))
                (reset (first :: rest) e)
                (Strategy.init strat (Engine.candles (reset (first :: rest) e))
                   (Engine.config (reset (first :: rest) e)) (Strategy.self strat))) as Hc.
  destruct (run_loop strat _ _ _) as [e1 s1]. simpl in Hr1, Hc.
  intros Hrun Hfin. injection Hrun as <- <- _. simpl.
  split; [reflexivity | ].
  set (e2 := match Engine.position e1 with Some _ => _ | None => _ end).
  assert (realized e2 ∧ Engine.config e2 = Engine.config e) as (Hr2 & Hc2).
  { unfold e2. destruct (Engine.position e1).
    - split; [apply closePosition_realized; exact Hr1 | ].
      rewrite closePosition_config. exact Hc.
    - split; [exact Hr1 | exact Hc]. }
  unfold realized in Hr2. rewrite Hc2 in Hr2.
  destruct (BacktestConfig.initialCapital (Engine.config e)) as [c| | |];
    try contradiction.
  destruct (Engine.equity e2), (sum_pnl (Engine.trades e2));
    simpl in *; try contradiction; auto.
  rewrite Hr2. ring.
Qed.
End Accounting.

Section AccountingIdentity.
Context {math : JSMath}.

Lemma run_loop_settled_first (strat : Strategy) (n : nat) (e : BacktestEngine)
    (s : Strategy.state strat) (candle : Candle) :
  Engine.candles e !! Engine.currentIndex e = Some candle →
  curve_settled (fst (run_loop strat (S n) e s)) ∧
  Engine.equityCurve (fst (run_loop strat (S n) e s)) ≠ [].
Proof.
  intros Hc. simpl. rewrite Hc.
  pose proof (process_candle_settled strat candle e s) as (Hs1 & Hne1).
  destruct (process_candle strat candle e s) as [e1 s1]. simpl in Hs1, Hne1.
  apply run_loop_settled; [exact Hs1 | exact Hne1].
Qed.

(** X7.  When the last candle leaves no position open, so that nothing is
    closed after the last point of the equity curve, the profit of the
    returned trades is the last equity of the curve less the initial
    capital. *)
Lemma run_identity_when_flat (candles : list Candle) (strat : Strategy)
    (e : BacktestEngine) (r : BacktestResult) (e' : BacktestEngine) (strat' : Strategy) :
  run candles strat e = Some (r, e', strat') →
  is_finite (BacktestConfig.initialCapital (Engine.config e)) →
  Engine.position
    (fst (run_loop strat (length candles) (reset candles e)
            (Strategy.init strat candles (Engine.config e) (Strategy.self strat)))) = None →
  num_eq (sum_pnl (BacktestResult.trades r))
    (last_equity (BacktestResult.equityCurve r) -
     BacktestConfig.initialCapital (Engine.config e)).
Proof.
  intros Hrun Hfin Hflat.
  destruct (run_realized candles strat e r e' strat' Hrun Hfin) as (_ & Hsum).
  rewrite Hsum. clear Hsum.
  unfold run in Hrun. destruct candles as [|first rest]; [discriminate | ].
  destruct (last_opt (first :: rest)) as [lastCandle|]; [ | discriminate].
  change (Engine.candles (reset (first :: rest) e)) with (first :: rest) in Hrun.
  change (Engine.config (reset (first :: rest) e)) with (Engine.config e) in Hrun.
  set (s0 := Strategy.init strat (first :: rest) (Engine.config e) (Strategy.self strat)) in *.
  assert (curve_settled (fst (run_loop strat (length (first :: rest))
                                (reset (first :: rest) e) s0)) ∧
          Engine.equityCurve (fst (run_loop strat (length (first :: rest))
                                     (reset (first :: rest) e) s0)) ≠ []) as (Hs & Hne).
  { apply (run_loop_settled_first strat (length rest) _ s0 first). reflexivity. }
  destruct (run_loop strat (length (first :: rest)) (reset (first :: rest) e) s0)
    as [e1 s1]. simpl in Hs, Hne, Hflat.
  rewrite Hflat in Hrun. injection Hrun as <- <- _. simpl.
  rewrite (Hs Hflat Hne). reflexivity.
Qed.

(** C1 at an input where it fails.  One candle closing at 100, a
    strategy that buys on it, the default configuration: the position is
    open when the data ends and is closed after the last point of the
    equity curve was written.  The one trade returned has a profit of
    -2200020/100001 (about -22.00: slippage on both sides and 20 of
    commission); the last point of the equity curve, and with it
    [totalReturn], stands at -100000/100001 (about -1.00) from the initial
    capital; the equity the engine holds agrees with the trade. *)
Theorem final_close_after_last_equity_point :
  ∃ r e' strat',
    run [candle_at 1 100 100 100 100] always_buy
      (new_BacktestEngine DEFAULT_BACKTEST_CONFIG) = Some (r, e', strat') ∧
    num_eq (sum_pnl (BacktestResult.trades r)) (Fin (-2200020 # 100001)) ∧
    num_eq (last_equity (BacktestResult.equityCurve r) -
            BacktestConfig.initialCapital DEFAULT_BACKTEST_CONFIG)
           (Fin (-100000 # 100001)) ∧
    PerformanceMetrics.totalReturn (BacktestResult.metrics r) =
      (last_equity (BacktestResult.equityCurve r) -
       BacktestConfig.initialCapital DEFAULT_BACKTEST_CONFIG)%num ∧
    num_eq (Engine.equity e' - BacktestConfig.initialCapital DEFAULT_BACKTEST_CONFIG)
           (Fin (-2200020 # 100001)) ∧
    ¬ num_eq (sum_pnl (BacktestResult.trades r))
        (last_equity (BacktestResult.equityCurve r) -
         BacktestConfig.initialCapital DEFAULT_BACKTEST_CONFIG).
Proof.
  eexists _, _, _. split; [reflexivity | ].
  split; [vm_compute; reflexivity | ].
  split; [vm_compute; reflexivity | ].
  split; [reflexivity | ].
  split; [vm_compute; reflexivity | ].
  vm_compute. discriminate.
Qed.
End AccountingIdentity.

(** ** Profit factor *)

Lemma ngtb_Fin_0 (x : Q) : (Fin x >? 0)%num = true ↔ (0 < x)%Q.
Proof.
  unfold ngtb, nltb, ncompare. rewrite Qlt_alt.
  destruct (0 ?= x)%Q; split; congruence.
Qed.

Lemma nltb_Fin_0 (x : Q) : (Fin x <? 0)%num = true ↔ (x < 0)%Q.
Proof.
  unfold nltb, ncompare. rewrite Qlt_alt.
  destruct (x ?= 0)%Q; split; congruence.
Qed.

Lemma sum_pnl_wins_acc (ts : list Trade) (q : Q) :
  Forall (fun t => is_finite (pnl_or_0 t)) ts →
  Forall (fun t => is_win t = true) ts →
  ∃ q', fold_left (fun acc t => (acc + pnl_or_0 t)%num) ts (Fin q) = Fin q' ∧ (q <= q')%Q.
Proof.
  revert q. induction ts as [|t ts IH]; intros q Hfin Hwin; simpl.
  - exists q. split; [reflexivity | apply Qle_refl].
  - inversion Hfin as [|? ? Ht Hfin']; subst. inversion Hwin as [|? ? Hw Hwin']; subst.
    unfold is_win in Hw. destruct (pnl_or_0 t) as [x| | |]; try contradiction.
    apply ngtb_Fin_0 in Hw. simpl.
    destruct (IH (q + x)%Q Hfin' Hwin') as (q' & Hq' & Hle).
    exists q'. split; [exact Hq' | lra].
Qed.

Lemma sum_pnl_losses_acc (ts : list Trade) (q : Q) :
  Forall (fun t => is_finite (pnl_or_0 t)) ts →
  ∃ q', fold_left (fun acc t => (acc + pnl_or_0 t)%num) ts (Fin q) = Fin q'.
Proof.
  revert q. induction ts as [|t ts IH]; intros q Hfin; simpl.
  - exists q. reflexivity.
  - inversion Hfin as [|? ? Ht Hfin']; subst.
    destruct (pnl_or_0 t) as [x| | |]; try contradiction. simpl.
    apply IH. exact Hfin'.
Qed.

Lemma Forall_filter_keeps {A : Type} (P : A → Prop) (f : A → bool) (l : list A) :
  Forall P l → Forall P (List.filter f l).
Proof.
  induction 1 as [|x l Hx Hl IH]; simpl; [constructor | ].
  destruct (f x); [constructor; assumption | assumption].
Qed.

Lemma Forall_filter_true {A : Type} (f : A → bool) (l : list A) :
  Forall (fun x => f x = true) (List.filter f l).
Proof.
  induction l as [|x l IH]; simpl; [constructor | ].
  destruct (f x) eqn:E; [constructor; assumption | assumption].
Qed.

Lemma totalWins_nonneg (trades : list Trade) :
  Forall (fun t => is_finite (pnl_or_0 t)) trades →
  ∃ w, totalWins trades = Fin w ∧ (0 <= w)%Q.
Proof.
  intros Hfin. unfold totalWins, sum_pnl.
  apply sum_pnl_wins_acc.
  - apply Forall_filter_keeps, Forall_filter_keeps. exact Hfin.
  - apply Forall_filter_true.
Qed.

Lemma totalLosses_nonneg (trades : list Trade) :
  Forall (fun t => is_finite (pnl_or_0 t)) trades →
  ∃ l, totalLosses trades = Fin l ∧ (0 <= l)%Q.
Proof.
  intros Hfin. unfold totalLosses, sum_pnl.
  destruct (sum_pnl_losses_acc (List.filter is_loss (List.filter is_completed trades)) 0)
    as (q & Hq).
  { apply Forall_filter_keeps, Forall_filter_keeps. exact Hfin. }
  change (Fin 0) with 0%num in Hq. rewrite Hq. simpl.
  exists (Qabs q). split; [reflexivity | apply Qabs_nonneg].
Qed.

Section ProfitFactor.
Context {math : JSMath}.

Lemma profitFactor_unfold (trades : list Trade) (equityCurve : list EquityPoint)
    (initialCapital startDate endDate : num) :
  List.filter is_completed trades ≠ [] →
  PerformanceMetrics.profitFactor
    (calculateMetrics trades equityCurve initialCapital startDate endDate) =
  if (totalLosses trades >? 0)%num then (totalWins trades / totalLosses trades)%num
  else if (totalWins trades >? 0)%num then PInf else 0%num.
Proof.
  intros Hne. unfold calculateMetrics, totalLosses, totalWins.
  destruct (List.filter is_completed trades) as [|t ts] eqn:E; [congruence | ].
  destruct (calculateConsecutive (t :: ts)) as [cw cl].
  destruct (calculateDrawdown equityCurve initialCapital) as [dd ddp].
  reflexivity.
Qed.

(** C8, as the code has it.  For trades with finite profits, at least one
    of them closed: [profitFactor] is Infinity exactly when the summed
    losses are 0 and the summed wins are positive; it is 0 exactly when
    the summed wins are 0, whatever the summed losses are; and with
    summed losses above 0 it is the summed wins over the summed losses. *)
Theorem profitFactor_cases (trades : list Trade) (equityCurve : list EquityPoint)
    (initialCapital startDate endDate : num) :
  Forall (fun t => is_finite (pnl_or_0 t)) trades →
  List.filter is_completed trades ≠ [] →
  let profitFactor :=
    PerformanceMetrics.profitFactor
      (calculateMetrics trades equityCurve initialCapital startDate endDate) in
  (profitFactor = PInf ↔
     num_eq (totalLosses trades) 0 ∧ (totalWins trades >? 0)%num = true) ∧
  (num_eq profitFactor 0 ↔ num_eq (totalWins trades) 0) ∧
  ((totalLosses trades >? 0)%num = true →
     profitFactor = (totalWins trades / totalLosses trades)%num ∧
     is_finite profitFactor).
Proof.
  intros Hfin Hne profitFactor. unfold profitFactor.
  rewrite (profitFactor_unfold trades equityCurve initialCapital startDate endDate Hne).
  destruct (totalWins_nonneg trades Hfin) as (w & -> & Hw).
  destruct (totalLosses_nonneg trades Hfin) as (l & -> & Hl).
  destruct (Fin l >? 0)%num eqn:El.
  - apply ngtb_Fin_0 in El.
    assert (Qeq_bool l 0 = false) as Hl0.
    { destruct (Qeq_bool l 0) eqn:E0; [ | reflexivity].
      apply Qeq_bool_iff in E0. lra. }
    simpl. rewrite Hl0. simpl.
    split; [ | split].
    + split; [discriminate | ]. intros (E & _). lra.
    + split; intros E.
      * assert (w == w / l * l)%Q as Ew by (field; lra). rewrite Ew, E. ring.
      * rewrite E. field. lra.
    + auto.
  - assert (l == 0)%Q as El0.
    { destruct (Qlt_le_dec 0 l) as [Hlt|Hle]; [ | lra].
      apply ngtb_Fin_0 in Hlt. congruence. }
    destruct (Fin w >? 0)%num eqn:Ew.
    + apply ngtb_Fin_0 in Ew. simpl.
      split; [ | split]; [tauto | | discriminate].
      split; [contradiction | ]. intros E. lra.
    + assert (w == 0)%Q as Ew0.
      { destruct (Qlt_le_dec 0 w) as [Hlt|Hle]; [ | lra].
        apply ngtb_Fin_0 in Hlt. congruence. }
      simpl. split; [ | split]; [ | | discriminate].
      * split; [discriminate | ]. intros (_ & E). discriminate.
      * split; intros _; [exact Ew0 | reflexivity].
Qed.
End ProfitFactor.

Lemma profitFactor_cases_witness :
  Forall (fun t => is_finite (pnl_or_0 t)) [closed_trade 30; closed_trade (-10)] ∧
  List.filter is_completed [closed_trade 30; closed_trade (-10)] ≠ [] ∧
  PerformanceMetrics.profitFactor
    (calculateMetrics (math := unevaluated) [closed_trade 30; closed_trade (-10)] []
       (Fin 10000) (num_of_Z 1) (num_of_Z 2)) =
  (totalWins [closed_trade 30; closed_trade (-10)] /
   totalLosses [closed_trade 30; closed_trade (-10)])%num.
Proof.
  assert (Forall (fun t => is_finite (pnl_or_0 t)) [closed_trade 30; closed_trade (-10)])
    as Hfin by (repeat constructor).
  assert (List.filter is_completed [closed_trade 30; closed_trade (-10)] ≠ [])
    as Hne by discriminate.
  split; [exact Hfin | ]. split; [exact Hne | ].
  exact (proj1 (proj2 (proj2 (profitFactor_cases (math := unevaluated)
           [closed_trade 30; closed_trade (-10)] [] (Fin 10000) (num_of_Z 1) (num_of_Z 2)
           Hfin Hne)) eq_refl)).
Defined.

(** C8 as it is worded fails on a single losing trade: the profit factor
    is 0 while the summed losses are 5. *)
Lemma profitFactor_zero_with_losses :
  List.filter is_completed [closed_trade (-5)] ≠ [] ∧
  num_eq (PerformanceMetrics.profitFactor
            (calculateMetrics (math := unevaluated) [closed_trade (-5)] []
               (Fin 10000) (num_of_Z 1) (num_of_Z 2))) 0 ∧
  num_eq (totalLosses [closed_trade (-5)]) (Fin 5) ∧
  ¬ (num_eq (totalWins [closed_trade (-5)]) 0 ∧
     num_eq (totalLosses [closed_trade (-5)]) 0).
Proof.
  split; [discriminate | ].
  split; [vm_compute; reflexivity | ].
  split; [vm_compute; reflexivity | ].
  intros (_ & E). vm_compute in E. discriminate.
Qed.

(** ** Indicators: the warm-up positions *)

Lemma at_index_finite (data : list num) (k : Z) :
  Forall is_finite data → 0 <= k < Z.of_nat (length data) →
  is_finite (at_index data k).
Proof.
  intros Hfin Hk. unfold at_index.
  destruct (k <? 0) eqn:E; [lia | ].
  destruct (data !! Z.to_nat k) as [x|] eqn:El.
  - simpl. rewrite Forall_forall in Hfin. apply Hfin.
    apply list_elem_of_lookup. eauto.
  - apply lookup_ge_None in El. lia.
Qed.

Lemma nadd_finite (a b : num) : is_finite a → is_finite b → is_finite (a + b)%num.
Proof. destruct a, b; simpl; auto. Qed.

Lemma ndiv_finite (a : num) (z : Z) :
  is_finite a → z ≠ 0 → is_finite (a / num_of_Z z)%num.
Proof.
  intros Ha Hz. destruct a as [x| | |]; try contradiction. simpl.
  destruct (Qeq_bool (inject_Z z) 0) eqn:E; [ | exact I].
  apply Qeq_bool_iff in E. unfold Qeq, inject_Z in E. simpl in E. lia.
Qed.

Lemma fold_sum_finite (f : nat → num) (js : list nat) (acc : num) :
  (∀ j, In j js → is_finite (f j)) → is_finite acc →
  is_finite (fold_left (fun sum j => (sum + f j)%num) js acc).
Proof.
  revert acc. induction js as [|j js IH]; intros acc Hf Hacc; simpl; [exact Hacc | ].
  apply IH.
  - intros j' Hj'. apply Hf. right. exact Hj'.
  - apply nadd_finite; [exact Hacc | apply Hf; left; reflexivity].
Qed.

Lemma window_sum_finite (data : list num) (i period : Z) :
  Forall is_finite data → period - 1 <= i < Z.of_nat (length data) →
  is_finite (window_sum data i period).
Proof.
  intros Hfin Hi. unfold window_sum.
  apply (fold_sum_finite (fun j => at_index data (i - Z.of_nat j))); [ | exact I].
  intros j Hj. apply in_seq in Hj.
  apply at_index_finite; [exact Hfin | lia].
Qed.

Lemma prefix_sum_finite (data : list num) (i : Z) :
  Forall is_finite data → 0 <= i < Z.of_nat (length data) →
  is_finite (prefix_sum data i).
Proof.
  intros Hfin Hi. unfold prefix_sum.
  apply (fold_sum_finite (fun j => at_index data (Z.of_nat j))); [ | exact I].
  intros j Hj. apply in_seq in Hj.
  apply at_index_finite; [exact Hfin | lia].
Qed.

Lemma Math_max_finite (a b : num) : is_finite a → is_finite b → is_finite (Math_max a b).
Proof.
  destruct a, b; simpl; auto. intros _ _. unfold Math_max. simpl.
  destruct (q ?= q0)%Q; exact I.
Qed.

Lemma Math_min_finite (a b : num) : is_finite a → is_finite b → is_finite (Math_min a b).
Proof.
  destruct a, b; simpl; auto. intros _ _. unfold Math_min. simpl.
  destruct (q ?= q0)%Q; exact I.
Qed.

Lemma window_fold_finite (f : num → num → num) (data : list num) (i period : Z) :
  (∀ a b, is_finite a → is_finite b → is_finite (f a b)) →
  Forall is_finite data → 1 <= period → period - 1 <= i < Z.of_nat (length data) →
  is_finite (window_fold f data i period).
Proof.
  intros Hf Hfin Hp Hi. unfold window_fold.
  assert (∀ js acc, (∀ j, In j js → is_finite (at_index data (i - Z.of_nat j))) →
                    is_finite acc →
                    is_finite (fold_left (fun acc j => f acc (at_index data (i - Z.of_nat j)))
                                 js acc)) as Hfold.
  { induction js as [|j js IH]; intros acc Hj Hacc; simpl; [exact Hacc | ].
    apply IH; [intros; apply Hj; right; assumption | ].
    apply Hf; [exact Hacc | apply Hj; left; reflexivity]. }
  apply Hfold.
  - intros j Hj. apply in_seq in Hj. apply at_index_finite; [exact Hfin | lia].
  - apply at_index_finite; [exact Hfin | lia].
Qed.

Lemma warmup_lookup (g : Z → num) (data : list num) (period : Z) (i : nat) :
  (i < length data)%nat →
  ((fun n => let i := Z.of_nat n in if i <? period - 1 then NaN else g i)
     <$> seq 0 (length data)) !! i =
  Some (if Z.of_nat i <? period - 1 then NaN else g (Z.of_nat i)).
Proof.
  intros Hi. rewrite list_lookup_fmap, lookup_seq_lt by exact Hi. reflexivity.
Qed.

Lemma nsub_finite (a b : num) : is_finite a → is_finite b → is_finite (a - b)%num.
Proof. destruct a, b; simpl; auto. Qed.

Lemma nmul_finite (a b : num) : is_finite a → is_finite b → is_finite (a * b)%num.
Proof. destruct a, b; simpl; tauto. Qed.

Lemma ema_step_finite (data : list num) (period : Z) (multiplier : num)
    (result : list num) (n : nat) :
  Forall is_finite data → 1 <= period → is_finite multiplier →
  (n < length data)%nat → length result = n → Forall is_finite result →
  length (ema_step data period multiplier result n) = S n ∧
  Forall is_finite (ema_step data period multiplier result n).
Proof.
  intros Hfin Hp Hm Hn Hlen Hres. unfold ema_step.
  assert (∀ x, is_finite x → length (result ++ [x]) = S n ∧ Forall is_finite (result ++ [x]))
    as Hsnoc.
  { intros x Hx. split.
    - rewrite length_app. simpl. lia.
    - apply Forall_app. split; [exact Hres | ]. constructor; [exact Hx | constructor]. }
  destruct (Z.of_nat n =? 0) eqn:E0.
  { apply Hsnoc. apply at_index_finite; [exact Hfin | lia]. }
  destruct (Z.of_nat n <? period - 1) eqn:E1.
  { apply Hsnoc. apply ndiv_finite; [ | lia].
    apply prefix_sum_finite; [exact Hfin | lia]. }
  destruct (Z.of_nat n =? period - 1) eqn:E2.
  { apply Hsnoc. apply ndiv_finite; [ | lia].
    apply window_sum_finite; [exact Hfin | lia]. }
  apply Hsnoc.
  assert (is_finite (at_index result (Z.of_nat n - 1))) as Hprev.
  { apply at_index_finite; [exact Hres | lia]. }
  apply nadd_finite; [ | exact Hprev].
  apply nmul_finite; [ | exact Hm].
  apply nsub_finite; [ | exact Hprev].
  apply at_index_finite; [exact Hfin | lia].
Qed.

Lemma ema_loop_finite (data : list num) (period : Z) (multiplier : num) (n : nat) :
  Forall is_finite data → 1 <= period → is_finite multiplier →
  (n <= length data)%nat →
  length (fold_left (ema_step data period multiplier) (seq 0 n) []) = n ∧
  Forall is_finite (fold_left (ema_step data period multiplier) (seq 0 n) []).
Proof.
  intros Hfin Hp Hm. induction n as [|n IH]; intros Hn.
  - simpl. split; [reflexivity | constructor].
  - rewrite seq_S, fold_left_app. simpl.
    assert (n <= length data)%nat as Hn' by lia.
    destruct (IH Hn') as (Hlen & Hres).
    apply ema_step_finite; solve [assumption | lia].
Qed.

Lemma ema_finite (data : list num) (period : Z) :
  Forall is_finite data → 1 <= period →
  length (ema data period) = length data ∧ Forall is_finite (ema data period).
Proof.
  intros Hfin Hp. unfold ema. apply ema_loop_finite; try assumption.
  - apply (ndiv_finite 2%num (period + 1)); [exact I | lia].
  - lia.
Qed.

Lemma ema_step_snoc (data : list num) (period : Z) (multiplier : num)
    (result : list num) (n : nat) :
  ∃ x, ema_step data period multiplier result n = result ++ [x] ∧
       (n = 0%nat → x = at_index data 0) ∧
       (0 < Z.of_nat n < period - 1 →
        x = (prefix_sum data (Z.of_nat n) / num_of_Z (Z.of_nat n + 1))%num).
Proof.
  unfold ema_step.
  destruct (Z.of_nat n =? 0) eqn:E0;
    [eexists; split; [reflexivity | split; [reflexivity | lia]] | ].
  destruct (Z.of_nat n <? period - 1) eqn:E1;
    [eexists; split; [reflexivity | split; [lia | reflexivity]] | ].
  destruct (Z.of_nat n =? period - 1) eqn:E2;
    eexists; (split; [reflexivity | split; lia]).
Qed.

Lemma ema_loop_length (data : list num) (period : Z) (multiplier : num) (n : nat) :
  length (fold_left (ema_step data period multiplier) (seq 0 n) []) = n.
Proof.
  induction n as [|n IH]; [reflexivity | ].
  rewrite seq_S, fold_left_app. simpl.
  destruct (ema_step_snoc data period multiplier
              (fold_left (ema_step data period multiplier) (seq 0 n) []) n) as (x & -> & _).
  rewrite length_app, IH. simpl. lia.
Qed.

Lemma ema_loop_lookup (data : list num) (period : Z) (multiplier : num) (n i : nat) :
  (i < n)%nat →
  fold_left (ema_step data period multiplier) (seq 0 n) [] !! i =
  fold_left (ema_step data period multiplier) (seq 0 (S i)) [] !! i.
Proof.
  induction n as [|n IH]; intros Hi; [lia | ].
  destruct (decide (i = n)) as [-> | Hne]; [reflexivity | ].
  rewrite seq_S, fold_left_app. simpl.
  destruct (ema_step_snoc data period multiplier
              (fold_left (ema_step data period multiplier) (seq 0 n) []) n) as (x & -> & _).
  rewrite lookup_app_l by (rewrite ema_loop_length; lia).
  apply IH. lia.
Qed.

Lemma ema_running_mean (data : list num) (period : Z) (i : nat) :
  (i < length data)%nat → 0 < Z.of_nat i < period - 1 →
  ema data period !! i =
    Some (prefix_sum data (Z.of_nat i) / num_of_Z (Z.of_nat i + 1))%num.
Proof.
  intros Hi Hw. unfold ema.
  generalize (2 / num_of_Z (period + 1))%num as multiplier. intros multiplier.
  rewrite ema_loop_lookup by exact Hi.
  rewrite seq_S, fold_left_app. simpl.
  destruct (ema_step_snoc data period multiplier
              (fold_left (ema_step data period multiplier) (seq 0 i) []) i)
    as (x & -> & _ & Hx).
  rewrite lookup_app_r by (rewrite ema_loop_length; lia).
  rewrite ema_loop_length, Nat.sub_diag. simpl. rewrite (Hx Hw). reflexivity.
Qed.

Lemma ema_first (data : list num) (period : Z) :
  (0 < length data)%nat → ema data period !! 0%nat = Some (at_index data 0).
Proof.
  intros Hlen. unfold ema.
  generalize (2 / num_of_Z (period + 1))%num as multiplier. intros multiplier.
  rewrite ema_loop_lookup by exact Hlen.
  destruct (ema_step_snoc data period multiplier [] 0) as (x & Hstep & Hx & _).
  cbn [seq fold_left]. rewrite Hstep, (Hx eq_refl). reflexivity.
Qed.

Lemma finite_lookup (l : list num) (i : nat) :
  Forall is_finite l → (i < length l)%nat → ∃ q, l !! i = Some (Fin q).
Proof.
  intros Hfin Hi. destruct (lookup_lt_is_Some_2 l i Hi) as (x & Hx).
  rewrite Forall_forall in Hfin.
  assert (is_finite x) as Hf by (apply Hfin; apply list_elem_of_lookup; eauto).
  destruct x as [q| | |]; try contradiction. exists q. exact Hx.
Qed.

Lemma is_finite_Fin (a : num) : is_finite a → ∃ q, a = Fin q.
Proof. destruct a as [q| | |]; try contradiction. intros _. exists q. reflexivity. Qed.

Lemma warmup_all_NaN (g : Z → num) (data : list num) (period : Z) :
  Z.of_nat (length data) < period →
  Forall (fun x => x = NaN)
    ((fun n => let i := Z.of_nat n in if i <? period - 1 then NaN else g i)
       <$> seq 0 (length data)).
Proof.
  intros Hshort. rewrite Forall_fmap. apply Forall_forall. intros n Hn.
  apply elem_of_seq in Hn. simpl.
  destruct (Z.of_nat n <? period - 1) eqn:E; [reflexivity | lia].
Qed.

(** ** Grid search: the number of combinations *)

Lemma Qfloor_unique (z : Z) (x : Q) :
  (inject_Z z <= x)%Q → (x < inject_Z (z + 1))%Q → Qfloor x = z.
Proof.
  intros Hlo Hhi.
  pose proof (Qfloor_le x) as H1. pose proof (Qlt_floor x) as H2.
  assert (inject_Z (Qfloor x) < inject_Z (z + 1))%Q as H3 by lra.
  assert (inject_Z z < inject_Z (Qfloor x + 1))%Q as H4 by lra.
  rewrite <- Zlt_Qlt in H3, H4. lia.
Qed.

Lemma floor_quotient_bounds (d st : Q) :
  (0 < st)%Q →
  (inject_Z (Qfloor (d / st)) * st <= d)%Q ∧
  (d < (inject_Z (Qfloor (d / st)) + 1) * st)%Q.
Proof.
  intros Hst.
  pose proof (Qfloor_le (d / st)) as H1. pose proof (Qlt_floor (d / st)) as H2.
  rewrite inject_Z_plus in H2. change (inject_Z 1) with 1%Q in H2.
  assert (d == d / st * st)%Q as Hd by (field; lra).
  split.
  - rewrite Hd at 2. apply Qmult_le_compat_r; [exact H1 | lra].
  - rewrite Hd at 1. apply Qmult_lt_compat_r; [exact Hst | exact H2].
Qed.

Lemma floor_quotient_unique (d st : Q) (k : Z) :
  (0 < st)%Q → (inject_Z k * st <= d)%Q → (d < (inject_Z k + 1) * st)%Q →
  Qfloor (d / st) = k.
Proof.
  intros Hst Hlo Hhi. apply Qfloor_unique.
  - apply Qle_shift_div_l; [exact Hst | exact Hlo].
  - rewrite inject_Z_plus. change (inject_Z 1) with 1%Q.
    apply Qlt_shift_div_r; [exact Hst | exact Hhi].
Qed.

Lemma nleb_Fin (x y : Q) : (Fin x <=? Fin y)%num = true ↔ (x <= y)%Q.
Proof.
  unfold nleb, ncompare. rewrite Qle_alt.
  destruct (x ?= y)%Q; split; congruence.
Qed.

Lemma for_values_done (fuel : nat) (v hi st : Q) :
  (hi < v)%Q → for_values fuel (Fin v) (Fin hi) (Fin st) = Some [].
Proof.
  intros Hlt.
  assert ((Fin v <=? Fin hi)%num = false) as E.
  { destruct (Fin v <=? Fin hi)%num eqn:E; [ | reflexivity].
    apply nleb_Fin in E. lra. }
  destruct fuel; simpl; rewrite E; reflexivity.
Qed.

Lemma for_values_count (n : nat) :
  ∀ (fuel : nat) (v hi st : Q),
    (n < fuel)%nat → (0 < st)%Q → (v <= hi)%Q →
    Qfloor ((hi - v) / st) = Z.of_nat n →
    ∃ values, for_values fuel (Fin v) (Fin hi) (Fin st) = Some values ∧
              length values = S n.
Proof.
  induction n as [|n IH]; intros fuel v hi st Hfuel Hst Hle Hfloor.
  - destruct fuel as [|fuel]; [lia | ].
    simpl. rewrite (proj2 (nleb_Fin v hi) Hle).
    destruct (floor_quotient_bounds (hi - v) st Hst) as (_ & Hup).
    rewrite Hfloor in Hup. change (inject_Z (Z.of_nat 0)) with 0%Q in Hup.
    rewrite for_values_done by lra.
    exists [Fin v]. split; reflexivity.
  - destruct fuel as [|fuel]; [lia | ].
    simpl. rewrite (proj2 (nleb_Fin v hi) Hle).
    destruct (floor_quotient_bounds (hi - v) st Hst) as (Hlo & Hup).
    rewrite Hfloor in Hlo, Hup.
    rewrite Nat2Z.inj_succ in Hlo, Hup. unfold Z.succ in Hlo, Hup.
    rewrite inject_Z_plus in Hlo, Hup. change (inject_Z 1) with 1%Q in Hlo, Hup.
    assert (0 <= inject_Z (Z.of_nat n))%Q as Hn.
    { change 0%Q with (inject_Z 0). rewrite <- Zle_Qle. lia. }
    assert (0 <= inject_Z (Z.of_nat n) * st)%Q as Hprod.
    { apply Qmult_le_0_compat; lra. }
    destruct (IH fuel (v + st)%Q hi st) as (values & Hv & Hlen).
    + lia.
    + exact Hst.
    + lra.
    + apply floor_quotient_unique; [exact Hst | lra | lra].
    + rewrite Hv. exists (Fin v :: values). split; [reflexivity | ].
      simpl. rewrite Hlen. reflexivity.
Qed.

Lemma well_formed_range_steps (r : OptimizationRange) :
  well_formed_range r →
  ∃ lo hi st : Q,
    OptimizationRange.min r = Fin lo ∧ OptimizationRange.max r = Fin hi ∧
    OptimizationRange.step r = Fin st ∧ (0 < st)%Q ∧ (lo <= hi)%Q ∧
    0 <= Qfloor ((hi - lo) / st) ∧
    spec_range_steps r = Qfloor ((hi - lo) / st) + 1.
Proof.
  intros (lo & hi & st & Hmin & Hmax & Hstep & Hst & Hle).
  exists lo, hi, st. repeat (split; [assumption | ]).
  split.
  - change 0 with (Qfloor 0). apply Qfloor_resp_le.
    apply Qle_shift_div_l; [exact Hst | lra].
  - unfold spec_range_steps. rewrite Hmin, Hmax, Hstep. reflexivity.
Qed.

Lemma mapM_concat_length {A B : Type} (f : A → option (list B)) (P : nat) (vs : list A) :
  (∀ v, ∃ l, f v = Some l ∧ length l = P) →
  ∃ ls, mapM f vs = Some ls ∧ length (concat ls) = (length vs * P)%nat.
Proof.
  intros Hf. induction vs as [|v vs IH].
  - exists []. split; reflexivity.
  - destruct (Hf v) as (l & Hl & Hlen). destruct IH as (ls & Hls & Hlens).
    exists (l :: ls). split.
    + simpl. rewrite Hl. simpl. rewrite Hls. reflexivity.
    + simpl. rewrite length_app, Hlen, Hlens. reflexivity.
Qed.

Lemma generateRecursive_count (baseParams : StrategyParams)
    (ranges : list (string * OptimizationRange)) :
  ∀ (fuel : nat) (current : StrategyParams),
    Forall (fun kr => well_formed_range (snd kr)) ranges →
    Forall (fun kr => (Z.to_nat (spec_range_steps (snd kr)) <= fuel)%nat) ranges →
    ∃ combinations,
      generateRecursive fuel baseParams ranges current = Some combinations ∧
      Z.of_nat (length combinations) = spec_total_combinations ranges.
Proof.
  induction ranges as [|[key range] rest IH]; intros fuel current Hwf Hfuel.
  - exists [current ∪ baseParams]. split; reflexivity.
  - inversion Hwf as [|? ? Hr Hwf']; subst. inversion Hfuel as [|? ? Hf Hfuel']; subst.
    simpl in Hr, Hf.
    destruct (well_formed_range_steps range Hr)
      as (lo & hi & st & Hmin & Hmax & Hstep & Hst & Hle & Hk & Hsteps).
    destruct (for_values_count (Z.to_nat (Qfloor ((hi - lo) / st))) fuel lo hi st)
      as (values & Hvalues & Hlen); [lia | exact Hst | exact Hle | lia | ].
    destruct (mapM_concat_length
                (fun value =>
                   generateRecursive fuel baseParams rest
                     (<[key := PNum (Math_round (value * Fin 1000) / Fin 1000)%num]> current))
                (Z.to_nat (spec_total_combinations rest)) values)
      as (ls & Hls & Hlens).
    { intros v. destruct (IH fuel (<[key := PNum (Math_round (v * Fin 1000) / Fin 1000)%num]> current)
                            Hwf' Hfuel') as (l & Hl & Hlenl).
      exists l. split; [exact Hl | lia]. }
    exists (concat ls). split.
    + simpl. rewrite Hmin, Hmax, Hstep, Hvalues. simpl. rewrite Hls. reflexivity.
    + rewrite Hlens, Hlen. simpl spec_total_combinations. rewrite Hsteps.
      assert (0 <= spec_total_combinations rest) as Hpos.
      { destruct (IH fuel current Hwf' Hfuel') as (l & _ & Hlenl). lia. }
      lia.
Qed.

Lemma enough_fuel_covers (ranges : list (string * OptimizationRange)) (fuel : nat) :
  (enough_fuel ranges <= fuel)%nat →
  Forall (fun kr => (Z.to_nat (spec_range_steps (snd kr)) <= fuel)%nat) ranges.
Proof.
  unfold enough_fuel. induction ranges as [|kr rest IH]; intros Hf; constructor.
  - simpl in Hf. lia.
  - apply IH. simpl in Hf. lia.
Qed.

Lemma getTotalCombinations_fold (ranges : list OptimizationRange) :
  ∀ (a : Q) (z : Z),
    Forall well_formed_range ranges → (a == inject_Z z)%Q →
    ∃ b, fold_left
           (fun total range =>
              let steps :=
                (Math_floor ((OptimizationRange.max range - OptimizationRange.min range) /
                             OptimizationRange.step range) + 1)%num in
              (total * steps)%num) ranges (Fin a) = Fin b ∧
         (b == inject_Z (z * fold_right (fun r total => (spec_range_steps r * total)%Z) 1%Z ranges))%Q.
Proof.
  induction ranges as [|range rest IH]; intros a z Hwf Ha.
  - exists a. split; [reflexivity | ]. simpl. rewrite Z.mul_1_r. exact Ha.
  - inversion Hwf as [|? ? Hr Hwf']; subst.
    destruct (well_formed_range_steps range Hr)
      as (lo & hi & st & Hmin & Hmax & Hstep & Hst & Hle & Hk & Hsteps).
    assert (Qeq_bool st 0 = false) as Hst0.
    { destruct (Qeq_bool st 0) eqn:E; [ | reflexivity]. apply Qeq_bool_iff in E. lra. }
    simpl. rewrite Hmin, Hmax, Hstep. simpl. rewrite Hst0. simpl.
    destruct (IH (a * (inject_Z (Qfloor ((hi - lo) / st)) + 1))%Q
                (z * spec_range_steps range) Hwf') as (b & Hb & Hbz).
    { rewrite Hsteps, inject_Z_mult, inject_Z_plus, Ha. reflexivity. }
    exists b. split; [exact Hb | ].
    rewrite Hbz, Z.mul_assoc. reflexivity.
Qed.

Lemma fold_right_map_snd (ranges : list (string * OptimizationRange)) :
  fold_right (fun r total => spec_range_steps r * total) 1 (map snd ranges) =
  spec_total_combinations ranges.
Proof. induction ranges as [|kr rest IH]; simpl; [reflexivity | rewrite IH; reflexivity]. Qed.

Lemma getTotalCombinations_spec (optimizationConfig : OptimizationConfig) :
  Forall (fun kr => well_formed_range (snd kr))
    (OptimizationConfig.paramRanges optimizationConfig) →
  num_eq (getTotalCombinations optimizationConfig)
    (num_of_Z (spec_total_combinations (OptimizationConfig.paramRanges optimizationConfig))).
Proof.
  intros Hwf. unfold getTotalCombinations.
  destruct (getTotalCombinations_fold
              (map snd (OptimizationConfig.paramRanges optimizationConfig)) 1%Q 1)
    as (b & Hb & Hbz).
  - clear -Hwf. induction Hwf; simpl; constructor; assumption.
  - reflexivity.
  - cbv zeta in Hb. rewrite Hb. simpl. rewrite Hbz, fold_right_map_snd, Z.mul_1_l. reflexivity.
Qed.

Lemma sort_insert_length {A : Type} (compare : A → A → num) (x : A) (l : list A) :
  length (sort_insert compare x l) = S (length l).
Proof.
  induction l as [|y l IH]; simpl; [reflexivity | ].
  destruct (compare y x >? 0)%num; simpl; [reflexivity | rewrite IH; reflexivity].
Qed.

Lemma sort_by_length {A : Type} (compare : A → A → num) (l : list A) :
  length (sort_by compare l) = length l.
Proof.
  unfold sort_by.
  assert (∀ acc, length (fold_left (fun acc x => sort_insert compare x acc) l acc) =
                 (length acc + length l)%nat) as Hgen.
  { induction l as [|x l IH]; intros acc; simpl; [lia | ].
    rewrite IH, sort_insert_length. lia. }
  rewrite Hgen. reflexivity.
Qed.

Section GridSearchCount.
Context {math : JSMath}.

Variable candles : list Candle.
Variable backtestConfig : BacktestConfig.
Variable optimizationConfig : OptimizationConfig.
Variable strategyFactory : StrategyParams → Strategy.

Lemma optimize_step_counts (st : optimize_state) (params : StrategyParams) :
  candles ≠ [] →
  length (st_results (optimize_step candles optimizationConfig strategyFactory st params)) =
    S (length (st_results st)).
Proof.
  intros Hne. unfold optimize_step.
  destruct (run candles (strategyFactory params) (st_engine st))
    as [[[result engine'] strategy']|] eqn:Hrun; simpl.
  - rewrite length_app. simpl. lia.
  - destruct (run_returns candles (strategyFactory params) (st_engine st) Hne)
      as (r & e' & s' & Hr). congruence.
Qed.

Lemma optimize_fold_counts (combinations : list StrategyParams) :
  candles ≠ [] →
  ∀ st : optimize_state,
    length (st_results
              (fold_left (optimize_step candles optimizationConfig strategyFactory)
                 combinations st)) =
      (length (st_results st) + length combinations)%nat.
Proof.
  intros Hne. induction combinations as [|params rest IH]; intros st; simpl.
  - lia.
  - rewrite IH, (optimize_step_counts st params Hne). lia.
Qed.

(** In exact arithmetic, for ranges of finite numbers with a positive step
    and [min <= max]: [getTotalCombinations] returns the product of
    [floor((max - min) / step) + 1] over the ranges; the loops of
    [generateCombinations] end and give that many combinations;
    [optimize] reports their number as [totalCombinations] and, on
    candles that are not empty, records the result of one backtest for
    each. *)
Lemma grid_search_visits_product (baseParams : StrategyParams) :
  Forall (fun kr => well_formed_range (snd kr))
    (OptimizationConfig.paramRanges optimizationConfig) →
  let expected :=
    spec_total_combinations (OptimizationConfig.paramRanges optimizationConfig) in
  num_eq (getTotalCombinations optimizationConfig) (num_of_Z expected) ∧
  ∀ fuel : nat,
    (enough_fuel (OptimizationConfig.paramRanges optimizationConfig) <= fuel)%nat →
    ∃ combinations result,
      generateCombinations optimizationConfig fuel baseParams = Some combinations ∧
      Z.of_nat (length combinations) = expected ∧
      optimize candles backtestConfig optimizationConfig fuel strategyFactory baseParams =
        Some result ∧
      OptimizationResult.totalCombinations result = length combinations ∧
      (candles ≠ [] →
       length (OptimizationResult.allResults result) = length combinations).
Proof.
  intros Hwf expected. split; [exact (getTotalCombinations_spec optimizationConfig Hwf) | ].
  intros fuel Hfuel.
  destruct (generateRecursive_count baseParams
              (OptimizationConfig.paramRanges optimizationConfig) fuel ∅ Hwf
              (enough_fuel_covers _ fuel Hfuel)) as (combinations & Hgen & Hlen).
  exists combinations. eexists.
  split; [exact Hgen | ]. split; [exact Hlen | ].
  unfold optimize, generateCombinations in *.
  rewrite Hgen. cbn -[sort_by optimize_loop length].
  split; [reflexivity | split; [reflexivity | ]].
  intros Hne. cbn -[sort_by optimize_loop length]. rewrite sort_by_length.
  unfold optimize_loop. rewrite (optimize_fold_counts combinations Hne). reflexivity.
Qed.
End GridSearchCount.

Lemma grid_search_visits_product_example :
  num_eq (getTotalCombinations example_grid) (Fin 12) ∧
  ∃ combinations result,
    generateCombinations example_grid 5 ∅ = Some combinations ∧
    length combinations = 12%nat ∧
    optimize (math := unevaluated) [quiet_candle] DEFAULT_BACKTEST_CONFIG example_grid 5
      (fun _ => always_buy) ∅ = Some result ∧
    length (OptimizationResult.allResults result) = 12%nat.
Proof.
  assert (Forall (fun kr => well_formed_range (snd kr))
            (OptimizationConfig.paramRanges example_grid)) as Hwf.
  { repeat constructor; simpl.
    - exists 5%Q, 20%Q, 5%Q. repeat split; lra.
    - exists 1%Q, 2%Q, (1 # 2)%Q. repeat split; lra. }
  destruct (grid_search_visits_product (math := unevaluated) [quiet_candle]
              DEFAULT_BACKTEST_CONFIG example_grid (fun _ => always_buy) ∅ Hwf)
    as (Htotal & Hloops).
  split; [exact Htotal | ].
  destruct (Hloops 5%nat) as (combinations & result & Hgen & Hlen & Hopt & _ & Hres).
  { vm_compute. lia. }
  assert (length combinations = 12%nat) as Hlen12.
  { apply Nat2Z.inj. rewrite Hlen. reflexivity. }
  exists combinations, result. split; [exact Hgen | ]. split; [exact Hlen12 | ].
  split; [exact Hopt | ]. rewrite Hres; [exact Hlen12 | discriminate].
Qed.

(** ** The grid search in doubles *)

Section DoubleGridSearch.
Context {math : JSMath}.

Variable candles : list Candle.
Variable backtestConfig : BacktestConfig.
Variable strategyFactory : StrategyParams → Strategy.

(** On candles that are not empty [optimize] records the result of one
    backtest for every combination its loops gave. *)
Lemma Double_optimize_counts (optimizationConfig : Double.OptimizationConfig)
    (fuel : nat) (baseParams : StrategyParams) (combinations : list StrategyParams) :
  candles ≠ [] →
  Double.generateCombinations optimizationConfig fuel baseParams = Some combinations →
  ∃ result,
    Double.optimize candles backtestConfig optimizationConfig fuel strategyFactory
      baseParams = Some result ∧
    OptimizationResult.totalCombinations result = length combinations ∧
    length (OptimizationResult.allResults result) = length combinations.
Proof.
  intros Hne Hgen. unfold Double.optimize. rewrite Hgen.
  eexists. split; [reflexivity | ].
  cbn -[sort_by optimize_loop length]. split; [reflexivity | ].
  rewrite sort_by_length. unfold optimize_loop.
  rewrite (optimize_fold_counts candles (Double.exact optimizationConfig) strategyFactory
             combinations Hne).
  reflexivity.
Qed.
End DoubleGridSearch.

(** C5.  The counts of the grid search in double precision.  For the one
    range [{min: 0, max: 0.7, step: 0.1}], which has a positive step and
    [min <= max], [getTotalCombinations] returns 7: the quotient
    [0.7 / 0.1] is the double 6.999999999999999, and so is the product
    of [floor((max - min) / step) + 1] over the numbers the three doubles
    stand for.  The loop of [generateCombinations] reaches 0.7 all the
    same and gives the eight values 0, 0.1, ..., 0.7; [optimize] runs and
    records eight backtests and reports [totalCombinations] 8.  For the
    grid the page searches for the price-action strategy both counts are
    8: the loop over [minWickPips] leaves at 0.15000000000000002 and
    never tries the maximum 0.15. *)
Theorem getTotalCombinations_miscounts :
  Forall (fun kr => Double.well_formed (snd kr) = true)
    (Double.OptimizationConfig.paramRanges tenths_grid) ∧
  Double.getTotalCombinations tenths_grid = 7%float ∧
  spec_total_combinations (OptimizationConfig.paramRanges (Double.exact tenths_grid)) = 7 ∧
  (∃ combinations result,
     Double.generateCombinations tenths_grid 10 ∅ = Some combinations ∧
     map (fun params : StrategyParams => params !! "threshold"%string) combinations =
       map (fun value => Some (PNum (Double.to_num value)))
         [0; 0.1; 0.2; 0.3; 0.4; 0.5; 0.6; 0.7]%float ∧
     Double.optimize (math := unevaluated) [quiet_candle] DEFAULT_BACKTEST_CONFIG
       tenths_grid 10 (fun _ => always_buy) ∅ = Some result ∧
     OptimizationResult.totalCombinations result = 8%nat ∧
     length (OptimizationResult.allResults result) = 8%nat) ∧
  Double.getTotalCombinations price_action_grid = 8%float ∧
  (∃ combinations,
     Double.generateCombinations price_action_grid 10 ∅ = Some combinations ∧
     map (fun params : StrategyParams => params !! "minWickPips"%string) combinations =
       map (fun value => Some (PNum (Double.to_num value)))
         [0.05; 0.1; 0.05; 0.1; 0.05; 0.1; 0.05; 0.1]%float).
Proof.
  split; [repeat constructor | ].
  split; [vm_compute; reflexivity | ].
  split; [vm_compute; reflexivity | ].
  split; [ | split; [vm_compute; reflexivity | ]].
  - assert (option_map (map (fun params : StrategyParams => params !! "threshold"%string))
              (Double.generateCombinations tenths_grid 10 ∅) =
            Some (map (fun value => Some (PNum (Double.to_num value)))
                    [0; 0.1; 0.2; 0.3; 0.4; 0.5; 0.6; 0.7]%float)) as Hvalues.
    { vm_compute. reflexivity. }
    destruct (Double.generateCombinations tenths_grid 10 ∅) as [combinations|] eqn:Hgen;
      [ | discriminate Hvalues].
    cbn [option_map] in Hvalues. injection Hvalues as Hvalues.
    assert (length combinations = 8%nat) as Hlen.
    { rewrite <- (length_map (fun params : StrategyParams => params !! "threshold"%string)),
        Hvalues. reflexivity. }
    destruct (Double_optimize_counts (math := unevaluated) [quiet_candle]
                DEFAULT_BACKTEST_CONFIG (fun _ => always_buy) tenths_grid 10 ∅ combinations)
      as (result & Hopt & Htotal & Hresults); [discriminate | exact Hgen | ].
    exists combinations, result.
    split; [reflexivity | ]. split; [exact Hvalues | ]. split; [exact Hopt | ].
    rewrite Htotal, Hresults. split; exact Hlen.
  - assert (option_map (map (fun params : StrategyParams => params !! "minWickPips"%string))
              (Double.generateCombinations price_action_grid 10 ∅) =
            Some (map (fun value => Some (PNum (Double.to_num value)))
                    [0.05; 0.1; 0.05; 0.1; 0.05; 0.1; 0.05; 0.1]%float)) as Hvalues.
    { vm_compute. reflexivity. }
    destruct (Double.generateCombinations price_action_grid 10 ∅) as [combinations|];
      [ | discriminate Hvalues].
    cbn [option_map] in Hvalues. injection Hvalues as Hvalues.
    exists combinations. split; [reflexivity | exact Hvalues].
Qed.

(** ** Walk-forward windows *)

Lemma make_window_indices (candles : list Candle) (a b c d : Z) (w : WalkForwardWindow) :
  make_window candles a b c d = Some w →
  WalkForwardWindow.trainIndex w = {| IndexRange.start := a; IndexRange.end_ := b |} ∧
  WalkForwardWindow.testIndex w = {| IndexRange.start := c; IndexRange.end_ := d |}.
Proof.
  unfold make_window. intros Hw.
  destruct (timestamp_at candles a); [ | discriminate].
  destruct (timestamp_at candles b); [ | discriminate].
  destruct (timestamp_at candles c); [ | discriminate].
  destruct (timestamp_at candles d); [ | discriminate].
  simpl in Hw. injection Hw as <-. split; reflexivity.
Qed.

(** With [numWindows <= 0] the loops take no turn; with [numWindows > 0]
    the window size [floor(totalCandles / numWindows)] is not negative. *)
Lemma no_turns (numWindows : Q) : (numWindows <= 0)%Q → Z.to_nat (Qceiling numWindows) = 0%nat.
Proof.
  intros Hn. apply Qceiling_resp_le in Hn. change (Qceiling 0) with 0 in Hn. lia.
Qed.

Lemma windowSize_nonneg (totalCandles : nat) (numWindows : Q) :
  (0 < numWindows)%Q → 0 <= Qfloor (inject_Z (Z.of_nat totalCandles) / numWindows).
Proof.
  intros Hn. change 0 with (Qfloor 0). apply Qfloor_resp_le.
  apply Qle_shift_div_l; [exact Hn | ].
  rewrite Qmult_0_l. change 0%Q with (inject_Z 0). rewrite <- Zle_Qle. lia.
Qed.

(** The state of the rolling loop before the turn for [n]: the windows
    are in ascending order, apart, and below [n * windowSize]. *)
Lemma rolling_loop_invariant (candles : list Candle) (windowSize trainSize : Z) (n : nat) :
  0 <= windowSize →
  ∀ ws,
    fold_left (rolling_step candles windowSize trainSize (windowSize - trainSize))
      (seq 0 n) (Some []) = Some ws →
    ascending_apart ws ∧
    ∀ w, w ∈ ws → window_last w < Z.of_nat n * windowSize.
Proof.
  intros HW. induction n as [|n IH]; intros ws Hws.
  - simpl in Hws. injection Hws as <-. split.
    + intros i j wi wj _ Hi. rewrite lookup_nil in Hi. discriminate.
    + intros w Hw. apply elem_of_nil in Hw. contradiction.
  - rewrite seq_S, fold_left_app in Hws. simpl in Hws.
    destruct (fold_left _ (seq 0 n) (Some [])) as [ws0|]; [ | discriminate].
    destruct (IH ws0 eq_refl) as (Hasc & Hbelow).
    unfold rolling_step in Hws. simpl in Hws.
    set (trainStart := Z.of_nat n * windowSize) in *.
    set (trainEnd := trainStart + trainSize - 1) in *.
    set (testEnd := Z.min (trainEnd + 1 + (windowSize - trainSize) - 1)
                      (Z.of_nat (length candles) - 1)) in *.
    assert (∀ w, w ∈ ws0 → window_last w < Z.of_nat (S n) * windowSize) as Hbelow'.
    { intros w Hw. specialize (Hbelow w Hw). nia. }
    destruct (testEnd <=? trainEnd) eqn:Hskip.
    { injection Hws as <-. split; [exact Hasc | exact Hbelow']. }
    destruct (make_window candles trainStart trainEnd (trainEnd + 1) testEnd)
      as [w|] eqn:Hw; [ | discriminate].
    simpl in Hws. injection Hws as <-.
    destruct (make_window_indices _ _ _ _ _ _ Hw) as (Htrain & Htest).
    assert (window_first w = trainStart) as Hfirst.
    { unfold window_first. rewrite Htrain. reflexivity. }
    assert (window_last w = testEnd) as Hlast.
    { unfold window_last. rewrite Htest. reflexivity. }
    split.
    + intros i j wi wj Hij Hi Hj.
      destruct (decide (j < length ws0)%nat) as [Hjl|Hjl].
      * rewrite lookup_app_l in Hi by lia. rewrite lookup_app_l in Hj by exact Hjl.
        exact (Hasc i j wi wj Hij Hi Hj).
      * rewrite lookup_app_r in Hj by lia.
        destruct (j - length ws0)%nat as [|m] eqn:Hm; [ | destruct m; discriminate].
        simpl in Hj. injection Hj as <-.
        rewrite lookup_app_l in Hi by lia.
        rewrite Hfirst. apply Hbelow. apply list_elem_of_lookup. eauto.
    + intros w' Hw'. apply elem_of_app in Hw'. destruct Hw' as [Hw' | Hw'].
      * exact (Hbelow' w' Hw').
      * apply list_elem_of_singleton in Hw'. subst w'. rewrite Hlast.
        unfold testEnd, trainEnd, trainStart. nia.
Qed.

Lemma anchored_loop_invariant (candles : list Candle) (testSize : Z) (trainRatio : Q)
    (numWindows : Q) (n : nat) :
  ∀ ws,
    fold_left (anchored_step candles testSize trainRatio numWindows)
      (seq 0 n) (Some []) = Some ws →
    ∀ w, w ∈ ws → IndexRange.start (WalkForwardWindow.trainIndex w) = 0.
Proof.
  induction n as [|n IH]; intros ws Hws.
  - simpl in Hws. injection Hws as <-. intros w Hw. apply elem_of_nil in Hw. contradiction.
  - rewrite seq_S, fold_left_app in Hws. simpl in Hws.
    destruct (fold_left _ (seq 0 n) (Some [])) as [ws0|]; [ | discriminate].
    specialize (IH ws0 eq_refl).
    unfold anchored_step in Hws. simpl in Hws.
    match type of Hws with
    | (if ?c then _ else _) = _ => destruct c
    end.
    { injection Hws as <-. exact IH. }
    match type of Hws with
    | context [make_window ?c ?a ?b ?c' ?d] =>
        destruct (make_window c a b c' d) as [w|] eqn:Hw; [ | discriminate]
    end.
    simpl in Hws. injection Hws as <-.
    destruct (make_window_indices _ _ _ _ _ _ Hw) as (Htrain & _).
    intros w' Hw'. apply elem_of_app in Hw'. destruct Hw' as [Hw' | Hw'].
    + exact (IH w' Hw').
    + apply list_elem_of_singleton in Hw'. subst w'. rewrite Htrain. reflexivity.
Qed.

Lemma ascending_apart_no_overlap (ws : list WalkForwardWindow) :
  ascending_apart ws →
  ∀ (i j : nat) (wi wj : WalkForwardWindow),
    i ≠ j → ws !! i = Some wi → ws !! j = Some wj →
    ∀ k, ¬ (covers wi k ∧ covers wj k).
Proof.
  intros Hasc i j wi wj Hne Hi Hj k (Hci & Hcj). unfold covers in *.
  destruct (decide (i < j)%nat) as [Hlt|Hge].
  - specialize (Hasc i j wi wj Hlt Hi Hj). lia.
  - assert (j < i)%nat as Hlt by lia.
    specialize (Hasc j i wj wi Hlt Hj Hi). lia.
Qed.

(** C6.  Of the windows [generateWindows] returns: under the rolling
    policy no candle index lies in the range, train start through test
    end, of two of them, and each window ends before the next begins;
    under the anchored policy every window has [trainIndex.start = 0]. *)
Theorem walk_forward_windows (candles : list Candle) (cfg : WalkForwardConfig)
    (ws : list WalkForwardWindow) :
  generateWindows candles cfg = Some ws →
  (WalkForwardConfig.windowType cfg = rolling →
   ascending_apart ws ∧
   ∀ (i j : nat) (wi wj : WalkForwardWindow),
     i ≠ j → ws !! i = Some wi → ws !! j = Some wj →
     ∀ k, ¬ (covers wi k ∧ covers wj k)) ∧
  (WalkForwardConfig.windowType cfg = anchored →
   ∀ w, w ∈ ws → IndexRange.start (WalkForwardWindow.trainIndex w) = 0).
Proof.
  unfold generateWindows. intros Hws. split; intros Hty; rewrite Hty in Hws.
  - assert (ascending_apart ws) as Hasc.
    { destruct (Qlt_le_dec 0 (WalkForwardConfig.numWindows cfg)) as [Hn|Hn].
      - eapply rolling_loop_invariant; [ | exact Hws].
        apply windowSize_nonneg. exact Hn.
      - rewrite (no_turns _ Hn) in Hws.
        simpl in Hws. injection Hws as <-.
        intros i j wi wj _ Hi. rewrite lookup_nil in Hi. discriminate. }
    split; [exact Hasc | exact (ascending_apart_no_overlap ws Hasc)].
  - exact (anchored_loop_invariant _ _ _ _ _ ws Hws).
Qed.

Lemma walk_forward_windows_witness :
  (∃ ws, generateWindows ten_candles (two_windows rolling) = Some ws ∧
         length ws = 2%nat ∧ ascending_apart ws) ∧
  (∃ ws, generateWindows ten_candles (two_windows anchored) = Some ws ∧
         length ws = 2%nat ∧
         ∀ w, w ∈ ws → IndexRange.start (WalkForwardWindow.trainIndex w) = 0).
Proof.
  split.
  - eexists. split; [vm_compute; reflexivity | ]. split; [reflexivity | ].
    refine (proj1 (proj1 (walk_forward_windows ten_candles (two_windows rolling) _ _) _)).
    + vm_compute. reflexivity.
    + reflexivity.
  - eexists. split; [vm_compute; reflexivity | ]. split; [reflexivity | ].
    refine (proj2 (walk_forward_windows ten_candles (two_windows anchored) _ _) _).
    + vm_compute. reflexivity.
    + reflexivity.
Defined.

(** ** Monte Carlo: the shuffle *)

#[global] Instance nsub_proper : Proper (num_eq ==> num_eq ==> num_eq) nsub.
Proof.
  intros a a' Ea b b' Eb.
  destruct a, a'; simpl in Ea; try contradiction;
    destruct b, b'; simpl in Eb; try contradiction; simpl; auto.
  rewrite Ea, Eb; reflexivity.
Qed.

Lemma Qcompare_0_proper (x y : Q) : (x == y)%Q → (x ?= 0)%Q = (y ?= 0)%Q.
Proof. intros E. rewrite E. reflexivity. Qed.

Lemma Qeq_bool_0_proper (x y : Q) : (x == y)%Q → Qeq_bool x 0 = Qeq_bool y 0.
Proof.
  intros E. destruct (Qeq_bool x 0) eqn:Ex, (Qeq_bool y 0) eqn:Ey; try reflexivity.
  - apply Qeq_bool_iff in Ex. rewrite E in Ex. apply Qeq_bool_iff in Ex. congruence.
  - apply Qeq_bool_iff in Ey. rewrite <- E in Ey. apply Qeq_bool_iff in Ey. congruence.
Qed.

Lemma Qle_bool_0_proper (x y : Q) : (x == y)%Q → Qle_bool 0 x = Qle_bool 0 y.
Proof.
  intros E. destruct (Qle_bool 0 x) eqn:Ex, (Qle_bool 0 y) eqn:Ey; try reflexivity.
  - apply Qle_bool_iff in Ex. rewrite E in Ex. apply Qle_bool_iff in Ex. congruence.
  - apply Qle_bool_iff in Ey. rewrite <- E in Ey. apply Qle_bool_iff in Ey. congruence.
Qed.

#[global] Instance nmul_proper : Proper (num_eq ==> num_eq ==> num_eq) nmul.
Proof.
  intros a a' Ea b b' Eb.
  destruct a as [x| | |], a' as [x'| | |]; simpl in Ea; try contradiction;
    destruct b as [y| | |], b' as [y'| | |]; simpl in Eb; try contradiction; simpl; auto;
    rewrite ?(Qcompare_0_proper x x' Ea), ?(Qcompare_0_proper y y' Eb);
    try apply num_eq_refl.
  rewrite Ea, Eb. reflexivity.
Qed.

#[global] Instance ndiv_proper : Proper (num_eq ==> num_eq ==> num_eq) ndiv.
Proof.
  intros a a' Ea b b' Eb.
  destruct a as [x| | |], a' as [x'| | |]; simpl in Ea; try contradiction;
    destruct b as [y| | |], b' as [y'| | |]; simpl in Eb; try contradiction; simpl; auto;
    rewrite ?(Qeq_bool_0_proper y y' Eb), ?(Qle_bool_0_proper y y' Eb),
      ?(Qcompare_0_proper x x' Ea);
    try apply num_eq_refl; try reflexivity.
  destruct (Qeq_bool y' 0) eqn:E0; [apply num_eq_refl | ].
  simpl. rewrite Ea, Eb. reflexivity.
Qed.

Lemma swap_Permutation {A : Type} (i j : nat) (a : list A) : swap i j a ≡ₚ a.
Proof.
  unfold swap.
  destruct (a !! i) as [x|] eqn:Hi; [ | reflexivity].
  destruct (a !! j) as [y|] eqn:Hj; [ | reflexivity].
  apply Permutation_inj. split.
  - rewrite !length_insert. reflexivity.
  - exists (fun k => if decide (k = i) then j else if decide (k = j) then i else k).
    split.
    + intros k1 k2. repeat case_decide; intros; subst; congruence.
    + intros k.
      pose proof (lookup_lt_Some _ _ _ Hi). pose proof (lookup_lt_Some _ _ _ Hj).
      rewrite !list_lookup_insert, !length_insert.
      repeat case_decide;
        repeat match goal with
               | H : _ ∧ _ |- _ => destruct H
               | H : ¬ (_ ∧ _) |- _ => apply not_and_l in H; destruct H
               end;
        subst; try congruence; try lia.
Qed.

Lemma shuffle_loop_Permutation {A : Type} (n : nat) :
  ∀ (shuffled : list A) (g : Random.t), fst (shuffle_loop n shuffled g) ≡ₚ shuffled.
Proof.
  induction n as [|n IH]; intros shuffled g; simpl; [reflexivity | ].
  rewrite IH. apply swap_Permutation.
Qed.

Lemma shuffle_index_in_range (r : Q) (i : nat) :
  (0 <= r)%Q → (r < 1)%Q →
  (Z.to_nat (Qfloor (r * inject_Z (Z.of_nat (i + 1)))) <= i)%nat.
Proof.
  intros H0 H1.
  assert (Qfloor (r * inject_Z (Z.of_nat (i + 1))) < Z.of_nat (i + 1)) as Hlt.
  { rewrite Zlt_Qlt. eapply Qle_lt_trans; [apply Qfloor_le | ].
    assert (0 < inject_Z (Z.of_nat (i + 1)))%Q as Hpos.
    { change 0%Q with (inject_Z 0). rewrite <- Zlt_Qlt. lia. }
    rewrite <- (Qmult_1_l (inject_Z (Z.of_nat (i + 1)))) at 2.
    apply Qmult_lt_compat_r; assumption. }
  lia.
Qed.

Lemma fold_pnl_proper (ts : list Trade) (a a' : num) :
  num_eq a a' →
  num_eq (fold_left (fun acc t => (acc + pnl_or_0 t)%num) ts a)
         (fold_left (fun acc t => (acc + pnl_or_0 t)%num) ts a').
Proof.
  revert a a'. induction ts as [|t ts IH]; intros a a' E; simpl; [exact E | ].
  apply IH. rewrite E. reflexivity.
Qed.

Lemma fold_pnl_Permutation (l1 l2 : list Trade) :
  l1 ≡ₚ l2 →
  ∀ a, num_eq (fold_left (fun acc t => (acc + pnl_or_0 t)%num) l1 a)
              (fold_left (fun acc t => (acc + pnl_or_0 t)%num) l2 a).
Proof.
  induction 1 as [|x l1 l2 _ IH|x y l|l1 l2 l3 _ IH1 _ IH2]; intros a; simpl.
  - reflexivity.
  - apply IH.
  - apply fold_pnl_proper.
    rewrite <- !nadd_assoc. rewrite (nadd_comm (pnl_or_0 y) (pnl_or_0 x)). reflexivity.
  - rewrite IH1. apply IH2.
Qed.

Lemma sum_pnl_Permutation (l1 l2 : list Trade) :
  l1 ≡ₚ l2 → num_eq (sum_pnl l1) (sum_pnl l2).
Proof. intros Hp. exact (fold_pnl_Permutation l1 l2 Hp 0%num). Qed.

Lemma fold_pnl_from (ts : list Trade) (a : num) :
  num_eq (fold_left (fun acc t => (acc + pnl_or_0 t)%num) ts a) (a + sum_pnl ts).
Proof.
  unfold sum_pnl. revert a. induction ts as [|t ts IH]; intros a; simpl.
  - rewrite nadd_comm. symmetry. apply nadd_0_l.
  - rewrite IH. rewrite (IH (0 + pnl_or_0 t)%num).
    rewrite nadd_0_l. rewrite nadd_assoc. reflexivity.
Qed.

Lemma nadd_0_r (a : num) : num_eq (a + 0) a.
Proof. rewrite nadd_comm. apply nadd_0_l. Qed.

Section MonteCarloShuffle.
Context {math : JSMath}.

Variable config : MonteCarloConfig.

Lemma curve_equity (ts : list Trade) :
  ∀ st : curve_state,
    num_eq (cs_equity (fold_left (curve_step config) ts st))
           (fold_left (fun acc t => (acc + pnl_or_0 t)%num) ts (cs_equity st)).
Proof.
  induction ts as [|t ts IH]; intros st; simpl; [reflexivity | ].
  rewrite IH. apply fold_pnl_proper.
  unfold curve_step, pnl_or_0. destruct (Trade.pnl t) as [p|]; simpl.
  - reflexivity.
  - symmetry. apply nadd_0_r.
Qed.

(** The return a replay reports is the summed profit on the capital, in
    percent. *)
Lemma simulateEquityCurve_totalReturn (ts : list Trade) :
  num_eq (SimulationResult.totalReturn (simulateEquityCurve config ts))
         (percent_return config
            (MonteCarloConfig.initialCapital config + sum_pnl ts -
             MonteCarloConfig.initialCapital config)).
Proof.
  unfold simulateEquityCurve, percent_return. cbn [SimulationResult.totalReturn].
  rewrite curve_equity. cbn [cs_equity]. rewrite fold_pnl_from. reflexivity.
Qed.
End MonteCarloShuffle.

#[global] Instance percent_return_proper (config : MonteCarloConfig) :
  Proper (num_eq ==> num_eq) (percent_return config).
Proof. intros a a' E. unfold percent_return. rewrite E. reflexivity. Qed.

Section MonteCarloSingle.
Context {math : JSMath}.

Variable config : MonteCarloConfig.
Variable originalMetrics : PerformanceMetrics.

(** Of one simulation, every percentile is that simulation. *)
Lemma simulate_single (trades : list Trade) (g : Random.t) :
  MonteCarloConfig.simulations config = 1%nat →
  List.filter is_completed trades ≠ [] →
  Forall
    (fun percentile : MonteCarloResult → MonteCarloPercentile =>
       MonteCarloPercentile.totalReturn
         (percentile (fst (simulate config originalMetrics trades g))) =
       SimulationResult.totalReturn
         (simulateEquityCurve config
            (fst (shuffleTrades (List.filter is_completed trades) g))))
    [MonteCarloResult.p5; MonteCarloResult.p25; MonteCarloResult.p50;
     MonteCarloResult.p75; MonteCarloResult.p95].
Proof.
  intros Hone Hne. unfold simulate.
  destruct (List.filter is_completed trades) as [|t ts] eqn:Hclosed; [congruence | ].
  rewrite Hone. cbn [simulate_loop].
  destruct (shuffleTrades (t :: ts) g) as [shuffled g1].
  cbn [fst app]. destruct (SimulationResult.hitRuin _); repeat constructor.
Qed.

(** The shuffle and the replay.  For draws of the generator in [0, 1) every
    index the shuffle swaps with lies inside the array, and the list
    [shuffleTrades] returns is a permutation of the trades, so its summed
    profit is that of the trades.  The [totalReturn] of a replay of the
    shuffled list is that of a replay of the trades in their own order:
    the summed profit on the initial capital of the Monte Carlo
    configuration, in percent.  A run of a single simulation reports
    that percentage as the [totalReturn] of each of its percentiles. *)
Theorem shuffle_preserves_return (trades : list Trade) (g : Random.t) :
  Random.in_range g →
  (∀ k i : nat,
     (Z.to_nat (Qfloor (Random.draws g k * inject_Z (Z.of_nat (i + 1)))) <= i)%nat) ∧
  fst (shuffleTrades trades g) ≡ₚ trades ∧
  num_eq (sum_pnl (fst (shuffleTrades trades g))) (sum_pnl trades) ∧
  num_eq (SimulationResult.totalReturn
            (simulateEquityCurve config (fst (shuffleTrades trades g))))
         (SimulationResult.totalReturn (simulateEquityCurve config trades)) ∧
  (is_finite (MonteCarloConfig.initialCapital config) →
   num_eq (SimulationResult.totalReturn
             (simulateEquityCurve config (fst (shuffleTrades trades g))))
          (percent_return config (sum_pnl trades))) ∧
  (MonteCarloConfig.simulations config = 1%nat →
   List.filter is_completed trades ≠ [] →
   is_finite (MonteCarloConfig.initialCapital config) →
   Forall
     (fun percentile : MonteCarloResult → MonteCarloPercentile =>
        num_eq (MonteCarloPercentile.totalReturn
                  (percentile (fst (simulate config originalMetrics trades g))))
               (percent_return config (sum_pnl (List.filter is_completed trades))))
     [MonteCarloResult.p5; MonteCarloResult.p25; MonteCarloResult.p50;
      MonteCarloResult.p75; MonteCarloResult.p95]).
Proof.
  intros Hrange.
  assert (∀ ts : list Trade, fst (shuffleTrades ts g) ≡ₚ ts) as Hperm.
  { intros ts. unfold shuffleTrades. apply shuffle_loop_Permutation. }
  assert (∀ ts : list Trade,
            num_eq (sum_pnl (fst (shuffleTrades ts g))) (sum_pnl ts)) as Hsum.
  { intros ts. apply sum_pnl_Permutation. apply Hperm. }
  assert (∀ ts : list Trade,
            is_finite (MonteCarloConfig.initialCapital config) →
            num_eq (SimulationResult.totalReturn
                      (simulateEquityCurve config (fst (shuffleTrades ts g))))
                   (percent_return config (sum_pnl ts))) as Hpct.
  { intros ts Hfin. rewrite simulateEquityCurve_totalReturn. unfold percent_return.
    rewrite (Hsum ts).
    destruct (MonteCarloConfig.initialCapital config) as [c| | |]; try contradiction.
    rewrite nadd_sub_cancel. reflexivity. }
  split; [ | split; [ | split; [ | split; [ | split]]]].
  - intros k i. destruct (Hrange k) as (H0 & H1).
    apply shuffle_index_in_range; assumption.
  - apply Hperm.
  - apply Hsum.
  - rewrite !simulateEquityCurve_totalReturn. rewrite (Hsum trades). reflexivity.
  - apply Hpct.
  - intros Hone Hne Hfin.
    eapply Forall_impl; [exact (simulate_single trades g Hone Hne) | ].
    intros percentile Heq. simpl in Heq. rewrite Heq. apply Hpct. exact Hfin.
Qed.
End MonteCarloSingle.

Lemma shuffle_preserves_return_witness :
  Random.in_range (constant_draws (1 # 2)) ∧
  fst (shuffleTrades [closed_trade 100; closed_trade (-50); closed_trade 30]
         (constant_draws (1 # 2))) ≡ₚ
    [closed_trade 100; closed_trade (-50); closed_trade 30] ∧
  num_eq (SimulationResult.totalReturn
            (simulateEquityCurve (math := unevaluated) single_simulation
               (fst (shuffleTrades [closed_trade 100; closed_trade (-50); closed_trade 30]
                       (constant_draws (1 # 2))))))
         (percent_return single_simulation (Fin 80)).
Proof.
  assert (Random.in_range (constant_draws (1 # 2))) as Hrange.
  { intros k. simpl. split; [discriminate | reflexivity]. }
  split; [exact Hrange | ].
  destruct (shuffle_preserves_return (math := unevaluated) single_simulation
              (getEmptyMetrics)
              [closed_trade 100; closed_trade (-50); closed_trade 30]
              (constant_draws (1 # 2)) Hrange) as (_ & Hperm & _ & _ & Hpct & _).
  split; [exact Hperm | ].
  eapply num_eq_trans; [exact (Hpct I) | ]. vm_compute. reflexivity.
Defined.

Lemma Math_abs_finite (a : num) : is_finite a → is_finite (Math_abs a).
Proof. destruct a; simpl; auto. Qed.

Lemma true_range_length (candles : list Candle) :
  length (true_range candles) = length candles.
Proof. unfold true_range. rewrite length_fmap, length_seq. reflexivity. Qed.

Lemma true_range_finite (candles : list Candle) :
  Forall finite_candle candles → Forall is_finite (true_range candles).
Proof.
  intros Hfin. unfold true_range. rewrite Forall_fmap. apply Forall_forall.
  intros n Hn. apply elem_of_seq in Hn. simpl.
  rewrite Forall_forall in Hfin.
  destruct (candles !! n) as [candle|] eqn:Hc;
    [ | apply lookup_ge_None in Hc; lia].
  assert (finite_candle candle) as (Hh & Hl & _).
  { apply Hfin. apply list_elem_of_lookup. eauto. }
  destruct n as [|n'].
  - apply nsub_finite; assumption.
  - destruct (candles !! n') as [prev|] eqn:Hp.
    + assert (finite_candle prev) as (_ & _ & Hpc).
      { apply Hfin. apply list_elem_of_lookup. eauto. }
      simpl. unfold Math_max3.
      repeat first [apply Math_max_finite | apply Math_abs_finite | apply nsub_finite];
        assumption.
    + apply lookup_ge_None in Hp. apply lookup_lt_Some in Hc. lia.
Qed.

Lemma atr_step_snoc (tr : list num) (period : Z) (result : list num) (n : nat) :
  ∃ x, atr_step tr period result n = result ++ [x] ∧
       (Z.of_nat n < period - 1 → x = NaN) ∧
       (Forall is_finite tr → 1 <= period → (n < length tr)%nat →
        period - 1 <= Z.of_nat n →
        (period - 1 < Z.of_nat n → is_finite (at_index result (Z.of_nat n - 1))) →
        is_finite x).
Proof.
  unfold atr_step.
  destruct (Z.of_nat n <? period - 1) eqn:E1.
  { eexists. split; [reflexivity | ]. split; [reflexivity | lia]. }
  destruct (Z.of_nat n =? period - 1) eqn:E2.
  { eexists. split; [reflexivity | ]. split; [lia | ].
    intros Hfin Hp Hn _ _. apply ndiv_finite; [ | lia].
    apply window_sum_finite; [exact Hfin | lia]. }
  eexists. split; [reflexivity | ]. split; [lia | ].
  intros Hfin Hp Hn _ Hprev. apply ndiv_finite; [ | lia].
  apply nadd_finite.
  - apply nmul_finite; [apply Hprev; lia | exact I].
  - apply at_index_finite; [exact Hfin | lia].
Qed.

Lemma atr_loop_invariant (tr : list num) (period : Z) (n : nat) :
  Forall is_finite tr → 1 <= period → (n <= length tr)%nat →
  length (fold_left (atr_step tr period) (seq 0 n) []) = n ∧
  ∀ (k : nat) (x : num),
    fold_left (atr_step tr period) (seq 0 n) [] !! k = Some x →
    (Z.of_nat k < period - 1 → x = NaN) ∧ (period - 1 <= Z.of_nat k → is_finite x).
Proof.
  intros Hfin Hp. induction n as [|n IH]; intros Hn.
  - split; [reflexivity | ]. intros k x Hk. simpl in Hk.
    rewrite lookup_nil in Hk. discriminate.
  - assert (n <= length tr)%nat as Hn' by lia.
    destruct (IH Hn') as (Hlen & Hall).
    rewrite seq_S, fold_left_app. simpl.
    destruct (atr_step_snoc tr period (fold_left (atr_step tr period) (seq 0 n) []) n)
      as (x & -> & Hnan & Hdef).
    split; [rewrite length_app, Hlen; simpl; lia | ].
    intros k y Hk.
    destruct (decide (k < n)%nat) as [Hlt|Hge].
    + rewrite lookup_app_l in Hk by lia. exact (Hall k y Hk).
    + rewrite lookup_app_r in Hk by lia. rewrite Hlen in Hk.
      destruct (k - n)%nat as [|m] eqn:Hm; [ | destruct m; discriminate].
      simpl in Hk. injection Hk as <-.
      assert (k = n) as -> by lia.
      split; [exact Hnan | ].
      intros Hw. apply Hdef; try assumption; try lia.
      intros Hgt. unfold at_index.
      destruct (Z.of_nat n - 1 <? 0) eqn:E; [lia | ].
      destruct (fold_left (atr_step tr period) (seq 0 n) [] !! Z.to_nat (Z.of_nat n - 1))
        as [p|] eqn:Hprev.
      * simpl. apply (Hall _ _ Hprev). lia.
      * apply lookup_ge_None in Hprev. lia.
Qed.

Lemma atr_warmup (candles : list Candle) (period : Z) (i : nat) :
  Forall finite_candle candles → 1 <= period → (i < length candles)%nat →
  (Z.of_nat i < period - 1 → atr candles period !! i = Some NaN) ∧
  (period - 1 <= Z.of_nat i → ∃ q, atr candles period !! i = Some (Fin q)).
Proof.
  intros Hfin Hp Hi. unfold atr.
  destruct (atr_loop_invariant (true_range candles) period (length (true_range candles))
              (true_range_finite candles Hfin) Hp (Nat.le_refl _)) as (Hlen & Hall).
  rewrite true_range_length in Hlen.
  destruct (lookup_lt_is_Some_2
              (fold_left (atr_step (true_range candles) period)
                 (seq 0 (length (true_range candles))) []) i) as (x & Hx).
  { rewrite true_range_length at 1. rewrite Hlen. exact Hi. }
  destruct (Hall i x Hx) as (Hnan & Hdef).
  split.
  - intros Hw. rewrite Hx, (Hnan Hw). reflexivity.
  - intros Hw. destruct (is_finite_Fin x (Hdef Hw)) as (q & ->). exists q. exact Hx.
Qed.

Lemma nonneg_finite (a : num) : nonneg a → is_finite a.
Proof. intros (q & -> & _). exact I. Qed.

Lemma nonneg_0 : nonneg 0%num.
Proof. exists 0%Q. split; [reflexivity | lra]. Qed.

Lemma nonneg_add (a b : num) : nonneg a → nonneg b → nonneg (a + b)%num.
Proof.
  intros (x & -> & Hx) (y & -> & Hy). exists (x + y)%Q. split; [reflexivity | lra].
Qed.

Lemma inject_Z_nonneg (z : Z) : 0 <= z → (0 <= inject_Z z)%Q.
Proof. intros Hz. change 0%Q with (inject_Z 0). rewrite <- Zle_Qle. exact Hz. Qed.

Lemma inject_Z_pos (z : Z) : 0 < z → (0 < inject_Z z)%Q.
Proof. intros Hz. change 0%Q with (inject_Z 0). rewrite <- Zlt_Qlt. exact Hz. Qed.

Lemma nonneg_mul_Z (a : num) (z : Z) : nonneg a → 0 <= z → nonneg (a * num_of_Z z)%num.
Proof.
  intros (x & -> & Hx) Hz. exists (x * inject_Z z)%Q. split; [reflexivity | ].
  apply Qmult_le_0_compat; [exact Hx | apply inject_Z_nonneg; exact Hz].
Qed.

Lemma ndiv_Fin_pos (x y : Q) : (0 < y)%Q → (Fin x / Fin y)%num = Fin (x / y).
Proof.
  intros Hy. simpl.
  destruct (Qeq_bool y 0) eqn:E; [ | reflexivity].
  apply Qeq_bool_iff in E. lra.
Qed.

Lemma nonneg_div_Z (a : num) (z : Z) : nonneg a → 1 <= z → nonneg (a / num_of_Z z)%num.
Proof.
  intros (x & -> & Hx) Hz. unfold num_of_Z.
  assert (0 < inject_Z z)%Q as Hpos by (apply inject_Z_pos; lia).
  rewrite (ndiv_Fin_pos x (inject_Z z) Hpos).
  exists (x / inject_Z z)%Q. split; [reflexivity | ].
  apply Qle_shift_div_l; [exact Hpos | lra].
Qed.

Lemma rsi_value_finite (avgGain avgLoss : num) :
  nonneg avgGain → nonneg avgLoss → is_finite (rsi_value avgGain avgLoss).
Proof.
  intros (g & -> & Hg) (l & -> & Hl). unfold rsi_value.
  destruct (neqb (Fin l) 0) eqn:E; [exact I | ].
  assert (0 < l)%Q as Hpos.
  { destruct (Qlt_le_dec 0 l) as [Hlt|Hle]; [exact Hlt | ].
    assert (l == 0)%Q as E0 by lra.
    unfold neqb, ncompare in E. rewrite (proj1 (Qeq_alt l 0) E0) in E. discriminate. }
  rewrite (ndiv_Fin_pos g l Hpos).
  assert (0 <= g / l)%Q as Hq by (apply Qle_shift_div_l; [exact Hpos | lra]).
  change (1 + Fin (g / l))%num with (Fin (1 + g / l)).
  rewrite (ndiv_Fin_pos 100 (1 + g / l)) by lra.
  exact I.
Qed.

Lemma change_finite (closes : list num) (i : Z) :
  Forall is_finite closes → 1 <= i < Z.of_nat (length closes) →
  ∃ c, (at_index closes i - at_index closes (i - 1))%num = Fin c.
Proof.
  intros Hfin Hi. apply is_finite_Fin. apply nsub_finite.
  - apply at_index_finite; [exact Hfin | lia].
  - apply at_index_finite; [exact Hfin | lia].
Qed.

Lemma rsi_seed_step_nonneg (closes : list num) (sums : num * num) (i : Z) :
  Forall is_finite closes → 1 <= i < Z.of_nat (length closes) →
  nonneg (fst sums) → nonneg (snd sums) →
  nonneg (fst (rsi_seed_step closes sums i)) ∧ nonneg (snd (rsi_seed_step closes sums i)).
Proof.
  intros Hfin Hi Hg Hl. destruct sums as [g l]. unfold rsi_seed_step.
  destruct (change_finite closes i Hfin Hi) as (c & ->).
  destruct (Fin c >? 0)%num eqn:E; simpl.
  - apply ngtb_Fin_0 in E. split; [ | exact Hl].
    apply nonneg_add; [exact Hg | ]. exists c. split; [reflexivity | lra].
  - split; [exact Hg | ].
    apply nonneg_add; [exact Hl | ]. exists (Qabs c). split; [reflexivity | apply Qabs_nonneg].
Qed.

Lemma rsi_seed_nonneg (closes : list num) (n : nat) :
  Forall is_finite closes → (n < length closes)%nat →
  ∀ sums, nonneg (fst sums) → nonneg (snd sums) →
    nonneg (fst (fold_left (rsi_seed_step closes) (Z_range 1 (1 + Z.of_nat n)) sums)) ∧
    nonneg (snd (fold_left (rsi_seed_step closes) (Z_range 1 (1 + Z.of_nat n)) sums)).
Proof.
  intros Hfin. unfold Z_range.
  replace (Z.to_nat (1 + Z.of_nat n - 1)) with n by lia.
  induction n as [|n IH]; intros Hn sums Hg Hl.
  - simpl. auto.
  - rewrite seq_S, fmap_app, fold_left_app. simpl.
    assert (n < length closes)%nat as Hn' by lia.
    destruct (IH Hn' sums Hg Hl) as (Hg' & Hl').
    apply rsi_seed_step_nonneg; [exact Hfin | lia | exact Hg' | exact Hl'].
Qed.

Lemma rsi_smooth_step_spec (closes : list num) (period : Z)
    (avgGain avgLoss : num) (result : list num) (i : Z) :
  Forall is_finite closes → 1 <= period → 1 <= i < Z.of_nat (length closes) →
  nonneg avgGain → nonneg avgLoss →
  ∃ g l v, rsi_smooth_step closes period (avgGain, avgLoss, result) i =
             (g, l, <[Z.to_nat i := v]> result) ∧
           nonneg g ∧ nonneg l ∧ is_finite v.
Proof.
  intros Hfin Hp Hi Hg Hl. unfold rsi_smooth_step.
  destruct (change_finite closes i Hfin Hi) as (c & ->).
  assert (nonneg (if (Fin c >? 0)%num then Fin c else 0%num)) as Hgain.
  { destruct (Fin c >? 0)%num eqn:E; [ | exact nonneg_0].
    apply ngtb_Fin_0 in E. exists c. split; [reflexivity | lra]. }
  assert (nonneg (if (Fin c <? 0)%num then Math_abs (Fin c) else 0%num)) as Hloss.
  { destruct (Fin c <? 0)%num; [ | exact nonneg_0].
    exists (Qabs c). split; [reflexivity | apply Qabs_nonneg]. }
  assert (∀ a b, nonneg a → nonneg b →
                 nonneg ((a * num_of_Z (period - 1) + b) / num_of_Z period)%num) as Hsmooth.
  { intros a b Ha Hb. apply nonneg_div_Z; [ | exact Hp].
    apply nonneg_add; [apply nonneg_mul_Z; [exact Ha | lia] | exact Hb]. }
  unfold set_index. destruct (i <? 0) eqn:E; [lia | ].
  eexists _, _, _. split; [reflexivity | ].
  split; [exact (Hsmooth _ _ Hg Hgain) | ].
  split; [exact (Hsmooth _ _ Hl Hloss) | ].
  apply rsi_value_finite; [exact (Hsmooth _ _ Hg Hgain) | exact (Hsmooth _ _ Hl Hloss)].
Qed.

Lemma rsi_smooth_loop (closes : list num) (period : Z) (k : nat) :
  Forall is_finite closes → 1 <= period →
  period + 1 + Z.of_nat k <= Z.of_nat (length closes) →
  ∀ st, rsi_loop_invariant (length closes) period (period + 1) st →
    rsi_loop_invariant (length closes) period (period + 1 + Z.of_nat k)
      (fold_left (rsi_smooth_step closes period)
         (Z_range (period + 1) (period + 1 + Z.of_nat k)) st).
Proof.
  intros Hfin Hp. unfold Z_range.
  replace (Z.to_nat (period + 1 + Z.of_nat k - (period + 1))) with k by lia.
  induction k as [|k IH]; intros Hk st Hst.
  - simpl. replace (period + 1 + Z.of_nat 0) with (period + 1) by lia. exact Hst.
  - rewrite seq_S, fmap_app, fold_left_app. simpl.
    assert (period + 1 + Z.of_nat k <= Z.of_nat (length closes)) as Hk' by lia.
    specialize (IH Hk' st Hst).
    destruct (fold_left (rsi_smooth_step closes period)
                ((fun j => period + 1 + Z.of_nat j) <$> seq 0 k) st)
      as [[avgGain avgLoss] result].
    destruct IH as (Hg & Hl & Hlen & Hnan & Hdef).
    destruct (rsi_smooth_step_spec closes period avgGain avgLoss result
                (period + 1 + Z.of_nat k) Hfin Hp) as (g & l & v & -> & Hg' & Hl' & Hv);
      [lia | exact Hg | exact Hl | ].
    unfold rsi_loop_invariant.
    split; [exact Hg' | ]. split; [exact Hl' | ].
    split; [rewrite length_insert; exact Hlen | ].
    split.
    + intros j Hj Hjl. rewrite list_lookup_insert_ne by lia. exact (Hnan j Hj Hjl).
    + intros j Hj.
      destruct (decide (Z.to_nat (period + 1 + Z.of_nat k) = j)) as [<- | Hne].
      * destruct (is_finite_Fin v Hv) as (q & ->). exists q.
        apply list_lookup_insert_eq. lia.
      * rewrite list_lookup_insert_ne by exact Hne. apply Hdef. lia.
Qed.

Lemma rsiSmoothed_warmup (closes : list num) (period : Z) (i : nat) :
  Forall is_finite closes → 1 <= period → (i < length closes)%nat →
  (Z.of_nat i < period → rsiSmoothed closes period !! i = Some NaN) ∧
  (period <= Z.of_nat i → ∃ q, rsiSmoothed closes period !! i = Some (Fin q)).
Proof.
  intros Hfin Hp Hi. unfold rsiSmoothed.
  destruct (Z.of_nat (length closes) <=? period) eqn:Hshort.
  { split; [ | lia]. intros _. apply lookup_replicate_2. exact Hi. }
  destruct (rsi_seed_nonneg closes (Z.to_nat period) Hfin) with (sums := (0%num, 0%num))
    as (Hg0 & Hl0); [lia | exact nonneg_0 | exact nonneg_0 | ].
  replace (1 + Z.of_nat (Z.to_nat period)) with (period + 1) in Hg0, Hl0 by lia.
  destruct (fold_left (rsi_seed_step closes) (Z_range 1 (period + 1)) (0%num, 0%num))
    as [g0 l0]. simpl in Hg0, Hl0.
  pose proof (nonneg_div_Z g0 period Hg0 Hp) as Hg1.
  pose proof (nonneg_div_Z l0 period Hl0 Hp) as Hl1.
  pose proof (rsi_value_finite _ _ Hg1 Hl1) as Hv.
  destruct (is_finite_Fin _ Hv) as (v & Hv').
  assert (rsi_loop_invariant (length closes) period (period + 1)
            ((g0 / num_of_Z period)%num, (l0 / num_of_Z period)%num,
             set_index (replicate (length closes) NaN) period
               (rsi_value (g0 / num_of_Z period) (l0 / num_of_Z period)))) as Hinit.
  { unfold rsi_loop_invariant, set_index.
    destruct (period <? 0) eqn:E; [lia | ].
    split; [exact Hg1 | ]. split; [exact Hl1 | ].
    split; [rewrite length_insert, length_replicate; reflexivity | ].
    split.
    - intros j Hj Hjl. rewrite list_lookup_insert_ne by lia.
      apply lookup_replicate_2. exact Hjl.
    - intros j Hj. assert (j = Z.to_nat period) as -> by lia.
      exists v. rewrite Hv'. apply list_lookup_insert_eq.
      rewrite length_replicate. lia. }
  pose proof (rsi_smooth_loop closes period
                (Z.to_nat (Z.of_nat (length closes) - (period + 1))) Hfin Hp) as Hloop.
  replace (period + 1 + Z.of_nat (Z.to_nat (Z.of_nat (length closes) - (period + 1))))
    with (Z.of_nat (length closes)) in Hloop by lia.
  specialize (Hloop (Z.le_refl _) _ Hinit).
  destruct (fold_left (rsi_smooth_step closes period)
              (Z_range (period + 1) (Z.of_nat (length closes))) _)
    as [[g l] result].
  destruct Hloop as (_ & _ & Hlen & Hnan & Hdef).
  split.
  - intros Hw. apply Hnan; [exact Hw | exact Hi].
  - intros Hw. apply Hdef. lia.
Qed.

Lemma rsiSmoothed_short (closes : list num) (period : Z) :
  Z.of_nat (length closes) <= period →
  Forall (fun x => x = NaN) (rsiSmoothed closes period).
Proof.
  intros Hshort. unfold rsiSmoothed.
  destruct (Z.of_nat (length closes) <=? period) eqn:E; [ | lia].
  apply Forall_replicate. reflexivity.
Qed.

Lemma atr_short (candles : list Candle) (period : Z) :
  Forall finite_candle candles → 1 <= period →
  Z.of_nat (length candles) < period →
  Forall (fun x => x = NaN) (atr candles period).
Proof.
  intros Hfin Hp Hshort. apply Forall_lookup. intros i x Hx.
  destruct (atr_loop_invariant (true_range candles) period (length (true_range candles))
              (true_range_finite candles Hfin) Hp (Nat.le_refl _)) as (Hlen & Hall).
  pose proof (lookup_lt_Some _ _ _ Hx) as Hi. unfold atr in Hi, Hx.
  rewrite Hlen, true_range_length in Hi.
  apply (Hall i x Hx). lia.
Qed.

(** C4, as the code has it.  For a series of finite numbers, candles of
    finite prices and a lookback period of at least 1: the outputs of
    [sma], [highest], [lowest] and [atr] hold NaN at every index below
    [period - 1] and a finite number at every index from [period - 1] on;
    the output of [rsiSmoothed] holds NaN at every index below [period] and
    a finite number from [period] on; a series shorter than the period
    gives NaN everywhere in these five.  The output of [ema] holds a finite
    number at every index, also below [period - 1], where it is the first
    value at index 0 and then the mean of the values so far, and also for a
    series shorter than the period. *)
Theorem indicator_warmup (data : list num) (candles : list Candle) (period : Z) :
  Forall is_finite data → Forall finite_candle candles → 1 <= period →
  (∀ i : nat, (i < length data)%nat →
     (Z.of_nat i < period - 1 →
        sma data period !! i = Some NaN ∧
        highest data period !! i = Some NaN ∧
        lowest data period !! i = Some NaN) ∧
     (period - 1 <= Z.of_nat i →
        ∃ a b c, sma data period !! i = Some (Fin a) ∧
                 highest data period !! i = Some (Fin b) ∧
                 lowest data period !! i = Some (Fin c)) ∧
     (Z.of_nat i < period → rsiSmoothed data period !! i = Some NaN) ∧
     (period <= Z.of_nat i → ∃ r, rsiSmoothed data period !! i = Some (Fin r)) ∧
     (∃ d, ema data period !! i = Some (Fin d)) ∧
     (0 < Z.of_nat i < period - 1 →
        ema data period !! i =
          Some (prefix_sum data (Z.of_nat i) / num_of_Z (Z.of_nat i + 1))%num) ∧
     (i = 0%nat → ema data period !! i = data !! i)) ∧
  (∀ i : nat, (i < length candles)%nat →
     (Z.of_nat i < period - 1 → atr candles period !! i = Some NaN) ∧
     (period - 1 <= Z.of_nat i → ∃ q, atr candles period !! i = Some (Fin q))) ∧
  (Z.of_nat (length data) < period →
     Forall (fun x => x = NaN) (sma data period) ∧
     Forall (fun x => x = NaN) (highest data period) ∧
     Forall (fun x => x = NaN) (lowest data period) ∧
     Forall (fun x => x = NaN) (rsiSmoothed data period)) ∧
  (Z.of_nat (length candles) < period →
     Forall (fun x => x = NaN) (atr candles period)).
Proof.
  intros Hfin Hcandles Hp. split; [ | split; [ | split]].
  - intros i Hi.
    pose proof (warmup_lookup (fun i => (window_sum data i period / num_of_Z period)%num)
                  data period i Hi) as Hsma.
    pose proof (warmup_lookup (fun i => window_fold Math_max data i period)
                  data period i Hi) as Hhi.
    pose proof (warmup_lookup (fun i => window_fold Math_min data i period)
                  data period i Hi) as Hlo.
    cbv beta in Hsma, Hhi, Hlo.
    change (sma data period !! i = Some
              (if Z.of_nat i <? period - 1 then NaN
               else (window_sum data (Z.of_nat i) period / num_of_Z period)%num)) in Hsma.
    change (highest data period !! i = Some
              (if Z.of_nat i <? period - 1 then NaN
               else window_fold Math_max data (Z.of_nat i) period)) in Hhi.
    change (lowest data period !! i = Some
              (if Z.of_nat i <? period - 1 then NaN
               else window_fold Math_min data (Z.of_nat i) period)) in Hlo.
    rewrite Hsma, Hhi, Hlo. clear Hsma Hhi Hlo.
    destruct (rsiSmoothed_warmup data period i Hfin Hp Hi) as (Hrsi1 & Hrsi2).
    split; [ | split; [ | split; [exact Hrsi1 | split; [exact Hrsi2 | split; [ | split]]]]].
    + intros Hw. destruct (Z.of_nat i <? period - 1) eqn:E; [auto | lia].
    + intros Hw. destruct (Z.of_nat i <? period - 1) eqn:E; [lia | ].
      destruct (is_finite_Fin (window_sum data (Z.of_nat i) period / num_of_Z period)%num)
        as (a & ->).
      { apply ndiv_finite; [ | lia]. apply window_sum_finite; [exact Hfin | lia]. }
      destruct (is_finite_Fin (window_fold Math_max data (Z.of_nat i) period)) as (b & ->).
      { apply window_fold_finite;
          [exact Math_max_finite | exact Hfin | exact Hp | lia]. }
      destruct (is_finite_Fin (window_fold Math_min data (Z.of_nat i) period)) as (c & ->).
      { apply window_fold_finite;
          [exact Math_min_finite | exact Hfin | exact Hp | lia]. }
      exists a, b, c. auto.
    + destruct (ema_finite data period Hfin Hp) as (Hlen & Hall).
      apply finite_lookup; [exact Hall | lia].
    + apply ema_running_mean. exact Hi.
    + intros ->. rewrite ema_first by exact Hi. unfold at_index. simpl.
      destruct data as [|x data']; [simpl in Hi; lia | reflexivity].
  - intros i Hi. exact (atr_warmup candles period i Hcandles Hp Hi).
  - intros Hshort. split; [ | split; [ | split]].
    + exact (warmup_all_NaN (fun i => (window_sum data i period / num_of_Z period)%num)
               data period Hshort).
    + exact (warmup_all_NaN (fun i => window_fold Math_max data i period)
               data period Hshort).
    + exact (warmup_all_NaN (fun i => window_fold Math_min data i period)
               data period Hshort).
    + apply rsiSmoothed_short. lia.
  - intros Hshort. exact (atr_short candles period Hcandles Hp Hshort).
Qed.

Lemma indicator_warmup_witness :
  Forall is_finite [Fin 1; Fin 2; Fin 3; Fin 4] ∧ Forall finite_candle ten_candles ∧
  1 <= 3 ∧
  sma [Fin 1; Fin 2; Fin 3; Fin 4] 3 !! 1%nat = Some NaN ∧
  rsiSmoothed [Fin 1; Fin 2; Fin 3; Fin 4] 3 !! 2%nat = Some NaN ∧
  (∃ d, ema [Fin 1; Fin 2; Fin 3; Fin 4] 3 !! 1%nat = Some (Fin d)) ∧
  (∃ q, atr ten_candles 3 !! 2%nat = Some (Fin q)).
Proof.
  assert (Forall is_finite [Fin 1; Fin 2; Fin 3; Fin 4]) as Hfin by (repeat constructor).
  assert (Forall finite_candle ten_candles) as Hcandles by (repeat constructor).
  assert (1 <= 3) as Hp by lia.
  split; [exact Hfin | ]. split; [exact Hcandles | ]. split; [exact Hp | ].
  destruct (indicator_warmup [Fin 1; Fin 2; Fin 3; Fin 4] ten_candles 3 Hfin Hcandles Hp)
    as (Hseries & Hatr & _).
  destruct (Hseries 1%nat) as (Hnan & _ & _ & _ & Hema & _); [simpl; lia | ].
  destruct (Hseries 2%nat) as (_ & _ & Hrsi & _); [simpl; lia | ].
  destruct (Hatr 2%nat) as (_ & Hdef); [vm_compute; lia | ].
  split; [apply Hnan; lia | ]. split; [apply Hrsi; lia | ].
  split; [exact Hema | ]. apply Hdef. lia.
Defined.

(** C4 as it is worded fails for [ema]: with period 3 the output at
    index 0 is the first value and at index 1 the mean of the first two,
    not NaN; and a series of two values with period 5 gives no NaN at
    all.  It fails for [rsiSmoothed] on the other side: with period 2 the
    output at index 1 is still NaN. *)
Lemma ema_warmup_is_defined :
  ema [Fin 1; Fin 2; Fin 3] 3 = [Fin 1; Fin (3 # 2); Fin (6 # 3)] ∧
  ema [Fin 1; Fin 2; Fin 3] 3 !! 0%nat ≠ Some NaN ∧
  ema [Fin 1; Fin 2] 5 = [Fin 1; Fin (3 # 2)] ∧
  ¬ Forall (fun x => x = NaN) (ema [Fin 1; Fin 2] 5) ∧
  rsiSmoothed [Fin 1; Fin 2; Fin 3] 2 = [NaN; NaN; Fin 100].
Proof.
  split; [reflexivity | ]. split; [discriminate | ]. split; [reflexivity | ].
  split; [ | reflexivity].
  intros Hall. inversion Hall as [|? ? Hx _]. discriminate Hx.
Qed.

(** ** Walk-forward windows: when [generateWindows] returns *)

Lemma timestamp_at_inside (candles : list Candle) (k : Z) :
  0 <= k < Z.of_nat (length candles) → ∃ t, timestamp_at candles k = Some t.
Proof.
  intros Hk. unfold timestamp_at. destruct (k <? 0) eqn:E; [lia | ].
  destruct (lookup_lt_is_Some_2 candles (Z.to_nat k)) as (c & ->); [lia | ].
  eexists. reflexivity.
Qed.

Lemma make_window_inside (candles : list Candle) (a b c d : Z) :
  0 <= a < Z.of_nat (length candles) → 0 <= b < Z.of_nat (length candles) →
  0 <= c < Z.of_nat (length candles) → 0 <= d < Z.of_nat (length candles) →
  ∃ w, make_window candles a b c d = Some w.
Proof.
  intros Ha Hb Hc Hd. unfold make_window.
  destruct (timestamp_at_inside candles a Ha) as (t1 & ->).
  destruct (timestamp_at_inside candles b Hb) as (t2 & ->).
  destruct (timestamp_at_inside candles c Hc) as (t3 & ->).
  destruct (timestamp_at_inside candles d Hd) as (t4 & ->).
  eexists. reflexivity.
Qed.

(** Under the rolling policy no read leaves the array, and the windows
    are returned, when the training part of a window has at least one
    candle and no more than the window. *)
Lemma generateWindows_rolling_returns (candles : list Candle) (cfg : WalkForwardConfig) :
  WalkForwardConfig.windowType cfg = rolling →
  let windowSize :=
    Qfloor (inject_Z (Z.of_nat (length candles)) / WalkForwardConfig.numWindows cfg) in
  let trainSize := Qfloor (inject_Z windowSize * WalkForwardConfig.trainRatio cfg) in
  1 <= trainSize <= windowSize →
  ∃ ws, generateWindows candles cfg = Some ws.
Proof.
  intros Hty windowSize trainSize Htrain. unfold generateWindows. rewrite Hty.
  cbv zeta. fold windowSize. fold trainSize.
  generalize (Z.to_nat (Qceiling (WalkForwardConfig.numWindows cfg))) as n.
  induction n as [|n IH]; [exists []; reflexivity | ].
  destruct IH as (ws & Hws).
  rewrite seq_S, fold_left_app, Hws. simpl. unfold rolling_step. simpl.
  match goal with |- context [if ?c then _ else _] => destruct c eqn:Hskip end;
    [eauto | ].
  apply Z.leb_gt in Hskip.
  assert (0 <= Z.of_nat n * windowSize) as Hstart by nia.
  destruct (make_window_inside candles (Z.of_nat n * windowSize)
              (Z.of_nat n * windowSize + trainSize - 1)
              (Z.of_nat n * windowSize + trainSize - 1 + 1)
              (Z.min (Z.of_nat n * windowSize + trainSize - 1 + 1 +
                      (windowSize - trainSize) - 1)
                 (Z.of_nat (length candles) - 1))) as (w & ->); try lia.
  simpl. eauto.
Qed.

Lemma anchored_step_Some (candles : list Candle) (testSize : Z) (trainRatio : Q)
    (numWindows : Q) (ws : list WalkForwardWindow) (n : nat) :
  anchored_step candles testSize trainRatio numWindows (Some ws) n =
  let trainEnd :=
    Qfloor (inject_Z ((Z.of_nat n + 1) * Z.of_nat (length candles)) * trainRatio /
            numWindows) in
  let testEnd := Z.min (trainEnd + 1 + testSize - 1) (Z.of_nat (length candles) - 1) in
  if testEnd <=? trainEnd + 1 then Some ws
  else w ← make_window candles 0 trainEnd (trainEnd + 1) testEnd; Some (ws ++ [w]).
Proof. reflexivity. Qed.

(** Under the anchored policy they are returned whenever the training
    ratio is not negative. *)
Lemma generateWindows_anchored_returns (candles : list Candle) (cfg : WalkForwardConfig) :
  WalkForwardConfig.windowType cfg = anchored →
  (0 <= WalkForwardConfig.trainRatio cfg)%Q →
  ∃ ws, generateWindows candles cfg = Some ws.
Proof.
  intros Hty Hratio. unfold generateWindows. rewrite Hty. cbv zeta.
  destruct (Qlt_le_dec 0 (WalkForwardConfig.numWindows cfg)) as [Hn|Hn];
    [ | rewrite (no_turns _ Hn); exists []; reflexivity].
  generalize (Z.to_nat (Qceiling (WalkForwardConfig.numWindows cfg))) as n.
  induction n as [|n IH]; [exists []; reflexivity | ].
  destruct IH as (ws & Hws).
  rewrite seq_S, fold_left_app, Hws. cbn [fold_left Nat.add].
  rewrite anchored_step_Some. cbv zeta.
  set (trainEnd := Qfloor _).
  assert (0 <= trainEnd) as Hpos.
  { unfold trainEnd. change 0 with (Qfloor 0). apply Qfloor_resp_le.
    apply Qle_shift_div_l; [exact Hn | ].
    rewrite Qmult_0_l. apply Qmult_le_0_compat; [ | exact Hratio].
    apply inject_Z_nonneg. lia. }
  destruct (_ <=? trainEnd + 1) eqn:Hskip; [eauto | ].
  destruct (make_window_inside candles 0 trainEnd (trainEnd + 1)
              (Z.min (trainEnd + 1 +
                      Qfloor (inject_Z (Z.of_nat (length candles)) /
                              WalkForwardConfig.numWindows cfg) - 1)
                 (Z.of_nat (length candles) - 1))) as (w & ->); try lia.
  simpl. eauto.
Qed.

(** ** The shape of what a run returns *)

Lemma closePosition_frame (exitPrice exitTime : num) (reason : option string)
    (e : BacktestEngine) :
  Engine.candles (closePosition exitPrice exitTime reason e) = Engine.candles e ∧
  Engine.currentIndex (closePosition exitPrice exitTime reason e) = Engine.currentIndex e ∧
  Engine.equityCurve (closePosition exitPrice exitTime reason e) = Engine.equityCurve e.
Proof. unfold closePosition. destruct (Engine.position e); auto. Qed.

Lemma checkExitConditions_curve (candle : Candle) (e : BacktestEngine) :
  Engine.equityCurve (checkExitConditions candle e) = Engine.equityCurve e.
Proof.
  unfold checkExitConditions.
  destruct (Engine.position e) as [p|] eqn:Hp; [ | reflexivity].
  destruct (Position.direction p);
    repeat match goal with |- context [if ?b then _ else _] => destruct b end;
    try reflexivity; apply closePosition_frame.
Qed.

Lemma executeSignal_frame (signal : Signal) (candle : Candle) (e : BacktestEngine) :
  Engine.candles (executeSignal signal candle e) = Engine.candles e ∧
  Engine.currentIndex (executeSignal signal candle e) = Engine.currentIndex e ∧
  Engine.equityCurve (executeSignal signal candle e) = Engine.equityCurve e.
Proof.
  unfold executeSignal.
  destruct (Signal.type signal).
  - set (e1 := if has_direction short (Engine.position e) then _ else e).
    assert (Engine.candles e1 = Engine.candles e ∧
            Engine.currentIndex e1 = Engine.currentIndex e ∧
            Engine.equityCurve e1 = Engine.equityCurve e) as H1.
    { unfold e1. destruct (has_direction short (Engine.position e));
        [apply closePosition_frame | auto]. }
    destruct (Engine.position e1); [exact H1 | exact H1].
  - set (e1 := if has_direction long (Engine.position e) then _ else e).
    assert (Engine.candles e1 = Engine.candles e ∧
            Engine.currentIndex e1 = Engine.currentIndex e ∧
            Engine.equityCurve e1 = Engine.equityCurve e) as H1.
    { unfold e1. destruct (has_direction long (Engine.position e));
        [apply closePosition_frame | auto]. }
    destruct (Engine.position e1); [exact H1 | exact H1].
  - destruct (Engine.position e); [apply closePosition_frame | auto].
Qed.

Lemma process_candle_frame (strat : Strategy) (candle : Candle) (e : BacktestEngine)
    (s : Strategy.state strat) :
  Engine.candles (fst (process_candle strat candle e s)) = Engine.candles e ∧
  Engine.currentIndex (fst (process_candle strat candle e s)) = Engine.currentIndex e ∧
  EquityPoint.timestamp <$> Engine.equityCurve (fst (process_candle strat candle e s)) =
    (EquityPoint.timestamp <$> Engine.equityCurve e) ++ [Candle.timestamp candle].
Proof.
  unfold process_candle.
  destruct (checkExitConditions_frame candle e) as (_ & Hc & Hi).
  pose proof (checkExitConditions_curve candle e) as Hq.
  destruct (Strategy.onCandle strat _ _ _ s) as [[signal|] s1]; simpl.
  - destruct (executeSignal_frame signal candle (checkExitConditions candle e))
      as (Hc2 & Hi2 & Hq2).
    rewrite Hc2, Hi2, Hq2, Hc, Hi, Hq, fmap_app. auto.
  - rewrite Hc, Hi, Hq, fmap_app. auto.
Qed.

Section RunShape.
Context {math : JSMath}.

Lemma run_loop_curve (strat : Strategy) (n : nat) (e : BacktestEngine)
    (s : Strategy.state strat) :
  (Engine.currentIndex e + n = length (Engine.candles e))%nat →
  EquityPoint.timestamp <$> Engine.equityCurve (fst (run_loop strat n e s)) =
    (EquityPoint.timestamp <$> Engine.equityCurve e) ++
    (Candle.timestamp <$> drop (Engine.currentIndex e) (Engine.candles e)).
Proof.
  revert e s. induction n as [|n IH]; intros e s Hn; simpl.
  - rewrite drop_ge by lia. simpl. rewrite app_nil_r. reflexivity.
  - destruct (Engine.candles e !! Engine.currentIndex e) as [candle|] eqn:Hc.
    + destruct (process_candle_frame strat candle e s) as (H1 & H2 & H3).
      destruct (process_candle strat candle e s) as [e1 s1]. simpl in H1, H2, H3.
      rewrite IH by (simpl; rewrite H1, H2; lia). simpl.
      rewrite H1, H2, H3, (drop_S _ _ _ Hc), <- app_assoc. reflexivity.
    + apply lookup_ge_None in Hc. lia.
Qed.

(** X1.  On an empty candle list [run] throws.  On any other it returns, with
    one point of the equity curve for each candle, in the order of the
    candles and stamped with the candle's time, the count of the candles,
    and the times of the first and of the last candle as start and end
    date. *)
Theorem run_one_equity_point_per_candle (candles : list Candle) (strat : Strategy)
    (e : BacktestEngine) :
  run [] strat e = None ∧
  (candles ≠ [] →
   ∃ r e' strat',
     run candles strat e = Some (r, e', strat') ∧
     EquityPoint.timestamp <$> BacktestResult.equityCurve r = Candle.timestamp <$> candles ∧
     BacktestResult.candleCount r = length candles ∧
     Some (BacktestResult.startDate r) = Candle.timestamp <$> head candles ∧
     Some (BacktestResult.endDate r) = Candle.timestamp <$> last_opt candles).
Proof.
  split; [reflexivity | ].
  intros Hne. unfold run. destruct candles as [|first rest]; [congruence | ].
  destruct (last_opt_cons first rest) as (lastCandle & Hlast). rewrite Hlast.
  pose proof (run_loop_curve strat (length (Engine.candles (reset (first :: rest) e)))
                (reset (first :: rest) e)
                (Strategy.init strat (Engine.candles (reset (first :: rest) e))
                   (Engine.config (reset (first :: rest) e)) (Strategy.self strat))
                eq_refl) as Hq.
  destruct (run_loop strat _ _ _) as [e1 s1]. simpl in Hq.
  eexists _, _, _. split; [reflexivity | ]. simpl.
  split; [ | auto].
  destruct (Engine.position e1);
    [destruct (closePosition_frame (Candle.close lastCandle)
                 (Candle.timestamp lastCandle) (Some "End of backtest"%string) e1)
       as (_ & _ & ->) | ]; exact Hq.
Qed.
End RunShape.

(** ** The trades of a run *)

Lemma to_uint_nonnil (n : nat) : Nat.to_uint n ≠ Decimal.Nil.
Proof.
  pose proof (DecimalNat.Unsigned.to_of (Nat.to_uint n)) as H. rewrite DecimalNat.Unsigned.of_to in H.
  rewrite H. apply DecimalFacts.unorm_nonnil.
Qed.

Lemma pos_id_inj (n m : nat) : pos_id n = pos_id m → n = m.
Proof.
  unfold pos_id. intros H. cbv beta iota delta [String.append] in H.
  injection H as H.
  apply DecimalNat.Unsigned.to_uint_inj.
  pose proof (NilZero.usu _ (to_uint_nonnil n)) as Hn.
  pose proof (NilZero.usu _ (to_uint_nonnil m)) as Hm.
  rewrite H in Hn. congruence.
Qed.

Lemma closePosition_numbered (k : nat) (exitPrice exitTime : num) (reason : option string)
    (e : BacktestEngine) :
  numbered k e →
  numbered k (closePosition exitPrice exitTime reason e) ∧
  Engine.position (closePosition exitPrice exitTime reason e) = None.
Proof.
  unfold numbered, closePosition. intros (Hc & Hids & Hk & Hp).
  destruct (Engine.position e) as [p|] eqn:E;
    [ | rewrite E; repeat split; assumption]. simpl.
  destruct Hp as (Hid & Hcount).
  split; [ | reflexivity].
  split; [ | split; [ | split]].
  - apply Forall_app. split; [exact Hc | ].
    constructor; [ | constructor]. unfold closed. simpl. eauto 10.
  - rewrite fmap_app, length_app, Hids. simpl.
    rewrite Nat.add_1_r, seq_S, fmap_app. simpl.
    rewrite Hid, Hcount. reflexivity.
  - exact Hk.
  - rewrite length_app. simpl. lia.
Qed.

Lemma checkExitConditions_numbered (k : nat) (candle : Candle) (e : BacktestEngine) :
  numbered k e → numbered k (checkExitConditions candle e).
Proof.
  intros Hn. unfold checkExitConditions.
  destruct (Engine.position e) as [p|]; [ | exact Hn].
  destruct (Position.direction p);
    repeat match goal with |- context [if ?b then _ else _] => destruct b end;
    try exact Hn; apply closePosition_numbered; exact Hn.
Qed.

Lemma openPosition_numbered (k : nat) (direction : TradeDirection) (candle : Candle)
    (signal : Signal) (e : BacktestEngine) :
  numbered k e → Engine.position e = None →
  numbered (S k) (openPosition direction candle signal e).
Proof.
  unfold numbered. intros (Hc & Hids & Hk & Hp) E. rewrite E in Hp. simpl.
  split; [exact Hc | ]. split; [exact Hids | ]. split; [lia | ].
  split; [reflexivity | lia].
Qed.

Lemma numbered_mono (k k' : nat) (e : BacktestEngine) :
  (k ≤ k')%nat → numbered k e → numbered k' e.
Proof.
  unfold numbered. intros Hle (Hc & Hids & Hk & Hp).
  split; [exact Hc | ]. split; [exact Hids | ]. split; [lia | exact Hp].
Qed.

Lemma executeSignal_numbered (k : nat) (signal : Signal) (candle : Candle)
    (e : BacktestEngine) :
  numbered k e → numbered (S k) (executeSignal signal candle e).
Proof.
  intros Hn. unfold executeSignal.
  destruct (Signal.type signal).
  - set (e1 := if has_direction short (Engine.position e) then _ else e).
    assert (numbered k e1) as H1.
    { unfold e1. destruct (has_direction short (Engine.position e));
        [apply closePosition_numbered | ]; exact Hn. }
    destruct (Engine.position e1) eqn:E.
    + apply (numbered_mono k); [lia | exact H1].
    + apply openPosition_numbered; assumption.
  - set (e1 := if has_direction long (Engine.position e) then _ else e).
    assert (numbered k e1) as H1.
    { unfold e1. destruct (has_direction long (Engine.position e));
        [apply closePosition_numbered | ]; exact Hn. }
    destruct (Engine.position e1) eqn:E.
    + apply (numbered_mono k); [lia | exact H1].
    + apply openPosition_numbered; assumption.
  - apply (numbered_mono k); [lia | ].
    destruct (Engine.position e); [apply closePosition_numbered | ]; exact Hn.
Qed.

Lemma process_candle_numbered (k : nat) (strat : Strategy) (candle : Candle)
    (e : BacktestEngine) (s : Strategy.state strat) :
  numbered k e → numbered (S k) (fst (process_candle strat candle e s)).
Proof.
  intros Hn. unfold process_candle.
  pose proof (checkExitConditions_numbered k candle e Hn) as H1.
  destruct (Strategy.onCandle strat _ _ _ s) as [[signal|] s1]; simpl.
  - exact (executeSignal_numbered k signal candle _ H1).
  - exact (numbered_mono k (S k) _ (Nat.le_succ_diag_r k) H1).
Qed.

Section RunTrades.
Context {math : JSMath}.

Lemma run_loop_numbered (k : nat) (strat : Strategy) (n : nat) (e : BacktestEngine)
    (s : Strategy.state strat) :
  numbered k e → numbered (k + n) (fst (run_loop strat n e s)).
Proof.
  revert k e s. induction n as [|n IH]; intros k e s Hn; simpl.
  - rewrite Nat.add_0_r. exact Hn.
  - destruct (Engine.candles e !! Engine.currentIndex e) as [candle|].
    + pose proof (process_candle_numbered k strat candle e s Hn) as H1.
      destruct (process_candle strat candle e s) as [e1 s1]. simpl in H1.
      replace (k + S n)%nat with (S k + n)%nat by lia.
      apply IH. exact H1.
    + apply (numbered_mono k); [lia | exact Hn].
Qed.

Lemma run_numbered (candles : list Candle) (strat : Strategy) (e : BacktestEngine)
    (r : BacktestResult) (e' : BacktestEngine) (strat' : Strategy) :
  run candles strat e = Some (r, e', strat') →
  BacktestResult.trades r = Engine.trades e' ∧
  numbered (length candles) e' ∧ Engine.position e' = None.
Proof.
  unfold run. destruct candles as [|first rest]; [discriminate | ].
  destruct (last_opt (first :: rest)) as [lastCandle|]; [ | discriminate].
  assert (numbered 0 (reset (first :: rest) e)) as H0.
  { unfold numbered. simpl. split; [constructor | auto]. }
  pose proof (run_loop_numbered 0 strat (length (Engine.candles (reset (first :: rest) e)))
                _ (Strategy.init strat (Engine.candles (reset (first :: rest) e))
                     (Engine.config (reset (first :: rest) e)) (Strategy.self strat))
                H0) as H1.
  destruct (run_loop strat _ _ _) as [e1 s1]. simpl in H1.
  intros Hrun. injection Hrun as <- <- _. simpl.
  split; [reflexivity | ].
  destruct (Engine.position e1) eqn:E.
  - apply closePosition_numbered. exact H1.
  - split; [exact H1 | exact E].
Qed.

Lemma calculateMetrics_totalTrades (trades : list Trade) (equityCurve : list EquityPoint)
    (initialCapital startDate endDate : num) :
  PerformanceMetrics.totalTrades
    (calculateMetrics trades equityCurve initialCapital startDate endDate) =
  length (List.filter is_completed trades).
Proof.
  unfold calculateMetrics.
  destruct (List.filter is_completed trades) as [|t ts] eqn:E; [reflexivity | ].
  destruct (calculateConsecutive (t :: ts)) as [cw cl].
  destruct (calculateDrawdown equityCurve initialCapital) as [dd ddp].
  reflexivity.
Qed.

(** X2.  The trades [run] returns carry the IDs [pos-1], [pos-2], ... in the
    order they were closed: the IDs are pairwise different; and there is
    at most one trade for each candle. *)
Theorem run_trade_ids_in_sequence (candles : list Candle) (strat : Strategy)
    (e : BacktestEngine) (r : BacktestResult) (e' : BacktestEngine) (strat' : Strategy) :
  run candles strat e = Some (r, e', strat') →
  Trade.id <$> BacktestResult.trades r =
    pos_id <$> seq 1 (length (BacktestResult.trades r)) ∧
  NoDup (Trade.id <$> BacktestResult.trades r) ∧
  (length (BacktestResult.trades r) ≤ length candles)%nat.
Proof.
  intros Hrun.
  destruct (run_numbered candles strat e r e' strat' Hrun)
    as (-> & (_ & Hids & Hk & Hp) & E).
  rewrite E in Hp.
  split; [exact Hids | ]. split; [ | lia].
  rewrite Hids. apply NoDup_fmap_2; [ | apply NoDup_seq].
  intros n m. apply pos_id_inj.
Qed.

(** X3.  When [run] returns no position is open: every trade returned is
    closed, with its profit, exit time and exit price set, and the
    [totalTrades] of the metrics is the number of the trades returned. *)
Theorem run_leaves_every_trade_closed (candles : list Candle) (strat : Strategy)
    (e : BacktestEngine) (r : BacktestResult) (e' : BacktestEngine) (strat' : Strategy) :
  run candles strat e = Some (r, e', strat') →
  Engine.position e' = None ∧
  Forall closed (BacktestResult.trades r) ∧
  PerformanceMetrics.totalTrades (BacktestResult.metrics r) =
    length (BacktestResult.trades r).
Proof.
  intros Hrun.
  destruct (run_numbered candles strat e r e' strat' Hrun)
    as (Ht & (Hc & _) & E).
  rewrite <- Ht in Hc.
  split; [exact E | ]. split; [exact Hc | ].
  unfold run in Hrun. destruct candles as [|first rest]; [discriminate | ].
  destruct (last_opt (first :: rest)) as [lastCandle|]; [ | discriminate].
  destruct (run_loop strat _ _ _) as [e1 s1].
  injection Hrun as <- _ _. simpl in *.
  rewrite calculateMetrics_totalTrades. f_equal.
  clear - Hc. induction Hc as [|t ts (Ht & _) _ IH]; [reflexivity | ].
  simpl. unfold is_completed at 1. destruct Ht as (x & ->). rewrite IH. reflexivity.
Qed.
End RunTrades.

Lemma run_trade_ids_in_sequence_witness :
  ∃ r e' strat',
    run (math := unevaluated) rising_candles always_buy
      (new_BacktestEngine DEFAULT_BACKTEST_CONFIG) = Some (r, e', strat') ∧
    Trade.id <$> BacktestResult.trades r = ["pos-1"%string].
Proof.
  eexists _, _, _. split; [reflexivity | ].
  exact (proj1 (run_trade_ids_in_sequence (math := unevaluated) rising_candles always_buy
                  (new_BacktestEngine DEFAULT_BACKTEST_CONFIG) _ _ _ eq_refl)).
Defined.

Lemma run_leaves_every_trade_closed_witness :
  ∃ r e' strat',
    run (math := unevaluated) rising_candles always_buy
      (new_BacktestEngine DEFAULT_BACKTEST_CONFIG) = Some (r, e', strat') ∧
    Engine.position e' = None ∧
    PerformanceMetrics.totalTrades (BacktestResult.metrics r) = 1%nat.
Proof.
  eexists _, _, _. split; [reflexivity | ].
  destruct (run_leaves_every_trade_closed (math := unevaluated) rising_candles always_buy
              (new_BacktestEngine DEFAULT_BACKTEST_CONFIG) _ _ _ eq_refl) as (H1 & _ & H3).
  split; [exact H1 | exact H3].
Defined.

(** ** Signals that change nothing *)

(** X4.  A signal carried out twice on a candle does what it does carried out
    once: a buy with a long position open, a sell with a short position
    open and a close with no position open leave the engine as it is, so
    a position is never added to and no second position is opened. *)
Theorem executeSignal_idempotent (signal : Signal) (candle : Candle) (e : BacktestEngine) :
  executeSignal signal candle (executeSignal signal candle e) =
  executeSignal signal candle e.
Proof.
  unfold executeSignal.
  destruct (Signal.type signal);
    destruct (Engine.position e) as [p|] eqn:E;
    try (unfold has_direction; destruct (Position.direction p) eqn:D);
    unfold closePosition, openPosition, has_direction;
    repeat (progress (simpl; rewrite ?E, ?D)); reflexivity.
Qed.

Lemma process_candle_untouched (strat : Strategy) (candle : Candle) (e : BacktestEngine)
    (s : Strategy.state strat) :
  silent strat → untouched e → untouched (fst (process_candle strat candle e s)).
Proof.
  intros Hsilent (Hp & Ht & He & Hq). unfold process_candle.
  assert (checkExitConditions candle e = e) as ->.
  { unfold checkExitConditions. rewrite Hp. reflexivity. }
  pose proof (Hsilent (Engine.currentIndex e) (getHistoricalCandles e)
                (Engine.position e) s) as Hnone.
  destruct (Strategy.onCandle strat _ _ _ s) as [signal s1]. simpl in Hnone. subst signal.
  unfold untouched, updateEquityCurve. simpl. rewrite Hp.
  split; [reflexivity | ]. split; [exact Ht | ]. split; [exact He | ].
  apply Forall_app. split; [exact Hq | ]. constructor; [exact He | constructor].
Qed.

Section QuietRun.
Context {math : JSMath}.

Lemma run_loop_untouched (strat : Strategy) (n : nat) (e : BacktestEngine)
    (s : Strategy.state strat) :
  silent strat → untouched e → untouched (fst (run_loop strat n e s)).
Proof.
  intros Hsilent. revert e s. induction n as [|n IH]; intros e s Hu; simpl; [exact Hu | ].
  destruct (Engine.candles e !! Engine.currentIndex e) as [candle|]; [ | exact Hu].
  pose proof (process_candle_untouched strat candle e s Hsilent Hu) as H1.
  destruct (process_candle strat candle e s) as [e1 s1]. simpl in H1.
  apply IH. exact H1.
Qed.

(** X5.  A run of a strategy that never gives a signal returns no trade, an
    equity curve that stands at the initial capital at every point, and
    the metrics of no trades: every metric 0. *)
Theorem run_of_silent_strategy (candles : list Candle) (strat : Strategy)
    (e : BacktestEngine) :
  silent strat → candles ≠ [] →
  ∃ r e' strat',
    run candles strat e = Some (r, e', strat') ∧
    BacktestResult.trades r = [] ∧
    Forall (fun point => EquityPoint.equity point =
                           BacktestConfig.initialCapital (Engine.config e))
      (BacktestResult.equityCurve r) ∧
    BacktestResult.metrics r = getEmptyMetrics.
Proof.
  intros Hsilent Hne. unfold run. destruct candles as [|first rest]; [congruence | ].
  destruct (last_opt_cons first rest) as (lastCandle & ->).
  assert (untouched (reset (first :: rest) e)) as H0.
  { unfold untouched. simpl. auto. }
  pose proof (run_loop_untouched strat (length (Engine.candles (reset (first :: rest) e)))
                _ (Strategy.init strat (Engine.candles (reset (first :: rest) e))
                     (Engine.config (reset (first :: rest) e)) (Strategy.self strat))
                Hsilent H0) as H1.
  pose proof (run_loop_config strat (length (Engine.candles (reset (first :: rest) e)))
                (reset (first :: rest) e)
                (Strategy.init strat (Engine.candles (reset (first :: rest) e))
                   (Engine.config (reset (first :: rest) e)) (Strategy.self strat))) as Hc.
  destruct (run_loop strat _ _ _) as [e1 s1]. simpl in H1, Hc.
  destruct H1 as (Hp & Ht & He & Hq).
  eexists _, _, _. split; [reflexivity | ]. simpl. rewrite Hp. simpl.
  split; [exact Ht | ]. split; [rewrite <- Hc; exact Hq | ].
  rewrite Ht. reflexivity.
Qed.

(** X6.  [setConfig] takes effect at the next run, and takes effect in full:
    a run after [setConfig] returns what a run on a newly constructed
    engine of the merged configuration returns; the keys that are absent
    keep their value. *)
Theorem run_after_setConfig (candles : list Candle) (strat : Strategy)
    (config : PartialBacktestConfig) (e : BacktestEngine) :
  run candles strat (setConfig config e) =
    run candles strat (new_BacktestEngine (spread_config (getConfig e) config)) ∧
  (∀ r e' strat',
     run candles strat (setConfig config e) = Some (r, e', strat') →
     BacktestResult.config r = spread_config (getConfig e) config ∧
     getConfig e' = spread_config (getConfig e) config ∧
     BacktestConfig.initialCapital (BacktestResult.config r) =
       default (BacktestConfig.initialCapital (getConfig e))
         (PartialBacktestConfig.initialCapital config)).
Proof.
  split; [apply run_reads_config; reflexivity | ].
  intros r e' strat' Hrun.
  pose proof (run_config _ _ _ _ _ _ Hrun) as Hc.
  assert (BacktestResult.config r = Engine.config e') as Hr.
  { unfold run in Hrun. destruct candles as [|first rest]; [discriminate | ].
    destruct (last_opt (first :: rest)) as [lastCandle|]; [ | discriminate].
    destruct (run_loop strat _ _ _) as [e1 s1].
    injection Hrun as <- <- _. reflexivity. }
  unfold getConfig. rewrite Hr, Hc. simpl. auto.
Qed.
End QuietRun.

Lemma run_of_silent_strategy_witness :
  ∃ r e' strat',
    run (math := unevaluated) rising_candles never_trade
      (new_BacktestEngine DEFAULT_BACKTEST_CONFIG) = Some (r, e', strat') ∧
    BacktestResult.trades r = [] ∧
    BacktestResult.metrics r = getEmptyMetrics.
Proof.
  assert (silent never_trade) as Hs by (intros ? ? ? ?; reflexivity).
  assert (rising_candles ≠ []) as Hne by discriminate.
  destruct (run_of_silent_strategy (math := unevaluated) rising_candles never_trade
              (new_BacktestEngine DEFAULT_BACKTEST_CONFIG) Hs Hne)
    as (r & e' & strat' & H1 & H2 & _ & H4).
  exists r, e', strat'. split; [exact H1 | ]. split; [exact H2 | exact H4].
Defined.

Lemma run_identity_when_flat_witness :
  ∃ r e' strat',
    run (math := unevaluated) rising_candles buy_then_close
      (new_BacktestEngine DEFAULT_BACKTEST_CONFIG) = Some (r, e', strat') ∧
    num_eq (sum_pnl (BacktestResult.trades r))
      (last_equity (BacktestResult.equityCurve r) - Fin 10000).
Proof.
  eexists _, _, _. split; [reflexivity | ].
  exact (run_identity_when_flat (math := unevaluated) rising_candles buy_then_close
           (new_BacktestEngine DEFAULT_BACKTEST_CONFIG) _ _ _ eq_refl I eq_refl).
Defined.

(** ** Counts and rates of the metrics *)

Lemma win_not_loss (t : Trade) : is_win t = true → is_loss t = false.
Proof.
  unfold is_win, is_loss, ngtb, nltb.
  destruct (pnl_or_0 t) as [x| | |]; simpl; try discriminate; try reflexivity.
  rewrite <- (Qcompare_antisym x 0). destruct (x ?= 0)%Q; simpl; congruence.
Qed.

Lemma wins_and_losses_length (ts : list Trade) :
  (length (List.filter is_win ts) + length (List.filter is_loss ts) ≤ length ts)%nat.
Proof.
  induction ts as [|t ts IH]; simpl; [lia | ].
  destruct (is_win t) eqn:Ew.
  - rewrite (win_not_loss t Ew). simpl. lia.
  - destruct (is_loss t); simpl; lia.
Qed.

Lemma filter_length_le {A : Type} (f : A → bool) (l : list A) :
  (length (List.filter f l) ≤ length l)%nat.
Proof.
  induction l as [|x l IH]; simpl; [lia | ]. destruct (f x); simpl; lia.
Qed.

Section MetricsCounts.
Context {math : JSMath}.

Lemma calculateMetrics_counts (trades : list Trade) (equityCurve : list EquityPoint)
    (initialCapital startDate endDate : num) :
  let completedTrades := List.filter is_completed trades in
  let m := calculateMetrics trades equityCurve initialCapital startDate endDate in
  completedTrades ≠ [] →
  PerformanceMetrics.winningTrades m = length (List.filter is_win completedTrades) ∧
  PerformanceMetrics.losingTrades m = length (List.filter is_loss completedTrades) ∧
  PerformanceMetrics.winRate m =
    (num_of_nat (length (List.filter is_win completedTrades)) /
     num_of_nat (length completedTrades) * 100)%num ∧
  (PerformanceMetrics.consecutiveWins m, PerformanceMetrics.consecutiveLosses m) =
    calculateConsecutive completedTrades.
Proof.
  intros completedTrades m Hne. unfold m, calculateMetrics. fold completedTrades.
  destruct completedTrades as [|t ts] eqn:E; [congruence | ].
  destruct (calculateConsecutive (t :: ts)) as [cw cl].
  destruct (calculateDrawdown equityCurve initialCapital) as [dd ddp].
  simpl. auto.
Qed.

(** X8.  The counts of the metrics add up and the win rate is a percentage:
    the winning and the losing trades together are at most the total (a
    trade that breaks even is neither), and [winRate] is a finite number
    from 0 to 100, for every trade list and every equity curve. *)
Theorem winRate_is_percentage (trades : list Trade) (equityCurve : list EquityPoint)
    (initialCapital startDate endDate : num) :
  let m := calculateMetrics trades equityCurve initialCapital startDate endDate in
  (PerformanceMetrics.winningTrades m + PerformanceMetrics.losingTrades m ≤
   PerformanceMetrics.totalTrades m)%nat ∧
  ∃ q, PerformanceMetrics.winRate m = Fin q ∧ (0 <= q)%Q ∧ (q <= 100)%Q.
Proof.
  intros m. unfold m.
  destruct (List.filter is_completed trades) as [|t ts] eqn:E.
  - unfold calculateMetrics. rewrite E. simpl.
    split; [lia | ]. exists 0%Q. split; [reflexivity | lra].
  - assert (List.filter is_completed trades ≠ []) as Hne by (rewrite E; discriminate).
    destruct (calculateMetrics_counts trades equityCurve initialCapital startDate endDate Hne)
      as (Hw & Hl & Hr & _).
    rewrite Hw, Hl, Hr, calculateMetrics_totalTrades.
    split; [apply wins_and_losses_length | ].
    pose proof (filter_length_le is_win (List.filter is_completed trades)) as Hle.
    rewrite E in *.
    set (w := length (List.filter is_win (t :: ts))) in *.
    set (n := length (t :: ts)) in *.
    assert (0 < n)%nat as Hn by (unfold n; simpl; lia).
    unfold num_of_nat. simpl.
    assert (0 < inject_Z (Z.of_nat n))%Q as Hpos.
    { change 0%Q with (inject_Z 0). rewrite <- Zlt_Qlt. lia. }
    assert (inject_Z (Z.of_nat w) <= inject_Z (Z.of_nat n))%Q as Hwn.
    { rewrite <- Zle_Qle. lia. }
    assert (0 <= inject_Z (Z.of_nat w))%Q as Hw0.
    { change 0%Q with (inject_Z 0). rewrite <- Zle_Qle. lia. }
    destruct (Qeq_bool (inject_Z (Z.of_nat n)) 0) eqn:E0.
    { apply Qeq_bool_iff in E0. lra. }
    eexists. split; [reflexivity | ].
    split.
    + apply Qmult_le_0_compat; [ | lra].
      apply Qle_shift_div_l; [exact Hpos | lra].
    + assert (inject_Z (Z.of_nat w) / inject_Z (Z.of_nat n) <= 1)%Q as H1.
      { apply Qle_shift_div_r; [exact Hpos | lra]. }
      lra.
Qed.
End MetricsCounts.

(** ** Streaks *)

Lemma consecutive_step_neutral (st : nat * nat * nat * nat) (t : Trade) :
  decided t = false →
  (let '(maxConsecutiveWins, maxConsecutiveLosses, currentWins, currentLosses) := st in
   if (pnl_or_0 t >? 0)%num then
     let currentWins := S currentWins in
     (Nat.max maxConsecutiveWins currentWins, maxConsecutiveLosses, currentWins, O)
   else if (pnl_or_0 t <? 0)%num then
     let currentLosses := S currentLosses in
     (maxConsecutiveWins, Nat.max maxConsecutiveLosses currentLosses, O, currentLosses)
   else st) = st.
Proof.
  unfold decided, is_win, is_loss. intros Hd.
  apply orb_false_iff in Hd. destruct Hd as (-> & ->).
  destruct st as [[[a b] c] d]. reflexivity.
Qed.

Lemma consecutive_fold_decided (step : nat * nat * nat * nat → Trade → nat * nat * nat * nat)
    (l : list Trade) (st : nat * nat * nat * nat) :
  (∀ st t, decided t = false → step st t = st) →
  fold_left step (List.filter decided l) st = fold_left step l st.
Proof.
  intros Hneutral. revert st. induction l as [|t l IH]; intros st; simpl; [reflexivity | ].
  destruct (decided t) eqn:Ed; simpl.
  - apply IH.
  - rewrite (Hneutral st t Ed). apply IH.
Qed.

Lemma consecutive_fold_bounds (l : list Trade) (mw ml cw cl a b : nat) :
  (mw ≤ a)%nat → (cw ≤ a)%nat → (ml ≤ b)%nat → (cl ≤ b)%nat →
  let '(mw', ml', cw', cl') :=
    fold_left
      (fun (st : nat * nat * nat * nat) (trade : Trade) =>
         let '(maxConsecutiveWins, maxConsecutiveLosses, currentWins, currentLosses) := st in
         if (pnl_or_0 trade >? 0)%num then
           let currentWins := S currentWins in
           (Nat.max maxConsecutiveWins currentWins, maxConsecutiveLosses, currentWins, O)
         else if (pnl_or_0 trade <? 0)%num then
           let currentLosses := S currentLosses in
           (maxConsecutiveWins, Nat.max maxConsecutiveLosses currentLosses, O, currentLosses)
         else st) l (mw, ml, cw, cl) in
  (mw' ≤ a + length (List.filter is_win l))%nat ∧
  (ml' ≤ b + length (List.filter is_loss l))%nat.
Proof.
  revert mw ml cw cl a b.
  induction l as [|t l IH]; intros mw ml cw cl a b Hmw Hcw Hml Hcl; simpl; [lia | ].
  unfold is_win at 1, is_loss at 1.
  destruct (pnl_or_0 t >? 0)%num eqn:Ew.
  - assert ((pnl_or_0 t <? 0)%num = false) as ->.
    { apply (win_not_loss t). exact Ew. }
    simpl.
    specialize (IH (Nat.max mw (S cw)) ml (S cw) O (S a) b).
    destruct (fold_left _ l _) as [[[mw' ml'] cw'] cl'].
    destruct IH as (H1 & H2); lia.
  - destruct (pnl_or_0 t <? 0)%num eqn:El; simpl.
    + specialize (IH mw (Nat.max ml (S cl)) O (S cl) a (S b)).
      destruct (fold_left _ l _) as [[[mw' ml'] cw'] cl'].
      destruct IH as (H1 & H2); lia.
    + specialize (IH mw ml cw cl a b).
      destruct (fold_left _ l _) as [[[mw' ml'] cw'] cl'].
      destruct IH as (H1 & H2); lia.
Qed.

(** X9.  In the count of the streaks a trade that breaks even (a profit of 0)
    neither extends a streak nor ends it: the longest winning and losing
    streaks are those of the list with the break-even trades left out.
    The longest winning streak is at most the number of winning trades,
    the longest losing streak at most the number of losing trades. *)
Theorem calculateConsecutive_skips_breakeven (trades : list Trade) :
  calculateConsecutive trades = calculateConsecutive (List.filter decided trades) ∧
  (fst (calculateConsecutive trades) ≤ length (List.filter is_win trades))%nat ∧
  (snd (calculateConsecutive trades) ≤ length (List.filter is_loss trades))%nat.
Proof.
  split.
  - unfold calculateConsecutive.
    rewrite consecutive_fold_decided; [reflexivity | ].
    intros st t Hd. apply (consecutive_step_neutral st t Hd).
  - pose proof (consecutive_fold_bounds trades 0 0 0 0 0 0
                  (Nat.le_refl 0) (Nat.le_refl 0) (Nat.le_refl 0) (Nat.le_refl 0)) as H.
    unfold calculateConsecutive.
    destruct (fold_left _ trades _) as [[[mw' ml'] cw'] cl'].
    simpl in *. exact H.
Qed.

(** ** More facts about numbers *)

Lemma Math_max_Fin (a b : Q) :
  Math_max (Fin a) (Fin b) = Fin b ∧ (a < b)%Q ∨
  Math_max (Fin a) (Fin b) = Fin a ∧ (b <= a)%Q.
Proof.
  unfold Math_max, ncompare.
  destruct (a ?= b)%Q eqn:E.
  - right. split; [reflexivity | ]. apply Qeq_alt in E. lra.
  - left. split; [reflexivity | ]. apply Qlt_alt. exact E.
  - right. split; [reflexivity | ]. apply Qgt_alt in E. lra.
Qed.

Lemma Math_min_Fin (a b : Q) :
  Math_min (Fin a) (Fin b) = Fin b ∧ (b < a)%Q ∨
  Math_min (Fin a) (Fin b) = Fin a ∧ (a <= b)%Q.
Proof.
  unfold Math_min, ncompare.
  destruct (a ?= b)%Q eqn:E.
  - right. split; [reflexivity | ]. apply Qeq_alt in E. lra.
  - right. split; [reflexivity | ]. apply Qlt_alt in E. lra.
  - left. split; [reflexivity | ]. apply Qgt_alt. exact E.
Qed.

Lemma nltb_Fin (x y : Q) : (Fin x <? Fin y)%num = true ↔ (x < y)%Q.
Proof.
  unfold nltb, ncompare. rewrite Qlt_alt.
  destruct (x ?= y)%Q; split; congruence.
Qed.

Lemma ngtb_Fin (x y : Q) : (Fin x >? Fin y)%num = true ↔ (y < x)%Q.
Proof. unfold ngtb. apply nltb_Fin. Qed.

Lemma nltb_Fin_false (x y : Q) : (Fin x <? Fin y)%num = false ↔ (y <= x)%Q.
Proof.
  destruct (Fin x <? Fin y)%num eqn:E.
  - apply nltb_Fin in E. split; [discriminate | lra].
  - split; [ | reflexivity]. intros _.
    destruct (Qlt_le_dec x y) as [Hlt|Hle]; [ | exact Hle].
    apply nltb_Fin in Hlt. congruence.
Qed.

(** ** The maximum drawdown *)

Lemma peak_upto_snoc_old (c : num) (done : list EquityPoint) (point : EquityPoint) (i : nat) :
  (i < length done)%nat →
  peak_upto c (done ++ [point]) i = peak_upto c done i.
Proof.
  intros Hi. unfold peak_upto. rewrite take_app_le by lia. reflexivity.
Qed.

Lemma peak_upto_snoc_new (c : num) (done : list EquityPoint) (point : EquityPoint) :
  peak_upto c (done ++ [point]) (length done) =
  Math_max (fold_left Math_max (EquityPoint.equity <$> done) c) (EquityPoint.equity point).
Proof.
  unfold peak_upto. rewrite take_ge by (rewrite length_app; simpl; lia).
  rewrite fmap_app, fold_left_app. reflexivity.
Qed.

Lemma drawdown_step_invariant (c : Q) (done : list EquityPoint) (st : num * num * num)
    (point : EquityPoint) :
  (0 < c)%Q → is_finite (EquityPoint.equity point) →
  drawdown_invariant c done st →
  drawdown_invariant c (done ++ [point])
    (let '(peak, maxDrawdown, maxDrawdownPercent) := st in
     let peak := Math_max peak (EquityPoint.equity point) in
     let drawdown := (peak - EquityPoint.equity point)%num in
     let drawdownPercent := (drawdown / peak * 100)%num in
     if (drawdown >? maxDrawdown)%num
     then (peak, drawdown, drawdownPercent)
     else (peak, maxDrawdown, maxDrawdownPercent)).
Proof.
  intros Hc Hfin (pk & d & p & -> & Hpk & Hcpk & Hd & Hall & Hmax).
  destruct (EquityPoint.equity point) as [x| | |] eqn:Ex; try contradiction.
  assert (∃ pk', Math_max (Fin pk) (Fin x) = Fin pk' ∧ (pk <= pk')%Q ∧ (x <= pk')%Q)
    as (pk' & Hpk' & Hle1 & Hle2).
  { destruct (Math_max_Fin pk x) as [(-> & H) | (-> & H)]; eexists; (split; [reflexivity | lra]). }
  rewrite Hpk'. cbn [nsub].
  assert (0 < pk')%Q as Hpos by lra.
  assert (peak_upto (Fin c) (done ++ [point]) (length done) = Fin pk') as Hnew.
  { rewrite peak_upto_snoc_new, Hpk, Ex. exact Hpk'. }
  assert (∀ i pt, (done ++ [point]) !! i = Some pt →
            ∀ d', (d <= d')%Q → (pk' - x <= d')%Q →
            ∃ y, (peak_upto (Fin c) (done ++ [point]) i - EquityPoint.equity pt)%num = Fin y ∧
                 (y <= d')%Q) as Hall'.
  { intros i pt Hi d' Hd' Hx'.
    destruct (decide (i < length done)%nat) as [Hlt|Hge].
    - rewrite lookup_app_l in Hi by exact Hlt.
      rewrite peak_upto_snoc_old by exact Hlt.
      destruct (Hall i pt Hi) as (y & Hy & Hyd). exists y. split; [exact Hy | lra].
    - assert (i = length done) as ->.
      { apply lookup_lt_Some in Hi. rewrite length_app in Hi. simpl in Hi. lia. }
      rewrite list_lookup_middle in Hi by reflexivity. injection Hi as <-.
      rewrite Hnew, Ex. simpl. eexists. split; [reflexivity | exact Hx']. }
  destruct (Fin (pk' - x) >? Fin d)%num eqn:Egt.
  - apply ngtb_Fin in Egt.
    rewrite (ndiv_Fin_pos _ _ Hpos). cbn [nmul].
    exists pk', (pk' - x)%Q, ((pk' - x) / pk' * 100)%Q.
    split; [reflexivity | ].
    split; [rewrite fmap_app, fold_left_app, Hpk; simpl; rewrite Ex; exact Hpk' | ].
    split; [lra | ]. split; [lra | ].
    split.
    + intros i pt Hi. apply (Hall' i pt Hi); lra.
    + right. exists (length done), point, pk'.
      split; [apply list_lookup_middle; reflexivity | ].
      split; [exact Hnew | ]. rewrite Ex. simpl. split; reflexivity.
  - assert (pk' - x <= d)%Q as Hle.
    { unfold ngtb in Egt. apply nltb_Fin_false in Egt. exact Egt. }
    exists pk', d, p.
    split; [reflexivity | ].
    split; [rewrite fmap_app, fold_left_app, Hpk; simpl; rewrite Ex; exact Hpk' | ].
    split; [lra | ]. split; [exact Hd | ].
    split.
    + intros i pt Hi. apply (Hall' i pt Hi); lra.
    + destruct Hmax as [Hz | (i & pt & top & Hi & Htop & Hdrop & Hp)]; [left; exact Hz | ].
      right. exists i, pt, top.
      assert (i < length done)%nat as Hlt by (apply lookup_lt_Some in Hi; exact Hi).
      split; [rewrite lookup_app_l by exact Hlt; exact Hi | ].
      split; [rewrite peak_upto_snoc_old by exact Hlt; exact Htop | ].
      split; [exact Hdrop | exact Hp].
Qed.

Lemma drawdown_fold_invariant (c : Q) (equityCurve : list EquityPoint) :
  (0 < c)%Q →
  Forall (fun point => is_finite (EquityPoint.equity point)) equityCurve →
  drawdown_invariant c equityCurve
    (fold_left
       (fun (st : num * num * num) (point : EquityPoint) =>
          let '(peak, maxDrawdown, maxDrawdownPercent) := st in
          let peak := Math_max peak (EquityPoint.equity point) in
          let drawdown := (peak - EquityPoint.equity point)%num in
          let drawdownPercent := (drawdown / peak * 100)%num in
          if (drawdown >? maxDrawdown)%num
          then (peak, drawdown, drawdownPercent)
          else (peak, maxDrawdown, maxDrawdownPercent))
       equityCurve (Fin c, 0%num, 0%num)).
Proof.
  intros Hc. induction equityCurve as [|point done IH] using rev_ind; intros Hfin.
  - exists c, 0%Q, 0%Q. simpl.
    split; [reflexivity | ]. split; [reflexivity | ]. split; [lra | ]. split; [lra | ].
    split; [intros i pt Hi; discriminate | left; split; reflexivity].
  - apply Forall_app in Hfin. destruct Hfin as (Hdone & Hpoint).
    inversion Hpoint as [|? ? Hp _]; subst.
    rewrite fold_left_app. cbn [fold_left].
    apply (drawdown_step_invariant c done _ point Hc Hp). apply IH. exact Hdone.
Qed.

(** X10.  For an initial capital above 0 and a curve of finite equities,
    [maxDrawdown] is the largest drop of the curve below its running
    peak (the initial capital counted as a peak): it is not negative, no
    point lies further below the highest equity before it, and it is 0
    (with [maxDrawdownPercent] 0) or is the drop at some point of the
    curve; [maxDrawdownPercent] is then that drop in percent of the peak
    at that point. *)
Theorem calculateDrawdown_largest_drop (equityCurve : list EquityPoint) (c : Q) :
  (0 < c)%Q →
  Forall (fun point => is_finite (EquityPoint.equity point)) equityCurve →
  ∃ d p : Q,
    calculateDrawdown equityCurve (Fin c) = (Fin d, Fin p) ∧
    (0 <= d)%Q ∧
    (∀ i point, equityCurve !! i = Some point →
       ∃ x, (peak_upto (Fin c) equityCurve i - EquityPoint.equity point)%num = Fin x ∧
            (x <= d)%Q) ∧
    ((d == 0)%Q ∧ (p == 0)%Q ∨
     ∃ i point top,
       equityCurve !! i = Some point ∧ peak_upto (Fin c) equityCurve i = Fin top ∧
       num_eq (Fin top - EquityPoint.equity point) (Fin d) ∧
       (p == d / top * 100)%Q).
Proof.
  intros Hc Hfin.
  destruct (drawdown_fold_invariant c equityCurve Hc Hfin)
    as (pk & d & p & Hst & _ & _ & Hd & Hall & Hmax).
  exists d, p. split; [ | split; [exact Hd | split; [exact Hall | exact Hmax]]].
  unfold calculateDrawdown. destruct equityCurve as [|point rest].
  - simpl in Hst. injection Hst as _ <- <-. reflexivity.
  - cbv zeta in Hst |- *. rewrite Hst. reflexivity.
Qed.

Lemma calculateDrawdown_largest_drop_witness :
  ∃ d p : Q,
    calculateDrawdown
      [{| EquityPoint.timestamp := num_of_Z 1; EquityPoint.equity := Fin 11000 |};
       {| EquityPoint.timestamp := num_of_Z 2; EquityPoint.equity := Fin 9900 |};
       {| EquityPoint.timestamp := num_of_Z 3; EquityPoint.equity := Fin 10500 |}]
      (Fin 10000) = (Fin d, Fin p) ∧
    (d == 1100)%Q ∧ (p == 10)%Q.
Proof.
  destruct (calculateDrawdown_largest_drop
              [{| EquityPoint.timestamp := num_of_Z 1; EquityPoint.equity := Fin 11000 |};
               {| EquityPoint.timestamp := num_of_Z 2; EquityPoint.equity := Fin 9900 |};
               {| EquityPoint.timestamp := num_of_Z 3; EquityPoint.equity := Fin 10500 |}]
              10000) as (d & p & Hdd & _).
  - reflexivity.
  - repeat constructor.
  - exists d, p. split; [exact Hdd | ].
    vm_compute in Hdd. injection Hdd as <- <-. split; reflexivity.
Defined.

(** ** Averages and extremes of the wins and of the losses *)

Lemma sum_max_acc (ts : list Trade) (s0 m0 : Q) (k : nat) :
  Forall (fun t => is_finite (pnl_or_0 t)) ts →
  (s0 <= inject_Z (Z.of_nat k) * m0)%Q →
  ∃ s m,
    fold_left (fun acc t => (acc + pnl_or_0 t)%num) ts (Fin s0) = Fin s ∧
    fold_left Math_max (map pnl_or_0 ts) (Fin m0) = Fin m ∧
    (m0 <= m)%Q ∧ (s <= inject_Z (Z.of_nat (k + length ts)) * m)%Q.
Proof.
  revert s0 m0 k. induction ts as [|t ts IH]; intros s0 m0 k Hfin Hs; simpl.
  - exists s0, m0. rewrite Nat.add_0_r. split; [reflexivity | ].
    split; [reflexivity | ]. split; [lra | exact Hs].
  - inversion Hfin as [|? ? Ht Hfin']; subst.
    destruct (pnl_or_0 t) as [x| | |]; try contradiction. simpl.
    assert (0 <= inject_Z (Z.of_nat k))%Q as Hk.
    { change 0%Q with (inject_Z 0). rewrite <- Zle_Qle. lia. }
    assert (∃ m1, Math_max (Fin m0) (Fin x) = Fin m1 ∧ (m0 <= m1)%Q ∧ (x <= m1)%Q)
      as (m1 & -> & H1 & H2).
    { destruct (Math_max_Fin m0 x) as [(-> & H) | (-> & H)];
        eexists; (split; [reflexivity | lra]). }
    destruct (IH (s0 + x)%Q m1 (S k) Hfin') as (s & m & Hs' & Hm' & Hle & Hbound).
    { rewrite Nat2Z.inj_succ. unfold Z.succ. rewrite inject_Z_plus.
      assert (inject_Z (Z.of_nat k) * m0 <= inject_Z (Z.of_nat k) * m1)%Q as Hmono.
      { nra. }
      change (inject_Z 1) with 1%Q. lra. }
    exists s, m. split; [exact Hs' | ]. split; [exact Hm' | ].
    split; [lra | ].
    replace (k + S (length ts))%nat with (S k + length ts)%nat by lia. exact Hbound.
Qed.

Lemma sum_min_acc (ts : list Trade) (s0 m0 : Q) (k : nat) :
  Forall (fun t => is_finite (pnl_or_0 t)) ts →
  (inject_Z (Z.of_nat k) * m0 <= s0)%Q →
  ∃ s m,
    fold_left (fun acc t => (acc + pnl_or_0 t)%num) ts (Fin s0) = Fin s ∧
    fold_left Math_min (map pnl_or_0 ts) (Fin m0) = Fin m ∧
    (m <= m0)%Q ∧ (inject_Z (Z.of_nat (k + length ts)) * m <= s)%Q.
Proof.
  revert s0 m0 k. induction ts as [|t ts IH]; intros s0 m0 k Hfin Hs; simpl.
  - exists s0, m0. rewrite Nat.add_0_r. split; [reflexivity | ].
    split; [reflexivity | ]. split; [lra | exact Hs].
  - inversion Hfin as [|? ? Ht Hfin']; subst.
    destruct (pnl_or_0 t) as [x| | |]; try contradiction. simpl.
    assert (0 <= inject_Z (Z.of_nat k))%Q as Hk.
    { change 0%Q with (inject_Z 0). rewrite <- Zle_Qle. lia. }
    assert (∃ m1, Math_min (Fin m0) (Fin x) = Fin m1 ∧ (m1 <= m0)%Q ∧ (m1 <= x)%Q)
      as (m1 & -> & H1 & H2).
    { destruct (Math_min_Fin m0 x) as [(-> & H) | (-> & H)];
        eexists; (split; [reflexivity | lra]). }
    destruct (IH (s0 + x)%Q m1 (S k) Hfin') as (s & m & Hs' & Hm' & Hle & Hbound).
    { rewrite Nat2Z.inj_succ. unfold Z.succ. rewrite inject_Z_plus.
      assert (inject_Z (Z.of_nat k) * m1 <= inject_Z (Z.of_nat k) * m0)%Q as Hmono.
      { nra. }
      change (inject_Z 1) with 1%Q. lra. }
    exists s, m. split; [exact Hs' | ]. split; [exact Hm' | ].
    split; [lra | ].
    replace (k + S (length ts))%nat with (S k + length ts)%nat by lia. exact Hbound.
Qed.

Lemma sum_pnl_losses_le (ts : list Trade) (q : Q) :
  Forall (fun t => is_finite (pnl_or_0 t)) ts →
  Forall (fun t => is_loss t = true) ts →
  ∃ q', fold_left (fun acc t => (acc + pnl_or_0 t)%num) ts (Fin q) = Fin q' ∧ (q' <= q)%Q.
Proof.
  revert q. induction ts as [|t ts IH]; intros q Hfin Hloss; simpl.
  - exists q. split; [reflexivity | apply Qle_refl].
  - inversion Hfin as [|? ? Ht Hfin']; subst. inversion Hloss as [|? ? Hl Hloss']; subst.
    unfold is_loss in Hl. destruct (pnl_or_0 t) as [x| | |]; try contradiction.
    apply nltb_Fin_0 in Hl. simpl.
    destruct (IH (q + x)%Q Hfin' Hloss') as (q' & Hq' & Hle).
    exists q'. split; [exact Hq' | lra].
Qed.

Lemma inject_nat_pos (n : nat) : (0 < n)%nat → (0 < inject_Z (Z.of_nat n))%Q.
Proof. intros Hn. change 0%Q with (inject_Z 0). rewrite <- Zlt_Qlt. lia. Qed.

(** The average and the largest of a list of wins that is not empty. *)
Lemma wins_average_le_largest (ws : list Trade) :
  Forall (fun t => is_finite (pnl_or_0 t)) ws →
  Forall (fun t => is_win t = true) ws → ws ≠ [] →
  ∃ a m, (sum_pnl ws / num_of_nat (length ws))%num = Fin a ∧
         Math_max_list (map pnl_or_0 ws) = Fin m ∧ (0 < a)%Q ∧ (a <= m)%Q.
Proof.
  intros Hfin Hwin Hne. destruct ws as [|t ts]; [congruence | ].
  inversion Hfin as [|? ? Ht Hfin']; subst. inversion Hwin as [|? ? Hw Hwin']; subst.
  unfold sum_pnl, Math_max_list. simpl fold_left. cbn [map fold_left].
  unfold is_win in Hw. destruct (pnl_or_0 t) as [x| | |] eqn:Ex; try contradiction.
  apply ngtb_Fin_0 in Hw.
  change (Math_max NInf (Fin x)) with (Fin x). cbn [nadd].
  destruct (sum_max_acc ts (0 + x) x 1 Hfin') as (s & m & Hs & Hm & Hxm & Hbound).
  { change (inject_Z (Z.of_nat 1)) with 1%Q. lra. }
  destruct (sum_pnl_wins_acc ts (0 + x) Hfin' Hwin') as (s' & Hs' & Hpos).
  rewrite Hs in Hs'. injection Hs' as <-.
  rewrite Hs, Hm. unfold num_of_nat.
  assert (0 < inject_Z (Z.of_nat (length (t :: ts))))%Q as Hn.
  { apply inject_nat_pos. simpl. lia. }
  rewrite (ndiv_Fin_pos _ _ Hn).
  exists (s / inject_Z (Z.of_nat (length (t :: ts))))%Q, m.
  split; [reflexivity | ]. split; [reflexivity | ].
  change (1 + length ts)%nat with (length (t :: ts)) in Hbound.
  split.
  - apply Qlt_shift_div_l; [exact Hn | lra].
  - apply Qle_shift_div_r; [exact Hn | lra].
Qed.

(** The average and the largest of a list of losses that is not empty. *)
Lemma losses_average_le_largest (ls : list Trade) :
  Forall (fun t => is_finite (pnl_or_0 t)) ls →
  Forall (fun t => is_loss t = true) ls → ls ≠ [] →
  ∃ a m, (Math_abs (sum_pnl ls) / num_of_nat (length ls))%num = Fin a ∧
         Math_abs (Math_min_list (map pnl_or_0 ls)) = Fin m ∧ (0 < a)%Q ∧ (a <= m)%Q.
Proof.
  intros Hfin Hloss Hne. destruct ls as [|t ts]; [congruence | ].
  inversion Hfin as [|? ? Ht Hfin']; subst. inversion Hloss as [|? ? Hl Hloss']; subst.
  unfold sum_pnl, Math_min_list. cbn [map fold_left].
  unfold is_loss in Hl. destruct (pnl_or_0 t) as [x| | |] eqn:Ex; try contradiction.
  apply nltb_Fin_0 in Hl.
  change (Math_min PInf (Fin x)) with (Fin x). cbn [nadd].
  destruct (sum_min_acc ts (0 + x) x 1 Hfin') as (s & m & Hs & Hm & Hxm & Hbound).
  { change (inject_Z (Z.of_nat 1)) with 1%Q. lra. }
  destruct (sum_pnl_losses_le ts (0 + x) Hfin' Hloss') as (s' & Hs' & Hneg).
  rewrite Hs in Hs'. injection Hs' as <-.
  rewrite Hs, Hm. unfold num_of_nat. cbn [Math_abs].
  assert (0 < inject_Z (Z.of_nat (length (t :: ts))))%Q as Hn.
  { apply inject_nat_pos. simpl. lia. }
  rewrite (ndiv_Fin_pos _ _ Hn).
  exists (Qabs s / inject_Z (Z.of_nat (length (t :: ts))))%Q, (Qabs m).
  split; [reflexivity | ]. split; [reflexivity | ].
  change (1 + length ts)%nat with (length (t :: ts)) in Hbound.
  assert (Qabs s == - s)%Q as Es by (apply Qabs_neg; lra).
  assert (Qabs m == - m)%Q as Em by (apply Qabs_neg; lra).
  rewrite Es, Em.
  split.
  - apply Qlt_shift_div_l; [exact Hn | lra].
  - apply Qle_shift_div_r; [exact Hn | lra].
Qed.

Section MetricsAverages.
Context {math : JSMath}.

Lemma calculateMetrics_averages (trades : list Trade) (equityCurve : list EquityPoint)
    (initialCapital startDate endDate : num) :
  let completedTrades := List.filter is_completed trades in
  let winningTrades := List.filter is_win completedTrades in
  let losingTrades := List.filter is_loss completedTrades in
  let m := calculateMetrics trades equityCurve initialCapital startDate endDate in
  completedTrades ≠ [] →
  PerformanceMetrics.averageWin m =
    (if (0 <? length winningTrades)%nat
     then (sum_pnl winningTrades / num_of_nat (length winningTrades))%num else 0%num) ∧
  PerformanceMetrics.largestWin m =
    (if (0 <? length winningTrades)%nat
     then Math_max_list (map pnl_or_0 winningTrades) else 0%num) ∧
  PerformanceMetrics.averageLoss m =
    (if (0 <? length losingTrades)%nat
     then (Math_abs (sum_pnl losingTrades) / num_of_nat (length losingTrades))%num
     else 0%num) ∧
  PerformanceMetrics.largestLoss m =
    (if (0 <? length losingTrades)%nat
     then Math_abs (Math_min_list (map pnl_or_0 losingTrades)) else 0%num).
Proof.
  intros completedTrades winningTrades losingTrades m Hne.
  unfold m, calculateMetrics. fold completedTrades.
  unfold winningTrades, losingTrades.
  destruct completedTrades as [|t ts] eqn:E; [congruence | ].
  destruct (calculateConsecutive (t :: ts)) as [cw cl].
  destruct (calculateDrawdown equityCurve initialCapital) as [dd ddp].
  simpl. auto.
Qed.

End MetricsAverages.

(** ** The largest win and the largest loss *)

Lemma fold_max_attained (l : list num) (m0 : Q) :
  Forall is_finite l →
  ∃ m, fold_left Math_max l (Fin m0) = Fin m ∧
       (m0 <= m)%Q ∧
       (∀ x, x ∈ l → ∃ q, x = Fin q ∧ (q <= m)%Q) ∧
       (Fin m = Fin m0 ∨ Fin m ∈ l).
Proof.
  intros Hfin. revert m0. induction Hfin as [|x l Hx _ IH]; intros m0; simpl.
  - exists m0. split; [reflexivity | ]. split; [lra | ].
    split; [intros x Hx; inversion Hx | left; reflexivity].
  - destruct x as [q| | |]; try contradiction.
    destruct (Math_max_Fin m0 q) as [(E & H) | (E & H)]; rewrite E.
    + destruct (IH q) as (m & Hm & Hle & Hall & Hat).
      exists m. split; [exact Hm | ]. split; [lra | ]. split.
      * intros x Hx'. apply elem_of_cons in Hx' as [-> | Hx'].
        -- exists q. split; [reflexivity | exact Hle].
        -- exact (Hall x Hx').
      * right. destruct Hat as [-> | Hat]; [left | right; exact Hat].
    + destruct (IH m0) as (m & Hm & Hle & Hall & Hat).
      exists m. split; [exact Hm | ]. split; [exact Hle | ]. split.
      * intros x Hx'. apply elem_of_cons in Hx' as [-> | Hx'].
        -- exists q. split; [reflexivity | lra].
        -- exact (Hall x Hx').
      * destruct Hat as [Hat | Hat]; [left; exact Hat | right; right; exact Hat].
Qed.

Lemma fold_min_attained (l : list num) (m0 : Q) :
  Forall is_finite l →
  ∃ m, fold_left Math_min l (Fin m0) = Fin m ∧
       (m <= m0)%Q ∧
       (∀ x, x ∈ l → ∃ q, x = Fin q ∧ (m <= q)%Q) ∧
       (Fin m = Fin m0 ∨ Fin m ∈ l).
Proof.
  intros Hfin. revert m0. induction Hfin as [|x l Hx _ IH]; intros m0; simpl.
  - exists m0. split; [reflexivity | ]. split; [lra | ].
    split; [intros x Hx; inversion Hx | left; reflexivity].
  - destruct x as [q| | |]; try contradiction.
    destruct (Math_min_Fin m0 q) as [(E & H) | (E & H)]; rewrite E.
    + destruct (IH q) as (m & Hm & Hle & Hall & Hat).
      exists m. split; [exact Hm | ]. split; [lra | ]. split.
      * intros x Hx'. apply elem_of_cons in Hx' as [-> | Hx'].
        -- exists q. split; [reflexivity | exact Hle].
        -- exact (Hall x Hx').
      * right. destruct Hat as [-> | Hat]; [left | right; exact Hat].
    + destruct (IH m0) as (m & Hm & Hle & Hall & Hat).
      exists m. split; [exact Hm | ]. split; [exact Hle | ]. split.
      * intros x Hx'. apply elem_of_cons in Hx' as [-> | Hx'].
        -- exists q. split; [reflexivity | lra].
        -- exact (Hall x Hx').
      * destruct Hat as [Hat | Hat]; [left; exact Hat | right; right; exact Hat].
Qed.

(** [Math.max(...l)] of finite numbers, at least one: a member of [l]
    that no member exceeds. *)
Lemma Math_max_list_attained (l : list num) :
  Forall is_finite l → l ≠ [] →
  ∃ m, Math_max_list l = Fin m ∧ Fin m ∈ l ∧
       ∀ x, x ∈ l → ∃ q, x = Fin q ∧ (q <= m)%Q.
Proof.
  intros Hfin Hne. destruct l as [|x l]; [congruence | ].
  inversion Hfin as [|? ? Hx Hfin']; subst.
  destruct x as [q| | |]; try contradiction.
  unfold Math_max_list. cbn [fold_left].
  change (Math_max NInf (Fin q)) with (Fin q).
  destruct (fold_max_attained l q Hfin') as (m & Hm & Hle & Hall & Hat).
  exists m. split; [exact Hm | ]. split.
  - destruct Hat as [-> | Hat]; [left | right; exact Hat].
  - intros x Hx'. apply elem_of_cons in Hx' as [-> | Hx'].
    + exists q. split; [reflexivity | exact Hle].
    + exact (Hall x Hx').
Qed.

Lemma Math_min_list_attained (l : list num) :
  Forall is_finite l → l ≠ [] →
  ∃ m, Math_min_list l = Fin m ∧ Fin m ∈ l ∧
       ∀ x, x ∈ l → ∃ q, x = Fin q ∧ (m <= q)%Q.
Proof.
  intros Hfin Hne. destruct l as [|x l]; [congruence | ].
  inversion Hfin as [|? ? Hx Hfin']; subst.
  destruct x as [q| | |]; try contradiction.
  unfold Math_min_list. cbn [fold_left].
  change (Math_min PInf (Fin q)) with (Fin q).
  destruct (fold_min_attained l q Hfin') as (m & Hm & Hle & Hall & Hat).
  exists m. split; [exact Hm | ]. split.
  - destruct Hat as [-> | Hat]; [left | right; exact Hat].
  - intros x Hx'. apply elem_of_cons in Hx' as [-> | Hx'].
    + exists q. split; [reflexivity | exact Hle].
    + exact (Hall x Hx').
Qed.

Section MetricsLargest.
Context {math : JSMath}.

(** In exact arithmetic, for trades with finite profits: [largestWin] and
    [largestLoss] are attained and bound the trades of their kind, and
    [averageWin] and [averageLoss] are finite and not negative, and above
    0 when there is a trade of their kind. *)
Lemma largest_win_and_loss_exact (trades : list Trade)
    (equityCurve : list EquityPoint) (initialCapital startDate endDate : num) :
  Forall (fun t => is_finite (pnl_or_0 t)) trades →
  let m := calculateMetrics trades equityCurve initialCapital startDate endDate in
  let winningTrades := List.filter is_win (List.filter is_completed trades) in
  let losingTrades := List.filter is_loss (List.filter is_completed trades) in
  (∀ t, t ∈ winningTrades → (pnl_or_0 t <=? PerformanceMetrics.largestWin m)%num = true) ∧
  (winningTrades ≠ [] →
   ∃ t, t ∈ winningTrades ∧ PerformanceMetrics.largestWin m = pnl_or_0 t) ∧
  (winningTrades = [] → PerformanceMetrics.largestWin m = 0%num) ∧
  (∀ t, t ∈ losingTrades →
        (Math_abs (pnl_or_0 t) <=? PerformanceMetrics.largestLoss m)%num = true) ∧
  (losingTrades ≠ [] →
   ∃ t, t ∈ losingTrades ∧ PerformanceMetrics.largestLoss m = Math_abs (pnl_or_0 t)) ∧
  (losingTrades = [] → PerformanceMetrics.largestLoss m = 0%num) ∧
  ∃ averageWin averageLoss : Q,
    PerformanceMetrics.averageWin m = Fin averageWin ∧
    PerformanceMetrics.averageLoss m = Fin averageLoss ∧
    (0 <= averageWin)%Q ∧ (0 <= averageLoss)%Q ∧
    (winningTrades ≠ [] → (0 < averageWin)%Q) ∧
    (losingTrades ≠ [] → (0 < averageLoss)%Q).
Proof.
  intros Hfin m winningTrades losingTrades. unfold m.
  assert (List.filter is_completed trades = [] ∨ List.filter is_completed trades ≠ [])
    as [E | Hne] by (destruct (List.filter is_completed trades); [left | right]; congruence).
  - unfold calculateMetrics, winningTrades, losingTrades. rewrite E. simpl.
    split; [intros t Ht; inversion Ht | ]. split; [congruence | ].
    split; [reflexivity | ]. split; [intros t Ht; inversion Ht | ].
    split; [congruence | ]. split; [reflexivity | ].
    exists 0%Q, 0%Q. repeat split; try reflexivity; try lra; congruence.
  - destruct (calculateMetrics_averages trades equityCurve initialCapital startDate endDate
                Hne) as (Haw & Hlw & Hal & Hll).
    fold winningTrades in Haw, Hlw. fold losingTrades in Hal, Hll.
    rewrite Haw, Hlw, Hal, Hll. clear Haw Hlw Hal Hll.
    assert (Forall (fun t => is_finite (pnl_or_0 t)) winningTrades) as Hfw.
    { apply Forall_filter_keeps, Forall_filter_keeps. exact Hfin. }
    assert (Forall (fun t => is_finite (pnl_or_0 t)) losingTrades) as Hfl.
    { apply Forall_filter_keeps, Forall_filter_keeps. exact Hfin. }
    assert (Forall (fun t => is_win t = true) winningTrades) as Hw
      by apply Forall_filter_true.
    assert (Forall (fun t => is_loss t = true) losingTrades) as Hl
      by apply Forall_filter_true.
    clearbody winningTrades losingTrades.
    split; [ | split; [ | split; [ | split; [ | split; [ | split]]]]].
    + intros t Ht. destruct winningTrades as [|w ws]; [inversion Ht | ].
      cbn [length Nat.ltb Nat.leb].
      destruct (Math_max_list_attained (map pnl_or_0 (w :: ws))) as (mx & -> & _ & Hall).
      { apply Forall_map. exact Hfw. }
      { discriminate. }
      destruct (Hall (pnl_or_0 t)) as (q & -> & Hq).
      { apply list_elem_of_fmap. exists t. split; [reflexivity | exact Ht]. }
      apply nleb_Fin. exact Hq.
    + intros Hsome. destruct winningTrades as [|w ws]; [congruence | ].
      cbn [length Nat.ltb Nat.leb].
      destruct (Math_max_list_attained (map pnl_or_0 (w :: ws))) as (mx & -> & Hat & _).
      { apply Forall_map. exact Hfw. }
      { discriminate. }
      apply list_elem_of_fmap in Hat as (t & Ht & Hin). exists t. split; [exact Hin | exact Ht].
    + intros ->. reflexivity.
    + intros t Ht. destruct losingTrades as [|l ls]; [inversion Ht | ].
      cbn [length Nat.ltb Nat.leb].
      destruct (Math_min_list_attained (map pnl_or_0 (l :: ls))) as (mn & -> & Hat & Hall).
      { apply Forall_map. exact Hfl. }
      { discriminate. }
      assert (mn < 0)%Q as Hneg.
      { apply list_elem_of_fmap in Hat as (t' & Ht' & Hin').
        rewrite Forall_forall in Hl. specialize (Hl t' Hin').
        unfold is_loss in Hl. rewrite <- Ht' in Hl. apply nltb_Fin_0 in Hl. exact Hl. }
      destruct (Hall (pnl_or_0 t)) as (q & Eq & Hq).
      { apply list_elem_of_fmap. exists t. split; [reflexivity | exact Ht]. }
      assert (q < 0)%Q as Hqneg.
      { rewrite Forall_forall in Hl. pose proof (Hl t Ht) as Hlt.
        unfold is_loss in Hlt. rewrite Eq in Hlt. apply nltb_Fin_0 in Hlt. exact Hlt. }
      rewrite Eq.
      cbn [Math_abs]. apply nleb_Fin.
      rewrite (Qabs_neg q), (Qabs_neg mn) by lra. lra.
    + intros Hsome. destruct losingTrades as [|l ls]; [congruence | ].
      cbn [length Nat.ltb Nat.leb].
      destruct (Math_min_list_attained (map pnl_or_0 (l :: ls))) as (mn & -> & Hat & _).
      { apply Forall_map. exact Hfl. }
      { discriminate. }
      apply list_elem_of_fmap in Hat as (t & Ht & Hin). exists t.
      split; [exact Hin | rewrite Ht; reflexivity].
    + intros ->. reflexivity.
    + assert (∃ a, (if (0 <? length winningTrades)%nat
                    then (sum_pnl winningTrades / num_of_nat (length winningTrades))%num
                    else 0%num) = Fin a ∧
                   (0 <= a)%Q ∧ (winningTrades ≠ [] → (0 < a)%Q))
        as (aw & -> & Haw0 & Hawpos).
      { destruct winningTrades as [|w ws] eqn:Ews.
        - exists 0%Q. simpl. repeat split; try lra. congruence.
        - destruct (wins_average_le_largest (w :: ws) Hfw Hw) as (a & m' & Ha & _ & Hpos & _);
            [discriminate | ].
          exists a. cbn [length Nat.ltb Nat.leb]. repeat split; try assumption; lra. }
      assert (∃ a, (if (0 <? length losingTrades)%nat
                    then (Math_abs (sum_pnl losingTrades) /
                          num_of_nat (length losingTrades))%num
                    else 0%num) = Fin a ∧
                   (0 <= a)%Q ∧ (losingTrades ≠ [] → (0 < a)%Q))
        as (al & -> & Hal0 & Halpos).
      { destruct losingTrades as [|l ls] eqn:Els.
        - exists 0%Q. simpl. repeat split; try lra. congruence.
        - destruct (losses_average_le_largest (l :: ls) Hfl Hl) as (a & m' & Ha & _ & Hpos & _);
            [discriminate | ].
          exists a. cbn [length Nat.ltb Nat.leb]. repeat split; try assumption; lra. }
      exists aw, al. repeat split; assumption.
Qed.

(** X11.  For trades with finite profits: [largestWin] is the profit of a
    winning trade and no winning trade has a higher one; [largestLoss] is
    the size of the loss of a losing trade and no losing trade has a
    bigger one; with no trade of the kind each is 0.  [averageWin] and
    [averageLoss] are not negative, and above 0 when there is a trade of
    their kind. *)
Theorem largest_win_and_loss_are_attained (trades : list Trade)
    (equityCurve : list EquityPoint) (initialCapital startDate endDate : num) :
  Forall (fun t => is_finite (pnl_or_0 t)) trades →
  let m := calculateMetrics trades equityCurve initialCapital startDate endDate in
  let winningTrades := List.filter is_win (List.filter is_completed trades) in
  let losingTrades := List.filter is_loss (List.filter is_completed trades) in
  (∀ t, t ∈ winningTrades → (pnl_or_0 t <=? PerformanceMetrics.largestWin m)%num = true) ∧
  (winningTrades ≠ [] →
   ∃ t, t ∈ winningTrades ∧ PerformanceMetrics.largestWin m = pnl_or_0 t) ∧
  (winningTrades = [] → PerformanceMetrics.largestWin m = 0%num) ∧
  (∀ t, t ∈ losingTrades →
        (Math_abs (pnl_or_0 t) <=? PerformanceMetrics.largestLoss m)%num = true) ∧
  (losingTrades ≠ [] →
   ∃ t, t ∈ losingTrades ∧ PerformanceMetrics.largestLoss m = Math_abs (pnl_or_0 t)) ∧
  (losingTrades = [] → PerformanceMetrics.largestLoss m = 0%num) ∧
  (0 <=? PerformanceMetrics.averageWin m)%num = true ∧
  (0 <=? PerformanceMetrics.averageLoss m)%num = true ∧
  (winningTrades ≠ [] → (0 <? PerformanceMetrics.averageWin m)%num = true) ∧
  (losingTrades ≠ [] → (0 <? PerformanceMetrics.averageLoss m)%num = true).
Proof.
  intros Hfin m winningTrades losingTrades.
  pose proof (largest_win_and_loss_exact trades equityCurve initialCapital startDate
                endDate Hfin) as H.
  cbv zeta in H. fold m winningTrades losingTrades in H.
  destruct H as (H1 & H2 & H3 & H4 & H5 & H6 & aw & al & Haw & Hal & Haw0 & Hal0 & Hawp & Halp).
  repeat (split; [assumption | ]).
  rewrite Haw, Hal.
  split; [apply nleb_Fin; exact Haw0 | ].
  split; [apply nleb_Fin; exact Hal0 | ].
  split; intros Hne; apply nltb_Fin; auto.
Qed.
End MetricsLargest.

Lemma largest_win_and_loss_are_attained_witness :
  let trades := [closed_trade 30; closed_trade (-10); closed_trade 50] in
  let m := calculateMetrics (math := unevaluated) trades [] (Fin 10000)
             (num_of_Z 1) (num_of_Z 2) in
  Forall (fun t => is_finite (pnl_or_0 t)) trades ∧
  PerformanceMetrics.largestWin m = Fin 50 ∧
  (∀ t, t ∈ List.filter is_win (List.filter is_completed trades) →
        (pnl_or_0 t <=? PerformanceMetrics.largestWin m)%num = true) ∧
  ∃ t, t ∈ List.filter is_loss (List.filter is_completed trades) ∧
       PerformanceMetrics.largestLoss m = Math_abs (pnl_or_0 t).
Proof.
  cbv zeta.
  assert (Forall (fun t => is_finite (pnl_or_0 t))
            [closed_trade 30; closed_trade (-10); closed_trade 50]) as Hfin
    by (repeat constructor).
  split; [exact Hfin | ]. split; [reflexivity | ].
  pose proof (largest_win_and_loss_are_attained (math := unevaluated)
                [closed_trade 30; closed_trade (-10); closed_trade 50] []
                (Fin 10000) (num_of_Z 1) (num_of_Z 2) Hfin) as H.
  cbv zeta in H. destruct H as (Hwin & _ & _ & _ & Hloss & _).
  split; [exact Hwin | ]. apply Hloss. discriminate.
Defined.


(** ** Indicators: the output is aligned with the input *)

Lemma atr_loop_length (tr : list num) (period : Z) (n : nat) :
  length (fold_left (atr_step tr period) (seq 0 n) []) = n.
Proof.
  induction n as [|n IH]; [reflexivity | ].
  rewrite seq_S, fold_left_app. simpl.
  destruct (atr_step_snoc tr period (fold_left (atr_step tr period) (seq 0 n) []) n)
    as (x & -> & _).
  rewrite length_app, IH. simpl. lia.
Qed.

Lemma set_index_length (result : list num) (i : Z) (x : num) :
  length (set_index result i x) = length result.
Proof.
  unfold set_index. destruct (i <? 0); [reflexivity | apply length_insert].
Qed.

Lemma rsi_smooth_loop_length (closes : list num) (period : Z) (js : list Z)
    (st : num * num * list num) :
  length (snd (fold_left (rsi_smooth_step closes period) js st)) = length (snd st).
Proof.
  revert st. induction js as [|j js IH]; intros st; simpl; [reflexivity | ].
  rewrite IH. destruct st as [[avgGain avgLoss] result]. simpl.
  apply set_index_length.
Qed.

Lemma rsiSmoothed_length (closes : list num) (period : Z) :
  length (rsiSmoothed closes period) = length closes.
Proof.
  unfold rsiSmoothed.
  destruct (Z.of_nat (length closes) <=? period); [apply length_replicate | ].
  destruct (fold_left (rsi_seed_step closes) _ _) as [avgGain avgLoss].
  pose proof (rsi_smooth_loop_length closes period
                (Z_range (period + 1) (Z.of_nat (length closes)))
                ((avgGain / num_of_Z period)%num, (avgLoss / num_of_Z period)%num,
                 set_index (replicate (length closes) NaN) period
                   (rsi_value (avgGain / num_of_Z period) (avgLoss / num_of_Z period))))
    as Hlen.
  destruct (fold_left (rsi_smooth_step closes period) _ _) as [[g l] result].
  simpl in Hlen. rewrite Hlen, set_index_length. apply length_replicate.
Qed.

(** ** Crossings *)

(** X13.  [crossunder] is [crossover] with the two series exchanged; the two
    are never true at the same index; neither is true at an index below
    1, and a series does not cross itself. *)
Theorem crossover_crossunder (fast slow : list num) (index : Z) :
  crossunder fast slow index = crossover slow fast index ∧
  crossover fast slow index && crossunder fast slow index = false ∧
  (index < 1 → crossover fast slow index = false ∧ crossunder fast slow index = false) ∧
  crossover fast fast index = false.
Proof.
  unfold crossover, crossunder, ngeb, ngtb.
  destruct (index <? 1) eqn:E1.
  { repeat split; reflexivity. }
  split; [ | split; [ | split; [intros H; lia | ]]].
  - destruct (isNaN (at_index fast index)), (isNaN (at_index slow index)),
      (isNaN (at_index fast (index - 1))), (isNaN (at_index slow (index - 1)));
      reflexivity.
  - destruct (isNaN (at_index fast index) || isNaN (at_index slow index) ||
              isNaN (at_index fast (index - 1)) || isNaN (at_index slow (index - 1)));
      [reflexivity | ].
    unfold nltb, ncompare.
    destruct (at_index fast index) as [a| | |], (at_index slow index) as [b| | |];
      try (rewrite ?andb_false_r; reflexivity);
      try (destruct (at_index fast (index - 1) <=? at_index slow (index - 1))%num,
             (at_index slow (index - 1) <=? at_index fast (index - 1))%num; reflexivity).
    rewrite <- (Qcompare_antisym a b).
    destruct (a ?= b)%Q; simpl; rewrite ?andb_false_r; reflexivity.
  - destruct (isNaN (at_index fast index) || isNaN (at_index fast index) ||
              isNaN (at_index fast (index - 1)) || isNaN (at_index fast (index - 1)));
      [reflexivity | ].
    unfold nltb, ncompare.
    destruct (at_index fast index) as [a| | |];
      rewrite ?andb_false_r; try reflexivity.
    assert ((a ?= a)%Q = Eq) as -> by (apply Qeq_alt; reflexivity).
    apply andb_false_r.
Qed.

(** ** Indicators: the values stay in the range of the data *)

Lemma at_index_within (lo hi : Q) (data : list num) (k : Z) :
  Forall (within lo hi) data → 0 <= k < Z.of_nat (length data) →
  within lo hi (at_index data k).
Proof.
  intros Hall Hk. unfold at_index.
  destruct (k <? 0) eqn:E; [lia | ].
  destruct (data !! Z.to_nat k) as [x|] eqn:El.
  - simpl. rewrite Forall_forall in Hall. apply Hall.
    apply list_elem_of_lookup. eauto.
  - apply lookup_ge_None in El. lia.
Qed.

Lemma fold_sum_within (lo hi : Q) (f : nat → num) (js : list nat) (s0 : Q) :
  (∀ j, In j js → within lo hi (f j)) →
  ∃ s, fold_left (fun sum j => (sum + f j)%num) js (Fin s0) = Fin s ∧
       (s0 + inject_Z (Z.of_nat (length js)) * lo <= s)%Q ∧
       (s <= s0 + inject_Z (Z.of_nat (length js)) * hi)%Q.
Proof.
  revert s0. induction js as [|j js IH]; intros s0 Hf.
  - exists s0. cbn [fold_left length]. split; [reflexivity | ].
    change (inject_Z (Z.of_nat 0)) with 0%Q. split; lra.
  - destruct (Hf j (or_introl eq_refl)) as (x & Hx & Hlo & Hhi).
    destruct (IH (s0 + x)%Q) as (s & Hs & Hs1 & Hs2).
    { intros j' Hj'. apply Hf. right. exact Hj'. }
    exists s. cbn [fold_left]. rewrite Hx. cbn [nadd]. split; [exact Hs | ].
    cbn [length]. rewrite Nat2Z.inj_succ. unfold Z.succ. rewrite inject_Z_plus.
    change (inject_Z 1) with 1%Q. split; lra.
Qed.

Lemma fold_max_upper (f : nat → num) (js : list nat) (m0 : Q) :
  (∀ j, In j js → ∃ x, f j = Fin x) →
  ∃ m, fold_left (fun acc j => Math_max acc (f j)) js (Fin m0) = Fin m ∧
       (m0 <= m)%Q ∧ (∀ j, In j js → ∃ x, f j = Fin x ∧ (x <= m)%Q).
Proof.
  revert m0. induction js as [|j js IH]; intros m0 Hf.
  - exists m0. simpl. split; [reflexivity | ]. split; [lra | intros j []].
  - destruct (Hf j (or_introl eq_refl)) as (x & Hx).
    assert (∃ m1, Math_max (Fin m0) (Fin x) = Fin m1 ∧ (m0 <= m1)%Q ∧ (x <= m1)%Q)
      as (m1 & Hm1 & H1 & H2).
    { destruct (Math_max_Fin m0 x) as [(-> & H) | (-> & H)];
        eexists; (split; [reflexivity | lra]). }
    destruct (IH m1) as (m & Hm & Hle & Hall).
    { intros j' Hj'. apply Hf. right. exact Hj'. }
    exists m. cbn [fold_left]. rewrite Hx, Hm1. split; [exact Hm | ].
    split; [lra | ].
    intros j' [<- | Hj'].
    + exists x. split; [exact Hx | lra].
    + exact (Hall j' Hj').
Qed.

Lemma fold_min_lower (f : nat → num) (js : list nat) (m0 : Q) :
  (∀ j, In j js → ∃ x, f j = Fin x) →
  ∃ m, fold_left (fun acc j => Math_min acc (f j)) js (Fin m0) = Fin m ∧
       (m <= m0)%Q ∧ (∀ j, In j js → ∃ x, f j = Fin x ∧ (m <= x)%Q).
Proof.
  revert m0. induction js as [|j js IH]; intros m0 Hf.
  - exists m0. simpl. split; [reflexivity | ]. split; [lra | intros j []].
  - destruct (Hf j (or_introl eq_refl)) as (x & Hx).
    assert (∃ m1, Math_min (Fin m0) (Fin x) = Fin m1 ∧ (m1 <= m0)%Q ∧ (m1 <= x)%Q)
      as (m1 & Hm1 & H1 & H2).
    { destruct (Math_min_Fin m0 x) as [(-> & H) | (-> & H)];
        eexists; (split; [reflexivity | lra]). }
    destruct (IH m1) as (m & Hm & Hle & Hall).
    { intros j' Hj'. apply Hf. right. exact Hj'. }
    exists m. cbn [fold_left]. rewrite Hx, Hm1. split; [exact Hm | ].
    split; [lra | ].
    intros j' [<- | Hj'].
    + exists x. split; [exact Hx | lra].
    + exact (Hall j' Hj').
Qed.

Lemma mean_within (lo hi s : Q) (n : Z) :
  0 < n → (inject_Z n * lo <= s)%Q → (s <= inject_Z n * hi)%Q →
  within lo hi (Fin s / num_of_Z n)%num.
Proof.
  intros Hn Hlo Hhi. unfold num_of_Z.
  assert (0 < inject_Z n)%Q as Hpos by (apply inject_Z_pos; exact Hn).
  rewrite (ndiv_Fin_pos s (inject_Z n) Hpos).
  exists (s / inject_Z n)%Q. split; [reflexivity | ]. split.
  - apply Qle_shift_div_l; [exact Hpos | lra].
  - apply Qle_shift_div_r; [exact Hpos | lra].
Qed.

Lemma window_sum_within (lo hi : Q) (data : list num) (i period : Z) :
  Forall (within lo hi) data → 1 <= period → period - 1 <= i < Z.of_nat (length data) →
  within lo hi (window_sum data i period / num_of_Z period)%num.
Proof.
  intros Hall Hp Hi. unfold window_sum.
  destruct (fold_sum_within lo hi (fun j => at_index data (i - Z.of_nat j))
              (seq 0 (Z.to_nat period)) 0) as (s & Hs & Hlo & Hhi).
  { intros j Hj. apply in_seq in Hj. apply at_index_within; [exact Hall | lia]. }
  change (Fin 0) with 0%num in Hs. rewrite Hs.
  rewrite length_seq, Z2Nat.id in Hlo, Hhi by lia.
  apply mean_within; [lia | lra | lra].
Qed.

Lemma prefix_sum_within (lo hi : Q) (data : list num) (i : Z) :
  Forall (within lo hi) data → 0 <= i < Z.of_nat (length data) →
  within lo hi (prefix_sum data i / num_of_Z (i + 1))%num.
Proof.
  intros Hall Hi. unfold prefix_sum.
  destruct (fold_sum_within lo hi (fun j => at_index data (Z.of_nat j))
              (seq 0 (Z.to_nat (i + 1))) 0) as (s & Hs & Hlo & Hhi).
  { intros j Hj. apply in_seq in Hj. apply at_index_within; [exact Hall | lia]. }
  change (Fin 0) with 0%num in Hs. rewrite Hs.
  rewrite length_seq, Z2Nat.id in Hlo, Hhi by lia.
  apply mean_within; [lia | lra | lra].
Qed.

Lemma finite_within (data : list num) :
  Forall is_finite data → ∀ x, x ∈ data → ∃ q, x = Fin q.
Proof.
  intros Hfin x Hx. rewrite Forall_forall in Hfin.
  apply is_finite_Fin. apply Hfin. exact Hx.
Qed.

(** The window that ends at [i], from [data[i]] back to
    [data[i - period + 1]]: its lowest value, its mean and its highest
    value. *)
Lemma window_values (data : list num) (period : Z) (i : nat) :
  Forall is_finite data → 1 <= period → period - 1 <= Z.of_nat i < Z.of_nat (length data) →
  ∃ lo av hi : Q,
    lowest data period !! i = Some (Fin lo) ∧
    sma data period !! i = Some (Fin av) ∧
    highest data period !! i = Some (Fin hi) ∧
    (lo <= av)%Q ∧ (av <= hi)%Q ∧
    (∀ j : nat, Z.of_nat j < period →
       ∃ y, data !! (i - j)%nat = Some (Fin y) ∧ (lo <= y)%Q ∧ (y <= hi)%Q).
Proof.
  intros Hfin Hp Hi.
  set (g := fun j : nat => at_index data (Z.of_nat i - Z.of_nat j)).
  assert (∀ j : nat, Z.of_nat j < period →
            ∃ y, g j = Fin y ∧ data !! (i - j)%nat = Some (Fin y)) as Hval.
  { intros j Hj.
    destruct (finite_lookup data (i - j) Hfin) as (y & Hy); [lia | ].
    exists y. split; [ | exact Hy]. unfold g, at_index.
    destruct (Z.of_nat i - Z.of_nat j <? 0) eqn:E; [lia | ].
    replace (Z.to_nat (Z.of_nat i - Z.of_nat j)) with (i - j)%nat by lia.
    rewrite Hy. reflexivity. }
  assert (∀ j, In j (seq 1 (Z.to_nat period - 1)) → ∃ y, g j = Fin y) as Htail.
  { intros j Hj. apply in_seq in Hj. destruct (Hval j) as (y & Hy & _); [lia | eauto]. }
  destruct (Hval 0%nat) as (x & Hx & _); [lia | ].
  assert (at_index data (Z.of_nat i) = Fin x) as Hx'.
  { unfold g in Hx. rewrite Z.sub_0_r in Hx. exact Hx. }
  destruct (fold_max_upper g (seq 1 (Z.to_nat period - 1)) x Htail)
    as (hi & Hhi & Hxhi & Hallhi).
  destruct (fold_min_lower g (seq 1 (Z.to_nat period - 1)) x Htail)
    as (lo & Hlo & Hxlo & Halllo).
  assert (∀ j : nat, Z.of_nat j < period →
            ∃ y, g j = Fin y ∧ data !! (i - j)%nat = Some (Fin y) ∧
                 (lo <= y)%Q ∧ (y <= hi)%Q) as Hwin.
  { intros j Hj. destruct (Hval j Hj) as (y & Hy & Hyl).
    exists y. split; [exact Hy | ]. split; [exact Hyl | ].
    destruct j as [|j'].
    - rewrite Hx in Hy. injection Hy as <-. lra.
    - destruct (Hallhi (S j')) as (y1 & Hy1 & Hle1); [apply in_seq; lia | ].
      destruct (Halllo (S j')) as (y2 & Hy2 & Hle2); [apply in_seq; lia | ].
      rewrite Hy in Hy1, Hy2. injection Hy1 as <-. injection Hy2 as <-. lra. }
  destruct (fold_sum_within lo hi g (seq 0 (Z.to_nat period)) 0) as (s & Hs & Hs1 & Hs2).
  { intros j Hj. apply in_seq in Hj.
    destruct (Hwin j) as (y & Hy & _ & H1 & H2); [lia | ].
    exists y. split; [exact Hy | split; assumption]. }
  rewrite length_seq, Z2Nat.id in Hs1, Hs2 by lia.
  destruct (mean_within lo hi s period) as (av & Hav & Hav1 & Hav2); [lia | lra | lra | ].
  exists lo, av, hi.
  assert ((Z.of_nat i <? period - 1) = false) as Hw by lia.
  assert (i < length data)%nat as Hi' by lia.
  assert (window_sum data (Z.of_nat i) period = Fin s) as Hsum by exact Hs.
  assert (window_fold Math_min data (Z.of_nat i) period = Fin lo) as Hmin.
  { unfold window_fold. rewrite Hx'. exact Hlo. }
  assert (window_fold Math_max data (Z.of_nat i) period = Fin hi) as Hmax.
  { unfold window_fold. rewrite Hx'. exact Hhi. }
  split.
  { unfold lowest. rewrite list_lookup_fmap, lookup_seq_lt by (exact Hi'). simpl.
    rewrite Hw, Hmin. reflexivity. }
  split.
  { unfold sma. rewrite list_lookup_fmap, lookup_seq_lt by (exact Hi'). simpl.
    rewrite Hw, Hsum, Hav. reflexivity. }
  split.
  { unfold highest. rewrite list_lookup_fmap, lookup_seq_lt by (exact Hi'). simpl.
    rewrite Hw, Hmax. reflexivity. }
  split; [exact Hav1 | ]. split; [exact Hav2 | ].
  intros j Hj. destruct (Hwin j Hj) as (y & _ & Hy & H1 & H2).
  exists y. split; [exact Hy | split; assumption].
Qed.

(** ** The highest and the lowest value of a window *)

Lemma Math_max_picks (a b : num) : Math_max a b = a ∨ Math_max a b = b.
Proof.
  destruct a as [x| | |], b as [y| | |]; simpl; auto.
  unfold Math_max, ncompare. destruct (x ?= y)%Q; auto.
Qed.

Lemma Math_min_picks (a b : num) : Math_min a b = a ∨ Math_min a b = b.
Proof.
  destruct a as [x| | |], b as [y| | |]; simpl; auto.
  unfold Math_min, ncompare. destruct (x ?= y)%Q; auto.
Qed.

(** A fold of a function that returns one of its two arguments returns
    its start value or one of the values folded in. *)
Lemma fold_picks {A : Type} (f : num → num → num) (g : A → num) (js : list A) (a0 : num) :
  (∀ a b, f a b = a ∨ f a b = b) →
  fold_left (fun acc j => f acc (g j)) js a0 = a0 ∨
  ∃ j, j ∈ js ∧ fold_left (fun acc j => f acc (g j)) js a0 = g j.
Proof.
  intros Hf. revert a0. induction js as [|j js IH]; intros a0; simpl; [left; reflexivity | ].
  destruct (IH (f a0 (g j))) as [E | (j' & Hj' & E)].
  - rewrite E. destruct (Hf a0 (g j)) as [-> | ->]; [left; reflexivity | ].
    right. exists j. split; [left | reflexivity].
  - right. exists j'. split; [right; exact Hj' | exact E].
Qed.

(** The fold over the window that ends at [i] returns the value at one
    of the indices of the window. *)
Lemma window_fold_picks (f : num → num → num) (data : list num) (i : nat) (period : Z) :
  (∀ a b, f a b = a ∨ f a b = b) → 1 <= period →
  ∃ j : nat, Z.of_nat j < period ∧
             window_fold f data (Z.of_nat i) period =
             at_index data (Z.of_nat i - Z.of_nat j).
Proof.
  intros Hf Hp. unfold window_fold.
  destruct (fold_picks f (fun j : nat => at_index data (Z.of_nat i - Z.of_nat j))
              (seq 1 (Z.to_nat period - 1)) (at_index data (Z.of_nat i)) Hf)
    as [E | (j & Hj & E)].
  - exists 0%nat. split; [lia | ]. rewrite E, Z.sub_0_r. reflexivity.
  - exists j. apply elem_of_seq in Hj. split; [lia | exact E].
Qed.

(** X14.  From index [period - 1] on, for finite data and a period of at
    least 1: [lowest] is the lowest and [highest] the highest value of the
    window that ends at the index.  Each is a value of the window, and no
    value of the window lies below [lowest] or above [highest]. *)
Theorem highest_and_lowest_of_window (data : list num) (period : Z) (i : nat) :
  Forall is_finite data → 1 <= period → period - 1 <= Z.of_nat i < Z.of_nat (length data) →
  ∃ lo hi : Q,
    lowest data period !! i = Some (Fin lo) ∧
    highest data period !! i = Some (Fin hi) ∧
    (lo <= hi)%Q ∧
    (∀ j : nat, Z.of_nat j < period →
       ∃ y, data !! (i - j)%nat = Some (Fin y) ∧ (lo <= y)%Q ∧ (y <= hi)%Q) ∧
    (∃ j : nat, Z.of_nat j < period ∧ data !! (i - j)%nat = Some (Fin lo)) ∧
    (∃ j : nat, Z.of_nat j < period ∧ data !! (i - j)%nat = Some (Fin hi)).
Proof.
  intros Hfin Hp Hi.
  destruct (window_values data period i Hfin Hp Hi)
    as (lo & av & hi & Hlo & _ & Hhi & H1 & H2 & Hwin).
  exists lo, hi. split; [exact Hlo | ]. split; [exact Hhi | ]. split; [lra | ].
  split; [exact Hwin | ].
  assert ((Z.of_nat i <? period - 1) = false) as Hw by lia.
  assert (i < length data)%nat as Hi' by lia.
  assert (∀ j : nat, Z.of_nat j < period →
            Some (at_index data (Z.of_nat i - Z.of_nat j)) = data !! (i - j)%nat) as Hat.
  { intros j Hj. destruct (Hwin j Hj) as (y & Hy & _). rewrite Hy.
    unfold at_index. destruct (Z.of_nat i - Z.of_nat j <? 0) eqn:E; [lia | ].
    replace (Z.to_nat (Z.of_nat i - Z.of_nat j)) with (i - j)%nat by lia.
    rewrite Hy. reflexivity. }
  split.
  - destruct (window_fold_picks Math_min data i period Math_min_picks Hp) as (j & Hj & E).
    exists j. split; [exact Hj | ]. rewrite <- (Hat j Hj), <- E, <- Hlo.
    unfold lowest. rewrite list_lookup_fmap, lookup_seq_lt by (exact Hi'). simpl.
    rewrite Hw. reflexivity.
  - destruct (window_fold_picks Math_max data i period Math_max_picks Hp) as (j & Hj & E).
    exists j. split; [exact Hj | ]. rewrite <- (Hat j Hj), <- E, <- Hhi.
    unfold highest. rewrite list_lookup_fmap, lookup_seq_lt by (exact Hi'). simpl.
    rewrite Hw. reflexivity.
Qed.

Lemma highest_and_lowest_of_window_witness :
  ∃ lo hi : Q,
    lowest [Fin 3; Fin 1; Fin 2; Fin 5] 3 !! 3%nat = Some (Fin lo) ∧
    highest [Fin 3; Fin 1; Fin 2; Fin 5] 3 !! 3%nat = Some (Fin hi) ∧
    (lo <= hi)%Q ∧
    (∃ j : nat, Z.of_nat j < 3 ∧ [Fin 3; Fin 1; Fin 2; Fin 5] !! (3 - j)%nat = Some (Fin hi)).
Proof.
  destruct (highest_and_lowest_of_window [Fin 3; Fin 1; Fin 2; Fin 5] 3 3)
    as (lo & hi & Hlo & Hhi & Hle & _ & _ & Hat).
  - repeat constructor.
  - lia.
  - simpl. lia.
  - exists lo, hi. repeat split; assumption.
Defined.

Lemma ema_step_within (lo hi : Q) (data : list num) (period : Z) (k : Q)
    (result : list num) (n : nat) :
  Forall (within lo hi) data → 1 <= period → (0 <= k)%Q → (k <= 1)%Q →
  (n < length data)%nat → length result = n → Forall (within lo hi) result →
  length (ema_step data period (Fin k) result n) = S n ∧
  Forall (within lo hi) (ema_step data period (Fin k) result n).
Proof.
  intros Hall Hp Hk0 Hk1 Hn Hlen Hres. unfold ema_step.
  assert (∀ x, within lo hi x →
               length (result ++ [x]) = S n ∧ Forall (within lo hi) (result ++ [x]))
    as Hsnoc.
  { intros x Hx. split.
    - rewrite length_app. simpl. lia.
    - apply Forall_app. split; [exact Hres | ]. constructor; [exact Hx | constructor]. }
  destruct (Z.of_nat n =? 0) eqn:E0.
  { apply Hsnoc. apply at_index_within; [exact Hall | lia]. }
  destruct (Z.of_nat n <? period - 1) eqn:E1.
  { apply Hsnoc. apply prefix_sum_within; [exact Hall | lia]. }
  destruct (Z.of_nat n =? period - 1) eqn:E2.
  { apply Hsnoc. apply window_sum_within; [exact Hall | lia | lia]. }
  apply Hsnoc.
  destruct (at_index_within lo hi result (Z.of_nat n - 1) Hres) as (p & -> & Hp1 & Hp2);
    [lia | ].
  destruct (at_index_within lo hi data (Z.of_nat n) Hall) as (x & -> & Hx1 & Hx2);
    [lia | ].
  simpl. eexists. split; [reflexivity | ]. split; nra.
Qed.

(** In exact arithmetic the exponential moving average of finite values
    from [lo] to [hi] stays from [lo] to [hi] at every index, for every
    period of at least 1.  (The rounding of a sum or a mean can carry the
    upper bound off by a unit in the last place.) *)
Lemma ema_within_range (data : list num) (period : Z) (lo hi : Q) :
  1 <= period → Forall (within lo hi) data →
  length (ema data period) = length data ∧ Forall (within lo hi) (ema data period).
Proof.
  intros Hp Hall. unfold ema.
  assert (0 < inject_Z (period + 1))%Q as Hpos by (apply inject_Z_pos; lia).
  unfold num_of_Z. rewrite (ndiv_Fin_pos 2 (inject_Z (period + 1)) Hpos).
  assert (0 <= 2 / inject_Z (period + 1))%Q as Hk0.
  { apply Qle_shift_div_l; [exact Hpos | lra]. }
  assert (2 / inject_Z (period + 1) <= 1)%Q as Hk1.
  { apply Qle_shift_div_r; [exact Hpos | ].
    assert (inject_Z 2 <= inject_Z (period + 1))%Q as H by (rewrite <- Zle_Qle; lia).
    change (inject_Z 2) with 2%Q in H. lra. }
  generalize (2 / inject_Z (period + 1))%Q Hk0 Hk1. intros k Hk0' Hk1'.
  assert (∀ n, (n <= length data)%nat →
            length (fold_left (ema_step data period (Fin k)) (seq 0 n) []) = n ∧
            Forall (within lo hi) (fold_left (ema_step data period (Fin k)) (seq 0 n) []))
    as Hloop.
  { induction n as [|n IH]; intros Hn.
    - simpl. split; [reflexivity | constructor].
    - rewrite seq_S, fold_left_app. simpl.
      assert (n <= length data)%nat as Hn' by lia.
      destruct (IH Hn') as (Hlen & Hres).
      apply ema_step_within; solve [assumption | lia]. }
  apply Hloop. lia.
Qed.

(** ** Moving averages of values that are not negative *)

Lemma nonneg_bounded (data : list num) :
  Forall nonneg data → ∃ hi : Q, (0 <= hi)%Q ∧ Forall (within 0 hi) data.
Proof.
  induction 1 as [|x data (q & -> & Hq) _ (hi & Hhi & IH)].
  - exists 0%Q. split; [lra | constructor].
  - exists (q + hi)%Q. split; [lra | ]. constructor.
    + exists q. split; [reflexivity | ]. split; lra.
    + eapply Forall_impl; [exact IH | ].
      intros y (r & -> & Hr0 & Hr1). exists r. split; [reflexivity | ]. split; lra.
Qed.

(** X15.  A moving average of prices that are not negative is not
    negative: for a period of at least 1 and finite values from 0 up,
    [ema] has a value for every input value and none of them is below 0
    or the sentinel, and so it is for every value of [sma] from index
    [period - 1] on. *)
Theorem moving_averages_not_negative (data : list num) (period : Z) :
  1 <= period → Forall nonneg data →
  length (ema data period) = length data ∧
  Forall (fun value => (0 <=? value)%num = true) (ema data period) ∧
  ∀ i : nat, period - 1 <= Z.of_nat i → (i < length data)%nat →
    ∃ value, sma data period !! i = Some value ∧ (0 <=? value)%num = true.
Proof.
  intros Hp Hdata. destruct (nonneg_bounded data Hdata) as (hi & _ & Hall).
  destruct (ema_within_range data period 0 hi Hp Hall) as (Hlen & Hema).
  split; [exact Hlen | ]. split.
  - eapply Forall_impl; [exact Hema | ].
    intros a (q & -> & Hq & _). apply nleb_Fin. exact Hq.
  - intros i Hi Hlt.
    destruct (window_sum_within 0 hi data (Z.of_nat i) period Hall Hp) as (q & Hq & Hq0 & _);
      [lia | ].
    exists (Fin q). split; [ | apply nleb_Fin; exact Hq0].
    unfold sma. rewrite list_lookup_fmap, lookup_seq_lt by (exact Hlt). simpl.
    assert ((Z.of_nat i <? period - 1) = false) as -> by lia.
    rewrite Hq. reflexivity.
Qed.

Lemma moving_averages_not_negative_witness :
  Forall (fun value => (0 <=? value)%num = true)
    (ema [Fin 3; Fin 0; Fin 2; Fin 5; Fin 4] 3) ∧
  ∃ value, sma [Fin 3; Fin 0; Fin 2; Fin 5; Fin 4] 3 !! 2%nat = Some value ∧
           (0 <=? value)%num = true.
Proof.
  destruct (moving_averages_not_negative [Fin 3; Fin 0; Fin 2; Fin 5; Fin 4] 3)
    as (_ & Hema & Hsma); [lia | | ].
  - repeat constructor; eexists; (split; [reflexivity | lra]).
  - split; [exact Hema | ]. apply Hsma; simpl; lia.
Defined.

(** ** Indicators: the range of the RSI and the sign of the ATR *)

Lemma rsi_value_range (avgGain avgLoss : num) :
  nonneg avgGain → nonneg avgLoss → within 0 100 (rsi_value avgGain avgLoss).
Proof.
  intros (g & -> & Hg) (l & -> & Hl). unfold rsi_value.
  destruct (neqb (Fin l) 0) eqn:E.
  { exists 100%Q. split; [reflexivity | split; lra]. }
  assert (0 < l)%Q as Hpos.
  { destruct (Qlt_le_dec 0 l) as [Hlt|Hle]; [exact Hlt | ].
    assert (l == 0)%Q as E0 by lra.
    unfold neqb, ncompare in E. rewrite (proj1 (Qeq_alt l 0) E0) in E. discriminate. }
  rewrite (ndiv_Fin_pos g l Hpos).
  assert (0 <= g / l)%Q as Hq by (apply Qle_shift_div_l; [exact Hpos | lra]).
  change (1 + Fin (g / l))%num with (Fin (1 + g / l)).
  rewrite (ndiv_Fin_pos 100 (1 + g / l)) by lra.
  eexists. split; [reflexivity | ].
  assert (0 < 1 + g / l)%Q as Hd by lra.
  assert (0 <= 100 / (1 + g / l))%Q as H1.
  { apply Qle_shift_div_l; [exact Hd | lra]. }
  assert (100 / (1 + g / l) <= 100)%Q as H2.
  { apply Qle_shift_div_r; [exact Hd | nra]. }
  split; lra.
Qed.

Lemma rsi_smooth_step_entry (closes : list num) (period : Z)
    (avgGain avgLoss : num) (result : list num) (i : Z) :
  Forall is_finite closes → 1 <= period → 1 <= i < Z.of_nat (length closes) →
  nonneg avgGain → nonneg avgLoss → Forall rsi_entry result →
  let st := rsi_smooth_step closes period (avgGain, avgLoss, result) i in
  nonneg (fst (fst st)) ∧ nonneg (snd (fst st)) ∧ Forall rsi_entry (snd st).
Proof.
  intros Hfin Hp Hi Hg Hl Hres. unfold rsi_smooth_step.
  destruct (change_finite closes i Hfin Hi) as (c & ->).
  assert (nonneg (if (Fin c >? 0)%num then Fin c else 0%num)) as Hgain.
  { destruct (Fin c >? 0)%num eqn:E; [ | exact nonneg_0].
    apply ngtb_Fin_0 in E. exists c. split; [reflexivity | lra]. }
  assert (nonneg (if (Fin c <? 0)%num then Math_abs (Fin c) else 0%num)) as Hloss.
  { destruct (Fin c <? 0)%num; [ | exact nonneg_0].
    exists (Qabs c). split; [reflexivity | apply Qabs_nonneg]. }
  assert (∀ a b, nonneg a → nonneg b →
                 nonneg ((a * num_of_Z (period - 1) + b) / num_of_Z period)%num) as Hsmooth.
  { intros a b Ha Hb. apply nonneg_div_Z; [ | exact Hp].
    apply nonneg_add; [apply nonneg_mul_Z; [exact Ha | lia] | exact Hb]. }
  cbn [fst snd].
  split; [exact (Hsmooth _ _ Hg Hgain) | ].
  split; [exact (Hsmooth _ _ Hl Hloss) | ].
  unfold set_index. destruct (i <? 0); [exact Hres | ].
  apply Forall_insert; [exact Hres | ].
  right. eexists _, _. split; [exact (Hsmooth _ _ Hg Hgain) | ].
  split; [exact (Hsmooth _ _ Hl Hloss) | reflexivity].
Qed.

Lemma rsi_smooth_loop_entry (closes : list num) (period : Z) (js : list Z)
    (st : num * num * list num) :
  Forall is_finite closes → 1 <= period →
  Forall (fun i => 1 <= i < Z.of_nat (length closes)) js →
  nonneg (fst (fst st)) → nonneg (snd (fst st)) → Forall rsi_entry (snd st) →
  Forall rsi_entry (snd (fold_left (rsi_smooth_step closes period) js st)).
Proof.
  intros Hfin Hp Hjs. revert st.
  induction Hjs as [|j js Hj _ IH]; intros st Hg Hl Hres; simpl; [exact Hres | ].
  destruct st as [[avgGain avgLoss] result]. simpl in Hg, Hl, Hres.
  destruct (rsi_smooth_step_entry closes period avgGain avgLoss result j
              Hfin Hp Hj Hg Hl Hres) as (Hg' & Hl' & Hres').
  apply IH; assumption.
Qed.

Lemma rsiSmoothed_entries (closes : list num) (period : Z) :
  Forall is_finite closes → 1 <= period → Forall rsi_entry (rsiSmoothed closes period).
Proof.
  intros Hfin Hp. unfold rsiSmoothed.
  assert (Forall rsi_entry (replicate (length closes) NaN)) as Hnan.
  { apply Forall_replicate. left. reflexivity. }
  destruct (Z.of_nat (length closes) <=? period) eqn:Hshort; [exact Hnan | ].
  destruct (rsi_seed_nonneg closes (Z.to_nat period) Hfin) with (sums := (0%num, 0%num))
    as (Hg0 & Hl0); [lia | exact nonneg_0 | exact nonneg_0 | ].
  replace (1 + Z.of_nat (Z.to_nat period)) with (period + 1) in Hg0, Hl0 by lia.
  destruct (fold_left (rsi_seed_step closes) (Z_range 1 (period + 1)) (0%num, 0%num))
    as [g0 l0]. simpl in Hg0, Hl0.
  pose proof (nonneg_div_Z g0 period Hg0 Hp) as Hg1.
  pose proof (nonneg_div_Z l0 period Hl0 Hp) as Hl1.
  pose proof (rsi_smooth_loop_entry closes period
                (Z_range (period + 1) (Z.of_nat (length closes)))
                ((g0 / num_of_Z period)%num, (l0 / num_of_Z period)%num,
                 set_index (replicate (length closes) NaN) period
                   (rsi_value (g0 / num_of_Z period) (l0 / num_of_Z period)))
                Hfin Hp) as Hloop.
  destruct (fold_left (rsi_smooth_step closes period) _ _) as [[g l] result].
  apply Hloop.
  - unfold Z_range. rewrite Forall_fmap. apply Forall_forall.
    intros k Hk. apply elem_of_seq in Hk. simpl. lia.
  - exact Hg1.
  - exact Hl1.
  - simpl. unfold set_index. destruct (period <? 0); [exact Hnan | ].
    apply Forall_insert; [exact Hnan | ].
    right. eexists _, _. split; [exact Hg1 | ]. split; [exact Hl1 | reflexivity].
Qed.



Lemma at_index_nonneg (data : list num) (k : Z) :
  Forall nonneg data → 0 <= k < Z.of_nat (length data) → nonneg (at_index data k).
Proof.
  intros Hall Hk. unfold at_index.
  destruct (k <? 0) eqn:E; [lia | ].
  destruct (data !! Z.to_nat k) as [x|] eqn:El.
  - simpl. rewrite Forall_forall in Hall. apply Hall.
    apply list_elem_of_lookup. eauto.
  - apply lookup_ge_None in El. lia.
Qed.

Lemma fold_sum_nonneg (f : nat → num) (js : list nat) (acc : num) :
  (∀ j, In j js → nonneg (f j)) → nonneg acc →
  nonneg (fold_left (fun sum j => (sum + f j)%num) js acc).
Proof.
  revert acc. induction js as [|j js IH]; intros acc Hf Hacc; simpl; [exact Hacc | ].
  apply IH.
  - intros j' Hj'. apply Hf. right. exact Hj'.
  - apply nonneg_add; [exact Hacc | apply Hf; left; reflexivity].
Qed.

Lemma Math_max_nonneg_r (a b : num) : is_finite a → nonneg b → nonneg (Math_max a b).
Proof.
  intros Ha (y & -> & Hy). destruct a as [x| | |]; try contradiction.
  destruct (Math_max_Fin x y) as [(-> & H) | (-> & H)].
  - exists y. split; [reflexivity | exact Hy].
  - exists x. split; [reflexivity | lra].
Qed.

Lemma Math_abs_nonneg (a : num) : is_finite a → nonneg (Math_abs a).
Proof.
  destruct a as [x| | |]; try contradiction. intros _.
  exists (Qabs x). split; [reflexivity | apply Qabs_nonneg].
Qed.

Lemma true_range_nonneg (candles : list Candle) :
  Forall finite_candle candles →
  (∀ first, head candles = Some first →
            (Candle.low first <=? Candle.high first)%num = true) →
  Forall nonneg (true_range candles).
Proof.
  intros Hfin Hfirst. unfold true_range. rewrite Forall_fmap. apply Forall_forall.
  intros n Hn. apply elem_of_seq in Hn. simpl.
  rewrite Forall_forall in Hfin.
  destruct (candles !! n) as [candle|] eqn:Hc;
    [ | apply lookup_ge_None in Hc; lia].
  assert (finite_candle candle) as (Hh & Hl & _).
  { apply Hfin. apply list_elem_of_lookup. eauto. }
  destruct n as [|n'].
  - assert (head candles = Some candle) as Hhead.
    { destruct candles; [discriminate | simpl in *; congruence]. }
    specialize (Hfirst candle Hhead).
    destruct (Candle.high candle) as [h| | |]; try contradiction.
    destruct (Candle.low candle) as [l| | |]; try contradiction.
    apply nleb_Fin in Hfirst. exists (h - l)%Q. split; [reflexivity | lra].
  - destruct (candles !! n') as [prev|] eqn:Hp.
    + assert (finite_candle prev) as (_ & _ & Hpc).
      { apply Hfin. apply list_elem_of_lookup. eauto. }
      simpl. unfold Math_max3.
      apply Math_max_nonneg_r.
      * apply Math_max_finite; [apply nsub_finite; assumption | ].
        apply Math_abs_finite, nsub_finite; assumption.
      * apply Math_abs_nonneg, nsub_finite; assumption.
    + apply lookup_ge_None in Hp. apply lookup_lt_Some in Hc. lia.
Qed.

Lemma atr_step_entry (tr : list num) (period : Z) (result : list num) (n : nat) :
  Forall nonneg tr → 1 <= period → (n < length tr)%nat → length result = n →
  (∀ k x, result !! k = Some x →
          (Z.of_nat k < period - 1 → x = NaN) ∧ (period - 1 <= Z.of_nat k → nonneg x)) →
  ∃ x, atr_step tr period result n = result ++ [x] ∧
       (Z.of_nat n < period - 1 → x = NaN) ∧ (period - 1 <= Z.of_nat n → nonneg x).
Proof.
  intros Htr Hp Hn Hlen Hres. unfold atr_step.
  destruct (Z.of_nat n <? period - 1) eqn:E1.
  { eexists. split; [reflexivity | ]. split; [reflexivity | lia]. }
  destruct (Z.of_nat n =? period - 1) eqn:E2.
  { eexists. split; [reflexivity | ]. split; [lia | ].
    intros _. apply nonneg_div_Z; [ | exact Hp]. unfold window_sum.
    apply fold_sum_nonneg; [ | exact nonneg_0].
    intros j Hj. apply in_seq in Hj. apply at_index_nonneg; [exact Htr | lia]. }
  eexists. split; [reflexivity | ]. split; [lia | ].
  intros _. apply nonneg_div_Z; [ | exact Hp].
  apply nonneg_add.
  - apply nonneg_mul_Z; [ | lia]. unfold at_index.
    destruct (Z.of_nat n - 1 <? 0) eqn:E; [lia | ].
    destruct (result !! Z.to_nat (Z.of_nat n - 1)) as [p|] eqn:Hprev.
    + simpl. apply (Hres _ _ Hprev). lia.
    + apply lookup_ge_None in Hprev. lia.
  - apply at_index_nonneg; [exact Htr | lia].
Qed.

Lemma atr_loop_entries (tr : list num) (period : Z) (n : nat) :
  Forall nonneg tr → 1 <= period → (n <= length tr)%nat →
  ∀ (k : nat) (x : num),
    fold_left (atr_step tr period) (seq 0 n) [] !! k = Some x →
    (Z.of_nat k < period - 1 → x = NaN) ∧ (period - 1 <= Z.of_nat k → nonneg x).
Proof.
  intros Htr Hp. induction n as [|n IH]; intros Hn k x Hk.
  - simpl in Hk. rewrite lookup_nil in Hk. discriminate.
  - assert (n <= length tr)%nat as Hn' by lia.
    specialize (IH Hn').
    rewrite seq_S, fold_left_app in Hk. simpl in Hk.
    destruct (atr_step_entry tr period (fold_left (atr_step tr period) (seq 0 n) []) n)
      as (y & Hy & Hnan & Hdef); [exact Htr | exact Hp | lia | apply atr_loop_length | exact IH | ].
    rewrite Hy in Hk.
    destruct (decide (k < n)%nat) as [Hlt|Hge].
    + rewrite lookup_app_l in Hk by (rewrite atr_loop_length; lia). exact (IH k x Hk).
    + rewrite lookup_app_r in Hk by (rewrite atr_loop_length; lia).
      rewrite atr_loop_length in Hk.
      destruct (k - n)%nat as [|m] eqn:Hm; [ | destruct m; discriminate].
      simpl in Hk. injection Hk as <-.
      assert (k = n) as -> by lia. split; assumption.
Qed.



(** ** MACD and Bollinger bands *)

Lemma at_index_lookup (data : list num) (i : nat) (x : num) :
  data !! i = Some x → at_index data (Z.of_nat i) = x.
Proof.
  intros Hx. unfold at_index.
  destruct (Z.of_nat i <? 0) eqn:E; [apply Z.ltb_lt in E; lia | ].
  rewrite Nat2Z.id, Hx. reflexivity.
Qed.

Lemma fmap_finite_id (l : list num) :
  Forall is_finite l → (fun v => if isNaN v then 0%num else v) <$> l = l.
Proof.
  induction 1 as [|x l Hx _ IH]; [reflexivity | ].
  cbn [fmap list_fmap]. destruct x; try contradiction. simpl. f_equal. exact IH.
Qed.

(** X18.  For finite closes and periods of at least 1 the MACD has no warm-up:
    the MACD line, the signal line and the histogram hold a finite number
    at every index, from index 0 on.  The MACD line is the fast EMA less
    the slow EMA, the signal line is the EMA of the MACD line, and the
    histogram is the MACD line less the signal line. *)
Theorem macd_has_no_warmup (closes : list num) (fastPeriod slowPeriod signalPeriod : Z) :
  Forall is_finite closes → 1 <= fastPeriod → 1 <= slowPeriod → 1 <= signalPeriod →
  let m := macd closes fastPeriod slowPeriod signalPeriod in
  length (MACD.macd m) = length closes ∧
  length (MACD.signal m) = length closes ∧
  length (MACD.histogram m) = length closes ∧
  MACD.signal m = ema (MACD.macd m) signalPeriod ∧
  ∀ i : nat, (i < length closes)%nat →
    ∃ fast slow sig : Q,
      ema closes fastPeriod !! i = Some (Fin fast) ∧
      ema closes slowPeriod !! i = Some (Fin slow) ∧
      MACD.macd m !! i = Some (Fin (fast - slow)) ∧
      MACD.signal m !! i = Some (Fin sig) ∧
      MACD.histogram m !! i = Some (Fin (fast - slow - sig)).
Proof.
  intros Hfin Hf Hs Hg m.
  destruct (ema_finite closes fastPeriod Hfin Hf) as (Hlf & Hff).
  destruct (ema_finite closes slowPeriod Hfin Hs) as (Hls & Hfs).
  set (macdLine := MACD.macd m).
  assert (length macdLine = length closes) as Hlm.
  { unfold macdLine, m, macd. simpl. rewrite length_fmap, length_seq. reflexivity. }
  assert (∀ i : nat, (i < length closes)%nat →
            ∃ fast slow : Q,
              ema closes fastPeriod !! i = Some (Fin fast) ∧
              ema closes slowPeriod !! i = Some (Fin slow) ∧
              macdLine !! i = Some (Fin (fast - slow))) as Hline.
  { intros i Hi.
    destruct (finite_lookup _ i Hff) as (a & Ha); [lia | ].
    destruct (finite_lookup _ i Hfs) as (b & Hb); [lia | ].
    exists a, b. split; [exact Ha | ]. split; [exact Hb | ].
    unfold macdLine, m, macd. cbn [MACD.macd].
    rewrite list_lookup_fmap, lookup_seq_lt by (exact Hi). simpl.
    rewrite (at_index_lookup _ _ _ Ha), (at_index_lookup _ _ _ Hb). reflexivity. }
  assert (Forall is_finite macdLine) as Hfm.
  { apply Forall_forall. intros x Hx. apply list_elem_of_lookup in Hx.
    destruct Hx as (i & Hx).
    destruct (Hline i) as (a & b & _ & _ & Hab).
    - apply lookup_lt_Some in Hx. lia.
    - rewrite Hab in Hx. injection Hx as <-. exact I. }
  assert (MACD.signal m = ema macdLine signalPeriod) as Hsig.
  { unfold m, macd. cbn [MACD.signal].
    change ((fun n => _) <$> seq 0 (length closes)) with macdLine.
    rewrite (fmap_finite_id macdLine Hfm). reflexivity. }
  destruct (ema_finite macdLine signalPeriod Hfm Hg) as (Hlsg & Hfsg).
  split; [exact Hlm | ]. split; [rewrite Hsig, Hlsg; exact Hlm | ].
  split; [unfold m, macd; simpl; rewrite length_fmap, length_seq; reflexivity | ].
  split; [exact Hsig | ].
  intros i Hi.
  destruct (Hline i Hi) as (a & b & Ha & Hb & Hab).
  destruct (finite_lookup _ i Hfsg) as (c & Hc); [lia | ].
  exists a, b, c. split; [exact Ha | ]. split; [exact Hb | ]. split; [exact Hab | ].
  split; [rewrite Hsig; exact Hc | ].
  unfold m, macd. cbn [MACD.histogram].
  rewrite list_lookup_fmap, lookup_seq_lt by (exact Hi). simpl.
  change ((fun n => _) <$> seq 0 (length closes)) with macdLine.
  rewrite (fmap_finite_id macdLine Hfm).
  rewrite (at_index_lookup _ _ _ Hab), (at_index_lookup _ _ _ Hc). reflexivity.
Qed.

Lemma macd_has_no_warmup_witness :
  ∃ fast slow : Q,
    MACD.macd (macd [Fin 1; Fin 2; Fin 4] 1 2 2) !! 0%nat = Some (Fin (fast - slow)).
Proof.
  assert (Forall is_finite [Fin 1; Fin 2; Fin 4]) as Hfin by (repeat constructor).
  destruct (macd_has_no_warmup [Fin 1; Fin 2; Fin 4] 1 2 2 Hfin) as (_ & _ & _ & _ & H);
    [lia | lia | lia | ].
  destruct (H 0%nat) as (a & b & c & _ & _ & Hm & _); [simpl; lia | ].
  exists a, b. exact Hm.
Defined.

Lemma sqrt_defined_integer_roots : sqrt_defined integer_roots.
Proof.
  intros q Hq. simpl.
  assert (Qle_bool 0 q = true) as -> by (apply Qle_bool_iff; exact Hq).
  eexists. split; [reflexivity | ].
  apply inject_Z_nonneg. apply Z.sqrt_nonneg.
Qed.

Section BollingerBands.
Context {math : JSMath}.
Hypothesis sqrt_is_defined : sqrt_defined math.

Lemma window_sum_squares_nonneg (data : list num) (mean : num) (i period : Z) :
  Forall is_finite data → is_finite mean → period - 1 <= i < Z.of_nat (length data) →
  nonneg (window_sum_squares data mean i period).
Proof.
  intros Hfin Hmean Hi. unfold window_sum_squares.
  apply (fold_sum_nonneg
           (fun j => let diff := (at_index data (i - Z.of_nat j) - mean)%num in
                     (diff * diff)%num));
    [ | exact nonneg_0].
  intros j Hj. apply in_seq in Hj. cbv zeta.
  assert (is_finite (at_index data (i - Z.of_nat j) - mean)%num) as Hd.
  { apply nsub_finite; [apply at_index_finite; [exact Hfin | lia] | exact Hmean]. }
  destruct (is_finite_Fin _ Hd) as (d & ->). simpl.
  exists (d * d)%Q. split; [reflexivity | nra].
Qed.

Lemma window_std_nonneg (data : list num) (period : Z) (i : nat) :
  Forall is_finite data → 1 <= period → period - 1 <= Z.of_nat i < Z.of_nat (length data) →
  nonneg (window_std data (sma data period) (Z.of_nat i) period).
Proof.
  intros Hfin Hp Hi. unfold window_std.
  destruct (window_values data period i Hfin Hp Hi) as (lo & av & hi & _ & Hav & _).
  rewrite (at_index_lookup _ _ _ Hav).
  destruct (nonneg_div_Z _ period
              (window_sum_squares_nonneg data (Fin av) (Z.of_nat i) period Hfin I Hi) Hp)
    as (v & -> & Hv).
  destruct (sqrt_is_defined v Hv) as (r & -> & Hr).
  exists r. split; [reflexivity | exact Hr].
Qed.

End BollingerBands.


(** ** The approximate RSI *)

Lemma ndiv_Fin_by_zero (x y : Q) : (y == 0)%Q → (0 < x)%Q → (Fin x / Fin y)%num = PInf.
Proof.
  intros Hy Hx. simpl. rewrite (Qeq_bool_true y Hy).
  assert ((x ?= 0)%Q = Gt) as -> by (apply Qgt_alt; exact Hx). reflexivity.
Qed.

Lemma ndiv_Fin_nonzero (x y : Q) : ¬ (y == 0)%Q → (Fin x / Fin y)%num = Fin (x / y).
Proof.
  intros Hy. simpl.
  destruct (Qeq_bool y 0) eqn:E; [ | reflexivity].
  apply Qeq_bool_iff in E. contradiction.
Qed.

Lemma nmul_PInf_pos (x : Q) : (0 < x)%Q → (PInf * Fin x)%num = PInf.
Proof.
  intros Hx. simpl.
  assert ((x ?= 0)%Q = Gt) as -> by (apply Qgt_alt; exact Hx). reflexivity.
Qed.

Lemma ndiv_PInf_pos (y : Q) : (0 < y)%Q → (PInf / Fin y)%num = PInf.
Proof.
  intros Hy. simpl.
  assert (Qle_bool 0 y = true) as -> by (apply Qle_bool_iff; lra). reflexivity.
Qed.

(** The average [calculateAvgFromRSI] recovers from an RSI of 100 is
    Infinity, and from an RSI of 0 it is 0. *)
Lemma calculateAvgFromRSI_100 (q : Q) (period : Z) (lastValue : num) :
  (q == 100)%Q → calculateAvgFromRSI (Fin q) period lastValue = PInf.
Proof.
  intros Hq. unfold calculateAvgFromRSI. cbn [isNaN nsub].
  rewrite (ndiv_Fin_by_zero q (100 - q)) by lra.
  apply nmul_PInf_pos. reflexivity.
Qed.

Lemma calculateAvgFromRSI_0 (q : Q) (period : Z) (lastValue : num) :
  (q == 0)%Q → ∃ z, calculateAvgFromRSI (Fin q) period lastValue = Fin z ∧ (z == 0)%Q.
Proof.
  intros Hq. unfold calculateAvgFromRSI. cbn [isNaN nsub].
  rewrite (ndiv_Fin_nonzero q (100 - q)) by lra.
  eexists. split; [reflexivity | ]. rewrite Hq. reflexivity.
Qed.

Lemma smoothed_with_infinity (period : Z) (x : num) :
  2 <= period → nonneg x →
  ((PInf * num_of_Z (period - 1) + x) / num_of_Z period)%num = PInf.
Proof.
  intros Hp (v & -> & Hv). unfold num_of_Z.
  rewrite nmul_PInf_pos by (apply inject_Z_pos; lia). cbn [nadd].
  apply ndiv_PInf_pos. apply inject_Z_pos. lia.
Qed.

Lemma smoothed_with_zero (period : Z) (z : Q) (x : num) :
  2 <= period → (z == 0)%Q → nonneg x →
  nonneg ((Fin z * num_of_Z (period - 1) + x) / num_of_Z period)%num.
Proof.
  intros Hp Hz Hx. apply nonneg_div_Z; [ | lia].
  apply nonneg_add; [ | exact Hx].
  exists (z * inject_Z (period - 1))%Q. split; [reflexivity | ]. rewrite Hz. lra.
Qed.

Lemma rsi_value_infinite_gain (avgLoss : num) :
  nonneg avgLoss → num_eq (rsi_value PInf avgLoss) 100.
Proof.
  intros (l & -> & Hl). unfold rsi_value.
  destruct (neqb (Fin l) 0) eqn:E; [reflexivity | ].
  assert (0 < l)%Q as Hpos.
  { destruct (Qlt_le_dec 0 l) as [Hlt|Hle]; [exact Hlt | ].
    assert (l == 0)%Q as E0 by lra.
    unfold neqb, ncompare in E. rewrite (proj1 (Qeq_alt l 0) E0) in E. discriminate. }
  rewrite (ndiv_PInf_pos l Hpos). simpl. lra.
Qed.

Lemma rsi_value_infinite_loss (avgGain : num) :
  nonneg avgGain → num_eq (rsi_value avgGain PInf) 0.
Proof.
  intros (g & -> & Hg). unfold rsi_value. simpl. reflexivity.
Qed.

Lemma at_index_snoc_old (l : list num) (x : num) (k : Z) :
  0 <= k < Z.of_nat (length l) → at_index (l ++ [x]) k = at_index l k.
Proof.
  intros Hk. unfold at_index. destruct (k <? 0); [reflexivity | ].
  rewrite lookup_app_l by lia. reflexivity.
Qed.

Lemma at_index_snoc_new (l : list num) (x : num) (k : Z) :
  k = Z.of_nat (length l) → at_index (l ++ [x]) k = x.
Proof.
  intros ->. unfold at_index.
  destruct (Z.of_nat (length l) <? 0) eqn:E; [apply Z.ltb_lt in E; lia | ].
  rewrite Nat2Z.id, list_lookup_middle by reflexivity. reflexivity.
Qed.

Lemma rsi_step_invariant (closes : list num) (period : Z) (n : nat)
    (st : list num * list num * list num) :
  Forall is_finite closes → 2 <= period → (n < length closes)%nat →
  rsi_invariant period n st → rsi_invariant period (S n) (rsi_step closes period st n).
Proof.
  intros Hfin Hp Hn. destruct st as [[result gains] losses].
  intros (Hlr & Hlg & Hll & Hg & Hl & Hstuck).
  assert (∀ x g l, nonneg g → nonneg l →
            (period < Z.of_nat n →
               (num_eq (at_index result (Z.of_nat n - 1)) 100 → num_eq x 100) ∧
               (num_eq (at_index result (Z.of_nat n - 1)) 0 → num_eq x 0)) →
            rsi_invariant period (S n) (result ++ [x], gains ++ [g], losses ++ [l]))
    as Hpush.
  { intros x g l Hgn Hln Hx. unfold rsi_invariant.
    rewrite !length_app, Hlr, Hlg, Hll. simpl.
    split; [lia | ]. split; [lia | ]. split; [lia | ].
    split; [apply Forall_app; split; [exact Hg | repeat constructor; exact Hgn] | ].
    split; [apply Forall_app; split; [exact Hl | repeat constructor; exact Hln] | ].
    intros k Hk Hkn.
    rewrite (at_index_snoc_old result x (Z.of_nat k)) by lia.
    destruct (decide (S k < n)%nat) as [Hlt|Hge].
    - rewrite (at_index_snoc_old result x (Z.of_nat (S k))) by lia.
      exact (Hstuck k Hk Hlt).
    - assert (S k = n) as Hkn' by lia.
      rewrite (at_index_snoc_new result x (Z.of_nat (S k))) by lia.
      replace (Z.of_nat k) with (Z.of_nat n - 1) by lia.
      apply Hx. lia. }
  unfold rsi_step.
  destruct (Z.of_nat n =? 0) eqn:E0.
  { apply Hpush; [exact nonneg_0 | exact nonneg_0 | intros; lia]. }
  destruct (change_finite closes (Z.of_nat n) Hfin) as (c & ->); [lia | ].
  assert (nonneg (if (Fin c >? 0)%num then Fin c else 0%num)) as Hgain.
  { destruct (Fin c >? 0)%num eqn:E; [ | exact nonneg_0].
    apply ngtb_Fin_0 in E. exists c. split; [reflexivity | lra]. }
  assert (nonneg (if (Fin c <? 0)%num then Math_abs (Fin c) else 0%num)) as Hloss.
  { destruct (Fin c <? 0)%num; [ | exact nonneg_0].
    exists (Qabs c). split; [reflexivity | apply Qabs_nonneg]. }
  set (gain := if (Fin c >? 0)%num then Fin c else 0%num) in *.
  set (loss := if (Fin c <? 0)%num then Math_abs (Fin c) else 0%num) in *.
  destruct (Z.of_nat n <? period) eqn:E1.
  { apply Hpush; [exact Hgain | exact Hloss | intros; lia]. }
  destruct (Z.of_nat n =? period) eqn:E2.
  { apply Hpush; [exact Hgain | exact Hloss | intros; lia]. }
  apply Hpush; [exact Hgain | exact Hloss | ].
  intros _.
  rewrite (at_index_snoc_new gains gain (Z.of_nat n)) by lia.
  rewrite (at_index_snoc_new losses loss (Z.of_nat n)) by lia.
  destruct (at_index result (Z.of_nat n - 1)) as [q| | |] eqn:Eprev;
    try (split; intros Habs; contradiction).
  split; intros Hq; simpl in Hq.
  - rewrite (calculateAvgFromRSI_100 q) by exact Hq.
    rewrite (smoothed_with_infinity period gain Hp Hgain).
    cbn [nsub].
    destruct (calculateAvgFromRSI_0 (100 - q) period
                (at_index (losses ++ [loss]) (Z.of_nat n - 1))) as (z & -> & Hz); [lra | ].
    apply rsi_value_infinite_gain. apply smoothed_with_zero; assumption.
  - destruct (calculateAvgFromRSI_0 q period
                (at_index (gains ++ [gain]) (Z.of_nat n - 1)) Hq) as (z & -> & Hz).
    cbn [nsub].
    rewrite (calculateAvgFromRSI_100 (100 - q)) by lra.
    rewrite (smoothed_with_infinity period loss Hp Hloss).
    apply rsi_value_infinite_loss. apply smoothed_with_zero; assumption.
Qed.

Lemma rsi_loop_invariant_holds (closes : list num) (period : Z) (n : nat) :
  Forall is_finite closes → 2 <= period → (n <= length closes)%nat →
  rsi_invariant period n (fold_left (rsi_step closes period) (seq 0 n) ([], [], [])).
Proof.
  intros Hfin Hp. induction n as [|n IH]; intros Hn.
  - unfold rsi_invariant. simpl. repeat split; try constructor; lia.
  - rewrite seq_S, fold_left_app. simpl.
    apply rsi_step_invariant; [exact Hfin | exact Hp | lia | apply IH; lia].
Qed.

Lemma rsi_step_length (closes : list num) (period : Z)
    (st : list num * list num * list num) (n : nat) :
  length (fst (fst (rsi_step closes period st n))) = S (length (fst (fst st))).
Proof.
  destruct st as [[result gains] losses]. unfold rsi_step.
  destruct (Z.of_nat n =? 0); [simpl; rewrite length_app; simpl; lia | ].
  destruct (Z.of_nat n <? period); [simpl; rewrite length_app; simpl; lia | ].
  destruct (Z.of_nat n =? period); simpl; rewrite length_app; simpl; lia.
Qed.

Lemma rsi_length (closes : list num) (period : Z) :
  length (rsi closes period) = length closes.
Proof.
  unfold rsi.
  assert (∀ n, length (fst (fst (fold_left (rsi_step closes period) (seq 0 n) ([], [], []))))
               = n) as Hloop.
  { induction n as [|n IH]; [reflexivity | ].
    rewrite seq_S, fold_left_app. simpl. rewrite rsi_step_length, IH. reflexivity. }
  apply Hloop.
Qed.

(** X20.  The approximate RSI does not leave an extreme: for finite closes and
    a period of at least 2, once [rsi] is 100 at an index from [period]
    on it is 100 at every later index, and once it is 0 it is 0 at every
    later index, whatever the closes that follow are. *)
Theorem rsi_stays_at_extreme (closes : list num) (period : Z) (i j : nat) :
  Forall is_finite closes → 2 <= period →
  period <= Z.of_nat i → (i <= j)%nat → (j < length closes)%nat →
  (num_eq (at_index (rsi closes period) (Z.of_nat i)) 100 →
   num_eq (at_index (rsi closes period) (Z.of_nat j)) 100) ∧
  (num_eq (at_index (rsi closes period) (Z.of_nat i)) 0 →
   num_eq (at_index (rsi closes period) (Z.of_nat j)) 0).
Proof.
  intros Hfin Hp Hi Hij Hj.
  pose proof (rsi_loop_invariant_holds closes period (length closes) Hfin Hp (Nat.le_refl _))
    as Hinv.
  unfold rsi.
  destruct (fold_left (rsi_step closes period) (seq 0 (length closes)) ([], [], []))
    as [[result gains] losses].
  destruct Hinv as (_ & _ & _ & _ & _ & Hstuck). simpl.
  induction j as [|j IH].
  - assert (i = 0%nat) as -> by lia. auto.
  - destruct (decide (i = S j)) as [-> | Hne]; [auto | ].
    assert (i <= j)%nat as Hij' by lia.
    assert (j < length closes)%nat as Hj' by lia.
    destruct (IH Hij' Hj') as (H100 & H0).
    destruct (Hstuck j) as (S100 & S0); [lia | lia | ].
    split; intros H; [apply S100, H100, H | apply S0, H0, H].
Qed.

Lemma rsi_stays_at_extreme_witness :
  num_eq (at_index (rsi [Fin 1; Fin 2; Fin 3; Fin 1; Fin 0] 2) 2) 100 ∧
  num_eq (at_index (rsi [Fin 1; Fin 2; Fin 3; Fin 1; Fin 0] 2) 4) 100.
Proof.
  assert (num_eq (at_index (rsi [Fin 1; Fin 2; Fin 3; Fin 1; Fin 0] 2) 2) 100) as H
    by (vm_compute; reflexivity).
  split; [exact H | ].
  apply (proj1 (rsi_stays_at_extreme [Fin 1; Fin 2; Fin 3; Fin 1; Fin 0] 2 2 4
                  ltac:(repeat constructor) ltac:(lia) ltac:(lia) ltac:(lia)
                  ltac:(simpl; lia))).
  exact H.
Defined.

Section Aligned.
Context {math : JSMath}.

(** X12.  Every indicator returns one value for each value of its input,
    whatever the input and the periods are: the value at an index belongs
    to the candle at that index. *)
Theorem indicator_output_aligned (data : list num) (candles : list Candle)
    (period slowPeriod signalPeriod : Z) (width : num) :
  length (sma data period) = length data ∧
  length (ema data period) = length data ∧
  length (rsi data period) = length data ∧
  length (rsiSmoothed data period) = length data ∧
  length (highest data period) = length data ∧
  length (lowest data period) = length data ∧
  length (stdDev data period) = length data ∧
  length (atr candles period) = length candles ∧
  (let m := macd data period slowPeriod signalPeriod in
   length (MACD.macd m) = length data ∧ length (MACD.signal m) = length data ∧
   length (MACD.histogram m) = length data) ∧
  (let bands := bollingerBands data period width in
   length (Bands.upper bands) = length data ∧ length (Bands.middle bands) = length data ∧
   length (Bands.lower bands) = length data).
Proof.
  assert (∀ (f : nat → num) (n : nat), length (f <$> seq 0 n) = n) as Hmap.
  { intros f n. rewrite length_fmap, length_seq. reflexivity. }
  split; [apply Hmap | ].
  split; [unfold ema; apply ema_loop_length | ].
  split; [apply rsi_length | ].
  split; [apply rsiSmoothed_length | ].
  split; [apply Hmap | ].
  split; [apply Hmap | ].
  split; [apply Hmap | ].
  split; [unfold atr; rewrite atr_loop_length; apply true_range_length | ].
  split.
  - cbv zeta. unfold macd. cbn [MACD.macd MACD.signal MACD.histogram].
    split; [apply Hmap | ]. split; [ | apply Hmap].
    unfold ema. rewrite ema_loop_length, length_fmap. apply Hmap.
  - cbv zeta. unfold bollingerBands. cbn [Bands.upper Bands.middle Bands.lower].
    split; [apply Hmap | ]. split; apply Hmap.
Qed.
End Aligned.

(** ** Sorting *)

Lemma sort_insert_Permutation {A : Type} (compare : A → A → num) (x : A) (l : list A) :
  sort_insert compare x l ≡ₚ x :: l.
Proof.
  induction l as [|y l IH]; simpl; [reflexivity | ].
  destruct (compare y x >? 0)%num; [reflexivity | ].
  rewrite IH. apply Permutation_swap.
Qed.

Lemma sort_by_snoc {A : Type} (compare : A → A → num) (l : list A) (x : A) :
  sort_by compare (l ++ [x]) = sort_insert compare x (sort_by compare l).
Proof. unfold sort_by. rewrite fold_left_app. reflexivity. Qed.

Lemma sort_by_Permutation {A : Type} (compare : A → A → num) (l : list A) :
  sort_by compare l ≡ₚ l.
Proof.
  induction l as [|x l IH] using rev_ind; [reflexivity | ].
  rewrite sort_by_snoc, sort_insert_Permutation, IH.
  apply Permutation_cons_append.
Qed.

(** Insertion into a list in order, for a comparator that agrees with an
    order of rational keys on the elements at hand. *)
Lemma sort_insert_sorted {A : Type} (compare : A → A → num) (key : A → Q)
    (x : A) (l : list A) :
  (∀ y, y ∈ l → ((compare y x >? 0)%num = true ↔ (key x < key y)%Q)) →
  StronglySorted (fun a b => (key a <= key b)%Q) l →
  StronglySorted (fun a b => (key a <= key b)%Q) (sort_insert compare x l).
Proof.
  intros Hcmp Hsorted. induction Hsorted as [|y l Hl IH Hy]; simpl.
  - repeat constructor.
  - destruct (compare y x >? 0)%num eqn:E.
    + apply (Hcmp y) in E; [ | left].
      constructor; [constructor; assumption | ].
      constructor; [lra | ].
      eapply Forall_impl; [exact Hy | ]. intros z Hz. simpl in Hz. lra.
    + assert (key y <= key x)%Q as Hle.
      { destruct (Qlt_le_dec (key x) (key y)) as [Hlt|Hle]; [ | exact Hle].
        apply (Hcmp y) in Hlt; [congruence | left]. }
      constructor.
      * apply IH. intros z Hz. apply Hcmp. right. exact Hz.
      * rewrite (sort_insert_Permutation compare x l). constructor; assumption.
Qed.

Lemma sort_by_sorted {A : Type} (compare : A → A → num) (key : A → Q) (l : list A) :
  (∀ x y, x ∈ l → y ∈ l → ((compare y x >? 0)%num = true ↔ (key x < key y)%Q)) →
  StronglySorted (fun a b => (key a <= key b)%Q) (sort_by compare l).
Proof.
  induction l as [|x l IH] using rev_ind; intros Hcmp; [constructor | ].
  rewrite sort_by_snoc. apply sort_insert_sorted.
  - intros y Hy. apply Hcmp.
    + apply elem_of_app. right. left.
    + apply elem_of_app. left. rewrite <- (sort_by_Permutation compare l). exact Hy.
  - apply IH. intros a b Ha Hb. apply Hcmp; apply elem_of_app; left; assumption.
Qed.

Lemma StronglySorted_lookup {A : Type} (R : A → A → Prop) (l : list A) (i j : nat) (a b : A) :
  StronglySorted R l → (i < j)%nat → l !! i = Some a → l !! j = Some b → R a b.
Proof.
  intros Hsorted. revert i j.
  induction Hsorted as [|x l Hl IH Hx]; intros i j Hij Ha Hb; [discriminate | ].
  destruct i as [|i], j as [|j]; try lia; simpl in Ha, Hb.
  - injection Ha as <-. rewrite Forall_forall in Hx. apply Hx.
    apply list_elem_of_lookup. eauto.
  - apply (IH i j); [lia | assumption | assumption].
Qed.

(** The first element of a sorted list after an insertion. *)
Lemma sort_insert_head {A : Type} (compare : A → A → num) (x : A) (l : list A) :
  head (sort_insert compare x l) =
  match head l with
  | Some y => if (compare y x >? 0)%num then Some x else Some y
  | None => Some x
  end.
Proof.
  destruct l as [|y l]; simpl; [reflexivity | ].
  destruct (compare y x >? 0)%num; reflexivity.
Qed.

(** ** What the grid search reports *)

Section GridSearchResults.
Context {math : JSMath}.

Variable candles : list Candle.
Variable backtestConfig : BacktestConfig.
Variable optimizationConfig : OptimizationConfig.
Variable strategyFactory : StrategyParams → Strategy.

Lemma optimize_step_result (st : optimize_state) (params : StrategyParams) :
  Engine.config (st_engine st) = backtestConfig →
  let st' := optimize_step candles optimizationConfig strategyFactory st params in
  Engine.config (st_engine st') = backtestConfig ∧
  match fresh_entry candles backtestConfig optimizationConfig strategyFactory params with
  | Some entry =>
      st_results st' = st_results st ++ [entry] ∧
      (st_bestParams st', st_bestMetricValue st') =
        keep_best (OptimizationConfig.maximize optimizationConfig)
          (st_bestParams st, st_bestMetricValue st) entry
  | None =>
      st_results st' = st_results st ∧
      (st_bestParams st', st_bestMetricValue st') = (st_bestParams st, st_bestMetricValue st)
  end.
Proof.
  intros Hc.
  assert (runBacktest candles (strategyFactory params) backtestConfig =
          run candles (strategyFactory params) (st_engine st)) as Hrun.
  { unfold runBacktest. apply run_reads_config. rewrite Hc. reflexivity. }
  unfold fresh_entry. rewrite Hrun. unfold optimize_step.
  destruct (run candles (strategyFactory params) (st_engine st))
    as [[[result engine'] strategy']|] eqn:E; cbn [st_engine st_results st_bestParams
                                                     st_bestMetricValue].
  - split; [rewrite (run_config _ _ _ _ _ _ E); exact Hc | ].
    split; [reflexivity | ].
    unfold keep_best. cbn [OptimizationEntry.metricValue OptimizationEntry.params snd].
    match goal with |- context [?b && isFinite ?m] => destruct (b && isFinite m) end;
      reflexivity.
  - split; [exact Hc | ]. split; reflexivity.
Qed.

(** The loop of [optimize] as a whole: its engine keeps the
    configuration, its results are those of backtests on engines of their
    own, in the order of the combinations, and its best is the best of
    its results. *)
Lemma optimize_fold_results (combinations : list StrategyParams) (st : optimize_state) :
  Engine.config (st_engine st) = backtestConfig →
  let st' :=
    fold_left (optimize_step candles optimizationConfig strategyFactory) combinations st in
  Engine.config (st_engine st') = backtestConfig ∧
  st_results st' =
    st_results st ++
    omap (fresh_entry candles backtestConfig optimizationConfig strategyFactory)
      combinations ∧
  (st_bestParams st', st_bestMetricValue st') =
    fold_left (keep_best (OptimizationConfig.maximize optimizationConfig))
      (omap (fresh_entry candles backtestConfig optimizationConfig strategyFactory)
         combinations)
      (st_bestParams st, st_bestMetricValue st).
Proof.
  revert st. induction combinations as [|params rest IH]; intros st Hc.
  - simpl. split; [exact Hc | ]. split; [rewrite app_nil_r; reflexivity | reflexivity].
  - cbn [fold_left omap list_omap].
    destruct (optimize_step_result st params Hc) as (Hc1 & Hstep).
    destruct (IH _ Hc1) as (H1 & H2 & H3).
    split; [exact H1 | ].
    destruct (fresh_entry candles backtestConfig optimizationConfig strategyFactory params)
      as [entry|]; destruct Hstep as (Hr & Hb).
    + split; [rewrite H2, Hr, <- app_assoc; reflexivity | ].
      rewrite H3, Hb. reflexivity.
    + split; [rewrite H2, Hr; reflexivity | ].
      rewrite H3, Hb. reflexivity.
Qed.

Lemma optimize_unfold (fuel : nat) (baseParams : StrategyParams)
    (result : OptimizationResult) :
  optimize candles backtestConfig optimizationConfig fuel strategyFactory baseParams =
    Some result →
  ∃ combinations,
    generateCombinations optimizationConfig fuel baseParams = Some combinations ∧
    let entries :=
      omap (fresh_entry candles backtestConfig optimizationConfig strategyFactory)
        combinations in
    OptimizationResult.totalCombinations result = length combinations ∧
    OptimizationResult.allResults result =
      sort_by (by_metric (OptimizationConfig.maximize optimizationConfig)) entries ∧
    (OptimizationResult.bestParams result, OptimizationResult.bestMetricValue result) =
      fold_left (keep_best (OptimizationConfig.maximize optimizationConfig)) entries
        (baseParams,
         if OptimizationConfig.maximize optimizationConfig then NInf else PInf).
Proof.
  unfold optimize. intros Hopt.
  destruct (generateCombinations optimizationConfig fuel baseParams)
    as [combinations|] eqn:Hgen; [ | discriminate].
  exists combinations. split; [reflexivity | ].
  cbn -[sort_by optimize_loop length] in Hopt. injection Hopt as <-.
  cbn -[sort_by optimize_loop length].
  destruct (optimize_fold_results combinations
              {| st_engine := new_BacktestEngine backtestConfig;
                 st_results := [];
                 st_bestParams := baseParams;
                 st_bestMetricValue :=
                   if OptimizationConfig.maximize optimizationConfig then NInf else PInf |}
              eq_refl) as (_ & H2 & H3).
  fold (optimize_loop candles backtestConfig optimizationConfig strategyFactory baseParams
          combinations) in H2, H3.
  cbn [st_results st_bestParams st_bestMetricValue app] in H2, H3.
  split; [reflexivity | ]. split; [rewrite H2; reflexivity | exact H3].
Qed.

(** X21.  The results [optimize] reports are, in some order, the results of one
    backtest for each combination, each on an engine of its own: that
    [optimize] runs them all on one engine changes nothing.  A
    combination whose backtest throws has no result. *)
Theorem optimize_results_are_fresh_backtests (fuel : nat) (baseParams : StrategyParams)
    (result : OptimizationResult) :
  optimize candles backtestConfig optimizationConfig fuel strategyFactory baseParams =
    Some result →
  ∃ combinations,
    generateCombinations optimizationConfig fuel baseParams = Some combinations ∧
    OptimizationResult.totalCombinations result = length combinations ∧
    OptimizationResult.allResults result ≡ₚ
      omap (fresh_entry candles backtestConfig optimizationConfig strategyFactory)
        combinations.
Proof.
  intros Hopt.
  destruct (optimize_unfold fuel baseParams result Hopt) as (combinations & Hgen & H).
  cbv zeta in H. destruct H as (Hn & Hall & _).
  exists combinations. split; [exact Hgen | ]. split; [exact Hn | ].
  rewrite Hall. apply sort_by_Permutation.
Qed.
End GridSearchResults.

(** ** The best of a grid search *)

Lemma as_good_Fin (maximize : bool) (a b : Q) :
  as_good maximize (Fin a) (Fin b) = true ↔ if maximize then (b <= a)%Q else (a <= b)%Q.
Proof. unfold as_good. destruct maximize; apply nleb_Fin. Qed.

Lemma keep_best_finite (maximize : bool) (best : StrategyParams * num)
    (entry : OptimizationEntry) (x : Q) :
  OptimizationEntry.metricValue entry = Fin x →
  (snd best = (if maximize then NInf else PInf) →
   keep_best maximize best entry = (OptimizationEntry.params entry, Fin x)) ∧
  (∀ b, snd best = Fin b →
     (keep_best maximize best entry = (OptimizationEntry.params entry, Fin x) ∧
      as_good maximize (Fin x) (Fin b) = true ∨
      keep_best maximize best entry = best ∧ as_good maximize (Fin b) (Fin x) = true)).
Proof.
  intros Hx. unfold keep_best. rewrite Hx. split.
  - intros ->. destruct maximize; reflexivity.
  - intros b ->. cbn [isFinite]. rewrite andb_true_r.
    destruct maximize.
    + destruct (Fin x >? Fin b)%num eqn:E.
      * left. split; [reflexivity | ]. apply as_good_Fin. apply ngtb_Fin in E. lra.
      * right. split; [reflexivity | ]. apply as_good_Fin.
        unfold ngtb in E. apply nltb_Fin_false in E. exact E.
    + destruct (Fin x <? Fin b)%num eqn:E.
      * left. split; [reflexivity | ]. apply as_good_Fin. apply nltb_Fin in E. lra.
      * right. split; [reflexivity | ]. apply as_good_Fin.
        apply nltb_Fin_false in E. exact E.
Qed.

Lemma keep_best_not_finite (maximize : bool) (best : StrategyParams * num)
    (entry : OptimizationEntry) :
  ¬ is_finite (OptimizationEntry.metricValue entry) → keep_best maximize best entry = best.
Proof.
  intros Hx. unfold keep_best.
  destruct (OptimizationEntry.metricValue entry); simpl in *;
    try (exfalso; apply Hx; exact I); rewrite andb_false_r; reflexivity.
Qed.

Lemma as_good_trans (maximize : bool) (a b c : Q) :
  as_good maximize (Fin a) (Fin b) = true → as_good maximize (Fin b) (Fin c) = true →
  as_good maximize (Fin a) (Fin c) = true.
Proof.
  rewrite !as_good_Fin. destruct maximize; intros; lra.
Qed.

(** The best kept over a list of results, from a best that is a finite
    number. *)
Lemma keep_best_fold_finite (maximize : bool) (entries : list OptimizationEntry)
    (best : StrategyParams * num) (b : Q) :
  snd best = Fin b →
  ∃ b', snd (fold_left (keep_best maximize) entries best) = Fin b' ∧
        as_good maximize (Fin b') (Fin b) = true ∧
        (∀ entry x, entry ∈ entries → OptimizationEntry.metricValue entry = Fin x →
                    as_good maximize (Fin b') (Fin x) = true) ∧
        (fold_left (keep_best maximize) entries best = best ∨
         ∃ entry, entry ∈ entries ∧ is_finite (OptimizationEntry.metricValue entry) ∧
                  fold_left (keep_best maximize) entries best =
                    (OptimizationEntry.params entry, OptimizationEntry.metricValue entry)).
Proof.
  revert best b. induction entries as [|entry rest IH]; intros best b Hb.
  - exists b. simpl. split; [exact Hb | ].
    split; [apply as_good_Fin; destruct maximize; lra | ].
    split; [intros entry x Hin; inversion Hin | left; reflexivity].
  - cbn [fold_left].
    destruct (OptimizationEntry.metricValue entry) as [x| | |] eqn:Ex.
    + destruct (proj2 (keep_best_finite maximize best entry x Ex) b Hb)
        as [(Hk & Hgood) | (Hk & Hgood)]; rewrite Hk.
      * destruct (IH (OptimizationEntry.params entry, Fin x) x eq_refl)
          as (b' & Hb' & Hg1 & Hall & Hwho).
        exists b'. split; [exact Hb' | ].
        split; [exact (as_good_trans maximize b' x b Hg1 Hgood) | ].
        split.
        { intros e y Hin Hy. apply elem_of_cons in Hin. destruct Hin as [-> | Hin].
          - rewrite Ex in Hy. injection Hy as <-. exact Hg1.
          - exact (Hall e y Hin Hy). }
        right. destruct Hwho as [-> | (e & Hin & Hfin & ->)].
        { exists entry. split; [left | ]. rewrite Ex. split; [exact I | reflexivity]. }
        exists e. split; [right; exact Hin | ]. split; [exact Hfin | reflexivity].
      * destruct (IH best b Hb) as (b' & Hb' & Hg1 & Hall & Hwho).
        exists b'. split; [exact Hb' | ]. split; [exact Hg1 | ].
        split.
        { intros e y Hin Hy. apply elem_of_cons in Hin. destruct Hin as [-> | Hin].
          - rewrite Ex in Hy. injection Hy as <-.
            exact (as_good_trans maximize b' b x Hg1 Hgood).
          - exact (Hall e y Hin Hy). }
        destruct Hwho as [-> | (e & Hin & Hfin & ->)]; [left; reflexivity | ].
        right. exists e. split; [right; exact Hin | ]. split; [exact Hfin | reflexivity].
    + rewrite keep_best_not_finite by (rewrite Ex; exact (fun H => H)).
      destruct (IH best b Hb) as (b' & Hb' & Hg1 & Hall & Hwho).
      exists b'. split; [exact Hb' | ]. split; [exact Hg1 | ].
      split.
      { intros e y Hin Hy. apply elem_of_cons in Hin. destruct Hin as [-> | Hin].
        - rewrite Ex in Hy. discriminate.
        - exact (Hall e y Hin Hy). }
      destruct Hwho as [-> | (e & Hin & Hfin & ->)]; [left; reflexivity | ].
      right. exists e. split; [right; exact Hin | ]. split; [exact Hfin | reflexivity].
    + rewrite keep_best_not_finite by (rewrite Ex; exact (fun H => H)).
      destruct (IH best b Hb) as (b' & Hb' & Hg1 & Hall & Hwho).
      exists b'. split; [exact Hb' | ]. split; [exact Hg1 | ].
      split.
      { intros e y Hin Hy. apply elem_of_cons in Hin. destruct Hin as [-> | Hin].
        - rewrite Ex in Hy. discriminate.
        - exact (Hall e y Hin Hy). }
      destruct Hwho as [-> | (e & Hin & Hfin & ->)]; [left; reflexivity | ].
      right. exists e. split; [right; exact Hin | ]. split; [exact Hfin | reflexivity].
    + rewrite keep_best_not_finite by (rewrite Ex; exact (fun H => H)).
      destruct (IH best b Hb) as (b' & Hb' & Hg1 & Hall & Hwho).
      exists b'. split; [exact Hb' | ]. split; [exact Hg1 | ].
      split.
      { intros e y Hin Hy. apply elem_of_cons in Hin. destruct Hin as [-> | Hin].
        - rewrite Ex in Hy. discriminate.
        - exact (Hall e y Hin Hy). }
      destruct Hwho as [-> | (e & Hin & Hfin & ->)]; [left; reflexivity | ].
      right. exists e. split; [right; exact Hin | ]. split; [exact Hfin | reflexivity].
Qed.

(** The best kept over a list of results, from the start of the search. *)
Lemma keep_best_fold_start (maximize : bool) (entries : list OptimizationEntry)
    (baseParams : StrategyParams) :
  let start := (baseParams, if maximize then NInf else PInf) in
  let best := fold_left (keep_best maximize) entries start in
  (best = start ∧
   ∀ entry, entry ∈ entries → ¬ is_finite (OptimizationEntry.metricValue entry)) ∨
  (∃ entry, entry ∈ entries ∧ is_finite (OptimizationEntry.metricValue entry) ∧
            best = (OptimizationEntry.params entry, OptimizationEntry.metricValue entry)) ∧
  (∀ entry, entry ∈ entries → is_finite (OptimizationEntry.metricValue entry) →
            as_good maximize (snd best) (OptimizationEntry.metricValue entry) = true).
Proof.
  induction entries as [|entry rest IH]; cbv zeta in *.
  - left. split; [reflexivity | ]. intros entry Hin. inversion Hin.
  - cbn [fold_left].
    destruct (OptimizationEntry.metricValue entry) as [x| | |] eqn:Ex.
    + right.
      rewrite (proj1 (keep_best_finite maximize
                        (baseParams, if maximize then NInf else PInf) entry x Ex) eq_refl).
      destruct (keep_best_fold_finite maximize rest (OptimizationEntry.params entry, Fin x) x
                  eq_refl) as (b' & Hb' & Hg1 & Hall & Hwho).
      split.
      * destruct Hwho as [-> | (e & Hin & Hfin & ->)].
        { exists entry. split; [left | ]. rewrite Ex. split; [exact I | reflexivity]. }
        exists e. split; [right; exact Hin | ]. split; [exact Hfin | reflexivity].
      * intros e Hin Hfin. rewrite Hb'.
        apply elem_of_cons in Hin. destruct Hin as [-> | Hin].
        { rewrite Ex. exact Hg1. }
        destruct (is_finite_Fin _ Hfin) as (y & Hy). rewrite Hy.
        exact (Hall e y Hin Hy).
    + rewrite keep_best_not_finite by (rewrite Ex; exact (fun H => H)).
      destruct IH as [(Hb & Hnone) | ((e & Hin & Hfin & Hb) & Hall)].
      * left. split; [exact Hb | ].
        intros e Hin. apply elem_of_cons in Hin. destruct Hin as [-> | Hin];
          [rewrite Ex; exact (fun H => H) | exact (Hnone e Hin)].
      * right. split; [exists e; split; [right; exact Hin | split; assumption] | ].
        intros e' Hin' Hfin'. apply elem_of_cons in Hin'. destruct Hin' as [-> | Hin'];
          [rewrite Ex in Hfin'; contradiction | exact (Hall e' Hin' Hfin')].
    + rewrite keep_best_not_finite by (rewrite Ex; exact (fun H => H)).
      destruct IH as [(Hb & Hnone) | ((e & Hin & Hfin & Hb) & Hall)].
      * left. split; [exact Hb | ].
        intros e Hin. apply elem_of_cons in Hin. destruct Hin as [-> | Hin];
          [rewrite Ex; exact (fun H => H) | exact (Hnone e Hin)].
      * right. split; [exists e; split; [right; exact Hin | split; assumption] | ].
        intros e' Hin' Hfin'. apply elem_of_cons in Hin'. destruct Hin' as [-> | Hin'];
          [rewrite Ex in Hfin'; contradiction | exact (Hall e' Hin' Hfin')].
    + rewrite keep_best_not_finite by (rewrite Ex; exact (fun H => H)).
      destruct IH as [(Hb & Hnone) | ((e & Hin & Hfin & Hb) & Hall)].
      * left. split; [exact Hb | ].
        intros e Hin. apply elem_of_cons in Hin. destruct Hin as [-> | Hin];
          [rewrite Ex; exact (fun H => H) | exact (Hnone e Hin)].
      * right. split; [exists e; split; [right; exact Hin | split; assumption] | ].
        intros e' Hin' Hfin'. apply elem_of_cons in Hin'. destruct Hin' as [-> | Hin'];
          [rewrite Ex in Hfin'; contradiction | exact (Hall e' Hin' Hfin')].
Qed.

(** The first of the sorted results is the best kept, when every metric
    value is a finite number. *)
Lemma sorted_head_is_best (maximize : bool) (entries : list OptimizationEntry)
    (baseParams : StrategyParams) :
  Forall (fun entry => is_finite (OptimizationEntry.metricValue entry)) entries →
  match head (sort_by (by_metric maximize) entries) with
  | Some first =>
      fold_left (keep_best maximize) entries
        (baseParams, if maximize then NInf else PInf) =
      (OptimizationEntry.params first, OptimizationEntry.metricValue first)
  | None => entries = []
  end.
Proof.
  induction entries as [|entry done IH] using rev_ind; intros Hfin; [reflexivity | ].
  apply Forall_app in Hfin. destruct Hfin as (Hdone & Hentry).
  inversion Hentry as [|? ? Hx _]; subst.
  destruct (is_finite_Fin _ Hx) as (x & Ex).
  rewrite sort_by_snoc, sort_insert_head, fold_left_app. cbn [fold_left].
  specialize (IH Hdone).
  destruct (head (sort_by (by_metric maximize) done)) as [first|] eqn:Hhead.
  - rewrite IH.
    assert (first ∈ done) as Hin.
    { rewrite <- (sort_by_Permutation (by_metric maximize) done).
      destruct (sort_by (by_metric maximize) done); [discriminate | ].
      injection Hhead as ->. left. }
    rewrite Forall_forall in Hdone.
    destruct (is_finite_Fin _ (Hdone first Hin)) as (b & Eb).
    unfold keep_best, by_metric. cbn [snd]. rewrite Ex, Eb. cbn [isFinite nsub].
    rewrite andb_true_r.
    destruct maximize.
    + destruct (Fin (x - b) >? 0)%num eqn:E1, (Fin x >? Fin b)%num eqn:E2;
        rewrite ?Ex, ?Eb; try reflexivity; exfalso.
      * apply ngtb_Fin_0 in E1. assert (b < x)%Q as H by lra.
        apply ngtb_Fin in H. rewrite H in E2. discriminate.
      * apply ngtb_Fin in E2. assert (0 < x - b)%Q as H by lra.
        apply ngtb_Fin_0 in H. rewrite H in E1. discriminate.
    + destruct (Fin (b - x) >? 0)%num eqn:E1, (Fin x <? Fin b)%num eqn:E2;
        rewrite ?Ex, ?Eb; try reflexivity; exfalso.
      * apply ngtb_Fin_0 in E1. assert (x < b)%Q as H by lra.
        apply nltb_Fin in H. rewrite H in E2. discriminate.
      * apply nltb_Fin in E2. assert (0 < b - x)%Q as H by lra.
        apply ngtb_Fin_0 in H. rewrite H in E1. discriminate.
  - subst done. cbn [fold_left].
    rewrite (proj1 (keep_best_finite maximize
                      (baseParams, if maximize then NInf else PInf) entry x Ex) eq_refl).
    rewrite Ex. reflexivity.
Qed.

Lemma by_metric_agrees (maximize : bool) (x y : OptimizationEntry) :
  is_finite (OptimizationEntry.metricValue x) →
  is_finite (OptimizationEntry.metricValue y) →
  (by_metric maximize y x >? 0)%num = true ↔
  (metric_key maximize x < metric_key maximize y)%Q.
Proof.
  intros Hx Hy.
  destruct (is_finite_Fin _ Hx) as (qx & Ex).
  destruct (is_finite_Fin _ Hy) as (qy & Ey).
  unfold metric_key, by_metric. rewrite Ex, Ey.
  destruct maximize; cbn [nsub]; rewrite ngtb_Fin_0; split; intros; lra.
Qed.

Lemma by_metric_sorted (maximize : bool) (entries : list OptimizationEntry) :
  Forall (fun entry => is_finite (OptimizationEntry.metricValue entry)) entries →
  ∀ (i j : nat) (a b : OptimizationEntry),
    (i < j)%nat →
    sort_by (by_metric maximize) entries !! i = Some a →
    sort_by (by_metric maximize) entries !! j = Some b →
    as_good maximize (OptimizationEntry.metricValue a) (OptimizationEntry.metricValue b) = true.
Proof.
  intros Hfin i j a b Hij Ha Hb.
  assert (StronglySorted (fun a b => (metric_key maximize a <= metric_key maximize b)%Q)
            (sort_by (by_metric maximize) entries)) as Hsorted.
  { apply sort_by_sorted. intros x y Hx Hy.
    rewrite Forall_forall in Hfin.
    apply by_metric_agrees; apply Hfin; assumption. }
  pose proof (StronglySorted_lookup _ _ i j a b Hsorted Hij Ha Hb) as Hle.
  assert (a ∈ entries) as Hina.
  { rewrite <- (sort_by_Permutation (by_metric maximize) entries).
    apply list_elem_of_lookup. eauto. }
  assert (b ∈ entries) as Hinb.
  { rewrite <- (sort_by_Permutation (by_metric maximize) entries).
    apply list_elem_of_lookup. eauto. }
  rewrite Forall_forall in Hfin.
  destruct (is_finite_Fin _ (Hfin a Hina)) as (qa & Ea).
  destruct (is_finite_Fin _ (Hfin b Hinb)) as (qb & Eb).
  unfold metric_key in Hle. rewrite Ea, Eb in Hle |- *.
  apply as_good_Fin. destruct maximize; lra.
Qed.

Section GridSearchBest.
Context {math : JSMath}.

Variable candles : list Candle.
Variable backtestConfig : BacktestConfig.
Variable optimizationConfig : OptimizationConfig.
Variable strategyFactory : StrategyParams → Strategy.

(** X22.  What [optimize] reports as the best is the best of the results whose
    metric value is a finite number: no such result has a better metric
    value (a higher one when the search maximizes, a lower one when it
    minimizes), and [bestParams] and [bestMetricValue] are the parameters
    and the metric value of one of them.  With no such result
    [bestParams] is the base parameters and [bestMetricValue] is
    -Infinity, or Infinity when the search minimizes. *)
Theorem optimize_best_is_optimum (fuel : nat) (baseParams : StrategyParams)
    (result : OptimizationResult) :
  optimize candles backtestConfig optimizationConfig fuel strategyFactory baseParams =
    Some result →
  let maximize := OptimizationConfig.maximize optimizationConfig in
  (OptimizationResult.bestParams result = baseParams ∧
   OptimizationResult.bestMetricValue result = (if maximize then NInf else PInf) ∧
   ∀ entry, entry ∈ OptimizationResult.allResults result →
            ¬ is_finite (OptimizationEntry.metricValue entry)) ∨
  (∃ entry, entry ∈ OptimizationResult.allResults result ∧
            is_finite (OptimizationEntry.metricValue entry) ∧
            OptimizationResult.bestParams result = OptimizationEntry.params entry ∧
            OptimizationResult.bestMetricValue result =
              OptimizationEntry.metricValue entry) ∧
  (∀ entry, entry ∈ OptimizationResult.allResults result →
            is_finite (OptimizationEntry.metricValue entry) →
            as_good maximize (OptimizationResult.bestMetricValue result)
              (OptimizationEntry.metricValue entry) = true).
Proof.
  intros Hopt maximize.
  destruct (optimize_unfold candles backtestConfig optimizationConfig strategyFactory
              fuel baseParams result Hopt) as (combinations & _ & H).
  cbv zeta in H. destruct H as (_ & Hall & Hbest).
  set (entries := omap (fresh_entry candles backtestConfig optimizationConfig
                          strategyFactory) combinations) in *.
  assert (∀ entry, entry ∈ OptimizationResult.allResults result ↔ entry ∈ entries) as Hin.
  { intros entry. rewrite Hall, (sort_by_Permutation _ entries). reflexivity. }
  pose proof (keep_best_fold_start maximize entries baseParams) as Hfold.
  cbv zeta in Hfold. fold maximize in Hbest. rewrite <- Hbest in Hfold.
  destruct Hfold as [(Hb & Hnone) | ((entry & He & Hfin & Hb) & Hgood)].
  - left. injection Hb as -> ->. split; [reflexivity | ]. split; [reflexivity | ].
    intros entry He. apply Hnone, Hin, He.
  - right. injection Hb as Hp Hv. split.
    + exists entry. split; [apply Hin, He | ]. split; [exact Hfin | ].
      split; [exact Hp | exact Hv].
    + intros e He' Hfin'. apply (Hgood e); [apply Hin, He' | exact Hfin'].
Qed.

(** X23.  When every metric value is a finite number the results [optimize]
    reports are in the order of the metric, best first, and the first of
    them is the best: its parameters are [bestParams] and its metric
    value is [bestMetricValue]. *)
Theorem optimize_results_best_first (fuel : nat) (baseParams : StrategyParams)
    (result : OptimizationResult) :
  optimize candles backtestConfig optimizationConfig fuel strategyFactory baseParams =
    Some result →
  Forall (fun entry => is_finite (OptimizationEntry.metricValue entry))
    (OptimizationResult.allResults result) →
  let maximize := OptimizationConfig.maximize optimizationConfig in
  (∀ (i j : nat) (a b : OptimizationEntry),
     (i < j)%nat →
     OptimizationResult.allResults result !! i = Some a →
     OptimizationResult.allResults result !! j = Some b →
     as_good maximize (OptimizationEntry.metricValue a)
       (OptimizationEntry.metricValue b) = true) ∧
  (∀ first, head (OptimizationResult.allResults result) = Some first →
     OptimizationResult.bestParams result = OptimizationEntry.params first ∧
     OptimizationResult.bestMetricValue result = OptimizationEntry.metricValue first).
Proof.
  intros Hopt Hfin maximize.
  destruct (optimize_unfold candles backtestConfig optimizationConfig strategyFactory
              fuel baseParams result Hopt) as (combinations & _ & H).
  cbv zeta in H. destruct H as (_ & Hall & Hbest).
  set (entries := omap (fresh_entry candles backtestConfig optimizationConfig
                          strategyFactory) combinations) in *.
  fold maximize in Hall, Hbest.
  assert (Forall (fun entry => is_finite (OptimizationEntry.metricValue entry)) entries)
    as Hfin'.
  { rewrite <- (sort_by_Permutation (by_metric maximize) entries), <- Hall. exact Hfin. }
  split.
  - rewrite Hall. apply by_metric_sorted. exact Hfin'.
  - intros first Hhead.
    pose proof (sorted_head_is_best maximize entries baseParams Hfin') as Hsb.
    rewrite <- Hall, Hhead, <- Hbest in Hsb. injection Hsb as -> ->. auto.
Qed.
End GridSearchBest.

Lemma optimize_results_are_fresh_backtests_witness :
  ∃ result combinations,
    optimize (math := unevaluated) rising_candles DEFAULT_BACKTEST_CONFIG example_grid 10
      (fun _ => always_buy) ∅ = Some result ∧
    generateCombinations example_grid 10 ∅ = Some combinations ∧
    OptimizationResult.totalCombinations result = length combinations.
Proof.
  destruct (optimize (math := unevaluated) rising_candles DEFAULT_BACKTEST_CONFIG
              example_grid 10 (fun _ => always_buy) ∅) as [result|] eqn:Hopt.
  - destruct (optimize_results_are_fresh_backtests (math := unevaluated) rising_candles
                DEFAULT_BACKTEST_CONFIG example_grid (fun _ => always_buy) 10 ∅ result Hopt)
      as (combinations & Hgen & Hn & _).
    exists result, combinations. auto.
  - vm_compute in Hopt. discriminate.
Defined.

Lemma optimize_best_is_optimum_witness :
  ∃ result,
    optimize (math := unevaluated) rising_candles DEFAULT_BACKTEST_CONFIG example_grid 10
      (fun _ => always_buy) ∅ = Some result ∧
    ∀ entry, entry ∈ OptimizationResult.allResults result →
             is_finite (OptimizationEntry.metricValue entry) →
             as_good true (OptimizationResult.bestMetricValue result)
               (OptimizationEntry.metricValue entry) = true.
Proof.
  destruct (optimize (math := unevaluated) rising_candles DEFAULT_BACKTEST_CONFIG
              example_grid 10 (fun _ => always_buy) ∅) as [result|] eqn:Hopt.
  - exists result. split; [reflexivity | ].
    destruct (optimize_best_is_optimum (math := unevaluated) rising_candles
                DEFAULT_BACKTEST_CONFIG example_grid (fun _ => always_buy) 10 ∅ result Hopt)
      as [(_ & _ & Hnone) | (_ & Hgood)].
    + intros entry Hin Hfin. destruct (Hnone entry Hin Hfin).
    + exact Hgood.
  - vm_compute in Hopt. discriminate.
Defined.

Lemma optimize_results_best_first_witness :
  ∃ result first,
    optimize (math := unevaluated) rising_candles DEFAULT_BACKTEST_CONFIG example_grid 10
      (fun _ => always_buy) ∅ = Some result ∧
    head (OptimizationResult.allResults result) = Some first ∧
    OptimizationResult.bestMetricValue result = OptimizationEntry.metricValue first.
Proof.
  destruct (optimize (math := unevaluated) rising_candles DEFAULT_BACKTEST_CONFIG
              example_grid 10 (fun _ => always_buy) ∅) as [result|] eqn:Hopt;
    [ | vm_compute in Hopt; discriminate].
  assert (Forall (fun entry => is_finite (OptimizationEntry.metricValue entry))
            (OptimizationResult.allResults result)) as Hfin.
  { vm_compute in Hopt. injection Hopt as <-. repeat constructor. }
  pose proof (optimize_results_best_first (math := unevaluated) rising_candles
                DEFAULT_BACKTEST_CONFIG example_grid (fun _ => always_buy) 10 ∅
                result Hopt Hfin) as Hbest.
  cbv zeta in Hbest. destruct Hbest as (_ & Hbest).
  destruct (head (OptimizationResult.allResults result)) as [first|] eqn:Hhead.
  - exists result, first. split; [reflexivity | ]. split; [exact Hhead | ].
    exact (proj2 (Hbest first eq_refl)).
  - vm_compute in Hopt. injection Hopt as <-. discriminate.
Defined.

(** ** Monte Carlo: the simulations *)

Lemma shuffle_loop_draws {A : Type} (n : nat) :
  ∀ (shuffled : list A) (g : Random.t),
    Random.draws (snd (shuffle_loop n shuffled g)) = Random.draws g ∧
    Random.drawn (snd (shuffle_loop n shuffled g)) = (Random.drawn g + n)%nat.
Proof.
  induction n as [|n IH]; intros shuffled g.
  - simpl. split; [reflexivity | lia].
  - cbn [shuffle_loop]. unfold Random.random.
    match goal with
    | |- context [shuffle_loop n ?l ?g'] => destruct (IH l g') as (H1 & H2)
    end.
    rewrite H1, H2. cbn [Random.draws Random.drawn]. split; [reflexivity | lia].
Qed.

Section MonteCarloRuns.
Context {math : JSMath}.

Variable config : MonteCarloConfig.
Variable originalMetrics : PerformanceMetrics.

Lemma simulate_loop_unfold (n : nat) (closedTrades : list Trade) (g : Random.t)
    (results : list SimulationResult) (ruinCount : nat) :
  simulate_loop config (S n) closedTrades (g, results, ruinCount) =
  simulate_loop config n closedTrades
    (snd (shuffleTrades closedTrades g),
     results ++ [simulateEquityCurve config (fst (shuffleTrades closedTrades g))],
     if SimulationResult.hitRuin
          (simulateEquityCurve config (fst (shuffleTrades closedTrades g)))
     then S ruinCount else ruinCount).
Proof.
  cbn [simulate_loop]. destruct (shuffleTrades closedTrades g) as [shuffled g1].
  reflexivity.
Qed.

(** What a run of the loop of [simulate] leaves: the generator advanced
    by one draw for each swap, one result more for each simulation, each
    the replay of a permutation of the trades, and a count of ruined runs
    that grew by at most the number of simulations. *)
Lemma simulate_loop_spec (closedTrades : list Trade) (n : nat) :
  ∀ (g : Random.t) (results : list SimulationResult) (ruinCount : nat),
    ∃ g' added ruinCount',
      simulate_loop config n closedTrades (g, results, ruinCount) =
        (g', results ++ added, ruinCount') ∧
      Random.draws g' = Random.draws g ∧
      Random.drawn g' = (Random.drawn g + n * (length closedTrades - 1))%nat ∧
      length added = n ∧
      Forall (fun r => ∃ shuffled, shuffled ≡ₚ closedTrades ∧
                                   r = simulateEquityCurve config shuffled) added ∧
      (ruinCount <= ruinCount' <= ruinCount + n)%nat.
Proof.
  induction n as [|n IH]; intros g results ruinCount.
  - exists g, [], ruinCount. cbn [simulate_loop]. rewrite app_nil_r.
    repeat split; try reflexivity; try lia. constructor.
  - rewrite simulate_loop_unfold.
    destruct (shuffle_loop_draws (length closedTrades - 1) closedTrades g) as (Hd & Hn).
    fold (shuffleTrades closedTrades g) in Hd, Hn.
    pose proof (shuffle_loop_Permutation (length closedTrades - 1) closedTrades g) as Hp.
    fold (shuffleTrades closedTrades g) in Hp.
    set (result := simulateEquityCurve config (fst (shuffleTrades closedTrades g))).
    destruct (IH (snd (shuffleTrades closedTrades g)) (results ++ [result])
                (if SimulationResult.hitRuin result then S ruinCount else ruinCount))
      as (g' & added & ruinCount' & Hloop & Hd' & Hn' & Hlen & Hall & Hruin).
    exists g', (result :: added), ruinCount'.
    split; [rewrite Hloop, <- app_assoc; reflexivity | ].
    split; [congruence | ].
    split; [rewrite Hn', Hn; lia | ].
    split; [simpl; lia | ].
    split.
    + constructor; [ | exact Hall]. exists (fst (shuffleTrades closedTrades g)).
      split; [exact Hp | reflexivity].
    + destruct (SimulationResult.hitRuin result); lia.
Qed.

(** X25.  [simulate] draws one random number for each swap of each shuffle: a
    shuffle of [n] closed trades swaps [n - 1] times.  It draws none when
    no trade is closed, and none when one is. *)
Theorem simulate_draws_one_number_per_swap (trades : list Trade) (g : Random.t) :
  Random.draws (snd (simulate config originalMetrics trades g)) = Random.draws g ∧
  Random.drawn (snd (simulate config originalMetrics trades g)) =
    (Random.drawn g +
     MonteCarloConfig.simulations config *
     (length (List.filter is_completed trades) - 1))%nat.
Proof.
  unfold simulate.
  destruct (List.filter is_completed trades) as [|t closedTrades] eqn:Hclosed.
  - simpl. split; [reflexivity | lia].
  - destruct (simulate_loop_spec (t :: closedTrades) (MonteCarloConfig.simulations config)
                g [] 0%nat) as (g' & added & ruinCount' & Hloop & Hd & Hn & _).
    rewrite Hloop. cbn [snd]. split; [exact Hd | exact Hn].
Qed.

(** X26.  The [riskOfRuin] of [simulate] is a percentage, from 0 to 100, when
    the configuration asks for at least one simulation; it is 0 when no
    trade is closed.  With no simulation and a closed trade it is NaN. *)
Theorem simulate_riskOfRuin_is_percentage (trades : list Trade) (g : Random.t) :
  let riskOfRuin := MonteCarloResult.riskOfRuin (fst (simulate config originalMetrics trades g)) in
  (List.filter is_completed trades = [] → riskOfRuin = 0%num) ∧
  ((0 < MonteCarloConfig.simulations config)%nat →
   ∃ q, riskOfRuin = Fin q ∧ (0 <= q)%Q ∧ (q <= 100)%Q) ∧
  (MonteCarloConfig.simulations config = 0%nat →
   List.filter is_completed trades ≠ [] → riskOfRuin = NaN).
Proof.
  unfold simulate.
  destruct (List.filter is_completed trades) as [|t closedTrades] eqn:Hclosed.
  - cbn [fst emptyResult MonteCarloResult.riskOfRuin].
    split; [reflexivity | ]. split; [ | congruence].
    intros _. exists 0%Q. split; [reflexivity | ]. split; lra.
  - destruct (simulate_loop_spec (t :: closedTrades) (MonteCarloConfig.simulations config)
                g [] 0%nat) as (g' & added & ruinCount' & Hloop & _ & _ & _ & _ & Hruin).
    rewrite Hloop. cbn [fst MonteCarloResult.riskOfRuin].
    split; [discriminate | ]. split.
    + intros Hpos. unfold num_of_nat.
      set (n := MonteCarloConfig.simulations config) in *.
      assert (0 < inject_Z (Z.of_nat n))%Q as Hn.
      { change 0%Q with (inject_Z 0). rewrite <- Zlt_Qlt. lia. }
      assert (0 <= inject_Z (Z.of_nat ruinCount'))%Q as Hr0.
      { change 0%Q with (inject_Z 0). rewrite <- Zle_Qle. lia. }
      assert (inject_Z (Z.of_nat ruinCount') <= inject_Z (Z.of_nat n))%Q as Hr1.
      { rewrite <- Zle_Qle. lia. }
      rewrite ndiv_Fin_nonzero by lra.
      exists (inject_Z (Z.of_nat ruinCount') / inject_Z (Z.of_nat n) * 100)%Q.
      split; [reflexivity | ].
      assert (0 <= inject_Z (Z.of_nat ruinCount') / inject_Z (Z.of_nat n))%Q as Hq0.
      { apply Qle_shift_div_l; [exact Hn | lra]. }
      assert (inject_Z (Z.of_nat ruinCount') / inject_Z (Z.of_nat n) <= 1)%Q as Hq1.
      { apply Qle_shift_div_r; [exact Hn | lra]. }
      split; lra.
    + intros Hzero _. rewrite Hzero in Hruin |- *.
      assert (ruinCount' = 0%nat) as -> by lia. reflexivity.
Qed.
End MonteCarloRuns.

Lemma simulate_riskOfRuin_is_percentage_witness :
  ∃ q, MonteCarloResult.riskOfRuin
         (fst (simulate (math := unevaluated) single_simulation getEmptyMetrics
                 [closed_trade 100; closed_trade (-50)] (constant_draws 0))) = Fin q ∧
       (0 <= q)%Q ∧ (q <= 100)%Q.
Proof.
  apply (simulate_riskOfRuin_is_percentage (math := unevaluated) single_simulation
           getEmptyMetrics [closed_trade 100; closed_trade (-50)] (constant_draws 0)).
  vm_compute. lia.
Defined.

(** ** Monte Carlo: the percentiles *)

Lemma getPercentile_index (n : Z) (p q : Q) :
  0 < n → (0 <= p)%Q → (p <= q)%Q →
  0 <= Z.min (Qfloor (inject_Z n * p)) (n - 1) ∧
  Z.min (Qfloor (inject_Z n * p)) (n - 1) <= Z.min (Qfloor (inject_Z n * q)) (n - 1) ∧
  Z.min (Qfloor (inject_Z n * q)) (n - 1) < n.
Proof.
  intros Hn Hp Hpq.
  assert (0 < inject_Z n)%Q as Hn'.
  { change 0%Q with (inject_Z 0). rewrite <- Zlt_Qlt. exact Hn. }
  assert (0 <= Qfloor (inject_Z n * p)) as H0.
  { change 0 with (Qfloor 0). apply Qfloor_resp_le. nra. }
  assert (Qfloor (inject_Z n * p) <= Qfloor (inject_Z n * q)) as H1.
  { apply Qfloor_resp_le. nra. }
  lia.
Qed.

Section MonteCarloPercentiles.
Context {math : JSMath}.

(** The percentile read off the sorted values is a finite number, and a
    higher percentile reads a value that is not lower. *)
Lemma getPercentile_monotone (values : list num) (p q : Q) :
  Forall is_finite values → values ≠ [] → (0 <= p)%Q → (p <= q)%Q →
  (getPercentile (sort_by (fun a b => (a - b)%num) values) p <=?
   getPercentile (sort_by (fun a b => (a - b)%num) values) q)%num = true.
Proof.
  intros Hfin Hne Hp Hpq.
  set (sorted := sort_by (fun a b => (a - b)%num) values).
  pose proof (sort_by_Permutation (fun a b => (a - b)%num) values) as Hperm.
  fold sorted in Hperm.
  assert (Forall is_finite sorted) as Hfin' by (rewrite Hperm; exact Hfin).
  assert (StronglySorted (fun a b => (rational_of a <= rational_of b)%Q) sorted) as Hsorted.
  { apply sort_by_sorted. intros x y Hx Hy.
    rewrite Forall_forall in Hfin.
    pose proof (Hfin x Hx) as Fx. pose proof (Hfin y Hy) as Fy.
    destruct x as [a| | |]; try contradiction. destruct y as [b| | |]; try contradiction.
    cbn [nsub rational_of]. rewrite ngtb_Fin_0. split; intros; lra. }
  assert (0 < Z.of_nat (length sorted)) as Hlen.
  { rewrite Hperm. destruct values; [congruence | simpl; lia]. }
  unfold getPercentile.
  destruct (getPercentile_index (Z.of_nat (length sorted)) p q Hlen Hp Hpq)
    as (Hi0 & Hij & Hjn).
  set (i := Z.min (Qfloor (inject_Z (Z.of_nat (length sorted)) * p))
              (Z.of_nat (length sorted) - 1)) in *.
  set (j := Z.min (Qfloor (inject_Z (Z.of_nat (length sorted)) * q))
              (Z.of_nat (length sorted) - 1)) in *.
  destruct (lookup_lt_is_Some_2 sorted (Z.to_nat i)) as [a Ha]; [lia | ].
  destruct (lookup_lt_is_Some_2 sorted (Z.to_nat j)) as [b Hb]; [lia | ].
  rewrite <- (Z2Nat.id i), <- (Z2Nat.id j) by lia.
  rewrite (at_index_lookup _ _ _ Ha), (at_index_lookup _ _ _ Hb).
  rewrite Forall_forall in Hfin'.
  pose proof (Hfin' a (list_elem_of_lookup_2 _ _ _ Ha)) as Fa.
  pose proof (Hfin' b (list_elem_of_lookup_2 _ _ _ Hb)) as Fb.
  destruct (decide (Z.to_nat i = Z.to_nat j)) as [E|E].
  - rewrite E, Hb in Ha. injection Ha as <-.
    destruct b; try contradiction. apply nleb_Fin. lra.
  - pose proof (StronglySorted_lookup _ sorted (Z.to_nat i) (Z.to_nat j) a b Hsorted
                  ltac:(lia) Ha Hb) as Hab.
    destruct a; try contradiction. destruct b; try contradiction.
    apply nleb_Fin. exact Hab.
Qed.

Variable config : MonteCarloConfig.
Variable originalMetrics : PerformanceMetrics.

Lemma curve_step_invariant (st : curve_state) (trade : Trade) :
  is_finite (pnl_or_0 trade) → curve_invariant st →
  curve_invariant (curve_step config st trade).
Proof.
  intros Hfin (e & p & m & He & Hp & Hp0 & Hm & Hm0). unfold curve_step.
  unfold pnl_or_0 in Hfin.
  destruct (Trade.pnl trade) as [pnl|]; [ | exists e, p, m; auto].
  simpl in Hfin. destruct pnl as [x| | |]; try contradiction.
  rewrite He, Hp, Hm. cbn [nadd].
  assert (∃ p', (if (Fin (e + x) >? Fin p)%num then Fin (e + x) else Fin p) = Fin p' ∧
                (0 < p')%Q) as (p' & -> & Hp').
  { destruct (Fin (e + x) >? Fin p)%num eqn:E.
    - apply ngtb_Fin in E. exists (e + x)%Q. split; [reflexivity | lra].
    - exists p. split; [reflexivity | exact Hp0]. }
  cbn [nsub]. rewrite (ndiv_Fin_nonzero (p' - (e + x)) p') by lra.
  exists (e + x)%Q, p'.
  destruct (Fin ((p' - (e + x)) / p') >? Fin m)%num eqn:E.
  - apply ngtb_Fin in E. exists ((p' - (e + x)) / p')%Q.
    cbn [cs_equity cs_peak cs_maxDrawdown]. repeat split; try reflexivity; lra.
  - exists m. cbn [cs_equity cs_peak cs_maxDrawdown]. repeat split; try reflexivity; lra.
Qed.

Lemma curve_fold_invariant (trades : list Trade) :
  Forall (fun t => is_finite (pnl_or_0 t)) trades →
  ∀ st, curve_invariant st → curve_invariant (fold_left (curve_step config) trades st).
Proof.
  induction 1 as [|t trades Ht _ IH]; intros st Hst; simpl; [exact Hst | ].
  apply IH, curve_step_invariant; assumption.
Qed.

(** A replay of trades of finite profit on a positive capital reports
    finite numbers. *)
Lemma simulateEquityCurve_finite (c : Q) (trades : list Trade) :
  MonteCarloConfig.initialCapital config = Fin c → (0 < c)%Q →
  Forall (fun t => is_finite (pnl_or_0 t)) trades →
  is_finite (SimulationResult.totalReturn (simulateEquityCurve config trades)) ∧
  is_finite (SimulationResult.finalEquity (simulateEquityCurve config trades)) ∧
  is_finite (SimulationResult.maxDrawdown (simulateEquityCurve config trades)).
Proof.
  intros Hc Hpos Hfin. unfold simulateEquityCurve. cbv zeta.
  cbn [SimulationResult.totalReturn SimulationResult.finalEquity SimulationResult.maxDrawdown].
  destruct (curve_fold_invariant trades Hfin
              {| cs_equity := MonteCarloConfig.initialCapital config;
                 cs_peak := MonteCarloConfig.initialCapital config;
                 cs_maxDrawdown := 0; cs_hitRuin := false; cs_returns := [] |})
    as (e & p & m & He & _ & _ & Hm & _).
  { exists c, c, 0%Q. cbn [cs_equity cs_peak cs_maxDrawdown].
    repeat split; try assumption; try reflexivity. lra. }
  rewrite He, Hm, Hc. cbn [nsub]. rewrite (ndiv_Fin_nonzero (e - c) c) by lra.
  simpl. auto.
Qed.

(** X27.  With a positive capital, trades of finite profit and at least one
    simulation, the percentiles [simulate] reports are in order: total
    return and final equity do not fall from [p5] to [p95], the maximum
    drawdown does not rise from [p5] to [p95] (so [p5] holds the worst
    drawdown, [p95] the best), and each low end of the confidence interval
    is at most its high end. *)
Theorem simulate_percentiles_in_order (trades : list Trade) (g : Random.t) (c : Q) :
  MonteCarloConfig.initialCapital config = Fin c → (0 < c)%Q →
  (0 < MonteCarloConfig.simulations config)%nat →
  Forall (fun t => is_finite (pnl_or_0 t)) trades →
  Random.in_range g →
  let r := fst (simulate config originalMetrics trades g) in
  let across (field : MonteCarloPercentile → num) :=
    [field (MonteCarloResult.p5 r); field (MonteCarloResult.p25 r);
     field (MonteCarloResult.p50 r); field (MonteCarloResult.p75 r);
     field (MonteCarloResult.p95 r)] in
  never_falls (across MonteCarloPercentile.totalReturn) = true ∧
  never_falls (across MonteCarloPercentile.finalEquity) = true ∧
  never_falls (rev (across MonteCarloPercentile.maxDrawdown)) = true ∧
  never_falls [MonteCarloResult.returnLow r; MonteCarloResult.returnHigh r] = true ∧
  never_falls [MonteCarloResult.drawdownLow r; MonteCarloResult.drawdownHigh r] = true.
Proof.
  intros Hc Hpos Hsims Hfin _. cbv zeta. unfold simulate.
  destruct (List.filter is_completed trades) as [|t closedTrades] eqn:Hclosed.
  - cbn. rewrite Hc. assert ((Fin c <=? Fin c)%num = true) as ->
      by (apply nleb_Fin; lra).
    repeat split; reflexivity.
  - assert (Forall (fun t => is_finite (pnl_or_0 t)) (t :: closedTrades)) as Hfin'.
    { rewrite <- Hclosed. rewrite Forall_forall in Hfin |- *.
      intros x Hx. apply list_elem_of_In, filter_In in Hx.
      apply Hfin, list_elem_of_In, Hx. }
    destruct (simulate_loop_spec config (t :: closedTrades)
                (MonteCarloConfig.simulations config) g [] 0%nat)
      as (g' & results & ruinCount' & Hloop & _ & _ & Hlen & Hall & _).
    rewrite Hloop. cbn [app fst].
    assert (results ≠ []) as Hne by (destruct results; [simpl in Hlen; lia | discriminate]).
    assert (Forall (fun r => is_finite (SimulationResult.totalReturn r) ∧
                             is_finite (SimulationResult.finalEquity r) ∧
                             is_finite (SimulationResult.maxDrawdown r)) results) as Hres.
    { eapply Forall_impl; [exact Hall | ]. intros r (shuffled & Hperm & ->).
      apply (simulateEquityCurve_finite c); [exact Hc | exact Hpos | ].
      rewrite Hperm. exact Hfin'. }
    assert (∀ field : SimulationResult → num,
              (∀ r, is_finite (SimulationResult.totalReturn r) ∧
                    is_finite (SimulationResult.finalEquity r) ∧
                    is_finite (SimulationResult.maxDrawdown r) → is_finite (field r)) →
              ∀ p q, (0 <= p)%Q → (p <= q)%Q →
                (getPercentile (sort_by (fun a b => (a - b)%num) (map field results)) p <=?
                 getPercentile (sort_by (fun a b => (a - b)%num) (map field results)) q)%num
                = true) as Hmono.
    { intros field Hfield p q Hp Hpq. apply getPercentile_monotone; try assumption.
      - apply Forall_map. eapply Forall_impl; [exact Hres | ]. exact Hfield.
      - destruct results; [congruence | discriminate]. }
    cbn [MonteCarloResult.p5 MonteCarloResult.p25 MonteCarloResult.p50 MonteCarloResult.p75
         MonteCarloResult.p95 MonteCarloResult.returnLow MonteCarloResult.returnHigh
         MonteCarloResult.drawdownLow MonteCarloResult.drawdownHigh
         MonteCarloPercentile.totalReturn MonteCarloPercentile.finalEquity
         MonteCarloPercentile.maxDrawdown rev app never_falls].
    rewrite !(Hmono SimulationResult.totalReturn) by (try tauto; lra).
    rewrite !(Hmono SimulationResult.finalEquity) by (try tauto; lra).
    rewrite !(Hmono SimulationResult.maxDrawdown) by (try tauto; lra).
    repeat split; reflexivity.
Qed.
End MonteCarloPercentiles.

Lemma simulate_percentiles_in_order_witness :
  let r := fst (simulate (math := unevaluated) single_simulation getEmptyMetrics
                  [closed_trade 100; closed_trade (-50)] (constant_draws 0)) in
  never_falls [MonteCarloPercentile.maxDrawdown (MonteCarloResult.p95 r);
               MonteCarloPercentile.maxDrawdown (MonteCarloResult.p75 r);
               MonteCarloPercentile.maxDrawdown (MonteCarloResult.p50 r);
               MonteCarloPercentile.maxDrawdown (MonteCarloResult.p25 r);
               MonteCarloPercentile.maxDrawdown (MonteCarloResult.p5 r)] = true.
Proof.
  refine (proj1 (proj2 (proj2
    (simulate_percentiles_in_order (math := unevaluated) single_simulation getEmptyMetrics
       [closed_trade 100; closed_trade (-50)] (constant_draws 0) 10000
       eq_refl _ _ _ _)))).
  - reflexivity.
  - vm_compute. lia.
  - repeat constructor.
  - intros k. simpl. split; [discriminate | reflexivity].
Defined.

(** ** Grid search: the combinations *)

Lemma nleb_step (lo v st : num) :
  (lo <=? v)%num = true → (0 <=? st)%num = true →
  ((v + st)%num <=? (v + st)%num)%num = true → (lo <=? (v + st)%num)%num = true.
Proof.
  destruct lo as [a| | |], v as [b| | |], st as [s| | |]; simpl; try discriminate;
    try reflexivity; intros H1 H2 H3; try discriminate.
  apply nleb_Fin in H1. apply (nleb_Fin 0 s) in H2. apply nleb_Fin. lra.
Qed.

Lemma nleb_refl_of_le (a b : num) : (a <=? b)%num = true → (a <=? a)%num = true.
Proof.
  destruct a as [x| | |].
  - intros _. apply nleb_Fin. lra.
  - reflexivity.
  - reflexivity.
  - destruct b; discriminate.
Qed.

Lemma for_values_guard (fuel : nat) (v hi st : num) (x : num) (values : list num) :
  for_values fuel v hi st = Some values → x ∈ values → (v <=? hi)%num = true.
Proof.
  intros Hv Hx. destruct fuel; simpl in Hv; destruct (v <=? hi)%num;
    try reflexivity; try discriminate; injection Hv as <-; inversion Hx.
Qed.

(** The values of the loop of a range are not above its [max]; with a
    step that is not negative they are not below the start. *)
Lemma for_values_bounds (lo hi st : num) (fuel : nat) :
  ∀ (v : num) (values : list num),
    for_values fuel v hi st = Some values →
    Forall (fun x => (x <=? hi)%num = true ∧
                     ((lo <=? v)%num = true → (0 <=? st)%num = true →
                      (lo <=? x)%num = true)) values.
Proof.
  induction fuel as [|fuel IH]; intros v values; simpl.
  - destruct (v <=? hi)%num; [discriminate | ]. intros [= <-]. constructor.
  - destruct (v <=? hi)%num eqn:E; [ | intros [= <-]; constructor].
    destruct (for_values fuel (v + st)%num hi st) as [rest|] eqn:Hrest; [ | discriminate].
    simpl. intros [= <-]. constructor.
    + split; [exact E | auto].
    + specialize (IH _ _ Hrest). rewrite Forall_forall in IH |- *.
      intros x Hx. destruct (IH x Hx) as (Hhi & Hlo). split; [exact Hhi | ].
      intros Hv Hst. apply Hlo; [ | exact Hst].
      pose proof (for_values_guard _ _ _ _ _ _ Hrest Hx) as Hguard.
      apply nleb_step; [exact Hv | exact Hst | ].
      exact (nleb_refl_of_le _ _ Hguard).
Qed.

Lemma generateRecursive_entries (baseParams : StrategyParams)
    (ranges : list (string * OptimizationRange)) :
  ∀ (fuel : nat) (current : StrategyParams) (combinations : list StrategyParams),
    generateRecursive fuel baseParams ranges current = Some combinations →
    ∀ (params : StrategyParams) (key : string),
      params ∈ combinations →
      (key ∉ (fst <$> ranges) → params !! key = (current ∪ baseParams) !! key) ∧
      (key ∈ (fst <$> ranges) →
       ∃ range value,
         (key, range) ∈ ranges ∧
         (value <=? OptimizationRange.max range)%num = true ∧
         ((0 <=? OptimizationRange.step range)%num = true →
          (OptimizationRange.min range <=? value)%num = true) ∧
         params !! key = Some (PNum (Math_round (value * Fin 1000) / Fin 1000)%num)).
Proof.
  induction ranges as [|[key0 range0] rest IH];
    intros fuel current combinations Hgen params key Hin.
  - simpl in Hgen. injection Hgen as <-. apply list_elem_of_singleton in Hin as ->.
    split; [reflexivity | ]. intros Hk. inversion Hk.
  - cbn [generateRecursive] in Hgen.
    destruct (for_values fuel (OptimizationRange.min range0) (OptimizationRange.max range0)
                (OptimizationRange.step range0)) as [values|] eqn:Hvalues;
      [ | discriminate].
    cbn [mbind option_bind] in Hgen.
    destruct (mapM _ values) as [pushed|] eqn:Hpushed; [ | discriminate].
    cbn [fmap option_fmap option_map] in Hgen. injection Hgen as <-.
    apply mapM_Some_1 in Hpushed.
    apply list_elem_of_In, in_concat in Hin. destruct Hin as (l & Hl & Hparams).
    apply list_elem_of_In in Hl, Hparams.
    destruct (proj1 (list_elem_of_lookup _ _) Hl) as (i & Hi).
    destruct (Forall2_lookup_r _ _ _ _ _ Hpushed Hi) as (value & Hvalue & Hrec).
    pose proof (for_values_bounds (OptimizationRange.min range0) _ _ _ _ _ Hvalues)
      as Hbounds.
    rewrite Forall_forall in Hbounds.
    destruct (Hbounds value (list_elem_of_lookup_2 _ _ _ Hvalue)) as (Hhi & Hlo).
    destruct (IH fuel _ l Hrec params key Hparams) as (Hout & Hinside).
    cbn [fmap list_fmap fst].
    destruct (decide (key ∈ (fst <$> rest))) as [Hrest|Hrest].
    + split; [intros Hno; exfalso; apply Hno; right; exact Hrest | ].
      intros _. destruct (Hinside Hrest) as (range & v & Hr & Hv1 & Hv2 & Hv3).
      exists range, v. split; [right; exact Hr | auto].
    + specialize (Hout Hrest). split.
      * intros Hno. rewrite Hout.
        assert (key ≠ key0) as Hne by (intros ->; apply Hno; left).
        rewrite !lookup_union, lookup_insert_ne by congruence. reflexivity.
      * intros Hk. apply elem_of_cons in Hk as [-> | Hk]; [ | contradiction].
        exists range0, value. split; [left | ]. split; [exact Hhi | ].
        split.
        { intros Hst. apply Hlo; [ | exact Hst].
          apply (nleb_refl_of_le _ (OptimizationRange.max range0)).
          exact (for_values_guard _ _ _ _ _ _ Hvalues
                   (list_elem_of_lookup_2 _ _ _ Hvalue)). }
        rewrite Hout, lookup_union, lookup_insert_eq. 
        destruct (baseParams !! key0); reflexivity.
Qed.

(** X24.  Every combination the grid search tries keeps the base parameters
    that have no range, and holds for each parameter with a range the
    rounding, to three decimals, of a value the loop of that range ran
    through: a value not above the range's [max], and not below its [min]
    when the step is not negative. *)
Theorem generateCombinations_stay_in_ranges (optimizationConfig : OptimizationConfig)
    (fuel : nat) (baseParams : StrategyParams) (combinations : list StrategyParams)
    (params : StrategyParams) (key : string) :
  generateCombinations optimizationConfig fuel baseParams = Some combinations →
  params ∈ combinations →
  let paramRanges := OptimizationConfig.paramRanges optimizationConfig in
  (key ∉ (fst <$> paramRanges) → params !! key = baseParams !! key) ∧
  (key ∈ (fst <$> paramRanges) →
   ∃ range value,
     (key, range) ∈ paramRanges ∧
     (value <=? OptimizationRange.max range)%num = true ∧
     ((0 <=? OptimizationRange.step range)%num = true →
      (OptimizationRange.min range <=? value)%num = true) ∧
     params !! key = Some (PNum (Math_round (value * Fin 1000) / Fin 1000)%num)).
Proof.
  intros Hgen Hin paramRanges. unfold generateCombinations in Hgen.
  destruct (generateRecursive_entries baseParams paramRanges fuel ∅ combinations Hgen
              params key Hin) as (Hout & Hinside).
  split; [ | exact Hinside].
  intros Hno. rewrite (Hout Hno), (left_id_L ∅ (∪)). reflexivity.
Qed.

Lemma generateCombinations_stay_in_ranges_witness :
  ∃ combinations params,
    generateCombinations example_grid 5 ∅ = Some combinations ∧
    params ∈ combinations ∧
    params !! "name"%string = None.
Proof.
  destruct (generateRecursive_count ∅ (OptimizationConfig.paramRanges example_grid) 5 ∅)
    as (combinations & Hgen & Hlen).
  { repeat constructor; simpl.
    - exists 5%Q, 20%Q, 5%Q. repeat split; lra.
    - exists 1%Q, 2%Q, (1 # 2)%Q. repeat split; lra. }
  { repeat constructor; vm_compute; lia. }
  destruct combinations as [|params rest]; [vm_compute in Hlen; discriminate | ].
  exists (params :: rest), params. split; [exact Hgen | ].
  assert (params ∈ params :: rest) as Hin by left.
  split; [exact Hin | ].
  pose proof (generateCombinations_stay_in_ranges example_grid 5 ∅ (params :: rest)
                params "name"%string Hgen Hin) as Hkeys.
  cbv zeta in Hkeys. destruct Hkeys as (Hkeep & _).
  rewrite Hkeep; [apply lookup_empty | ].
  cbn [example_grid OptimizationConfig.paramRanges fmap list_fmap fst].
  intros H. repeat (apply elem_of_cons in H as [H|H]; [discriminate | ]).
  inversion H.
Defined.

(** ** Walk-forward: the shape of a window *)

Lemma timestamp_at_Some (candles : list Candle) (k : Z) (t : num) :
  timestamp_at candles k = Some t → 0 <= k < Z.of_nat (length candles).
Proof.
  unfold timestamp_at. destruct (k <? 0) eqn:E; [discriminate | ].
  apply Z.ltb_ge in E. intros H.
  destruct (candles !! Z.to_nat k) as [c|] eqn:Hc; [ | discriminate].
  apply lookup_lt_Some in Hc. lia.
Qed.

Lemma make_window_shape (candles : list Candle) (a b c d : Z) (w : WalkForwardWindow) :
  make_window candles a b c d = Some w → c = b + 1 → c <= d → window_shape candles w.
Proof.
  unfold make_window, window_shape. intros Hw Hc Hd.
  destruct (timestamp_at candles a) as [t1|] eqn:H1; [ | discriminate].
  destruct (timestamp_at candles b) as [t2|] eqn:H2; [ | discriminate].
  destruct (timestamp_at candles c) as [t3|] eqn:H3; [ | discriminate].
  destruct (timestamp_at candles d) as [t4|] eqn:H4; [ | discriminate].
  simpl in Hw. injection Hw as <-. simpl. auto 10.
Qed.

Lemma rolling_loop_shape (candles : list Candle) (windowSize trainSize testSize : Z)
    (n : nat) :
  ∀ ws,
    fold_left (rolling_step candles windowSize trainSize testSize) (seq 0 n) (Some []) =
      Some ws →
    Forall (window_shape candles) ws ∧ (length ws <= n)%nat.
Proof.
  induction n as [|n IH]; intros ws Hws.
  - simpl in Hws. injection Hws as <-. split; [constructor | simpl; lia].
  - rewrite seq_S, fold_left_app in Hws. simpl in Hws.
    destruct (fold_left _ (seq 0 n) (Some [])) as [ws0|]; [ | discriminate].
    destruct (IH ws0 eq_refl) as (Hshape & Hlen).
    unfold rolling_step in Hws. simpl in Hws.
    match type of Hws with
    | (if ?c then _ else _) = _ => destruct c eqn:Hskip
    end.
    { injection Hws as <-. split; [exact Hshape | lia]. }
    match type of Hws with
    | context [make_window ?cs ?a ?b ?c' ?d] =>
        destruct (make_window cs a b c' d) as [w|] eqn:Hw; [ | discriminate]
    end.
    simpl in Hws. injection Hws as <-.
    apply Z.leb_gt in Hskip.
    split; [ | rewrite length_app; simpl; lia].
    apply Forall_app. split; [exact Hshape | ]. constructor; [ | constructor].
    eapply make_window_shape; [exact Hw | reflexivity | lia].
Qed.

Lemma anchored_loop_shape (candles : list Candle) (testSize : Z) (trainRatio : Q)
    (numWindows : Q) (n : nat) :
  ∀ ws,
    fold_left (anchored_step candles testSize trainRatio numWindows) (seq 0 n) (Some []) =
      Some ws →
    Forall (window_shape candles) ws ∧ (length ws <= n)%nat.
Proof.
  induction n as [|n IH]; intros ws Hws.
  - simpl in Hws. injection Hws as <-. split; [constructor | simpl; lia].
  - rewrite seq_S, fold_left_app in Hws. simpl in Hws.
    destruct (fold_left _ (seq 0 n) (Some [])) as [ws0|]; [ | discriminate].
    destruct (IH ws0 eq_refl) as (Hshape & Hlen).
    unfold anchored_step in Hws. simpl in Hws.
    match type of Hws with
    | (if ?c then _ else _) = _ => destruct c eqn:Hskip
    end.
    { injection Hws as <-. split; [exact Hshape | lia]. }
    match type of Hws with
    | context [make_window ?cs ?a ?b ?c' ?d] =>
        destruct (make_window cs a b c' d) as [w|] eqn:Hw; [ | discriminate]
    end.
    simpl in Hws. injection Hws as <-.
    apply Z.leb_gt in Hskip.
    split; [ | rewrite length_app; simpl; lia].
    apply Forall_app. split; [exact Hshape | ]. constructor; [ | constructor].
    eapply make_window_shape; [exact Hw | reflexivity | lia].
Qed.

Lemma generateWindows_shape (candles : list Candle) (cfg : WalkForwardConfig)
    (ws : list WalkForwardWindow) :
  generateWindows candles cfg = Some ws →
  Forall (window_shape candles) ws ∧
  (length ws <= Z.to_nat (Qceiling (WalkForwardConfig.numWindows cfg)))%nat.
Proof.
  unfold generateWindows. intros Hws.
  destruct (WalkForwardConfig.windowType cfg).
  - exact (rolling_loop_shape _ _ _ _ _ ws Hws).
  - exact (anchored_loop_shape _ _ _ _ _ ws Hws).
Qed.

(** X28.  Of the windows [generateWindows] returns, under either policy: there
    is at most one for each integer from 0 that is below [numWindows]
    (at most [numWindows] when that is an integer, one more when it has a
    fraction); the four indices of each lie inside the candle array and
    its four timestamps are those of the candles there; the test range
    begins at the index after the end of the train range and holds at
    least one candle, so no candle of a window is both trained and tested
    on. *)
Theorem generateWindows_test_follows_train (candles : list Candle)
    (cfg : WalkForwardConfig) (ws : list WalkForwardWindow) :
  generateWindows candles cfg = Some ws →
  (length ws <= Z.to_nat (Qceiling (WalkForwardConfig.numWindows cfg)))%nat ∧
  (∀ n : Z, (WalkForwardConfig.numWindows cfg == inject_Z n)%Q →
            (length ws <= Z.to_nat n)%nat) ∧
  ∀ w, w ∈ ws →
    window_shape candles w ∧
    Forall (fun k => 0 <= k < Z.of_nat (length candles))
      [IndexRange.start (WalkForwardWindow.trainIndex w);
       IndexRange.end_ (WalkForwardWindow.trainIndex w);
       IndexRange.start (WalkForwardWindow.testIndex w);
       IndexRange.end_ (WalkForwardWindow.testIndex w)] ∧
    ∀ k, ¬ (IndexRange.start (WalkForwardWindow.trainIndex w) <= k <=
              IndexRange.end_ (WalkForwardWindow.trainIndex w) ∧
            IndexRange.start (WalkForwardWindow.testIndex w) <= k <=
              IndexRange.end_ (WalkForwardWindow.testIndex w)).
Proof.
  intros Hws. destruct (generateWindows_shape candles cfg ws Hws) as (Hshape & Hlen).
  split; [exact Hlen | ]. split.
  { intros n Hn. rewrite Hn, Qceiling_Z in Hlen. exact Hlen. }
  intros w Hw.
  rewrite Forall_forall in Hshape. pose proof (Hshape w Hw) as Hs.
  split; [exact Hs | ].
  destruct Hs as (H1 & H2 & H3 & H4 & Hnext & Hne).
  split.
  - repeat constructor; eapply timestamp_at_Some; eassumption.
  - intros k. lia.
Qed.

Lemma generateWindows_test_follows_train_witness :
  ∃ ws, generateWindows twelve_candles fractional_windows = Some ws ∧
        length ws = 3%nat ∧
        (length ws <= Z.to_nat (Qceiling (5 # 2)))%nat ∧
        ∀ w, w ∈ ws → window_shape twelve_candles w.
Proof.
  destruct (generateWindows twelve_candles fractional_windows) as [ws|] eqn:Hws;
    [ | vm_compute in Hws; discriminate].
  exists ws. split; [reflexivity | ].
  destruct (generateWindows_test_follows_train twelve_candles fractional_windows ws Hws)
    as (Hlen & _ & Hall).
  split; [vm_compute in Hws; injection Hws as <-; reflexivity | ].
  split; [exact Hlen | ]. intros w Hw. exact (proj1 (Hall w Hw)).
Defined.

(** ** Walk-forward: the analysis *)

Lemma calculateMetrics_wins_le_total {math : JSMath} (trades : list Trade) (equityCurve : list EquityPoint)
    (initialCapital startDate endDate : num) :
  (PerformanceMetrics.winningTrades
     (calculateMetrics trades equityCurve initialCapital startDate endDate) <=
   PerformanceMetrics.totalTrades
     (calculateMetrics trades equityCurve initialCapital startDate endDate))%nat.
Proof.
  destruct (List.filter is_completed trades) as [|t ts] eqn:E.
  - unfold calculateMetrics. rewrite E. simpl. lia.
  - assert (List.filter is_completed trades ≠ []) as Hne by (rewrite E; discriminate).
    destruct (calculateMetrics_counts trades equityCurve initialCapital startDate endDate Hne)
      as (Hw & _).
    rewrite Hw, calculateMetrics_totalTrades. apply filter_length_le.
Qed.

Lemma run_wins_le_total {math : JSMath} (candles : list Candle) (strat : Strategy)
    (e : BacktestEngine) (r : BacktestResult) (e' : BacktestEngine) (strat' : Strategy) :
  run candles strat e = Some (r, e', strat') →
  (PerformanceMetrics.winningTrades (BacktestResult.metrics r) <=
   PerformanceMetrics.totalTrades (BacktestResult.metrics r))%nat.
Proof.
  unfold run. destruct candles as [|first rest]; [discriminate | ].
  destruct (last_opt (first :: rest)) as [lastCandle|]; [ | discriminate].
  destruct (run_loop strat _ _ _) as [e1 s1].
  intros Hrun. injection Hrun as <- _ _. cbn [BacktestResult.metrics].
  apply calculateMetrics_wins_le_total.
Qed.

(** The robustness score of an average degradation: NaN for NaN, and
    otherwise a number from 0 to 100. *)
Lemma robustnessScore_range (averageDegradation : num) :
  (averageDegradation = NaN →
   Math_max 0 (Math_min 100 (100 - averageDegradation)%num) = NaN) ∧
  (averageDegradation ≠ NaN →
   ∃ q, Math_max 0 (Math_min 100 (100 - averageDegradation)%num) = Fin q ∧
        (0 <= q)%Q ∧ (q <= 100)%Q).
Proof.
  destruct averageDegradation as [a| | |].
  - split; [discriminate | ]. intros _. cbn [nsub].
    destruct (Math_min_Fin 100 (100 - a)) as [(-> & H1) | (-> & H1)].
    + destruct (Math_max_Fin 0 (100 - a)) as [(-> & H2) | (-> & H2)].
      * exists (100 - a)%Q. split; [reflexivity | lra].
      * exists 0%Q. split; [reflexivity | lra].
    + destruct (Math_max_Fin 0 100) as [(-> & H2) | (-> & H2)].
      * exists 100%Q. split; [reflexivity | lra].
      * lra.
  - split; [discriminate | ]. intros _. exists 0%Q. split; [reflexivity | lra].
  - split; [discriminate | ]. intros _. exists 100%Q. split; [reflexivity | lra].
  - split; [reflexivity | congruence].
Qed.

Lemma aggregate_counts (results : list WalkForwardWindowResult) :
  Forall (fun r =>
            (PerformanceMetrics.winningTrades (WalkForwardWindowResult.outOfSampleMetrics r) <=
             PerformanceMetrics.totalTrades (WalkForwardWindowResult.outOfSampleMetrics r))%nat)
    results →
  ∀ wins total : nat,
    (wins <= total)%nat →
    (fold_left (fun sum r =>
                  (sum + PerformanceMetrics.winningTrades
                           (WalkForwardWindowResult.outOfSampleMetrics r))%nat) results wins <=
     fold_left (fun sum r =>
                  (sum + PerformanceMetrics.totalTrades
                           (WalkForwardWindowResult.outOfSampleMetrics r))%nat) results total)%nat.
Proof.
  induction 1 as [|r results Hr _ IH]; intros wins total Hle; simpl; [exact Hle | ].
  apply IH. lia.
Qed.

Lemma aggregateResults_winRate (results : list WalkForwardWindowResult) :
  Forall (fun r =>
            (PerformanceMetrics.winningTrades (WalkForwardWindowResult.outOfSampleMetrics r) <=
             PerformanceMetrics.totalTrades (WalkForwardWindowResult.outOfSampleMetrics r))%nat)
    results →
  ∃ q, AggregatedOutOfSample.winRate (aggregateResults results) = Fin q ∧
       (0 <= q)%Q ∧ (q <= 100)%Q.
Proof.
  intros Hall. unfold aggregateResults.
  destruct results as [|r0 rest] eqn:E.
  - exists 0%Q. split; [reflexivity | lra].
  - rewrite <- E in *. clear E. cbv zeta. cbn [AggregatedOutOfSample.winRate].
    pose proof (aggregate_counts results Hall 0%nat 0%nat (le_n 0)) as Hle.
    set (wins := fold_left (fun sum r =>
                   (sum + PerformanceMetrics.winningTrades
                            (WalkForwardWindowResult.outOfSampleMetrics r))%nat)
                  results 0%nat) in *.
    set (total := fold_left (fun sum r =>
                    (sum + PerformanceMetrics.totalTrades
                             (WalkForwardWindowResult.outOfSampleMetrics r))%nat)
                   results 0%nat) in *.
    destruct (0 <? total)%nat eqn:Hpos.
    + apply Nat.ltb_lt in Hpos. unfold num_of_nat.
      assert (0 < inject_Z (Z.of_nat total))%Q as Hn.
      { change 0%Q with (inject_Z 0). rewrite <- Zlt_Qlt. lia. }
      assert (0 <= inject_Z (Z.of_nat wins))%Q as Hw0.
      { change 0%Q with (inject_Z 0). rewrite <- Zle_Qle. lia. }
      assert (inject_Z (Z.of_nat wins) <= inject_Z (Z.of_nat total))%Q as Hw1.
      { rewrite <- Zle_Qle. lia. }
      rewrite ndiv_Fin_nonzero by lra.
      exists (inject_Z (Z.of_nat wins) / inject_Z (Z.of_nat total) * 100)%Q.
      split; [reflexivity | ].
      assert (0 <= inject_Z (Z.of_nat wins) / inject_Z (Z.of_nat total))%Q as Hq0.
      { apply Qle_shift_div_l; [exact Hn | lra]. }
      assert (inject_Z (Z.of_nat wins) / inject_Z (Z.of_nat total) <= 1)%Q as Hq1.
      { apply Qle_shift_div_r; [exact Hn | lra]. }
      split; lra.
    + exists 0%Q. split; [reflexivity | lra].
Qed.

Section WalkForwardAnalysis.
Context {math : JSMath}.

Variable candles : list Candle.
Variable backtestConfig : BacktestConfig.
Variable walkForwardConfig : WalkForwardConfig.
Variable strategyFactory : StrategyParams → Strategy.

(** What [analyze] records for a window: the parameters the grid search
    found best on the train candles, and the metrics of a backtest of the
    strategy with those parameters, on a new engine, over the test
    candles. *)
Lemma analyze_window_spec (fuel : nat) (baseParams : StrategyParams)
    (window : WalkForwardWindow) (wr : WalkForwardWindowResult) :
  analyze_window candles backtestConfig walkForwardConfig fuel strategyFactory baseParams
    window = Some wr →
  WalkForwardWindowResult.window wr = window ∧
  (∃ optimResult,
     optimize
       (slice candles (IndexRange.start (WalkForwardWindow.trainIndex window))
          (IndexRange.end_ (WalkForwardWindow.trainIndex window) + 1))
       backtestConfig (WalkForwardConfig.optimizationConfig walkForwardConfig) fuel
       strategyFactory baseParams = Some optimResult ∧
     WalkForwardWindowResult.optimizedParams wr =
       OptimizationResult.bestParams optimResult) ∧
  ∃ outOfSampleResult engine strategy,
    runBacktest
      (slice candles (IndexRange.start (WalkForwardWindow.testIndex window))
         (IndexRange.end_ (WalkForwardWindow.testIndex window) + 1))
      (strategyFactory (WalkForwardWindowResult.optimizedParams wr)) backtestConfig =
      Some (outOfSampleResult, engine, strategy) ∧
    WalkForwardWindowResult.outOfSampleMetrics wr =
      BacktestResult.metrics outOfSampleResult.
Proof.
  unfold analyze_window. cbv zeta.
  destruct (optimize _ backtestConfig _ fuel strategyFactory baseParams)
    as [optimResult|] eqn:Hopt; [ | discriminate].
  cbn [mbind option_bind].
  destruct (run _ (strategyFactory (OptimizationResult.bestParams optimResult))
              (new_BacktestEngine backtestConfig)) as [[[res e] s]|] eqn:Hrun;
    [ | discriminate].
  intros Hwr. injection Hwr as <-. cbn.
  split; [reflexivity | ].
  split; [exists optimResult; split; reflexivity | ].
  exists res, e, s. split; [exact Hrun | reflexivity].
Qed.

Lemma analyze_unfold (fuel : nat) (baseParams : StrategyParams) (r : WalkForwardResult) :
  analyze candles backtestConfig walkForwardConfig fuel strategyFactory baseParams = Some r →
  ∃ windows,
    generateWindows candles walkForwardConfig = Some windows ∧
    Forall2 (fun window wr =>
               analyze_window candles backtestConfig walkForwardConfig fuel strategyFactory
                 baseParams window = Some wr)
      windows (WalkForwardResult.windows r) ∧
    WalkForwardResult.aggregatedOutOfSample r = aggregateResults (WalkForwardResult.windows r) ∧
    WalkForwardResult.averageDegradation r =
      (fold_left (fun sum wr => (sum + WalkForwardWindowResult.degradation wr)%num)
         (WalkForwardResult.windows r) 0 /
       num_of_nat (length (WalkForwardResult.windows r)))%num ∧
    WalkForwardResult.robustnessScore r =
      Math_max 0 (Math_min 100 (100 - WalkForwardResult.averageDegradation r)%num).
Proof.
  unfold analyze.
  destruct (generateWindows candles walkForwardConfig) as [windows|]; [ | discriminate].
  cbn [mbind option_bind].
  destruct (mapM _ windows) as [results|] eqn:Hresults; [ | discriminate].
  intros Hr. injection Hr as <-. apply mapM_Some_1 in Hresults.
  exists windows. cbn. auto.
Qed.

(** X29.  [analyze] records one result for each window of [generateWindows],
    in their order.  With no window the average degradation and the
    robustness score are NaN and the aggregate is all zero.  The
    robustness score is NaN exactly when the average degradation is;
    otherwise it is a number from 0 to 100. *)
Theorem analyze_robustnessScore_range (fuel : nat) (baseParams : StrategyParams)
    (r : WalkForwardResult) :
  analyze candles backtestConfig walkForwardConfig fuel strategyFactory baseParams = Some r →
  generateWindows candles walkForwardConfig =
    Some (WalkForwardWindowResult.window <$> WalkForwardResult.windows r) ∧
  (WalkForwardResult.windows r = [] →
   WalkForwardResult.averageDegradation r = NaN ∧
   WalkForwardResult.robustnessScore r = NaN ∧
   WalkForwardResult.aggregatedOutOfSample r = aggregateResults []) ∧
  (WalkForwardResult.averageDegradation r = NaN →
   WalkForwardResult.robustnessScore r = NaN) ∧
  (WalkForwardResult.averageDegradation r ≠ NaN →
   ∃ q, WalkForwardResult.robustnessScore r = Fin q ∧ (0 <= q)%Q ∧ (q <= 100)%Q).
Proof.
  intros Hr. destruct (analyze_unfold fuel baseParams r Hr)
    as (windows & Hgen & Hall & Hagg & Havg & Hscore).
  split.
  - rewrite Hgen. f_equal.
    clear - Hall. induction Hall as [|w wr ws wrs Hw _ IH]; [reflexivity | ].
    cbn [fmap list_fmap]. fold (fmap WalkForwardWindowResult.window wrs). rewrite <- IH.
    f_equal. symmetry. exact (proj1 (analyze_window_spec _ _ _ _ Hw)).
  - rewrite Hscore.
    destruct (robustnessScore_range (WalkForwardResult.averageDegradation r)) as (Hnan & Hnum).
    split; [ | split; [exact Hnan | exact Hnum]].
    intros Hnone. rewrite Hagg, Hnone.
    assert (WalkForwardResult.averageDegradation r = NaN) as Hnone'.
    { rewrite Havg, Hnone. reflexivity. }
    split; [exact Hnone' | ]. split; [exact (Hnan Hnone') | reflexivity].
Qed.

(** X30.  Every window result of [analyze] holds the parameters the grid
    search found best on the window's train candles and the metrics of a
    backtest of the strategy with those parameters, on a new engine, over
    the window's test candles; and the aggregated out-of-sample win rate
    is a percentage, from 0 to 100. *)
Theorem analyze_tests_the_optimized_strategy (fuel : nat) (baseParams : StrategyParams)
    (r : WalkForwardResult) :
  analyze candles backtestConfig walkForwardConfig fuel strategyFactory baseParams = Some r →
  (∀ wr, wr ∈ WalkForwardResult.windows r →
     let train := WalkForwardWindow.trainIndex (WalkForwardWindowResult.window wr) in
     let test := WalkForwardWindow.testIndex (WalkForwardWindowResult.window wr) in
     (∃ optimResult,
        optimize (slice candles (IndexRange.start train) (IndexRange.end_ train + 1))
          backtestConfig (WalkForwardConfig.optimizationConfig walkForwardConfig) fuel
          strategyFactory baseParams = Some optimResult ∧
        WalkForwardWindowResult.optimizedParams wr =
          OptimizationResult.bestParams optimResult) ∧
     ∃ outOfSampleResult engine strategy,
       runBacktest (slice candles (IndexRange.start test) (IndexRange.end_ test + 1))
         (strategyFactory (WalkForwardWindowResult.optimizedParams wr)) backtestConfig =
         Some (outOfSampleResult, engine, strategy) ∧
       WalkForwardWindowResult.outOfSampleMetrics wr =
         BacktestResult.metrics outOfSampleResult) ∧
  ∃ q, AggregatedOutOfSample.winRate (WalkForwardResult.aggregatedOutOfSample r) = Fin q ∧
       (0 <= q)%Q ∧ (q <= 100)%Q.
Proof.
  intros Hr. destruct (analyze_unfold fuel baseParams r Hr)
    as (windows & Hgen & Hall & Hagg & _).
  assert (∀ wr, wr ∈ WalkForwardResult.windows r →
            ∃ window, analyze_window candles backtestConfig walkForwardConfig fuel
                        strategyFactory baseParams window = Some wr) as Hsrc.
  { intros wr Hwr. apply list_elem_of_lookup in Hwr as (i & Hi).
    destruct (Forall2_lookup_r _ _ _ _ _ Hall Hi) as (window & _ & Hw). eauto. }
  split.
  - intros wr Hwr. destruct (Hsrc wr Hwr) as (window & Hw).
    destruct (analyze_window_spec fuel baseParams window wr Hw) as (-> & Hopt & Hrun).
    cbv zeta. split; [exact Hopt | exact Hrun].
  - rewrite Hagg. apply aggregateResults_winRate.
    rewrite Forall_forall. intros wr Hwr. destruct (Hsrc wr Hwr) as (window & Hw).
    destruct (analyze_window_spec fuel baseParams window wr Hw)
      as (_ & _ & res & e & s & Hrun & ->).
    exact (run_wins_le_total _ _ _ _ _ _ Hrun).
Qed.
End WalkForwardAnalysis.

Lemma analyze_robustnessScore_range_witness :
  ∃ r, analyze (math := unevaluated) ten_candles DEFAULT_BACKTEST_CONFIG (two_windows rolling)
         5 (fun _ => always_buy) ∅ = Some r ∧
       generateWindows ten_candles (two_windows rolling) =
         Some (WalkForwardWindowResult.window <$> WalkForwardResult.windows r).
Proof.
  destruct (analyze (math := unevaluated) ten_candles DEFAULT_BACKTEST_CONFIG
              (two_windows rolling) 5 (fun _ => always_buy) ∅) as [r|] eqn:Hr;
    [ | vm_compute in Hr; discriminate].
  exists r. split; [reflexivity | ].
  exact (proj1 (analyze_robustnessScore_range (math := unevaluated) ten_candles
                  DEFAULT_BACKTEST_CONFIG (two_windows rolling) (fun _ => always_buy)
                  5 ∅ r Hr)).
Defined.

Lemma analyze_tests_the_optimized_strategy_witness :
  ∃ r q, analyze (math := unevaluated) ten_candles DEFAULT_BACKTEST_CONFIG
           (two_windows rolling) 5 (fun _ => always_buy) ∅ = Some r ∧
         AggregatedOutOfSample.winRate (WalkForwardResult.aggregatedOutOfSample r) = Fin q ∧
         (0 <= q)%Q ∧ (q <= 100)%Q.
Proof.
  destruct (analyze (math := unevaluated) ten_candles DEFAULT_BACKTEST_CONFIG
              (two_windows rolling) 5 (fun _ => always_buy) ∅) as [r|] eqn:Hr;
    [ | vm_compute in Hr; discriminate].
  destruct (proj2 (analyze_tests_the_optimized_strategy (math := unevaluated) ten_candles
                     DEFAULT_BACKTEST_CONFIG (two_windows rolling) (fun _ => always_buy)
                     5 ∅ r Hr)) as (q & Hq & Hq0 & Hq1).
  exists r, q. split; [reflexivity | ]. split; [exact Hq | ]. split; [exact Hq0 | exact Hq1].
Defined.

(** ** Monte Carlo: one simulation against the backtest it replays *)

Section SingleSimulation.
Context {math : JSMath}.

Lemma calculateMetrics_totalReturnPercent (trades : list Trade)
    (equityCurve : list EquityPoint) (initialCapital startDate endDate : num) :
  List.filter is_completed trades ≠ [] →
  PerformanceMetrics.totalReturnPercent
    (calculateMetrics trades equityCurve initialCapital startDate endDate) =
  ((match last_opt equityCurve with
    | Some p => EquityPoint.equity p
    | None => initialCapital
    end - initialCapital) / initialCapital * 100)%num.
Proof.
  intros Hne. unfold calculateMetrics.
  destruct (List.filter is_completed trades) as [|t ts] eqn:E; [congruence | ].
  destruct (calculateConsecutive (t :: ts)) as [cw cl].
  destruct (calculateDrawdown equityCurve initialCapital) as [dd ddp].
  reflexivity.
Qed.

Lemma closed_all_completed (trades : list Trade) :
  Forall closed trades → List.filter is_completed trades = trades.
Proof.
  induction 1 as [|t ts (Ht & _) _ IH]; [reflexivity | ].
  simpl. unfold is_completed at 1. destruct Ht as (x & ->). rewrite IH. reflexivity.
Qed.

(** The return in percent a backtest reports is the profit of its trades
    on the initial capital, when the last candle leaves no position open:
    nothing is then closed after the last point of the equity curve. *)
Lemma run_flat_totalReturnPercent (candles : list Candle) (strat : Strategy)
    (e : BacktestEngine) (r : BacktestResult) (e' : BacktestEngine) (strat' : Strategy) :
  run candles strat e = Some (r, e', strat') →
  is_finite (BacktestConfig.initialCapital (Engine.config e)) →
  Engine.position
    (fst (run_loop strat (length candles) (reset candles e)
            (Strategy.init strat candles (Engine.config e) (Strategy.self strat)))) = None →
  BacktestResult.trades r ≠ [] →
  Forall closed (BacktestResult.trades r) ∧
  num_eq (PerformanceMetrics.totalReturnPercent (BacktestResult.metrics r))
    (sum_pnl (BacktestResult.trades r) /
     BacktestConfig.initialCapital (Engine.config e) * 100).
Proof.
  intros Hrun Hfin Hflat Htrades.
  destruct (run_realized candles strat e r e' strat' Hrun Hfin) as (_ & Hsum).
  destruct (run_numbered candles strat e r e' strat' Hrun) as (Ht & (Hc & _) & _).
  rewrite <- Ht in Hc. split; [exact Hc | ].
  rewrite Hsum. clear Hsum.
  unfold run in Hrun. destruct candles as [|first rest]; [discriminate | ].
  destruct (last_opt (first :: rest)) as [lastCandle|]; [ | discriminate].
  change (Engine.candles (reset (first :: rest) e)) with (first :: rest) in Hrun.
  change (Engine.config (reset (first :: rest) e)) with (Engine.config e) in Hrun.
  set (s0 := Strategy.init strat (first :: rest) (Engine.config e) (Strategy.self strat)) in *.
  assert (curve_settled (fst (run_loop strat (length (first :: rest))
                                (reset (first :: rest) e) s0)) ∧
          Engine.equityCurve (fst (run_loop strat (length (first :: rest))
                                     (reset (first :: rest) e) s0)) ≠ []) as (Hs & Hne).
  { apply (run_loop_settled_first strat (length rest) _ s0 first). reflexivity. }
  pose proof (run_loop_config strat (length (first :: rest)) (reset (first :: rest) e) s0)
    as Hcfg.
  destruct (run_loop strat (length (first :: rest)) (reset (first :: rest) e) s0)
    as [e1 s1]. simpl in Hs, Hne, Hflat, Hcfg.
  rewrite Hflat in Hrun. injection Hrun as <- <- _.
  cbn [BacktestResult.metrics BacktestResult.trades] in *.
  rewrite calculateMetrics_totalReturnPercent
    by (rewrite (closed_all_completed _ Hc); exact Htrades).
  rewrite Hcfg. cbn [reset Engine.config].
  specialize (Hs Hflat Hne). unfold last_equity in Hs.
  destruct (last_opt (Engine.equityCurve e1)) as [p|] eqn:Hlast.
  - simpl in Hs. rewrite Hs. reflexivity.
  - exfalso. destruct (Engine.equityCurve e1) as [|p0 ps]; [congruence | ].
    destruct (last_opt_cons p0 ps) as (p & Hp). congruence.
Qed.

Variable config : MonteCarloConfig.

(** Where the final close has no part: for a backtest that ends with no
    position open, replayed against its own finite initial capital, the
    [totalReturn] of a single simulation is, at every percentile and in
    exact arithmetic, the [totalReturnPercent] of the backtest. *)
Lemma single_simulation_matches_flat_backtest (candles : list Candle) (strat : Strategy)
    (e : BacktestEngine) (r : BacktestResult) (e' : BacktestEngine) (strat' : Strategy)
    (g : Random.t) :
  run candles strat e = Some (r, e', strat') →
  is_finite (BacktestConfig.initialCapital (Engine.config e)) →
  Engine.position
    (fst (run_loop strat (length candles) (reset candles e)
            (Strategy.init strat candles (Engine.config e) (Strategy.self strat)))) = None →
  MonteCarloConfig.initialCapital config = BacktestConfig.initialCapital (Engine.config e) →
  MonteCarloConfig.simulations config = 1%nat →
  Random.in_range g →
  Forall
    (fun percentile : MonteCarloResult → MonteCarloPercentile =>
       num_eq (MonteCarloPercentile.totalReturn
                 (percentile (fst (simulate config (BacktestResult.metrics r)
                                     (BacktestResult.trades r) g))))
              (PerformanceMetrics.totalReturnPercent (BacktestResult.metrics r)))
    [MonteCarloResult.p5; MonteCarloResult.p25; MonteCarloResult.p50;
     MonteCarloResult.p75; MonteCarloResult.p95].
Proof.
  intros Hrun Hfin Hflat Hcap Hone Hrange.
  destruct (BacktestResult.trades r) as [|t ts] eqn:Htrades.
  - assert (BacktestResult.metrics r = getEmptyMetrics) as ->.
    { unfold run in Hrun. destruct candles as [|first rest]; [discriminate | ].
      destruct (last_opt (first :: rest)) as [lastCandle|]; [ | discriminate].
      destruct (run_loop strat _ _ _) as [e1 s1].
      injection Hrun as <- _ _. cbn [BacktestResult.metrics BacktestResult.trades] in *.
      unfold calculateMetrics. rewrite Htrades. reflexivity. }
    unfold simulate. simpl. repeat constructor.
  - rewrite <- Htrades.
    destruct (run_flat_totalReturnPercent candles strat e r e' strat' Hrun Hfin Hflat)
      as (Hc & Hpct); [rewrite Htrades; discriminate | ].
    pose proof (closed_all_completed _ Hc) as Hall.
    destruct (shuffle_preserves_return config (BacktestResult.metrics r)
                (BacktestResult.trades r) g Hrange) as (_ & _ & _ & _ & _ & Hsingle).
    eapply Forall_impl; [apply Hsingle | ].
    + exact Hone.
    + rewrite Hall, Htrades. discriminate.
    + rewrite Hcap. exact Hfin.
    + intros percentile Heq. simpl in Heq. rewrite Heq, Hpct, Hall.
      unfold percent_return. rewrite Hcap. reflexivity.
Qed.
End SingleSimulation.

(** C7.  The single simulation of a backtest that ends with a position
    open, at the input of C1.  One candle closing at 100, a strategy that
    buys on it, the default configuration: the one trade of the backtest
    is closed at the end of the data, after the last
    point of the equity curve, and has a profit of -2200020/100001 (about
    -22.00).  The shuffle of the one trade is the trade, and a single
    simulation against the same capital of 10000 reports, at every
    percentile, the [totalReturn] -2200020/100001 / 10000 * 100, about
    -0.22 percent.  The backtest reports the [totalReturnPercent]
    -100000/100001 / 10000 * 100, about -0.01 percent, read off its equity
    curve: the two differ. *)
Theorem single_simulation_misses_final_close :
  ∃ r e' strat',
    run (math := unevaluated) [candle_at 1 100 100 100 100] always_buy
      (new_BacktestEngine DEFAULT_BACKTEST_CONFIG) = Some (r, e', strat') ∧
    MonteCarloConfig.initialCapital single_simulation =
      BacktestConfig.initialCapital DEFAULT_BACKTEST_CONFIG ∧
    fst (shuffleTrades (BacktestResult.trades r) (constant_draws (1 # 2))) =
      BacktestResult.trades r ∧
    num_eq (sum_pnl (BacktestResult.trades r)) (Fin (-2200020 # 100001)) ∧
    num_eq (PerformanceMetrics.totalReturnPercent (BacktestResult.metrics r))
           (Fin (-100000 # 100001) / Fin 10000 * 100) ∧
    Forall
      (fun percentile : MonteCarloResult → MonteCarloPercentile =>
         num_eq (MonteCarloPercentile.totalReturn
                   (percentile (fst (simulate (math := unevaluated) single_simulation
                                       (BacktestResult.metrics r) (BacktestResult.trades r)
                                       (constant_draws (1 # 2))))))
                (Fin (-2200020 # 100001) / Fin 10000 * 100) ∧
         ¬ num_eq (MonteCarloPercentile.totalReturn
                     (percentile (fst (simulate (math := unevaluated) single_simulation
                                         (BacktestResult.metrics r) (BacktestResult.trades r)
                                         (constant_draws (1 # 2))))))
                  (PerformanceMetrics.totalReturnPercent (BacktestResult.metrics r)))
      [MonteCarloResult.p5; MonteCarloResult.p25; MonteCarloResult.p50;
       MonteCarloResult.p75; MonteCarloResult.p95].
Proof.
  eexists _, _, _. split; [reflexivity | ].
  split; [reflexivity | ].
  split; [reflexivity | ].
  split; [vm_compute; reflexivity | ].
  split; [vm_compute; reflexivity | ].
  repeat constructor; try (vm_compute; reflexivity); vm_compute; discriminate.
Qed.

(** The smallest backtest that ends flat: two candles closing at 100 and
    101, a strategy that buys on the first and closes on the second, no
    costs and 10000 of capital.  The backtest and the single simulation
    both report 1 percent. *)
Lemma single_simulation_matches_flat_backtest_example :
  ∃ r e' strat',
    run (math := unevaluated) rising_candles buy_then_close
      (new_BacktestEngine costless_config) = Some (r, e', strat') ∧
    num_eq (PerformanceMetrics.totalReturnPercent (BacktestResult.metrics r)) (Fin 1) ∧
    Forall
      (fun percentile : MonteCarloResult → MonteCarloPercentile =>
         num_eq (MonteCarloPercentile.totalReturn
                   (percentile (fst (simulate (math := unevaluated) single_simulation
                                       (BacktestResult.metrics r) (BacktestResult.trades r)
                                       (constant_draws (1 # 2))))))
                (PerformanceMetrics.totalReturnPercent (BacktestResult.metrics r)))
      [MonteCarloResult.p5; MonteCarloResult.p25; MonteCarloResult.p50;
       MonteCarloResult.p75; MonteCarloResult.p95].
Proof.
  destruct (run (math := unevaluated) rising_candles buy_then_close
              (new_BacktestEngine costless_config)) as [[[r e'] strat']|] eqn:Hrun;
    [ | vm_compute in Hrun; discriminate].
  exists r, e', strat'. split; [reflexivity | ].
  split.
  - vm_compute in Hrun. injection Hrun as <- _ _. vm_compute. reflexivity.
  - apply (single_simulation_matches_flat_backtest (math := unevaluated) single_simulation
             rising_candles buy_then_close (new_BacktestEngine costless_config) r e' strat'
             (constant_draws (1 # 2)) Hrun).
    + exact I.
    + reflexivity.
    + reflexivity.
    + reflexivity.
    + intros k. simpl. split; [discriminate | reflexivity].
Qed.
